(** * go-bencode: the scanner, the field resolver, the decode binder and the
    streaming decoder, embedded from the Go sources and verified against the
    specification's claims. *)

From Stdlib Require Import ZArith List Bool Lia String Ascii.
From Stdlib Require Import Strings.Byte.
From Stdlib Require Import Sorting.Permutation Sorting.Sorted.
Import ListNotations.
Open Scope Z_scope.

Set Implicit Arguments.
Set Warnings "-register-all".

(** ** Bytes and Go integers *)

(** A Go [[]byte] literal written as a string. *)
Definition bytes_of (s : string) : list byte := list_byte_of_string s.

Definition byte_le (a b : byte) : bool := N.leb (Byte.to_N a) (Byte.to_N b).

(** ['lo' <= c && c <= 'hi'] *)
Definition byte_in (lo hi c : byte) : bool := byte_le lo c && byte_le c hi.

(** The digit value [c - '0']. *)
Definition digit_val (c : byte) : Z := Z.of_N (Byte.to_N c) - 48.

(** Wrap-around of Go's fixed-width integers. *)
Definition wrap_uint64 (z : Z) : Z := z mod 2 ^ 64.
Definition wrap_int64 (z : Z) : Z := (z + 2 ^ 63) mod 2 ^ 64 - 2 ^ 63.

(** ** Results of code that may panic *)

(** [OutOfFuel] is the model's own: a loop of the source that is given a
    bound here ran past it. *)
Inductive result (A : Type) : Type :=
| Ok (a : A)
| Panic (msg : string)
| OutOfFuel.
Arguments Ok {A} a.
Arguments Panic {A} msg.
Arguments OutOfFuel {A}.

Definition bind {A B} (r : result A) (k : A -> result B) : result B :=
  match r with
  | Ok a => k a
  | Panic m => Panic m
  | OutOfFuel => OutOfFuel
  end.

Notation "x <- r ;; k" := (bind r (fun x => k))
  (at level 61, r at next level, right associativity).
Notation "' pat <- r ;; k" := (bind r (fun x => match x with pat => k end))
  (at level 61, pat pattern, r at next level, right associativity).

Definition phasePanicMsg : string :=
  "Bencode decoder out of sync - data changing underfoot?".

(** Go's run-time panics, by what raised them. *)
Definition indexPanic : string := "runtime error: index out of range".
Definition slicePanic : string := "runtime error: slice bounds out of range".
Definition nilFuncPanic : string := "runtime error: invalid memory address or nil pointer dereference".

(** ** strconv.ParseUint(s, 10, 64) *)

Inductive numErr : Type := ErrSyntax | ErrRange.

(** The digit loop of [strconv.ParseUint] in base 10 at 64 bits: a byte that
    is no decimal digit is a syntax error, a value past [2^64 - 1] a range
    error, whichever the loop meets first. *)
Fixpoint parseUint_digits (n : Z) (s : list byte) : numErr + Z :=
  match s with
  | [] => inr n
  | c :: s' =>
      if byte_in "0" "9" c then
        let n1 := n * 10 + digit_val c in
        if 2 ^ 64 <=? n1 then inl ErrRange else parseUint_digits n1 s'
      else inl ErrSyntax
  end.

Definition ParseUint (s : list byte) : numErr + Z :=
  match s with
  | [] => inl ErrSyntax
  | _ => parseUint_digits 0 s
  end.

(** ** Scanner (scanner.go) *)

Inductive opcode : Type :=
| scanContinue
| scanBeginDictionary
| scanEndDictionary
| scanBeginList
| scanEndList
| scanBeginInteger
| scanInteger
| scanEndInteger
| scanBeginString
| scanString
| scanEnd
| scanError.

Definition opcode_eqb (a b : opcode) : bool :=
  match a, b with
  | scanContinue, scanContinue | scanBeginDictionary, scanBeginDictionary
  | scanEndDictionary, scanEndDictionary | scanBeginList, scanBeginList
  | scanEndList, scanEndList | scanBeginInteger, scanBeginInteger
  | scanInteger, scanInteger | scanEndInteger, scanEndInteger
  | scanBeginString, scanBeginString | scanString, scanString
  | scanEnd, scanEnd | scanError, scanError => true
  | _, _ => false
  end.

Inductive parseFrame : Type :=
| parseDictionaryKey
| parseDictionaryValue
| parseListValue
| parseInteger
| parseStringLength
| parseString.

(** The scanner's [step] field holds one of the package's transition
    functions; [step_nil] is the zero value of the field. *)
Inductive stepFn : Type :=
| step_nil
| step_sv | step_sd | step_ssl0 | step_ssl | step_ssf | step_ss | step_se
| step_sl | step_si | step_sin | step_si0 | step_sil
| step_stateEndTop | step_stateError.

(** The message of a [SyntaxError], kept as the parts it is built from:
    ["invalid character " + quoteChar(c) + " " + context], the end-of-input
    message, and the streaming decoder's message. *)
Inductive syntaxMsg : Type :=
| InvalidCharacter (c : byte) (context : string)
| UnexpectedEndOfInput
| NotAtBeginningOfValue.

(** The errors a scanner can hold in [err]: a [*SyntaxError] or the
    [*strconv.NumError] of [ParseUint]. *)
Inductive scanErr : Type :=
| SyntaxError (msg : syntaxMsg) (Offset : Z)
| NumError (num : list byte) (e : numErr).

(** [parseState] is kept with the top of the stack (the slice's last element)
    at the head of the list.  The field [string] of the source, the count of
    string-body bytes still to come, is [string_] here. *)
Record scanner : Type := mkScanner {
  step : stepFn;
  parseState : list parseFrame;
  endTop : bool;
  err : option scanErr;
  bytes : Z;
  string_ : Z;
  digits : list byte
}.

(** [scanner{}] *)
Definition zero_scanner : scanner :=
  mkScanner step_nil [] false None 0 0 [].

Definition set_step (s : scanner) (f : stepFn) : scanner :=
  mkScanner f (parseState s) (endTop s) (err s) (bytes s) (string_ s) (digits s).
Definition set_parseState (s : scanner) (ps : list parseFrame) : scanner :=
  mkScanner (step s) ps (endTop s) (err s) (bytes s) (string_ s) (digits s).
Definition set_endTop (s : scanner) (b : bool) : scanner :=
  mkScanner (step s) (parseState s) b (err s) (bytes s) (string_ s) (digits s).
Definition set_err (s : scanner) (e : option scanErr) : scanner :=
  mkScanner (step s) (parseState s) (endTop s) e (bytes s) (string_ s) (digits s).
Definition set_bytes (s : scanner) (n : Z) : scanner :=
  mkScanner (step s) (parseState s) (endTop s) (err s) n (string_ s) (digits s).
Definition set_string (s : scanner) (n : Z) : scanner :=
  mkScanner (step s) (parseState s) (endTop s) (err s) (bytes s) n (digits s).
Definition set_digits (s : scanner) (d : list byte) : scanner :=
  mkScanner (step s) (parseState s) (endTop s) (err s) (bytes s) (string_ s) d.

Definition reset (s : scanner) : scanner :=
  let s := set_step s step_sv in
  let s := set_parseState s [] in
  let s := set_err s None in
  let s := set_endTop s false in
  set_digits s [].

(** [s.error(c, context)] *)
Definition scan_error (s : scanner) (c : byte) (context : string) : scanner * opcode :=
  let s := set_step s step_stateError in
  let s := set_err s (Some (SyntaxError (InvalidCharacter c context) (bytes s))) in
  (s, scanError).

Definition stateError (s : scanner) (c : byte) : scanner * opcode := (s, scanError).

Definition eof (s : scanner) : scanner * opcode :=
  match err s with
  | Some _ => (s, scanError)
  | None =>
      if endTop s then (s, scanEnd)
      else (set_err s (Some (SyntaxError UnexpectedEndOfInput (bytes s))), scanError)
  end.

Definition pushParseState (s : scanner) (p : parseFrame) : scanner :=
  set_parseState s (p :: parseState s).

(** [n := len(s.parseState) - 1; s.parseState = s.parseState[0:n]] panics on
    an empty stack. *)
Definition popParseState (s : scanner) : result scanner :=
  match parseState s with
  | [] => Panic slicePanic
  | _ :: rest =>
      let s := set_parseState s rest in
      match rest with
      | [] => Ok (set_endTop (set_step s step_stateEndTop) true)
      | _ => Ok (set_step s step_se)
      end
  end.

Definition stateEndTop (s : scanner) (c : byte) : scanner * opcode := (s, scanEnd).

(** The shared tail of [sv] and [sd]: a string length begins. *)
Definition begin_string (s : scanner) (next : stepFn) (c : byte) : scanner * opcode :=
  let s := set_step s next in
  let s := pushParseState s parseStringLength in
  let s := set_digits s (digits s ++ [c]) in
  (s, scanBeginString).

Definition sv (s : scanner) (c : byte) : result (scanner * opcode) :=
  if Byte.eqb c "d" then
    Ok (pushParseState (set_step s step_sd) parseDictionaryKey, scanBeginDictionary)
  else if Byte.eqb c "l" then
    Ok (pushParseState (set_step s step_sl) parseListValue, scanBeginList)
  else if Byte.eqb c "i" then
    Ok (pushParseState (set_step s step_si) parseInteger, scanBeginInteger)
  else if Byte.eqb c "0" then Ok (begin_string s step_ssl0 c)
  else if byte_in "1" "9" c then Ok (begin_string s step_ssl c)
  else Ok (scan_error s c "looking for value").

Definition sd (s : scanner) (c : byte) : result (scanner * opcode) :=
  if Byte.eqb c "e" then
    s' <- popParseState s;; Ok (s', scanEndDictionary)
  else if Byte.eqb c "0" then Ok (begin_string s step_ssl0 c)
  else if byte_in "1" "9" c then Ok (begin_string s step_ssl c)
  else Ok (scan_error s c "looking for string length").

(** [s.parseState[len(s.parseState)-1] = p] *)
Definition set_top (s : scanner) (p : parseFrame) : result scanner :=
  match parseState s with
  | [] => Panic indexPanic
  | _ :: rest => Ok (set_parseState s (p :: rest))
  end.

Definition ssle (s : scanner) (c : byte) : result (scanner * opcode) :=
  if string_ s =? 0 then
    let num := digits s in
    let s := set_digits s [] in
    match ParseUint num with
    | inl e =>
        let s := set_err s (Some (NumError num e)) in
        Ok (set_step s step_stateError, scanError)
    | inr n =>
        let s := set_string s n in
        s <- set_top s parseString;;
        let s := set_step s step_ssf in
        if n =? 0 then
          s <- popParseState s;; Ok (s, scanString)
        else Ok (s, scanContinue)
    end
  else Panic phasePanicMsg.

Definition ssl0 (s : scanner) (c : byte) : result (scanner * opcode) :=
  if Byte.eqb c ":" then ssle s c
  else Ok (scan_error s c "looking for string length delimiter").

Definition ssl (s : scanner) (c : byte) : result (scanner * opcode) :=
  if Byte.eqb c ":" then ssle s c
  else if byte_in "0" "9" c then Ok (set_digits s (digits s ++ [c]), scanContinue)
  else Ok (scan_error s c "looking for string length digit").

Definition ssf (s : scanner) (c : byte) : result (scanner * opcode) :=
  let s := set_string s (wrap_uint64 (string_ s - 1)) in
  if string_ s =? 0 then
    s <- popParseState s;; Ok (s, scanString)
  else Ok (set_step s step_ss, scanString).

Definition ss (s : scanner) (c : byte) : result (scanner * opcode) :=
  let s := set_string s (wrap_uint64 (string_ s - 1)) in
  if string_ s =? 0 then
    s <- popParseState s;; Ok (s, scanContinue)
  else Ok (s, scanContinue).

Definition sl (s : scanner) (c : byte) : result (scanner * opcode) :=
  if Byte.eqb c "e" then
    s' <- popParseState s;; Ok (s', scanEndList)
  else sv s c.

Definition se (s : scanner) (c : byte) : result (scanner * opcode) :=
  match parseState s with
  | [] => Ok (set_endTop (set_step s step_stateEndTop) true, scanEnd)
  | ps :: rest =>
      match ps with
      | parseString => Panic phasePanicMsg
      | parseDictionaryKey => sv (set_parseState s (parseDictionaryValue :: rest)) c
      | parseDictionaryValue => sd (set_parseState s (parseDictionaryKey :: rest)) c
      | parseListValue => sl s c
      | _ => Ok (scan_error s c "DNE")
      end
  end.

Definition si (s : scanner) (c : byte) : result (scanner * opcode) :=
  if Byte.eqb c "-" then Ok (set_step s step_sin, scanInteger)
  else if Byte.eqb c "0" then Ok (set_step s step_si0, scanInteger)
  else if byte_in "1" "9" c then Ok (set_step s step_sil, scanInteger)
  else Ok (scan_error s c "looking for integer").

Definition sin (s : scanner) (c : byte) : result (scanner * opcode) :=
  if Byte.eqb c "0" then Ok (scan_error s c "negative zero not allowed")
  else if byte_in "1" "9" c then Ok (set_step s step_sil, scanContinue)
  else Ok (scan_error s c "looking for integer").

Definition si0 (s : scanner) (c : byte) : result (scanner * opcode) :=
  if Byte.eqb c "e" then
    s' <- popParseState s;; Ok (s', scanEndInteger)
  else Ok (scan_error s c "leading zeroes not allowed").

Definition sil (s : scanner) (c : byte) : result (scanner * opcode) :=
  if Byte.eqb c "e" then
    s' <- popParseState s;; Ok (s', scanEndInteger)
  else if byte_in "0" "9" c then Ok (s, scanContinue)
  else Ok (scan_error s c "looking for integer").

(** [s.step(s, c)]: the call through the function held in [step]. *)
Definition scan_step (s : scanner) (c : byte) : result (scanner * opcode) :=
  match step s with
  | step_nil => Panic nilFuncPanic
  | step_sv => sv s c
  | step_sd => sd s c
  | step_ssl0 => ssl0 s c
  | step_ssl => ssl s c
  | step_ssf => ssf s c
  | step_ss => ss s c
  | step_se => se s c
  | step_sl => sl s c
  | step_si => si s c
  | step_sin => sin s c
  | step_si0 => si0 s c
  | step_sil => sil s c
  | step_stateEndTop => Ok (stateEndTop s c)
  | step_stateError => Ok (stateError s c)
  end.

(** The loop of [checkValid] over the bytes of [data]. *)
Fixpoint checkValid_loop (data : list byte) (scan : scanner)
  : result (scanner * option scanErr) :=
  match data with
  | [] =>
      let '(scan, op) := eof scan in
      if opcode_eqb op scanError then Ok (scan, err scan) else Ok (scan, None)
  | c :: rest =>
      let scan := set_bytes scan (wrap_int64 (bytes scan + 1)) in
      '(scan, op) <- scan_step scan c;;
      if opcode_eqb op scanError then Ok (scan, err scan)
      else checkValid_loop rest scan
  end.

(** [checkValid(data, scan)]: the scanner as the call leaves it, and the
    error returned. *)
Definition checkValid (data : list byte) (scan : scanner)
  : result (scanner * option scanErr) :=
  checkValid_loop data (reset scan).

Definition Valid (data : list byte) : result bool :=
  '(_, e) <- checkValid data zero_scanner;;
  Ok (match e with None => true | Some _ => false end).


(** ** Go types and values, as reflection shows them to the package *)

Module reflect.

Inductive Kind : Type :=
| Invalid
| Bool
| Int | Int8 | Int16 | Int32 | Int64
| Uint | Uint8 | Uint16 | Uint32 | Uint64 | Uintptr
| Float32 | Float64
| Complex64 | Complex128
| Array | Chan | Func | Interface | Map | Ptr | Slice | String | Struct
| UnsafePointer.

Definition Kind_eqb (a b : Kind) : bool :=
  match a, b with
  | Invalid, Invalid | Bool, Bool | Int, Int | Int8, Int8 | Int16, Int16
  | Int32, Int32 | Int64, Int64 | Uint, Uint | Uint8, Uint8 | Uint16, Uint16
  | Uint32, Uint32 | Uint64, Uint64 | Uintptr, Uintptr | Float32, Float32
  | Float64, Float64 | Complex64, Complex64 | Complex128, Complex128
  | Array, Array | Chan, Chan | Func, Func | Interface, Interface | Map, Map
  | Ptr, Ptr | Slice, Slice | String, String | Struct, Struct
  | UnsafePointer, UnsafePointer => true
  | _, _ => false
  end.

End reflect.

(** [reflect.StructField]: [sfPkgPath] is empty for an exported field, and
    [sfTag] is the field's tag under the key [bencode]
    ([sf.Tag.Get("bencode")]). *)
Record StructField (T : Type) : Type := mkStructField {
  sfName : string;
  sfPkgPath : string;
  sfType : T;
  sfTag : string;
  sfAnonymous : bool
}.
Arguments mkStructField {T}.
Arguments sfName {T}.
Arguments sfPkgPath {T}.
Arguments sfType {T}.
Arguments sfTag {T}.
Arguments sfAnonymous {T}.

(** [reflect.Type].  The basic kinds stand for the predeclared types; a
    struct type carries its declared name (empty for a struct literal);
    pointer, slice, array, map and interface types are the unnamed ones. *)
Inductive gotype : Type :=
| TBasic (k : reflect.Kind)
| TArray (n : nat) (elem : gotype)
| TSlice (elem : gotype)
| TMap (key elem : gotype)
| TPtr (elem : gotype)
| TInterface (numMethod : nat)
| TStruct (name : string) (fields : list (StructField gotype)).

Definition type_Kind (t : gotype) : reflect.Kind :=
  match t with
  | TBasic k => k
  | TArray _ _ => reflect.Array
  | TSlice _ => reflect.Slice
  | TMap _ _ => reflect.Map
  | TPtr _ => reflect.Ptr
  | TInterface _ => reflect.Interface
  | TStruct _ _ => reflect.Struct
  end.

(** [t.Name()] where the package asks for it: the declared name of a struct
    type, and the empty name of a pointer type, the pointer types of the
    model being the unnamed ones (a defined pointer type, [type P *S], is not
    among them). *)
Definition type_Name (t : gotype) : string :=
  match t with
  | TStruct name _ => name
  | _ => ""
  end.

Fixpoint gotype_eqb (a b : gotype) {struct a} : bool :=
  match a, b with
  | TBasic k, TBasic k' => reflect.Kind_eqb k k'
  | TArray n e, TArray n' e' => Nat.eqb n n' && gotype_eqb e e'
  | TSlice e, TSlice e' => gotype_eqb e e'
  | TMap k e, TMap k' e' => gotype_eqb k k' && gotype_eqb e e'
  | TPtr e, TPtr e' => gotype_eqb e e'
  | TInterface n, TInterface n' => Nat.eqb n n'
  | TStruct name fs, TStruct name' fs' =>
      String.eqb name name' &&
      (fix fields_eqb (l l' : list (StructField gotype)) {struct l} : bool :=
         match l, l' with
         | [], [] => true
         | f :: r, f' :: r' =>
             String.eqb (sfName f) (sfName f') &&
             String.eqb (sfPkgPath f) (sfPkgPath f') &&
             gotype_eqb (sfType f) (sfType f') &&
             String.eqb (sfTag f) (sfTag f') &&
             Bool.eqb (sfAnonymous f) (sfAnonymous f') &&
             fields_eqb r r'
         | _, _ => false
         end) fs fs'
  | _, _ => false
  end.

(** A floating-point number is kept as the decimal text [strconv.ParseFloat]
    turned into it and the bit size asked for; the rounding is not modelled. *)
Inductive gofloat : Type :=
| FloatOfDecimal (text : list byte) (bitSize : nat).

(** A Go value as the binder reaches it through [reflect.Value].  A slice is
    its length and its backing array from the slice's first element to its
    capacity; a map with string keys is nil or its entries; a pointer is nil
    or owns its pointee; an interface is nil or holds its dynamic value.
    [VOpaque] stands for the values of the kinds the binder stores nothing
    into (complex numbers, channels, functions, maps keyed by something other
    than a string). *)
Inductive goval : Type :=
| VBool (b : bool)
| VInt (k : reflect.Kind) (n : Z)
| VUint (k : reflect.Kind) (n : Z)
| VFloat (k : reflect.Kind) (f : gofloat)
| VString (s : list byte)
| VArray (elem : gotype) (elems : list goval)
| VSlice (elem : gotype) (len : nat) (arr : list goval)
| VMap (key elem : gotype) (m : option (list (list byte * goval)))
| VPtr (elem : gotype) (p : option goval)
| VIface (numMethod : nat) (dyn : option goval)
| VStruct (name : string) (sfs : list (StructField gotype)) (vals : list goval)
| VOpaque (t : gotype).

(** [v.Type()] *)
Definition typeOf (v : goval) : gotype :=
  match v with
  | VBool _ => TBasic reflect.Bool
  | VInt k _ => TBasic k
  | VUint k _ => TBasic k
  | VFloat k _ => TBasic k
  | VString _ => TBasic reflect.String
  | VArray e l => TArray (List.length l) e
  | VSlice e _ _ => TSlice e
  | VMap k e _ => TMap k e
  | VPtr e _ => TPtr e
  | VIface n _ => TInterface n
  | VStruct name sfs _ => TStruct name sfs
  | VOpaque t => t
  end.

(** [v.Kind()] *)
Definition kindOf (v : goval) : reflect.Kind := type_Kind (typeOf v).

Definition float_bits (k : reflect.Kind) : nat :=
  match k with
  | reflect.Float32 => 32%nat
  | _ => 64%nat
  end.

(** [reflect.Zero(t)] *)
Fixpoint zero (t : gotype) : goval :=
  match t with
  | TBasic k =>
      match k with
      | reflect.Bool => VBool false
      | reflect.Int | reflect.Int8 | reflect.Int16 | reflect.Int32 | reflect.Int64 =>
          VInt k 0
      | reflect.Uint | reflect.Uint8 | reflect.Uint16 | reflect.Uint32
      | reflect.Uint64 | reflect.Uintptr => VUint k 0
      | reflect.Float32 | reflect.Float64 =>
          VFloat k (FloatOfDecimal (bytes_of "0") (float_bits k))
      | reflect.String => VString []
      | _ => VOpaque t
      end
  | TArray n e => VArray e (repeat (zero e) n)
  | TSlice e => VSlice e 0 []
  | TMap k e =>
      match type_Kind k with
      | reflect.String => VMap k e None
      | _ => VOpaque t
      end
  | TPtr e => VPtr e None
  | TInterface n => VIface n None
  | TStruct name sfs => VStruct name sfs (map (fun sf => zero (sfType sf)) sfs)
  end.

(** ** Errors *)

(** The error values of the package: the scanner's errors, the binder's
    [*UnmarshalTypeError] and [*InvalidUnmarshalError], the three messages
    built with [fmt.Errorf], [base64.CorruptInputError], the two [io] errors,
    and whatever else a byte source returns. *)
Inductive error : Type :=
| ScanError (e : scanErr)
| UnmarshalTypeError (Value : string) (Type_ : gotype) (Offset : Z)
    (Struct Field : string)
| InvalidUnmarshalError (Type_ : option gotype)
| InvalidStringTagError (item : list byte) (t : gotype)
| UnknownFieldError (key : list byte)
| EmbeddedPointerError (t : gotype)
| CorruptInputError (offset : Z)
| io_EOF
| io_ErrUnexpectedEOF
| ReadError (msg : string).

(** ** What the package takes from outside these sources *)

(** Functions of the package's other files ([parseTag] and
    [tagOptions.Contains] of the tag parser, [foldFunc] of the case folder)
    and of the standard library ([unicode.IsLetter] and [unicode.IsDigit],
    on code points, [strconv.ParseFloat], which fails or not,
    [reflect.Value.OverflowFloat], [base64.StdEncoding.Decode], which returns
    the bytes it wrote and its error). *)
Class Externals : Type := {
  parseTag : string -> string * string;
  tagContains : string -> string -> bool;
  foldFunc : list byte -> list byte -> list byte -> bool;
  IsLetter : N -> bool;
  IsDigit : N -> bool;
  ParseFloat_ok : list byte -> nat -> bool;
  OverflowFloat : reflect.Kind -> gofloat -> bool;
  base64_Decode : list byte -> list byte * option Z
}.

(** ** Field resolver (encode.go) *)

(** The runes of a string, as [for _, c := range s] yields them: the code
    points its bytes encode in UTF-8, and [U+FFFD], one byte on, where the
    bytes are not the encoding of a code point. *)
Definition RuneError : N := 65533%N.

Definition between (lo hi c : N) : bool := N.leb lo c && N.leb c hi.

(** What the first byte of an encoding of more than one byte says: how many
    bytes the encoding has, the range of its second byte, and the bits of
    the code point the first byte holds. *)
Definition utf8_first (b0 : N) : option (nat * N * N * N) :=
  if between 194%N 223%N b0 then Some (2%nat, 128%N, 191%N, N.land b0 31%N)
  else if N.eqb b0 224%N then Some (3%nat, 160%N, 191%N, N.land b0 15%N)
  else if between 225%N 236%N b0 then Some (3%nat, 128%N, 191%N, N.land b0 15%N)
  else if N.eqb b0 237%N then Some (3%nat, 128%N, 159%N, N.land b0 15%N)
  else if between 238%N 239%N b0 then Some (3%nat, 128%N, 191%N, N.land b0 15%N)
  else if N.eqb b0 240%N then Some (4%nat, 144%N, 191%N, N.land b0 7%N)
  else if between 241%N 243%N b0 then Some (4%nat, 128%N, 191%N, N.land b0 7%N)
  else if N.eqb b0 244%N then Some (4%nat, 128%N, 143%N, N.land b0 7%N)
  else None.

(** A continuation byte appended to the bits gathered so far. *)
Definition utf8_more (r b : N) : N := N.lor (N.shiftl r 6%N) (N.land b 63%N).

Fixpoint decode_runes (s : list N) : list N :=
  match s with
  | [] => []
  | b0 :: t0 =>
      if N.ltb b0 128%N then b0 :: decode_runes t0
      else
        match utf8_first b0, t0 with
        | Some (size, lo, hi, r0), b1 :: t1 =>
            if negb (between lo hi b1) then RuneError :: decode_runes t0
            else
              let r1 := utf8_more r0 b1 in
              match size, t1 with
              | 2%nat, _ => r1 :: decode_runes t1
              | _, b2 :: t2 =>
                  if negb (between 128%N 191%N b2) then RuneError :: decode_runes t0
                  else
                    let r2 := utf8_more r1 b2 in
                    match size, t2 with
                    | 3%nat, _ => r2 :: decode_runes t2
                    | _, b3 :: t3 =>
                        if negb (between 128%N 191%N b3) then RuneError :: decode_runes t0
                        else utf8_more r2 b3 :: decode_runes t3
                    | _, [] => RuneError :: decode_runes t0
                    end
              | _, [] => RuneError :: decode_runes t0
              end
        | _, _ => RuneError :: decode_runes t0
        end
  end.

Definition runes (s : string) : list N :=
  decode_runes (map N_of_ascii (list_ascii_of_string s)).

(** [strings.ContainsRune(s, c)] *)
Definition ContainsRune (s : string) (c : N) : bool :=
  existsb (N.eqb c) (runes s).

Definition isValidTag {X : Externals} (s : string) : bool :=
  if String.eqb s "" then false
  else
    forallb
      (fun c =>
         if ContainsRune "!#$%&()*+-./:<=>?@[]^_{|}~ " c then true
         else negb (negb (IsLetter c) && negb (IsDigit c)))
      (runes s).

(** The [encoder] field of the source holds a function that does nothing and
    is left out. *)
Record field : Type := mkField {
  name : string;
  nameBytes : list byte;
  equalFold : list byte -> list byte -> bool;
  nameNonEsc : string;
  tag : bool;
  index : list nat;
  typ : gotype;
  omitEmpty : bool;
  quoted : bool
}.

(** [field{}] and [field{name: n, index: i, typ: t}] *)
Definition zero_field : field :=
  mkField "" [] (fun _ _ => false) "" false [] (TBasic reflect.Invalid) false false.
Definition level_field (n : string) (i : list nat) (t : gotype) : field :=
  mkField n [] (fun _ _ => false) "" false i t false false.

(** [byIndex.Less] on the index paths of two fields. *)
Fixpoint index_less (a b : list nat) : bool :=
  match a, b with
  | [], [] => false
  | [], _ :: _ => true
  | _ :: _, [] => false
  | x :: a', y :: b' => if Nat.eqb x y then index_less a' b' else Nat.ltb x y
  end.

Definition byIndex_Less (x y : field) : bool := index_less (index x) (index y).

(** The comparison [typeFields] sorts the candidates by: name, then depth,
    then annotated before not annotated, then index path. *)
Definition byName_less (x y : field) : bool :=
  if negb (String.eqb (name x) (name y)) then String.ltb (name x) (name y)
  else if negb (Nat.eqb (List.length (index x)) (List.length (index y))) then
    Nat.ltb (List.length (index x)) (List.length (index y))
  else if negb (Bool.eqb (tag x) (tag y)) then tag x
  else byIndex_Less x y.

(** [sort.Slice] and [sort.Sort], as an insertion sort: fields that neither
    comparison orders have the same name, depth, annotation and index path,
    so every sorting algorithm returns the same list. *)
Fixpoint sort_insert (less : field -> field -> bool) (x : field) (l : list field)
  : list field :=
  match l with
  | [] => [x]
  | y :: l' => if less x y then x :: y :: l' else y :: sort_insert less x l'
  end.

Definition sort_fields (less : field -> field -> bool) (l : list field) : list field :=
  fold_right (sort_insert less) [] l.

Definition dominantField (fields : list field) : result (field * bool) :=
  match fields with
  | [] => Panic indexPanic
  | f0 :: rest =>
      match rest with
      | f1 :: _ =>
          if Nat.eqb (List.length (index f0)) (List.length (index f1))
             && Bool.eqb (tag f0) (tag f1)
          then Ok (zero_field, false)
          else Ok (f0, true)
      | [] => Ok (f0, true)
      end
  end.

(** The inner loop of the collapse: [advance] past the fields after
    [fields[i]] that have its name. *)
Fixpoint advance_of (n : string) (rest : list field) : nat :=
  match rest with
  | fj :: rest' => if String.eqb (name fj) n then S (advance_of n rest') else 1%nat
  | [] => 1%nat
  end.

(** The collapse loop of [typeFields], on [fields[i:]] and [out]; it makes at
    most one turn per field. *)
Fixpoint collapse_loop (fuel : nat) (fields out : list field) : result (list field) :=
  match fuel with
  | O => match fields with [] => Ok out | _ => OutOfFuel end
  | S fuel' =>
      match fields with
      | [] => Ok out
      | fi :: rest =>
          let advance := advance_of (name fi) rest in
          if Nat.eqb advance 1 then
            collapse_loop fuel' (skipn advance fields) (out ++ [fi])
          else
            '(dominant, ok) <- dominantField (firstn advance fields);;
            collapse_loop fuel' (skipn advance fields)
              (if ok then out ++ [dominant] else out)
      end
  end.

(** Everything of [typeFields] after the traversal: sort by name, collapse
    the runs of equal names, sort by index path. *)
Definition resolve_fields (fields : list field) : result (list field) :=
  let fields := sort_fields byName_less fields in
  out <- collapse_loop (List.length fields) fields [];;
  Ok (sort_fields byIndex_Less out).

(** A map keyed by [reflect.Type], as its entries. *)
Fixpoint type_count (m : list (gotype * nat)) (t : gotype) : nat :=
  match m with
  | [] => O
  | (t', n) :: m' => if gotype_eqb t' t then n else type_count m' t
  end.

Fixpoint type_incr (m : list (gotype * nat)) (t : gotype) : list (gotype * nat) :=
  match m with
  | [] => [(t, 1%nat)]
  | (t', n) :: m' =>
      if gotype_eqb t' t then (t', S n) :: m' else (t', n) :: type_incr m' t
  end.

(** The struct fields of a type: [f.typ.NumField()] and [f.typ.Field(i)]
    panic on anything but a struct. *)
Definition struct_fields (t : gotype) : result (list (StructField gotype)) :=
  match t with
  | TStruct _ sfs => Ok sfs
  | _ => Panic "reflect: NumField of non-struct type"
  end.

(** [t.Elem()] of a pointer type. *)
Definition ptr_Elem (t : gotype) : gotype :=
  match t with
  | TPtr e => e
  | _ => t
  end.

Section FieldResolver.

Context {X : Externals}.

(** The traversal's state while it walks one level: the fields gathered, the
    types queued for the next level, and how often each was met. *)
Record walk : Type := mkWalk {
  w_fields : list field;
  w_next : list field;
  w_nextCount : list (gotype * nat)
}.

(** One turn of the loop over the fields of [f.typ]: the field [sf] at
    position [i]. *)
Definition visit_field (f : field) (count_ftyp : nat) (i : nat)
  (sf : StructField gotype) (w : walk) : walk :=
  let isUnexported := negb (String.eqb (sfPkgPath sf) "") in
  let skipped :=
    if sfAnonymous sf then
      let t := sfType sf in
      let t := if reflect.Kind_eqb (type_Kind t) reflect.Ptr then ptr_Elem t else t in
      isUnexported && negb (reflect.Kind_eqb (type_Kind t) reflect.Struct)
    else isUnexported in
  if skipped then w
  else if String.eqb (sfTag sf) "-" then w
  else
    let '(nm, opts) := parseTag (sfTag sf) in
    let nm := if isValidTag nm then nm else ""%string in
    let idx := index f ++ [i] in
    let ft := sfType sf in
    let ft :=
      if String.eqb (type_Name ft) "" && reflect.Kind_eqb (type_Kind ft) reflect.Ptr
      then ptr_Elem ft else ft in
    let quoted := false in
    if negb (String.eqb nm "") || negb (sfAnonymous sf)
       || negb (reflect.Kind_eqb (type_Kind ft) reflect.Struct)
    then
      let tagged := negb (String.eqb nm "") in
      let nm := if String.eqb nm "" then sfName sf else nm in
      let fld :=
        mkField nm (bytes_of nm) (foldFunc (bytes_of nm))
          (String (ascii_of_nat 34) (String.append nm (String (ascii_of_nat 34) ":")))
          tagged idx ft (tagContains opts "omitempty") quoted in
      let fields := w_fields w ++ [fld] in
      let fields := if Nat.ltb 1 count_ftyp then fields ++ [fld] else fields in
      mkWalk fields (w_next w) (w_nextCount w)
    else
      let nextCount := type_incr (w_nextCount w) ft in
      let next :=
        if Nat.eqb (type_count nextCount ft) 1
        then w_next w ++ [level_field (type_Name ft) idx ft] else w_next w in
      mkWalk (w_fields w) next nextCount.

(** The loop [for i := 0; i < f.typ.NumField(); i++]. *)
Fixpoint visit_fields (f : field) (count_ftyp : nat) (i : nat)
  (sfs : list (StructField gotype)) (w : walk) : walk :=
  match sfs with
  | [] => w
  | sf :: sfs' => visit_fields f count_ftyp (S i) sfs' (visit_field f count_ftyp i sf w)
  end.

(** The loop over [current], with the set [visited]. *)
Fixpoint visit_level (current : list field) (count : list (gotype * nat))
  (visited : list gotype) (w : walk) : result (list gotype * walk) :=
  match current with
  | [] => Ok (visited, w)
  | f :: current' =>
      if existsb (gotype_eqb (typ f)) visited then visit_level current' count visited w
      else
        sfs <- struct_fields (typ f);;
        visit_level current' count (typ f :: visited)
          (visit_fields f (type_count count (typ f)) 0 sfs w)
  end.

(** The loop [for len(next) > 0], one turn per level of embedding. *)
Fixpoint walk_levels (fuel : nat) (next : list field) (nextCount : list (gotype * nat))
  (visited : list gotype) (fields : list field) : result (list field) :=
  match next with
  | [] => Ok fields
  | _ =>
      match fuel with
      | O => OutOfFuel
      | S fuel' =>
          '(visited, w) <- visit_level next nextCount visited (mkWalk fields [] []);;
          walk_levels fuel' (w_next w) (w_nextCount w) visited (w_fields w)
      end
  end.

(** The levels of embedding a type can have: the nesting of its struct
    types. *)
Fixpoint type_depth (t : gotype) : nat :=
  match t with
  | TBasic _ | TInterface _ => O
  | TArray _ e | TSlice e | TPtr e => type_depth e
  | TMap k e => Nat.max (type_depth k) (type_depth e)
  | TStruct _ sfs => S (fold_right (fun sf d => Nat.max (type_depth (sfType sf)) d) O sfs)
  end.

(** The fields the traversal gathers, before conflicts are resolved. *)
Definition candidate_fields (t : gotype) : result (list field) :=
  walk_levels (S (type_depth t)) [level_field "" [] t] [] [] [].

Definition typeFields (t : gotype) : result (list field) :=
  fields <- candidate_fields t;;
  resolve_fields fields.

(** The cache in front of [typeFields] changes no result. *)
Definition cachedTypeFields (t : gotype) : result (list field) := typeFields t.

End FieldResolver.

(** ** strconv.ParseInt(s, 10, 64) *)

Definition ParseInt (s : list byte) : numErr + Z :=
  match s with
  | [] => inl ErrSyntax
  | c :: rest =>
      let neg := Byte.eqb c "-" in
      let s' := if Byte.eqb c "+" || neg then rest else s in
      match ParseUint s' with
      | inl ErrSyntax => inl ErrSyntax
      | inl ErrRange => inl ErrRange
      | inr un =>
          let cutoff := 2 ^ 63 in
          if negb neg && (cutoff <=? un) then inl ErrRange
          else if neg && (cutoff <? un) then inl ErrRange
          else inr (if neg then - un else un)
      end
  end.

(** ** Reflection on values *)

(** The size in bits of an integer kind ([int], [uint] and [uintptr] taken
    at 64 bits). *)
Definition int_bits (k : reflect.Kind) : Z :=
  match k with
  | reflect.Int8 | reflect.Uint8 => 8
  | reflect.Int16 | reflect.Uint16 => 16
  | reflect.Int32 | reflect.Uint32 => 32
  | _ => 64
  end.

(** [v.OverflowInt(n)] and [v.OverflowUint(n)] for a value of kind [k]. *)
Definition OverflowInt (k : reflect.Kind) (n : Z) : bool :=
  negb ((- 2 ^ (int_bits k - 1) <=? n) && (n <? 2 ^ (int_bits k - 1))).
Definition OverflowUint (k : reflect.Kind) (n : Z) : bool :=
  negb ((0 <=? n) && (n <? 2 ^ int_bits k)).

(** [reflect.Copy(dst, src)] on backing arrays: the first [n] elements of
    [dst] become those of [src]. *)
Definition copy_prefix (n : nat) (src dst : list goval) : list goval :=
  firstn n src ++ skipn n dst.

(** [l[i] = x] *)
Fixpoint set_nth (i : nat) (x : goval) (l : list goval) : list goval :=
  match l, i with
  | [], _ => []
  | _ :: l', O => x :: l'
  | y :: l', S i' => y :: set_nth i' x l'
  end.

(** [v.SetMapIndex(k, x)] on the entries of a map. *)
Definition bytes_eqb (a b : list byte) : bool :=
  if list_eq_dec Byte.byte_eq_dec a b then true else false.

Fixpoint map_set (k : list byte) (x : goval) (m : list (list byte * goval))
  : list (list byte * goval) :=
  match m with
  | [] => [(k, x)]
  | (k', y) :: m' => if bytes_eqb k' k then (k, x) :: m' else (k', y) :: map_set k x m'
  end.

(** ** Decode state (decode.go) *)

Record errorContext_t : Type := mkErrorContext {
  ec_Struct : option gotype;
  ec_Field : string
}.

Record decodeState : Type := mkDecodeState {
  data : list byte;
  off : Z;
  opcode_ : opcode;
  scan : scanner;
  errorContext : errorContext_t;
  savedError : option error;
  useNumber : bool;
  disallowUnknownFields : bool
}.

(** [var d decodeState] *)
Definition zero_decodeState : decodeState :=
  mkDecodeState [] 0 scanContinue zero_scanner (mkErrorContext None "") None false false.

Definition set_data (d : decodeState) (x : list byte) : decodeState :=
  mkDecodeState x (off d) (opcode_ d) (scan d) (errorContext d) (savedError d)
    (useNumber d) (disallowUnknownFields d).
Definition set_off (d : decodeState) (x : Z) : decodeState :=
  mkDecodeState (data d) x (opcode_ d) (scan d) (errorContext d) (savedError d)
    (useNumber d) (disallowUnknownFields d).
Definition set_opcode (d : decodeState) (x : opcode) : decodeState :=
  mkDecodeState (data d) (off d) x (scan d) (errorContext d) (savedError d)
    (useNumber d) (disallowUnknownFields d).
Definition set_scan (d : decodeState) (x : scanner) : decodeState :=
  mkDecodeState (data d) (off d) (opcode_ d) x (errorContext d) (savedError d)
    (useNumber d) (disallowUnknownFields d).
Definition set_errorContext (d : decodeState) (x : errorContext_t) : decodeState :=
  mkDecodeState (data d) (off d) (opcode_ d) (scan d) x (savedError d)
    (useNumber d) (disallowUnknownFields d).
Definition set_savedError (d : decodeState) (x : option error) : decodeState :=
  mkDecodeState (data d) (off d) (opcode_ d) (scan d) (errorContext d) x
    (useNumber d) (disallowUnknownFields d).

Definition len (l : list byte) : Z := Z.of_nat (List.length l).

(** [data[i]] *)
Definition byte_at (l : list byte) (i : Z) : result byte :=
  if (0 <=? i) && (i <? len l) then
    match nth_error l (Z.to_nat i) with
    | Some c => Ok c
    | None => Panic indexPanic
    end
  else Panic indexPanic.

(** [data[lo:hi]], the capacity of [data] taken to be its length. *)
Definition bytes_slice (l : list byte) (lo hi : Z) : result (list byte) :=
  if (0 <=? lo) && (lo <=? hi) && (hi <=? len l) then
    Ok (firstn (Z.to_nat (hi - lo)) (skipn (Z.to_nat lo) l))
  else Panic slicePanic.

Definition readIndex (d : decodeState) : Z := off d - 1.

Definition init (d : decodeState) (x : list byte) : decodeState :=
  let d := set_data d x in
  let d := set_off d 0 in
  let d := set_savedError d None in
  set_errorContext d (mkErrorContext None "").

(** [d.errorContext.Struct.Name()] panics when no struct type is set. *)
Definition addErrorContext (d : decodeState) (e : error) : result error :=
  match ec_Struct (errorContext d), String.eqb (ec_Field (errorContext d)) "" with
  | None, true => Ok e
  | st, _ =>
      match e with
      | UnmarshalTypeError v t o _ _ =>
          match st with
          | Some t' => Ok (UnmarshalTypeError v t o (type_Name t') (ec_Field (errorContext d)))
          | None => Panic nilFuncPanic
          end
      | _ => Ok e
      end
  end.

Definition saveError (d : decodeState) (e : error) : result decodeState :=
  match savedError d with
  | None => e' <- addErrorContext d e;; Ok (set_savedError d (Some e'))
  | Some _ => Ok d
  end.

(** The loop of [skip], from [data[i]] on. *)
Fixpoint skip_loop (rest : list byte) (s : scanner) (i : Z) (depth : nat)
  : result (scanner * Z * opcode) :=
  match rest with
  | [] => Panic indexPanic
  | c :: rest' =>
      '(s, op) <- scan_step s c;;
      let i := i + 1 in
      if Nat.ltb (List.length (parseState s)) depth then Ok (s, i, op)
      else skip_loop rest' s i depth
  end.

Definition skip (d : decodeState) : result decodeState :=
  if off d <? 0 then Panic indexPanic
  else
    '(s, i, op) <- skip_loop (skipn (Z.to_nat (off d)) (data d)) (scan d) (off d)
                     (List.length (parseState (scan d)));;
    Ok (set_opcode (set_off (set_scan d s) i) op).

Definition scanNext (d : decodeState) : result decodeState :=
  if off d <? len (data d) then
    let s := set_bytes (scan d) (wrap_int64 (bytes (scan d) + 1)) in
    c <- byte_at (data d) (off d);;
    '(s, op) <- scan_step s c;;
    Ok (set_off (set_opcode (set_scan d s) op) (off d + 1))
  else
    let '(s, op) := eof (scan d) in
    Ok (set_off (set_opcode (set_scan d s) op) (len (data d) + 1)).

(** The loop of [scanWhile], from [data[i]] on: the scanner, and the offset
    and opcode at which it left the loop early, if it did. *)
Fixpoint scanWhile_loop (rest : list byte) (s : scanner) (i : Z) (op : opcode)
  : result (scanner * option (Z * opcode)) :=
  match rest with
  | [] => Ok (s, None)
  | c :: rest' =>
      '(s, newOp) <- scan_step s c;;
      let i := i + 1 in
      if negb (opcode_eqb newOp op) then Ok (s, Some (i, newOp))
      else scanWhile_loop rest' s i op
  end.

Definition scanWhile (d : decodeState) (op : opcode) : result decodeState :=
  if off d <? 0 then Panic indexPanic
  else
    '(s, r) <- scanWhile_loop (skipn (Z.to_nat (off d)) (data d)) (scan d) (off d) op;;
    match r with
    | Some (i, newOp) => Ok (set_off (set_opcode (set_scan d s) newOp) i)
    | None =>
        let d := set_off (set_scan d s) (len (data d) + 1) in
        let '(s, op') := eof (scan d) in
        Ok (set_opcode (set_scan d s) op')
    end.

(** ** The binder (decode.go) *)

(** [indirect(v, false)] on a nil pointer to a value of type [t]: the
    pointee is allocated, and so on through pointers to pointers. *)
Fixpoint alloc_indirect (t : gotype) : goval * (goval -> goval) :=
  match t with
  | TPtr e => let '(x, k) := alloc_indirect e in (x, fun y => VPtr e (Some (k y)))
  | _ => (zero t, fun y => y)
  end.

(** [indirect(v, false)]: the value reached through pointers (nil ones
    allocated on the way) and through an interface that holds a non-nil
    pointer, with the way back, which puts a new value in its place.  The
    detour of the source through [v.Addr()] comes back to [v] after one turn
    of its loop and is left out. *)
Fixpoint indirect (v : goval) : goval * (goval -> goval) :=
  match v with
  | VPtr e (Some x) =>
      let '(y, k) := indirect x in (y, fun z => VPtr e (Some (k z)))
  | VPtr e None =>
      let '(y, k) := alloc_indirect e in (y, fun z => VPtr e (Some (k z)))
  | VIface n (Some (VPtr e (Some x))) =>
      let '(y, k) := indirect x in (y, fun z => VIface n (Some (VPtr e (Some (k z)))))
  | _ => (v, fun z => z)
  end.

Definition number_of (s : list byte) : string :=
  String.append "number " (string_of_list_byte s).

(** [base64.StdEncoding.DecodedLen(n)] *)
Definition DecodedLen (n : nat) : nat := (n / 4 * 3)%nat.

Section Binder.

Context {X : Externals}.

Definition convertNumber (d : decodeState) (s : list byte) : error + gofloat :=
  if ParseFloat_ok s 64 then inr (FloatOfDecimal s 64)
  else inl (UnmarshalTypeError (number_of s) (TBasic reflect.Float64) (off d) "" "").

(** The body of a store that records a type mismatch and goes on. *)
Definition mismatch (d : decodeState) (what : string) (t : goval)
  (k : goval -> goval) : result (decodeState * goval * option error) :=
  d <- saveError d (UnmarshalTypeError what (typeOf t) (readIndex d) "" "");;
  Ok (d, k t, None).

Definition integerStore (d : decodeState) (item : list byte) (v : goval)
  (fromQuoted : bool) : result (decodeState * goval * option error) :=
  match item with
  | [] =>
      d <- saveError d (InvalidStringTagError item (typeOf v));;
      Ok (d, v, None)
  | c :: _ =>
      let '(t, k) := indirect v in
      if negb (Byte.eqb c "-") && (negb (byte_le "0" c) || negb (byte_le c "9")) then
        if fromQuoted then Ok (d, k t, Some (InvalidStringTagError item (typeOf t)))
        else Panic phasePanicMsg
      else
        let s := item in
        match t with
        | VIface nm _ =>
            match convertNumber d s with
            | inl e => d <- saveError d e;; Ok (d, k t, None)
            | inr n =>
                if negb (Nat.eqb nm 0) then mismatch d "number" t k
                else Ok (d, k (VIface nm (Some (VFloat reflect.Float64 n))), None)
            end
        | VInt kd _ =>
            match ParseInt s with
            | inr n =>
                if OverflowInt kd n then mismatch d (number_of s) t k
                else Ok (d, k (VInt kd n), None)
            | inl _ => mismatch d (number_of s) t k
            end
        | VUint kd _ =>
            match kd with
            | reflect.Uint | reflect.Uint8 | reflect.Uint16 | reflect.Uint64
            | reflect.Uintptr =>
                match ParseUint s with
                | inr n =>
                    if OverflowUint kd n then mismatch d (number_of s) t k
                    else Ok (d, k (VUint kd n), None)
                | inl _ => mismatch d (number_of s) t k
                end
            | _ =>
                if fromQuoted then Ok (d, k t, Some (InvalidStringTagError item (typeOf t)))
                else mismatch d "number" t k
            end
        | VFloat kd _ =>
            if ParseFloat_ok s (float_bits kd)
               && negb (OverflowFloat kd (FloatOfDecimal s (float_bits kd)))
            then Ok (d, k (VFloat kd (FloatOfDecimal s (float_bits kd))), None)
            else mismatch d (number_of s) t k
        | _ =>
            if fromQuoted then Ok (d, k t, Some (InvalidStringTagError item (typeOf t)))
            else mismatch d "number" t k
        end
  end.

(** The bytes of a [[]byte] as the elements of its backing array. *)
Definition byte_val (c : byte) : goval := VUint reflect.Uint8 (Z.of_N (Byte.to_N c)).

Definition stringStore (d : decodeState) (item : list byte) (v : goval)
  (fromQuoted : bool) : result (decodeState * goval * option error) :=
  match item with
  | [] =>
      d <- saveError d (InvalidStringTagError item (typeOf v));;
      Ok (d, v, None)
  | _ :: _ =>
      let '(t, k) := indirect v in
      let s := item in
      match t with
      | VSlice e _ _ =>
          if negb (reflect.Kind_eqb (type_Kind e) reflect.Uint8) then mismatch d "string" t k
          else
            let b := DecodedLen (List.length s) in
            let '(written, err) := base64_Decode s in
            match err with
            | Some o => d <- saveError d (CorruptInputError o);; Ok (d, k t, None)
            | None =>
                let n := List.length written in
                if Nat.ltb b n then Panic slicePanic
                else
                  Ok (d, k (VSlice e n (map byte_val written ++ repeat (zero e) (b - n))),
                      None)
            end
      | VString _ => Ok (d, k (VString s), None)
      | VIface nm _ =>
          if Nat.eqb nm 0 then Ok (d, k (VIface nm (Some (VString s))), None)
          else mismatch d "string" t k
      | _ => mismatch d "string" t k
      end
  end.

(** [v.Len()], [v.Cap()] and [v.Index(i)] of an array or a slice. *)
Definition seq_Len (v : goval) : nat :=
  match v with
  | VSlice _ n _ => n
  | VArray _ l => List.length l
  | _ => O
  end.
Definition seq_Cap (v : goval) : nat :=
  match v with
  | VSlice _ _ arr => List.length arr
  | VArray _ l => List.length l
  | _ => O
  end.
Definition seq_Index (v : goval) (i : nat) : option goval :=
  match v with
  | VSlice _ _ arr => nth_error arr i
  | VArray _ l => nth_error l i
  | _ => None
  end.
Definition seq_set (v : goval) (i : nat) (x : goval) : goval :=
  match v with
  | VSlice e n arr => VSlice e n (set_nth i x arr)
  | VArray e l => VArray e (set_nth i x l)
  | _ => v
  end.

(** The capacity a full slice is given: half as much again, and at least 4. *)
Definition grown_cap (cap : nat) : nat :=
  let newcap := (cap + cap / 2)%nat in
  if Nat.ltb newcap 4 then 4%nat else newcap.

(** What one turn of the loop of [list] does to a slice before it decodes
    element [i]: a full slice is copied into a new one of capacity
    [grown_cap], and the length is raised to [i + 1] ([SetLen] panics past
    the capacity).  An array is left as it is. *)
Definition list_grow (v : goval) (i : nat) : result goval :=
  match v with
  | VSlice e n arr =>
      let '(n, arr) :=
        if Nat.leb (List.length arr) i then
          let newcap := grown_cap (List.length arr) in
          (n, copy_prefix n arr (repeat (zero e) newcap))
        else (n, arr) in
      if Nat.leb n i then
        if Nat.ltb (List.length arr) (S i)
        then Panic "reflect: slice length out of range in SetLen"
        else Ok (VSlice e (S i) arr)
      else Ok (VSlice e n arr)
  | _ => Ok v
  end.

(** The end of [list]: the rest of an array is zeroed, a slice is cut to
    the elements read, and a slice that read none becomes an empty one. *)
Definition list_finish (v : goval) (i : nat) : goval :=
  let v :=
    if Nat.ltb i (seq_Len v) then
      match v with
      | VArray e l => VArray e (firstn i l ++ repeat (zero e) (List.length l - i))
      | VSlice e _ arr => VSlice e i arr
      | _ => v
      end
    else v in
  match v, i with
  | VSlice e _ _, O => VSlice e 0 []
  | _, _ => v
  end.

Definition begins_value (op : opcode) : bool :=
  match op with
  | scanBeginInteger | scanBeginList | scanBeginDictionary | scanBeginString => true
  | _ => false
  end.

(** The field of a struct that a key names: the first whose name is the key
    byte for byte, else the first whose name folds to the key. *)
Fixpoint find_field (fields : list field) (key : list byte) (f : option field)
  : option field :=
  match fields with
  | [] => f
  | ff :: rest =>
      if bytes_eqb (nameBytes ff) key then Some ff
      else
        match f with
        | None =>
            if equalFold ff (nameBytes ff) key then find_field rest key (Some ff)
            else find_field rest key f
        | Some _ => find_field rest key f
        end
  end.

(** The walk of [dictionary] along the index path of a field, from the struct
    [v] down: the value reached (none when a nil embedded pointer cannot be
    set), and the way back into [v].  [canSet] says whether the value in hand
    may be set: it was reached through an exported field. *)
Fixpoint walk_index (d : decodeState) (subv : goval) (canSet : bool)
  (back : goval -> goval) (idx : list nat)
  : result (decodeState * option goval * (option goval -> goval)) :=
  match idx with
  | [] =>
      Ok (d, Some subv, fun r => back (match r with Some x => x | None => subv end))
  | i :: idx' =>
      let through :=
        match subv with
        | VPtr e None =>
            if canSet then Some (zero e, fun y => back (VPtr e (Some y))) else None
        | VPtr e (Some x) => Some (x, fun y => back (VPtr e (Some y)))
        | _ => Some (subv, back)
        end in
      match through with
      | None =>
          d <- saveError d (EmbeddedPointerError (ptr_Elem (typeOf subv)));;
          Ok (d, None, fun _ => back subv)
      | Some (VStruct n sfs vals, back) =>
          match nth_error vals i, nth_error sfs i with
          | Some x, Some sf =>
              walk_index d x (String.eqb (sfPkgPath sf) "")
                (fun y => back (VStruct n sfs (set_nth i y vals))) idx'
          | _, _ => Panic "reflect: Field index out of range"
          end
      | Some _ => Panic "reflect: call of reflect.Value.Field on non-struct Value"
      end
  end.

Section Recursion.

(** [d.value], as the functions below call it. *)
Variable value_rec :
  decodeState -> option goval -> result (decodeState * option goval * option error).

(** The loop of [list] from element [i] on. *)
Fixpoint list_loop (fuel : nat) (d : decodeState) (v : goval) (i : nat)
  : result (decodeState * goval * nat * option error) :=
  match fuel with
  | O => OutOfFuel
  | S fuel' =>
      if opcode_eqb (opcode_ d) scanEndList then Ok (d, v, i, None)
      else if negb (begins_value (opcode_ d)) then Panic phasePanicMsg
      else
        v <- list_grow v i;;
        '(d, x, e) <-
          value_rec d (if Nat.ltb i (seq_Len v) then seq_Index v i else None);;
        let v := match x with Some x => seq_set v i x | None => v end in
        match e with
        | Some e => Ok (d, v, i, Some e)
        | None => list_loop fuel' d v (S i)
        end
  end.

Definition list_ (fuel : nat) (d : decodeState) (v : goval)
  : result (decodeState * goval * option error) :=
  let '(t, k) := indirect v in
  match t with
  | VIface _ _ => Panic "interface"
  | VArray _ _ | VSlice _ _ _ =>
      d <- scanNext d;;
      '(d, t, i, e) <- list_loop fuel d t O;;
      match e with
      | Some e => Ok (d, k t, Some e)
      | None => Ok (d, k (list_finish t i), None)
      end
  | _ =>
      d <- saveError d (UnmarshalTypeError "list" (typeOf t) (off d) "" "");;
      d <- skip d;;
      Ok (d, k t, None)
  end.

(** What [dictionary] binds the value of a key into: for a map a fresh zero
    element, for a struct the field the key names, if any. *)
Definition bind_target (d : decodeState) (fields : list field) (v : goval)
  (key : list byte)
  : result (decodeState * option goval * (option goval -> goval)) :=
  match v with
  | VMap kt et m =>
      Ok (d, Some (zero et),
          fun r =>
            match r with
            | Some x =>
                VMap kt et (Some (map_set key x (match m with Some l => l | None => [] end)))
            | None => v
            end)
  | _ =>
      match find_field fields key None with
      | Some f =>
          '(d, subv, plug) <- walk_index d v true (fun y => y) (index f);;
          let d := set_errorContext d (mkErrorContext (Some (typeOf v)) (name f)) in
          if quoted f && match subv with Some _ => true | None => false end
          then Panic "not implemented"
          else Ok (d, subv, plug)
      | None =>
          if disallowUnknownFields d then
            d <- saveError d (UnknownFieldError key);;
            Ok (d, None, fun _ => v)
          else Ok (d, None, fun _ => v)
      end
  end.

(** The loop of [dictionary], entered with the opcode of the byte after [d]
    or after a value. *)
Fixpoint dictionary_loop (fuel : nat) (d : decodeState) (fields : list field)
  (v : goval) (originalErrorContext : errorContext_t)
  : result (decodeState * goval * option error) :=
  match fuel with
  | O => OutOfFuel
  | S fuel' =>
      if opcode_eqb (opcode_ d) scanEndDictionary then Ok (d, v, None)
      else if negb (opcode_eqb (opcode_ d) scanBeginString) then Panic phasePanicMsg
      else
        d <- scanWhile d scanContinue;;
        if negb (opcode_eqb (opcode_ d) scanString) then Panic phasePanicMsg
        else
          let start := readIndex d in
          d <- scanWhile d scanContinue;;
          key <- bytes_slice (data d) start (readIndex d);;
          '(d, subv, plug) <- bind_target d fields v key;;
          '(d, subv, e) <- value_rec d subv;;
          match e with
          | Some e =>
              Ok (d, match v with VMap _ _ _ => v | _ => plug subv end, Some e)
          | None =>
              let v := plug subv in
              if opcode_eqb (opcode_ d) scanEndDictionary then Ok (d, v, None)
              else
                dictionary_loop fuel' (set_errorContext d originalErrorContext) fields v
                  originalErrorContext
          end
  end.

Definition dictionary (fuel : nat) (d : decodeState) (v : goval)
  : result (decodeState * goval * option error) :=
  let '(t, k) := indirect v in
  let run (d : decodeState) (fields : list field) (t : goval) :=
    let originalErrorContext := errorContext d in
    d <- scanWhile d scanContinue;;
    '(d, t, e) <- dictionary_loop fuel d fields t originalErrorContext;;
    Ok (d, k t, e) in
  let refuse (d : decodeState) :=
    d <- saveError d (UnmarshalTypeError "dictionary" (typeOf t) (off d) "" "");;
    d <- skip d;;
    Ok (d, k t, None) in
  match t with
  | VMap kt et m =>
      match type_Kind kt with
      | reflect.String =>
          run d [] (VMap kt et (Some (match m with Some l => l | None => [] end)))
      | _ => refuse d
      end
  | VStruct _ _ _ =>
      fields <- cachedTypeFields (typeOf t);;
      run d fields t
  | _ => refuse d
  end.

(** [d.value(v)], for a destination ([Some]) or for none (the zero
    [reflect.Value]). *)
Definition value_body (fuel : nat) (d : decodeState) (v : option goval)
  : result (decodeState * option goval * option error) :=
  match opcode_ d with
  | scanBeginDictionary =>
      '(d, v, e) <-
        match v with
        | Some x => '(d, x, e) <- dictionary fuel d x;; Ok (d, Some x, e)
        | None => d <- skip d;; Ok (d, None, None)
        end;;
      match e with
      | Some e => Ok (d, v, Some e)
      | None => d <- scanNext d;; Ok (d, v, None)
      end
  | scanBeginList =>
      '(d, v, e) <-
        match v with
        | Some x => '(d, x, e) <- list_ fuel d x;; Ok (d, Some x, e)
        | None => d <- skip d;; Ok (d, None, None)
        end;;
      match e with
      | Some e => Ok (d, v, Some e)
      | None => d <- scanNext d;; Ok (d, v, None)
      end
  | scanBeginInteger =>
      d <- scanNext d;;
      if negb (opcode_eqb (opcode_ d) scanInteger) then Panic phasePanicMsg
      else
        let start := readIndex d in
        d <- scanWhile d scanContinue;;
        '(d, v, e) <-
          match v with
          | Some x =>
              item <- bytes_slice (data d) start (readIndex d);;
              '(d, x, e) <- integerStore d item x false;;
              Ok (d, Some x, e)
          | None => Ok (d, None, None)
          end;;
        match e with
        | Some e => Ok (d, v, Some e)
        | None => d <- scanNext d;; Ok (d, v, None)
        end
  | scanBeginString =>
      d <- scanWhile d scanContinue;;
      if negb (opcode_eqb (opcode_ d) scanString) then Panic phasePanicMsg
      else
        let start := readIndex d in
        d <- scanWhile d scanContinue;;
        match v with
        | Some x =>
            item <- bytes_slice (data d) start (readIndex d);;
            '(d, x, e) <- stringStore d item x false;;
            Ok (d, Some x, e)
        | None => Ok (d, None, None)
        end
  | _ => Panic phasePanicMsg
  end.

End Recursion.

(** [d.value]: [fuel] bounds how deep the calls into [value] nest and how
    many turns each loop of [list] and [dictionary] makes. *)
Fixpoint value (fuel : nat) (d : decodeState) (v : option goval)
  : result (decodeState * option goval * option error) :=
  match fuel with
  | O => OutOfFuel
  | S fuel' => value_body (value fuel') fuel' d v
  end.

(** [d.unmarshal(v)] for the [interface{}] argument [v], nil or a value; the
    destination comes back as the call leaves it. *)
Definition unmarshal (fuel : nat) (d : decodeState) (v : option goval)
  : result (decodeState * option goval * option error) :=
  match v with
  | Some (VPtr _ (Some _)) =>
      let d := set_scan d (reset (scan d)) in
      d <- scanNext d;;
      if bytes (scan d) =? 0 then Ok (d, v, Some io_EOF)
      else
        '(d, v, e) <- value fuel d v;;
        match e with
        | Some e => e <- addErrorContext d e;; Ok (d, v, Some e)
        | None => Ok (d, v, savedError d)
        end
  | _ => Ok (d, v, Some (InvalidUnmarshalError (option_map typeOf v)))
  end.

(** A nested call into [value] and a turn of a loop each consume a byte of
    the input first, so the bound is taken from its length. *)
Definition fuel_for (input : list byte) : nat := S (S (List.length input)).

Definition Unmarshal (input : list byte) (v : option goval)
  : result (option goval * option error) :=
  let d := zero_decodeState in
  '(s, e) <- checkValid input (scan d);;
  let d := set_scan d s in
  match e with
  | Some e => Ok (v, Some (ScanError e))
  | None =>
      let d := init d input in
      '(_, v, e) <- unmarshal (fuel_for input) d v;;
      Ok (v, e)
  end.

End Binder.

(** ** Streaming decoder (stream.go) *)

Section Stream.

Context {X : Externals}.

(** The byte source, an [io.Reader]: its state, and [Read] on a buffer with
    room for so many bytes, which returns the bytes it read, its error, and
    the source after the call. *)
Variable R : Type.
Variable Read : R -> nat -> list byte * option error * R.

(** [buf] is the bytes of the buffer up to its length; [dec_cap] is its
    capacity. *)
Record Decoder : Type := mkDecoder {
  dec_r : R;
  dec_buf : list byte;
  dec_cap : nat;
  dec_d : decodeState;
  dec_scanp : Z;
  dec_scanned : Z;
  dec_scan : scanner;
  dec_err : option error;
  dec_tokenState : Z;
  dec_tokenStack : list Z
}.

Definition NewDecoder (r : R) : Decoder :=
  mkDecoder r [] 0 zero_decodeState 0 0 zero_scanner None 0 [].

Definition with_r (dec : Decoder) (x : R) : Decoder :=
  mkDecoder x (dec_buf dec) (dec_cap dec) (dec_d dec) (dec_scanp dec) (dec_scanned dec)
    (dec_scan dec) (dec_err dec) (dec_tokenState dec) (dec_tokenStack dec).
Definition with_buf (dec : Decoder) (x : list byte) (c : nat) : Decoder :=
  mkDecoder (dec_r dec) x c (dec_d dec) (dec_scanp dec) (dec_scanned dec)
    (dec_scan dec) (dec_err dec) (dec_tokenState dec) (dec_tokenStack dec).
Definition with_d (dec : Decoder) (x : decodeState) : Decoder :=
  mkDecoder (dec_r dec) (dec_buf dec) (dec_cap dec) x (dec_scanp dec) (dec_scanned dec)
    (dec_scan dec) (dec_err dec) (dec_tokenState dec) (dec_tokenStack dec).
Definition with_scanp (dec : Decoder) (x : Z) : Decoder :=
  mkDecoder (dec_r dec) (dec_buf dec) (dec_cap dec) (dec_d dec) x (dec_scanned dec)
    (dec_scan dec) (dec_err dec) (dec_tokenState dec) (dec_tokenStack dec).
Definition with_scanned (dec : Decoder) (x : Z) : Decoder :=
  mkDecoder (dec_r dec) (dec_buf dec) (dec_cap dec) (dec_d dec) (dec_scanp dec) x
    (dec_scan dec) (dec_err dec) (dec_tokenState dec) (dec_tokenStack dec).
Definition with_scan (dec : Decoder) (x : scanner) : Decoder :=
  mkDecoder (dec_r dec) (dec_buf dec) (dec_cap dec) (dec_d dec) (dec_scanp dec)
    (dec_scanned dec) x (dec_err dec) (dec_tokenState dec) (dec_tokenStack dec).
Definition with_err (dec : Decoder) (x : option error) : Decoder :=
  mkDecoder (dec_r dec) (dec_buf dec) (dec_cap dec) (dec_d dec) (dec_scanp dec)
    (dec_scanned dec) (dec_scan dec) x (dec_tokenState dec) (dec_tokenStack dec).

Definition minRead : nat := 512.

(** [refill]: the decoder after the call, and the error of [Read]. *)
Definition refill (dec : Decoder) : result (Decoder * option error) :=
  let dec :=
    if 0 <? dec_scanp dec then
      let dec := with_scanned dec (wrap_int64 (dec_scanned dec + dec_scanp dec)) in
      let dec := with_buf dec (skipn (Z.to_nat (dec_scanp dec)) (dec_buf dec)) (dec_cap dec) in
      with_scanp dec 0
    else dec in
  let dec :=
    if Nat.ltb (dec_cap dec - List.length (dec_buf dec)) minRead
    then with_buf dec (dec_buf dec) (2 * dec_cap dec + minRead)
    else dec in
  let '(read, e, r) := Read (dec_r dec) (dec_cap dec - List.length (dec_buf dec)) in
  let dec := with_r dec r in
  if Nat.ltb (dec_cap dec) (List.length (dec_buf dec) + List.length read)
  then Panic slicePanic
  else Ok (with_buf dec (dec_buf dec ++ read) (dec_cap dec), e).

(** How the loop of [readValue] over the buffered bytes ends. *)
Inductive scanned_t : Type :=
| ValueEnds (scanp : Z)
| ScanFails
| BufferEnds.

(** The loop [for i, c := range dec.buf[scanp:]] of [readValue]. *)
Fixpoint scan_buffered (rest : list byte) (s : scanner) (scanp : Z) (i : Z)
  : result (scanner * scanned_t) :=
  match rest with
  | [] => Ok (s, BufferEnds)
  | c :: rest' =>
      let s := set_bytes s (wrap_int64 (bytes s + 1)) in
      '(s, op) <- scan_step s c;;
      match op with
      | scanEnd => Ok (s, ValueEnds (scanp + i))
      | scanError => Ok (s, ScanFails)
      | _ =>
          match parseState s with
          | [] => Ok (s, ValueEnds (scanp + i + 1))
          | _ => scan_buffered rest' s scanp (i + 1)
          end
      end
  end.

(** The loop [Input] of [readValue], one turn per [refill]; [e] is the error
    of the last [refill]. *)
Fixpoint readValue_loop (fuel : nat) (dec : Decoder) (scanp : Z) (e : option error)
  : result (Decoder * Z * option error) :=
  match fuel with
  | O => OutOfFuel
  | S fuel' =>
      '(s, how) <- scan_buffered (skipn (Z.to_nat scanp) (dec_buf dec)) (dec_scan dec) scanp 0;;
      let dec := with_scan dec s in
      match how with
      | ValueEnds scanp => Ok (dec, scanp - dec_scanp dec, None)
      | ScanFails =>
          let e := option_map ScanError (err (dec_scan dec)) in
          Ok (with_err dec e, 0, e)
      | BufferEnds =>
          let scanp := len (dec_buf dec) in
          match e with
          | Some e =>
              match e with
              | io_EOF =>
                  if bytes (dec_scan dec) =? 0 then Ok (dec, scanp - dec_scanp dec, None)
                  else Ok (with_err dec (Some io_ErrUnexpectedEOF), 0, Some io_ErrUnexpectedEOF)
              | _ => Ok (with_err dec (Some e), 0, Some e)
              end
          | None =>
              let n := scanp - dec_scanp dec in
              '(dec, e) <- refill dec;;
              readValue_loop fuel' dec (dec_scanp dec + n) e
          end
      end
  end.

(** [readValue]; [fuel] bounds the calls of [refill]. *)
Definition readValue (fuel : nat) (dec : Decoder) : result (Decoder * Z * option error) :=
  let dec := with_scan dec (reset (dec_scan dec)) in
  readValue_loop fuel dec (dec_scanp dec) None.

Definition tokenTopValue : Z := 0.

Definition tokenPrepareForDecode (dec : Decoder) : option error := None.

Definition tokenValueAllowed (dec : Decoder) : bool :=
  dec_tokenState dec =? tokenTopValue.

Definition tokenValueEnd (dec : Decoder) : Decoder := dec.

Definition offset (dec : Decoder) : Z :=
  wrap_int64 (dec_scanned dec + dec_scanp dec).

(** [dec.Decode(v)]: the decoder and the destination as the call leaves
    them, and the error returned. *)
Definition Decode (fuel : nat) (dec : Decoder) (v : option goval)
  : result (Decoder * option goval * option error) :=
  match dec_err dec with
  | Some e => Ok (dec, v, Some e)
  | None =>
      match tokenPrepareForDecode dec with
      | Some e => Ok (dec, v, Some e)
      | None =>
          if negb (tokenValueAllowed dec) then
            Ok (dec, v, Some (ScanError (SyntaxError NotAtBeginningOfValue (offset dec))))
          else
            '(dec, n, e) <- readValue fuel dec;;
            match e with
            | Some e => Ok (dec, v, Some e)
            | None =>
                input <- bytes_slice (dec_buf dec) (dec_scanp dec) (dec_scanp dec + n);;
                let dec := with_d dec (init (dec_d dec) input) in
                let dec := with_scanp dec (dec_scanp dec + n) in
                '(d, v, e) <- unmarshal (fuel_for input) (dec_d dec) v;;
                let dec := tokenValueEnd (with_d dec d) in
                Ok (dec, v, e)
            end
      end
  end.

End Stream.

(** A byte source over bytes held in memory, as [bytes.NewReader] gives:
    [Read] returns what is left, as much as there is room for, and [io.EOF]
    once nothing is left. *)
Definition bytesReader_Read (r : list byte) (room : nat) : list byte * option error * list byte :=
  match r with
  | [] => ([], Some io_EOF, [])
  | _ => (firstn room r, None, skipn room r)
  end.

(** ** A standard instance of what the package takes from outside *)

(** Modelled from the spec: the tag parser, which is not among these sources
    and of which the spec says only that it extracts a name and an omit-empty
    flag from an annotation.  The name is what stands before the first comma,
    the flags what stands after it. *)
Fixpoint tag_name (s : string) : string :=
  match s with
  | EmptyString => EmptyString
  | String c s' => if Ascii.eqb c "," then EmptyString else String c (tag_name s')
  end.

Fixpoint tag_options (s : string) : string :=
  match s with
  | EmptyString => EmptyString
  | String c s' => if Ascii.eqb c "," then s' else tag_options s'
  end.

(** Modelled from the spec: whether the comma-separated flags [o] hold the
    flag [n]. *)
Fixpoint options_contain (fuel : nat) (o n : string) : bool :=
  match fuel with
  | O => false
  | S fuel' =>
      match o with
      | EmptyString => false
      | _ => String.eqb (tag_name o) n || options_contain fuel' (tag_options o) n
      end
  end.

(** Modelled from the spec: the case-insensitive comparison of names, which
    the spec leaves opaque; here the ASCII letters are folded. *)
Definition fold_byte (c : byte) : byte :=
  if byte_in "A" "Z" c
  then match Byte.of_N (Byte.to_N c + 32) with Some c' => c' | None => c end
  else c.

Definition ascii_equalFold (s t : list byte) : bool :=
  bytes_eqb (map fold_byte s) (map fold_byte t).

(** [strconv.ParseFloat] on the text of a decimal integer, which is all the
    scanner lets through: it fails when the number rounds to an infinity. *)
Fixpoint decimal_value (n : Z) (s : list byte) : option Z :=
  match s with
  | [] => Some n
  | c :: s' => if byte_in "0" "9" c then decimal_value (n * 10 + digit_val c) s' else None
  end.

Definition integer_float_ok (s : list byte) (bitSize : nat) : bool :=
  let digits :=
    match s with
    | c :: rest => if Byte.eqb c "-" || Byte.eqb c "+" then rest else s
    | [] => []
    end in
  match digits with
  | [] => false
  | _ =>
      match decimal_value 0 digits with
      | Some n =>
          if Nat.eqb bitSize 32 then n <? 2 ^ 128 - 2 ^ 103 else n <? 2 ^ 1024 - 2 ^ 970
      | None => false
      end
  end.

(** [base64.StdEncoding.Decode]: the standard alphabet, padded with [=],
    line breaks skipped. *)
Definition decodeMap (c : byte) : option Z :=
  let n := Z.of_N (Byte.to_N c) in
  if byte_in "A" "Z" c then Some (n - 65)
  else if byte_in "a" "z" c then Some (n - 97 + 26)
  else if byte_in "0" "9" c then Some (n - 48 + 52)
  else if Byte.eqb c "+" then Some 62
  else if Byte.eqb c "/" then Some 63
  else None.

Definition is_newline (c : byte) : bool :=
  (Z.of_N (Byte.to_N c) =? 10) || (Z.of_N (Byte.to_N c) =? 13).

Fixpoint skip_newlines (src : list byte) (si : Z) : list byte * Z :=
  match src with
  | c :: rest => if is_newline c then skip_newlines rest (si + 1) else (src, si)
  | [] => (src, si)
  end.

Definition byte_of_Z (z : Z) : byte :=
  match Byte.of_N (Z.to_N (z mod 256)) with
  | Some c => c
  | None => "000"%byte
  end.

(** The bytes of a quantum of [dlen] characters with the values [dbuf]. *)
Definition quantum_bytes (dbuf : list Z) (dlen : nat) : list byte :=
  let v := nth 0 dbuf 0 * 2 ^ 18 + nth 1 dbuf 0 * 2 ^ 12 + nth 2 dbuf 0 * 2 ^ 6 + nth 3 dbuf 0 in
  firstn (dlen - 1) [byte_of_Z (v / 2 ^ 16); byte_of_Z (v / 2 ^ 8); byte_of_Z v].

(** [decodeQuantum]: the bytes of the next quantum, the rest of the input
    and the offset reached, and the error, if any. *)
Fixpoint decodeQuantum (src : list byte) (si : Z) (total : Z) (j : nat) (dbuf : list Z)
  : list byte * list byte * Z * option Z :=
  match j with
  | 4%nat => (quantum_bytes dbuf 4, src, si, None)
  | _ =>
      match src with
      | [] =>
          if Nat.eqb j 0 then ([], [], si, None)
          else ([], [], si, Some (si - Z.of_nat j))
      | c :: rest =>
          let si := si + 1 in
          match decodeMap c with
          | Some out => decodeQuantum rest si total (S j) (dbuf ++ [out])
          | None =>
              if is_newline c then decodeQuantum rest si total j dbuf
              else if negb (Byte.eqb c "=") then ([], rest, si, Some (si - 1))
              else
                match j with
                | 0%nat | 1%nat => ([], rest, si, Some (si - 1))
                | _ =>
                    let after_pad :=
                      if Nat.eqb j 2 then
                        let '(rest', si') := skip_newlines rest si in
                        match rest' with
                        | [] => inl total
                        | c' :: rest'' =>
                            if Byte.eqb c' "=" then inr (rest'', si' + 1) else inl (si' - 1)
                        end
                      else inr (rest, si) in
                    match after_pad with
                    | inl e => ([], rest, si, Some e)
                    | inr (rest', si') =>
                        let '(rest'', si'') := skip_newlines rest' si' in
                        (quantum_bytes dbuf j, rest'', si'',
                         match rest'' with [] => None | _ => Some si'' end)
                    end
                end
          end
      end
  end.

Fixpoint base64_loop (fuel : nat) (src : list byte) (si total : Z) (written : list byte)
  : list byte * option Z :=
  match fuel with
  | O => (written, None)
  | S fuel' =>
      match src with
      | [] => (written, None)
      | _ =>
          let '(out, rest, si, e) := decodeQuantum src si total 0 [] in
          match e with
          | Some o => (written ++ out, Some o)
          | None => base64_loop fuel' rest si total (written ++ out)
          end
      end
  end.

Definition StdEncoding_Decode (src : list byte) : list byte * option Z :=
  base64_loop (S (List.length src)) src 0 (len src) [].

(** [unicode.IsLetter] and [unicode.IsDigit] as far as ASCII goes: this
    instance knows no letter and no digit beyond it. *)
Definition ascii_letter (c : N) : bool := between 97%N 122%N c || between 65%N 90%N c.
Definition ascii_digit (c : N) : bool := between 48%N 57%N c.

#[export] Instance stdExternals : Externals := {|
  parseTag := fun s => (tag_name s, tag_options s);
  tagContains := fun o n => options_contain (S (String.length o)) o n;
  foldFunc := fun _ => ascii_equalFold;
  IsLetter := ascii_letter;
  IsDigit := ascii_digit;
  ParseFloat_ok := integer_float_ok;
  OverflowFloat := fun _ _ => false;
  base64_Decode := StdEncoding_Decode
|}.
(** * The scanner's invariant *)

(** The frames of the open composites: below the top of the stack only these
    occur. *)
Definition composite (f : parseFrame) : bool :=
  match f with
  | parseDictionaryKey | parseDictionaryValue | parseListValue => true
  | _ => false
  end.

(** What the stack looks like under each transition function. *)
Definition frames_ok (st : stepFn) (ps : list parseFrame) : bool :=
  match st, ps with
  | step_sv, [] => true
  | step_sd, parseDictionaryKey :: rest => forallb composite rest
  | step_sl, parseListValue :: rest => forallb composite rest
  | (step_si | step_sin | step_si0 | step_sil), parseInteger :: rest =>
      forallb composite rest
  | (step_ssl0 | step_ssl), parseStringLength :: rest => forallb composite rest
  | (step_ssf | step_ss), parseString :: rest => forallb composite rest
  | step_se, f :: rest => composite f && forallb composite rest
  | step_stateEndTop, [] => true
  | step_stateError, _ => true
  | _, _ => false
  end.

(** A string body is being consumed. *)
Definition in_body (st : stepFn) : bool :=
  match st with
  | step_ssf | step_ss => true
  | _ => false
  end.

Definition scanner_inv (s : scanner) : Prop :=
  frames_ok (step s) (parseState s) = true /\
  (endTop s = true <-> step s = step_stateEndTop) /\
  (err s = None <-> step s <> step_stateError) /\
  (if in_body (step s) then 0 < string_ s < 2 ^ 64 else string_ s = 0).

(** The frame an opcode announces, when it opens a token. *)
Definition entering (op : opcode) : option parseFrame :=
  match op with
  | scanBeginDictionary => Some parseDictionaryKey
  | scanBeginList => Some parseListValue
  | scanBeginInteger => Some parseInteger
  | scanBeginString => Some parseStringLength
  | _ => None
  end.

(** The close that matches the open token [top]: the [e] of a dictionary,
    list or integer, the [:] of an empty string, or the byte after which no
    body byte of a string remains. *)
Definition closes (top : parseFrame) (op : opcode) (remaining : Z) : bool :=
  match top, op with
  | (parseDictionaryKey | parseDictionaryValue), scanEndDictionary => true
  | parseListValue, scanEndList => true
  | parseInteger, scanEndInteger => true
  | parseStringLength, scanString => true
  | parseString, (scanString | scanContinue) => remaining =? 0
  | _, _ => false
  end.

(** Two frames of one and the same open token: a dictionary frame moves
    between expecting a key and expecting a value, a string-length frame
    becomes the string-body frame. *)
Definition same_token (f g : parseFrame) : bool :=
  match f, g with
  | (parseDictionaryKey | parseDictionaryValue),
    (parseDictionaryKey | parseDictionaryValue) => true
  | parseListValue, parseListValue => true
  | parseInteger, parseInteger => true
  | parseStringLength, (parseStringLength | parseString) => true
  | parseString, parseString => true
  | _, _ => false
  end.

(** The same open tokens, the top one possibly in its next phase. *)
Definition same_tokens (ps ps' : list parseFrame) : Prop :=
  match ps, ps' with
  | [], [] => True
  | f :: r, f' :: r' => same_token f f' = true /\ r = r'
  | _, _ => False
  end.

(** What one step may do to the stack, by the opcode it returns. *)
Definition frame_discipline (s : scanner) (op : opcode) (s' : scanner) : Prop :=
  match entering op with
  | Some f => exists ps, parseState s' = f :: ps /\ same_tokens (parseState s) ps
  | None =>
      match parseState s with
      | [] => parseState s' = []
      | top :: rest =>
          if closes top op (string_ s') then parseState s' = rest
          else same_tokens (parseState s) (parseState s')
      end
  end.

(** ** Feeding bytes and the trace of transitions *)

Record transition : Type := mkTransition {
  before : scanner;
  input : byte;
  emitted : opcode;
  after : scanner
}.

(** [s.step(s, c)] for each byte of [bs] in turn: the transitions made and
    the scanner they leave. *)
Fixpoint feed (s : scanner) (bs : list byte) : result (list transition * scanner) :=
  match bs with
  | [] => Ok ([], s)
  | c :: rest =>
      '(s', op) <- scan_step s c;;
      '(tr, s'') <- feed s' rest;;
      Ok (mkTransition s c op s' :: tr, s'')
  end.

(** The change of nesting depth a transition stands for: one more open token
    when its opcode enters one, one fewer when it is the matching close of
    the open token. *)
Definition depth_change (t : transition) : Z :=
  match entering (emitted t) with
  | Some _ => 1
  | None =>
      match parseState (before t) with
      | top :: _ => if closes top (emitted t) (string_ (after t)) then -1 else 0
      | [] => 0
      end
  end.

(** Tokens entered and not yet closed over a trace. *)
Definition nesting_depth (tr : list transition) : Z :=
  fold_right (fun t d => depth_change t + d) 0 tr.

Definition follows_discipline (t : transition) : Prop :=
  frame_discipline (before t) (emitted t) (after t).


(** * The elements of a list, as the binder reads them *)

Section Elements.

Variable value_rec :
  decodeState -> option goval -> result (decodeState * option goval * option error).

(** The elements of a list read in order from the opcode in [d] up to the
    end of the list, element [i] decoded into what [slot i] offers: the
    destinations as the element decoder returns them, in the order read. *)
Fixpoint decode_elements (fuel : nat) (d : decodeState) (slot : nat -> option goval)
  (i : nat) : result (decodeState * list (option goval) * option error) :=
  match fuel with
  | O => OutOfFuel
  | S fuel' =>
      if opcode_eqb (opcode_ d) scanEndList then Ok (d, [], None)
      else if negb (begins_value (opcode_ d)) then Panic phasePanicMsg
      else
        '(d, x, e) <- value_rec d (slot i);;
        match e with
        | Some e => Ok (d, [x], Some e)
        | None =>
            '(d, xs, e) <- decode_elements fuel' d slot (S i);;
            Ok (d, x :: xs, e)
        end
  end.

End Elements.

(** What a slice with backing array [arr] offers element [i]: the element of
    the array at [i], or a zero element past its capacity. *)
Definition slice_slot (e : gotype) (arr : list goval) (i : nat) : option goval :=
  Some (nth i arr (zero e)).

(** What an array offers element [i]: its element at [i], or nothing past
    its length. *)
Definition array_slot (elems : list goval) (i : nat) : option goval :=
  nth_error elems i.

(** The elements decoded, from element [i] on, each as it is stored: the
    destination the element decoder returned, or the slot as it was when it
    returned none. *)
Fixpoint stored_elems (slot : nat -> option goval) (i : nat) (xs : list (option goval))
  : list goval :=
  match xs with
  | [] => []
  | x :: xs' =>
      match x, slot i with
      | Some y, _ => y :: stored_elems slot (S i) xs'
      | None, Some z => z :: stored_elems slot (S i) xs'
      | None, None => stored_elems slot (S i) xs'
      end
  end.

(** The capacity of a slice of capacity [cap] after [count] more elements
    from element [i] on: it grows, by [grown_cap], each time an element meets
    a full slice. *)
Fixpoint cap_after (cap i count : nat) : nat :=
  match count with
  | O => cap
  | S count' => cap_after (if Nat.leb cap i then grown_cap cap else cap) (S i) count'
  end.

(** The decode state of [unmarshal] once it has scanned the first byte of
    [input]. *)
Definition after_first_byte (input : list byte) : decodeState :=
  match scanNext (set_scan (init zero_decodeState input) (reset zero_scanner)) with
  | Ok d => d
  | _ => zero_decodeState
  end.

(** A destination [Unmarshal] can store through: a non-nil pointer. *)
Definition settable (v : option goval) : bool :=
  match v with
  | Some (VPtr _ (Some _)) => true
  | _ => false
  end.

(** The destination [[]byte], empty. *)
Definition empty_bytes : goval := VSlice (TBasic reflect.Uint8) 0 [].

(** The saved error of [d], once set, is that of [d']. *)
Definition keeps_first (d d' : decodeState) : Prop :=
  forall e, savedError d = Some e -> savedError d' = Some e.

(** The byte cursor of a decode state: the input, the offset, the last
    opcode and the scanner. *)
Definition same_cursor (d d' : decodeState) : Prop :=
  data d' = data d /\ off d' = off d /\ opcode_ d' = opcode_ d /\ scan d' = scan d.

(** A struct with a text field [Foo] and an unsigned field [Int]. *)
Definition two_fields : gotype :=
  TStruct "T"
    [mkStructField "Foo" "" (TBasic reflect.String) "" false;
     mkStructField "Int" "" (TBasic reflect.Uint8) "" false].

(** The tokens [value] hands to a store: an integer or a string. *)
Definition scalar_token (op : opcode) : bool :=
  match op with
  | scanBeginInteger | scanBeginString => true
  | _ => false
  end.

(** A destination that a list or a dictionary does not fit, as [list] and
    [dictionary] find it behind its pointers: a list fits an array, a slice
    or an interface, a dictionary a struct or a map keyed by strings. *)
Definition refuses (op : opcode) (v : goval) : bool :=
  match op, fst (indirect v) with
  | scanBeginList, (VArray _ _ | VSlice _ _ _ | VIface _ _) => false
  | scanBeginList, _ => true
  | scanBeginDictionary, VStruct _ _ _ => false
  | scanBeginDictionary, VMap kt _ _ =>
      match type_Kind kt with
      | reflect.String => false
      | _ => true
      end
  | scanBeginDictionary, _ => true
  | _, _ => false
  end.

(** A nil pointer to a value of type [t] once [indirect] has been through
    it: its pointee allocated, and so on through pointers to pointers. *)
Fixpoint allocate (t : gotype) : goval :=
  match t with
  | TPtr e => VPtr e (Some (allocate e))
  | _ => zero t
  end.

(** A destination once [indirect] has been through it: every nil pointer on
    the way to the value it reaches is allocated, the rest is as it was. *)
Fixpoint allocated (v : goval) : goval :=
  match v with
  | VPtr e (Some x) => VPtr e (Some (allocated x))
  | VPtr e None => VPtr e (Some (allocate e))
  | VIface n (Some (VPtr e (Some x))) => VIface n (Some (VPtr e (Some (allocated x))))
  | _ => v
  end.

(** No nil pointer stands on the way [indirect] takes through [v]. *)
Fixpoint no_nil (v : goval) : bool :=
  match v with
  | VPtr _ (Some x) => no_nil x
  | VPtr _ None => false
  | VIface _ (Some (VPtr _ (Some x))) => no_nil x
  | _ => true
  end.

(** * The field resolver: its orders and the rule its collapse follows *)

(** The depth of a candidate: the length of its index path. *)
Definition field_depth (f : field) : nat := List.length (index f).

(** Comparisons are combined lexicographically. *)
Definition lex (c1 c2 : comparison) : comparison :=
  match c1 with
  | Eq => c2
  | _ => c1
  end.

(** Annotated comes before not annotated. *)
Definition tag_compare (a b : bool) : comparison :=
  match a, b with
  | true, false => Lt
  | false, true => Gt
  | _, _ => Eq
  end.

(** The three-way comparison behind [byIndex.Less]. *)
Fixpoint icompare (a b : list nat) : comparison :=
  match a, b with
  | [], [] => Eq
  | [], _ :: _ => Lt
  | _ :: _, [] => Gt
  | x :: a', y :: b' => lex (Nat.compare x y) (icompare a' b')
  end.

(** The three-way comparison behind the sort by name. *)
Definition fcompare (x y : field) : comparison :=
  lex (String.compare (name x) (name y))
    (lex (Nat.compare (field_depth x) (field_depth y))
       (lex (tag_compare (tag x) (tag y)) (icompare (index x) (index y)))).

Definition icompare_fields (x y : field) : comparison :=
  icompare (index x) (index y).

(** What makes a three-way comparison an order. *)
Record order_cmp (A : Type) (c : A -> A -> comparison) : Prop := mkOrderCmp {
  cmp_antisym : forall x y, c y x = CompOpp (c x y);
  cmp_lt_trans : forall x y z, c x y = Lt -> c y z = Lt -> c x z = Lt;
  cmp_eq_subst : forall x y z, c x y = Eq -> c x z = c y z
}.

(** [less] is the strict part of the comparison [c]. *)
Definition strict_part (A : Type) (less : A -> A -> bool) (c : A -> A -> comparison)
  : Prop :=
  forall x y, less x y = true <-> c x y = Lt.

(** [x] is not after [y]. *)
Definition not_after (A : Type) (c : A -> A -> comparison) (x y : A) : Prop :=
  c x y <> Gt.

(** The dominant-field rule.  A candidate dominates another one of its name
    when it is shallower, or as deep and annotated while the other is not. *)
Definition dominates (f g : field) : Prop :=
  (field_depth f < field_depth g)%nat \/
  (field_depth f = field_depth g /\ tag f = true /\ tag g = false).

(** [f] is one of the candidates and dominates every other candidate of its
    name. *)
Definition dominant_in (f : field) (cands : list field) : Prop :=
  exists others,
    Permutation cands (f :: others) /\
    forall g, In g others -> name g = name f -> dominates f g.

(** No candidate of the name of [f] ranks before [f]: none is shallower, and
    none as deep is annotated unless [f] is. *)
Definition best_ranked (f : field) (cands : list field) : Prop :=
  forall h, In h cands -> name h = name f ->
    (field_depth f <= field_depth h)%nat /\
    (field_depth h = field_depth f -> tag h = true -> tag f = true).

(** The fields after [fields[i]] that have its name, and the fields after
    those. *)
Fixpoint name_run (n : string) (rest : list field) : list field :=
  match rest with
  | fj :: rest' => if String.eqb (name fj) n then fj :: name_run n rest' else []
  | [] => []
  end.

Fixpoint after_run (n : string) (rest : list field) : list field :=
  match rest with
  | fj :: rest' => if String.eqb (name fj) n then after_run n rest' else rest
  | [] => []
  end.

(** What a candidate looks like from outside: name, depth, annotation, index
    path. *)
Definition field_shape (f : field) : string * nat * bool * list nat :=
  (name f, field_depth f, tag f, index f).

(** Struct types in which an outer field shadows two embedded ones:
    [type A struct{X int}], [type B struct{X, Y int}] and
    [type T struct{A; B; X int}]. *)
Definition exported (n : string) (t : gotype) : StructField gotype :=
  mkStructField n "" t "" false.
Definition embedded (n : string) (t : gotype) : StructField gotype :=
  mkStructField n "" t "" true.

Definition shadow_A : gotype := TStruct "A" [exported "X" (TBasic reflect.Int)].
Definition shadow_B : gotype :=
  TStruct "B" [exported "X" (TBasic reflect.Int); exported "Y" (TBasic reflect.Int)].
Definition shadow_T : gotype :=
  TStruct "T" [embedded "A" shadow_A; embedded "B" shadow_B;
               exported "X" (TBasic reflect.Int)].

(** Struct types in which an annotated field meets a field of its name at its
    own depth and an annotated one below: [type C struct{Q int "X"}] and
    [type U struct{P int "X"; X int; C}], the tags under the key [bencode]. *)
Definition annotated (n tg : string) (t : gotype) : StructField gotype :=
  mkStructField n "" t tg false.

Definition ranked_C : gotype := TStruct "C" [annotated "Q" "X" (TBasic reflect.Int)].
Definition ranked_U : gotype :=
  TStruct "U" [annotated "P" "X" (TBasic reflect.Int); exported "X" (TBasic reflect.Int);
               embedded "C" ranked_C].

(** [TBasic] stands for the predeclared types only: the kinds that have a
    constructor of their own are not among them. *)
Definition basic_kind (k : reflect.Kind) : bool :=
  match k with
  | reflect.Array | reflect.Interface | reflect.Map | reflect.Ptr
  | reflect.Slice | reflect.Struct => false
  | _ => true
  end.

Fixpoint well_kinded (t : gotype) : bool :=
  match t with
  | TBasic k => basic_kind k
  | TInterface _ => true
  | TArray _ e | TSlice e | TPtr e => well_kinded e
  | TMap k e => well_kinded k && well_kinded e
  | TStruct _ sfs => forallb (fun sf => well_kinded (sfType sf)) sfs
  end.

(** Every type the traversal queues is a struct type with at most [bound]
    levels of embedding. *)
Definition queue_ok (bound : nat) (next : list field) : Prop :=
  Forall (fun f => reflect.Kind_eqb (type_Kind (typ f)) reflect.Struct = true /\
                   well_kinded (typ f) = true /\
                   (type_depth (typ f) <= bound)%nat) next.

(** What the collapse loop appends to [out] for the run that starts at
    [fi]. *)
Definition run_choice (fi : field) (run : list field) : list field :=
  match run with
  | [] => [fi]
  | f1 :: _ =>
      if Nat.eqb (List.length (index fi)) (List.length (index f1))
         && Bool.eqb (tag fi) (tag f1)
      then [] else [fi]
  end.

(** * The grammar of the scanner, and states of a decode *)

(** ** The grammar the scanner accepts *)

Definition is_digit (c : byte) : bool := byte_in "0" "9" c.
Definition nonzero_digit (c : byte) : bool := byte_in "1" "9" c.

(** The text of a string length: [0], or digits that do not begin with
    [0]. *)
Definition len_text (ds : list byte) : bool :=
  match ds with
  | [] => false
  | c :: ds' =>
      if Byte.eqb c "0" then match ds' with [] => true | _ => false end
      else nonzero_digit c && forallb is_digit ds'
  end.

(** The text of an integer between [i] and [e]: a length text, or a minus
    sign and digits that do not begin with [0]. *)
Definition int_text (ds : list byte) : bool :=
  match ds with
  | [] => false
  | c :: ds' =>
      if Byte.eqb c "-" then
        match ds' with
        | c' :: ds'' => nonzero_digit c' && forallb is_digit ds''
        | [] => false
        end
      else len_text ds
  end.

(** A string: its length in decimal, below [2^64], a colon, and as many
    bytes as the length says. *)
Definition bstring (s : list byte) : Prop :=
  exists ds body, s = ds ++ ":"%byte :: body /\ len_text ds = true /\
                  ParseUint ds = inr (len body).

(** A value, a run of values, and a run of dictionary entries, each a
    string and a value. *)
Inductive bvalue : list byte -> Prop :=
| bv_integer ds : int_text ds = true -> bvalue ("i"%byte :: ds ++ ["e"%byte])
| bv_string s : bstring s -> bvalue s
| bv_list vs : bvalues vs -> bvalue ("l"%byte :: vs ++ ["e"%byte])
| bv_dictionary es : bentries es -> bvalue ("d"%byte :: es ++ ["e"%byte])
with bvalues : list byte -> Prop :=
| bvs_nil : bvalues []
| bvs_cons v vs : bvalue v -> bvalues vs -> bvalues (v ++ vs)
with bentries : list byte -> Prop :=
| bes_nil : bentries []
| bes_cons k v es : bstring k -> bvalue v -> bentries es -> bentries (k ++ v ++ es).

Scheme bvalue_ind' := Minimality for bvalue Sort Prop
  with bvalues_ind' := Minimality for bvalues Sort Prop
  with bentries_ind' := Minimality for bentries Sort Prop.
Combined Scheme bvalue_mutind from bvalue_ind', bvalues_ind', bentries_ind'.

(** Steps of the scanner over bytes, none of which it refuses. *)
Inductive steps : scanner -> list byte -> scanner -> Prop :=
| steps_nil s : steps s [] s
| steps_cons s c s1 op bs s' :
    scan_step s c = Ok (s1, op) -> op <> scanError -> steps s1 bs s' ->
    steps s (c :: bs) s'.

(** Steps inside a value: none is refused, none is past the end of the
    top-level value, and between two of them the stack is deeper than [k]
    frames. *)
Inductive run (k : nat) : scanner -> list byte -> scanner -> Prop :=
| run_nil s : run k s [] s
| run_cons s c s1 op bs s' :
    scan_step s c = Ok (s1, op) -> op <> scanError -> op <> scanEnd ->
    (bs <> [] -> (k < List.length (parseState s1))%nat) ->
    run k s1 bs s' ->
    run k s (c :: bs) s'.

(** A scanner inside the top-level value, and the scanner right after a
    token closes over the frames [ps]. *)
Definition open_state (f : stepFn) (ps : list parseFrame) (b n : Z) (dg : list byte)
  : scanner :=
  mkScanner f ps false None b n dg.

Definition closed_state (ps : list parseFrame) (b : Z) : scanner :=
  match ps with
  | [] => mkScanner step_stateEndTop [] true None b 0 []
  | _ => open_state step_se ps b 0 []
  end.

(** The states in which an element of a list, and a key of a dictionary, may
    begin or the composite may close. *)
Definition list_state (f : stepFn) : Prop := f = step_sl \/ f = step_se.

Definition dict_state (f : stepFn) (top : parseFrame) : Prop :=
  (f = step_sd /\ top = parseDictionaryKey) \/
  (f = step_se /\ top = parseDictionaryValue).

(** What a run that reaches the end of the top-level value has gone through,
    for runs of at most [n] bytes: after the first byte [c] of a value, the
    rest of a value; in a list, values and the closing [e]; in a dictionary,
    entries and the closing [e]. *)
Definition value_back (n : nat) : Prop :=
  forall bs f ps b c s1 op sf,
    (List.length bs <= n)%nat ->
    sv (open_state f ps b 0 []) c = Ok (s1, op) -> op <> scanError ->
    steps s1 bs sf -> endTop sf = true ->
    exists v rest, bs = v ++ rest /\ bvalue (c :: v) /\
      steps (closed_state ps b) rest sf.

Definition list_back (n : nat) : Prop :=
  forall bs f ps b sf,
    (List.length bs <= n)%nat -> list_state f ->
    steps (open_state f (parseListValue :: ps) b 0 []) bs sf -> endTop sf = true ->
    exists vs rest, bs = vs ++ "e"%byte :: rest /\ bvalues vs /\
      steps (closed_state ps b) rest sf.

Definition dict_back (n : nat) : Prop :=
  forall bs f top ps b sf,
    (List.length bs <= n)%nat -> dict_state f top ->
    steps (open_state f (top :: ps) b 0 []) bs sf -> endTop sf = true ->
    exists es rest, bs = es ++ "e"%byte :: rest /\ bentries es /\
      steps (closed_state ps b) rest sf.

(** The count of bytes after [n] more of them. *)
Definition count_bytes (n : nat) (b : Z) : Z :=
  Nat.iter n (fun b => wrap_int64 (b + 1)) b.

(** The decode state of [Unmarshal] on [input] once [unmarshal] has scanned
    its first byte: the scanner [s1] and the opcode [op] of that step. *)
Definition begun (input : list byte) (op : opcode) (s1 : scanner) : decodeState :=
  mkDecodeState input 1 op s1 (mkErrorContext None "") None false false.

(** Steps that all return [scanContinue]: the ones [scanWhile(scanContinue)]
    goes through. *)
Inductive continues : scanner -> list byte -> scanner -> Prop :=
| continues_nil s : continues s [] s
| continues_cons s c s1 bs s' :
    scan_step s c = Ok (s1, scanContinue) -> continues s1 bs s' ->
    continues s (c :: bs) s'.

(** The kinds [integerStore] tells apart. *)
Definition signed_kind (k : reflect.Kind) : bool :=
  match k with
  | reflect.Int | reflect.Int8 | reflect.Int16 | reflect.Int32 | reflect.Int64 => true
  | _ => false
  end.
Definition unsigned_kind (k : reflect.Kind) : bool :=
  match k with
  | reflect.Uint | reflect.Uint8 | reflect.Uint16 | reflect.Uint32 | reflect.Uint64
  | reflect.Uintptr => true
  | _ => false
  end.
(** ** Values still open, and how deep they nest *)

(** The text of an integer after its [i], as far as it has come before its
    closing [e]: nothing yet, a minus sign, or the text of an integer. *)
Definition int_open (p : list byte) : bool :=
  match p with
  | [] => true
  | c :: p' =>
      if Byte.eqb c "-" then match p' with [] => true | _ => int_text p end
      else int_text p
  end.

(** A string still open: its length as far as it has come, or its length,
    the colon and fewer bytes than the length says. *)
Definition open_string (p : list byte) : Prop :=
  len_text p = true \/
  exists ds body n,
    p = ds ++ ":"%byte :: body /\ len_text ds = true /\ ParseUint ds = inr n /\
    len body < n.

(** [open_value p k]: the bytes [p] begin a value and do not complete it,
    and [k] tokens are open at their end: the value itself and those it has
    begun and not closed.  [open_values p k] and [open_entries p k]: the
    bytes [p] follow the [l] of a list, or the [d] of a dictionary, that is
    not closed, and [k] tokens are open inside of it. *)
Inductive open_value : list byte -> nat -> Prop :=
| ov_integer p : int_open p = true -> open_value ("i"%byte :: p) 1
| ov_string p : open_string p -> open_value p 1
| ov_list p k : open_values p k -> open_value ("l"%byte :: p) (S k)
| ov_dictionary p k : open_entries p k -> open_value ("d"%byte :: p) (S k)
with open_values : list byte -> nat -> Prop :=
| ovs_none : open_values [] 0
| ovs_inside p k : open_value p k -> open_values p k
| ovs_cons v p k : bvalue v -> open_values p k -> open_values (v ++ p) k
with open_entries : list byte -> nat -> Prop :=
| oes_none : open_entries [] 0
| oes_key p : open_string p -> open_entries p 1
| oes_keyed key : bstring key -> open_entries key 0
| oes_value key p k : bstring key -> open_value p k -> open_entries (key ++ p) k
| oes_cons key v p k :
    bstring key -> bvalue v -> open_entries p k -> open_entries (key ++ v ++ p) k.

Scheme open_value_ind' := Minimality for open_value Sort Prop
  with open_values_ind' := Minimality for open_values Sort Prop
  with open_entries_ind' := Minimality for open_entries Sort Prop.
Combined Scheme open_value_mutind
  from open_value_ind', open_values_ind', open_entries_ind'.

(** What a run of at most [n] bytes has gone through: after the first byte
    [c] of a value, a value and what follows it, or a value still open; in
    a list and in a dictionary likewise. *)
Definition value_trace (n : nat) : Prop :=
  forall bs f ps b c s1 op sf,
    (List.length bs <= n)%nat ->
    sv (open_state f ps b 0 []) c = Ok (s1, op) -> op <> scanError ->
    steps s1 bs sf ->
    (exists v rest, bs = v ++ rest /\ bvalue (c :: v) /\
       steps (closed_state ps b) rest sf) \/
    (exists k, open_value (c :: bs) k).

Definition list_trace (n : nat) : Prop :=
  forall bs f ps b sf,
    (List.length bs <= n)%nat -> list_state f ->
    steps (open_state f (parseListValue :: ps) b 0 []) bs sf ->
    (exists vs rest, bs = vs ++ "e"%byte :: rest /\ bvalues vs /\
       steps (closed_state ps b) rest sf) \/
    (exists k, open_values bs k).

Definition dict_trace (n : nat) : Prop :=
  forall bs f top ps b sf,
    (List.length bs <= n)%nat -> dict_state f top ->
    steps (open_state f (top :: ps) b 0 []) bs sf ->
    (exists es rest, bs = es ++ "e"%byte :: rest /\ bentries es /\
       steps (closed_state ps b) rest sf) \/
    (exists k, open_entries bs k).

(** * Index paths *)





(** * The decoder on a stream *)

Section StreamSpec.

Variable R : Type.

(** The bytes the decoder holds and has not consumed. *)
Definition unread (dec : Decoder R) : list byte :=
  skipn (Z.to_nat (dec_scanp dec)) (dec_buf dec).

(** A decoder between two values: it holds no error, its read position is
    in its buffer, the buffer is within its capacity, and the string count
    of its scanner is spent. *)
Definition ready (dec : Decoder R) : Prop :=
  dec_err dec = None /\ tokenValueAllowed dec = true /\
  0 <= dec_scanp dec <= len (dec_buf dec) /\
  (List.length (dec_buf dec) <= dec_cap dec)%nat /\
  string_ (dec_scan dec) = 0.

(** A byte source that delivers the bytes [holds] says it has left: a call
    of [Read] with room returns some of them, at most as many as there is
    room for, and no error; once none is left it returns [io.EOF]. *)
Definition delivers (Read : R -> nat -> list byte * option error * R)
  (holds : R -> list byte -> Prop) : Prop :=
  forall r c room, holds r c -> (0 < room)%nat ->
    match c with
    | [] => exists r', Read r room = ([], Some io_EOF, r') /\ holds r' []
    | _ =>
        exists chunk c' r',
          Read r room = (chunk, None, r') /\ c = chunk ++ c' /\ chunk <> [] /\
          (List.length chunk <= room)%nat /\ holds r' c'
    end.

End StreamSpec.

(** * Dictionaries of strings *)

(** The step a string length begins with, by its first digit. *)
Definition string_begins (c0 : byte) : stepFn :=
  if Byte.eqb c0 "0" then step_ssl0 else step_ssl.

(** What the binder reads for a string with the body [body]: the body, or
    the colon before it when the body is empty. *)
Definition read_string (body : list byte) : list byte :=
  match body with
  | [] => [":"%byte]
  | _ => body
  end.

(** An entry of a dictionary of strings: the length text and the body of
    the key, and those of the value. *)
Definition entry : Type := list byte * list byte * list byte * list byte.

Definition entry_text (en : entry) : list byte :=
  let '(kds, kb, vds, vb) := en in kds ++ ":"%byte :: kb ++ vds ++ ":"%byte :: vb.

Definition entries_text (es : list entry) : list byte :=
  List.concat (map entry_text es).

Definition entry_ok (en : entry) : Prop :=
  let '(kds, kb, vds, vb) := en in
  len_text kds = true /\ ParseUint kds = inr (len kb) /\
  len_text vds = true /\ ParseUint vds = inr (len vb).

(** The type [string]. *)
Definition strings : gotype := TBasic reflect.String.

(** The entries bound into a map, one after the other. *)
Definition bind_entries (m : list (list byte * goval)) (es : list entry)
  : list (list byte * goval) :=
  fold_left
    (fun m (en : entry) =>
       let '(_, kb, _, vb) := en in map_set (read_string kb) (VString (read_string vb)) m)
    es m.

(** Where the loop of [dictionary] stands before the entries [es]: at the
    first digit of a key, or at the closing [e]. *)
Definition at_key (d : decodeState) (es : list entry) (rest : list byte) (b : Z) : Prop :=
  0 <= off d /\
  match es with
  | [] => opcode_ d = scanEndDictionary /\ scan d = closed_state [] b
  | (kds, kb, vds, vb) :: es' =>
      exists c0 kds',
        kds = c0 :: kds' /\ opcode_ d = scanBeginString /\
        scan d = open_state (string_begins c0)
                   [parseStringLength; parseDictionaryKey] b 0 [c0] /\
        skipn (Z.to_nat (off d)) (data d) =
          kds' ++ ":"%byte :: kb ++ vds ++ ":"%byte :: vb ++ entries_text es'
          ++ "e"%byte :: rest
  end.

(** ** Dictionaries of strings into the string fields of a struct *)

Definition is_string (x : goval) : bool :=
  match x with
  | VString _ => true
  | _ => false
  end.

(** An entry bound into the values of the fields of a struct: the field
    its key names, if any, takes the value. *)
Definition bind_field (fields : list field) (vals : list goval) (en : entry)
  : list goval :=
  let '(_, kb, _, vb) := en in
  match find_field fields (read_string kb) None with
  | Some f =>
      match index f with
      | [i] => set_nth i (VString (read_string vb)) vals
      | _ => vals
      end
  | None => vals
  end.

(** The field the key of an entry names, if any, is a field of the struct
    itself, not of an embedded one, and holds a string. *)
Definition field_fits (fields : list field) (sfs : list (StructField gotype))
  (vals : list goval) (en : entry) : Prop :=
  let '(_, kb, _, _) := en in
  match find_field fields (read_string kb) None with
  | Some f =>
      quoted f = false /\
      exists i, index f = [i] /\ (i < List.length sfs)%nat /\
                option_map is_string (nth_error vals i) = Some true
  | None => True
  end.

(** [type Pair struct{Foo, Bar string}] *)
Definition pair_fields : list (StructField gotype) :=
  [exported "Foo" strings; exported "Bar" strings].

(** * Lists of integers *)

(** The text of a list element that is an integer with the digits [ds],
    and the text of such elements in a row. *)
Definition item_text (ds : list byte) : list byte := "i"%byte :: ds ++ ["e"%byte].

Definition items_text (dss : list (list byte)) : list byte :=
  List.concat (map item_text dss).

(** The integer text [ds] reads as [n], which a signed integer of kind [kd]
    can hold. *)
Definition item_ok (kd : reflect.Kind) (ds : list byte) (n : Z) : Prop :=
  int_text ds = true /\ ParseInt ds = inr n /\ OverflowInt kd n = false.

(** The elements of [arr] are signed integers of kind [kd]. *)
Definition ints_of (kd : reflect.Kind) (arr : list goval) : Prop :=
  Forall (fun x => exists old, x = VInt kd old) arr.

(** Where the loop of [list] stands before the elements [dss]: past the
    [i] of the first, or past the closing [e]. *)
Definition at_item (d : decodeState) (dss : list (list byte)) (rest : list byte) : Prop :=
  0 <= off d /\
  exists b,
    match dss with
    | [] => opcode_ d = scanEndList /\ scan d = closed_state [] b
    | ds :: dss' =>
        opcode_ d = scanBeginInteger /\
        scan d = open_state step_si [parseInteger; parseListValue] b 0 [] /\
        skipn (Z.to_nat (off d)) (data d) =
          ds ++ "e"%byte :: items_text dss' ++ "e"%byte :: rest
    end.
(** * Dictionaries into structs: the first error *)






















(** * The grammar-conformance table *)

(** C1: on each input of the grammar-conformance table the validator returns
    the listed boolean. *)
Theorem Valid_conformance_table :
  Valid (bytes_of "d") = Ok false /\
  Valid (bytes_of "de") = Ok true /\
  Valid (bytes_of "le") = Ok true /\
  Valid (bytes_of "i0e") = Ok true /\
  Valid (bytes_of "i-0e") = Ok false /\
  Valid (bytes_of "i01e") = Ok false /\
  Valid (bytes_of "0:") = Ok true /\
  Valid (bytes_of "1:") = Ok false /\
  Valid (bytes_of "1:a") = Ok true /\
  Valid (bytes_of "d3:fooi0ee") = Ok true /\
  Valid (bytes_of "d3:fooe") = Ok false /\
  Valid (bytes_of "d0:0:e") = Ok true /\
  Valid (bytes_of "llleee") = Ok true /\
  Valid (bytes_of "ld0:0:e0:e") = Ok true.
Proof.
  repeat split; vm_compute; reflexivity.
Qed.

Lemma byte_in_digit c : byte_in "0" "9" c = true -> 0 <= digit_val c <= 9.
Proof.
  unfold byte_in, byte_le, digit_val. rewrite andb_true_iff, !N.leb_le.
  change (Byte.to_N "0") with 48%N. change (Byte.to_N "9") with 57%N. lia.
Qed.

Lemma parseUint_digits_range s : forall n m,
  0 <= n -> parseUint_digits n s = inr m -> 0 <= m < 2 ^ 64 \/ (s = [] /\ m = n).
Proof.
  induction s as [|c s IH]; cbn [parseUint_digits]; intros n m Hn H.
  - right. split; congruence.
  - destruct (byte_in "0" "9" c) eqn:Hc; [|discriminate].
    apply byte_in_digit in Hc.
    destruct (2 ^ 64 <=? n * 10 + digit_val c) eqn:Hov; [discriminate|].
    apply Z.leb_gt in Hov.
    apply IH in H; [|lia]. destruct H as [H|[-> ->]]; left; lia.
Qed.

Lemma ParseUint_range s n : ParseUint s = inr n -> 0 <= n < 2 ^ 64.
Proof.
  destruct s as [|c s]; [discriminate|]. unfold ParseUint. intros H.
  apply parseUint_digits_range in H; [|lia].
  destruct H as [H|[H _]]; [exact H|discriminate H].
Qed.

Lemma wrap_uint64_pred n : 0 < n < 2 ^ 64 -> wrap_uint64 (n - 1) = n - 1.
Proof. intros H. unfold wrap_uint64. apply Z.mod_small. lia. Qed.

Lemma reset_inv s : string_ s = 0 -> scanner_inv (reset s).
Proof.
  intros H. unfold scanner_inv, reset; simpl. repeat split; try congruence; auto.
Qed.

Lemma set_bytes_inv s n : scanner_inv s -> scanner_inv (set_bytes s n).
Proof. exact (fun H => H). Qed.

Ltac break_if :=
  match goal with
  | |- context [if ?b then _ else _] => destruct b eqn:?
  end.

Ltac unfold_steps :=
  unfold sv, sd, ssl0, ssl, ssf, ss, se, sl, si, sin, si0, sil, ssle, stateEndTop,
    stateError, begin_string, scan_error, pushParseState, popParseState, set_top, bind,
    set_step, set_parseState, set_endTop, set_err, set_bytes, set_string, set_digits.

(** One step from a state of the invariant: it does not panic, it keeps the
    invariant, it moves the stack as its opcode says, it returns [scanError]
    exactly when it latches the error state, and it never comes back to the
    initial transition function. *)
Lemma step_preserves c s :
  scanner_inv s ->
  exists s' op, scan_step s c = Ok (s', op) /\ scanner_inv s' /\
    frame_discipline s op s' /\
    (op = scanError <-> step s' = step_stateError) /\
    step s' <> step_sv.
Proof.
  destruct s as [st ps et er by_ str dg].
  unfold scanner_inv, scan_step, frame_discipline; simpl.
  intros (Hf & He & Herr & Hstr).
  destruct st; simpl in Hf, Hstr; try discriminate;
    destruct ps as [|f rest]; try discriminate; try (destruct f; try discriminate);
    try (destruct rest as [|g rest];
         [|simpl in Hf; apply andb_prop in Hf; destruct Hf as [Hg Hf]]).
  all: do 3 (unfold_steps; cbn -[Z.pow wrap_uint64 Z.eqb]).
  all: try (subst str; cbn -[Z.pow wrap_uint64]).
  all: try (rewrite (wrap_uint64_pred Hstr)).
  all: try match goal with |- context [ParseUint ?d] =>
         destruct (ParseUint d) as [e|n] eqn:HP; [|apply ParseUint_range in HP] end.
  all: repeat break_if.
  all: do 2 eexists; (split; [reflexivity|]); cbn -[Z.pow].
  all: try rewrite Hg; try rewrite Hf; cbn -[Z.pow].
  all: repeat match goal with
       | H : Z.eqb _ _ = _ |- _ =>
           rewrite ?H; first [apply Z.eqb_eq in H | apply Z.eqb_neq in H]
       end.
  all: repeat match goal with
       | |- _ /\ _ => split
       | |- exists _, _ => eexists
       | |- _ <-> _ => split; intros
       end.
  all: try reflexivity; try congruence; try lia; try tauto.
  all: try (intuition (try congruence; try discriminate); fail).
Qed.

Lemma same_tokens_length ps ps' : same_tokens ps ps' -> List.length ps = List.length ps'.
Proof.
  destruct ps, ps'; simpl; try tauto. intros [_ ->]. reflexivity.
Qed.

Lemma discipline_depth t :
  follows_discipline t ->
  Z.of_nat (List.length (parseState (after t))) =
  Z.of_nat (List.length (parseState (before t))) + depth_change t.
Proof.
  unfold follows_discipline, frame_discipline, depth_change.
  destruct (entering (emitted t)).
  - intros (ps & -> & H). apply same_tokens_length in H. cbn [List.length]. lia.
  - destruct (parseState (before t)) as [|top rest].
    + intros ->. reflexivity.
    + destruct (closes top (emitted t) (string_ (after t))).
      * intros ->. cbn [List.length]. lia.
      * intros H. apply same_tokens_length in H. rewrite <- H. lia.
Qed.

Lemma feed_invariant bs : forall s,
  scanner_inv s ->
  exists tr s', feed s bs = Ok (tr, s') /\ scanner_inv s' /\
    Forall follows_discipline tr /\
    Z.of_nat (List.length (parseState s')) =
      Z.of_nat (List.length (parseState s)) + nesting_depth tr /\
    (bs <> [] -> step s' <> step_sv).
Proof.
  induction bs as [|c bs IH]; intros s Hs.
  - exists [], s. cbn [feed nesting_depth fold_right].
    split; [reflexivity|]. split; [exact Hs|]. split; [constructor|].
    split; [lia|]. intros H. now elim H.
  - destruct (step_preserves c Hs) as (s1 & op & E1 & Hs1 & Hd & _ & Hsv).
    destruct (IH s1 Hs1) as (tr & s2 & E2 & Hs2 & Hall & Hlen & Hne).
    exists (mkTransition s c op s1 :: tr), s2.
    cbn [feed]. rewrite E1. cbn [bind]. rewrite E2. cbn [bind].
    split; [reflexivity|]. split; [exact Hs2|].
    split; [constructor; [exact Hd|exact Hall]|]. split.
    + pose proof (discipline_depth (mkTransition s c op s1) Hd) as H.
      cbn [before after] in H. unfold nesting_depth in *.
      cbn [fold_right]. lia.
    + intros _. destruct bs; [|apply Hne; discriminate].
      simpl in E2. injection E2 as _ <-. exact Hsv.
Qed.

(** With no error latched, an empty stack means the initial transition
    function or the end of the top-level value. *)
Lemma inv_empty_stack s :
  scanner_inv s -> err s = None ->
  (parseState s = [] <-> step s = step_sv \/ endTop s = true).
Proof.
  destruct s as [st ps et er by_ str dg]. unfold scanner_inv; simpl.
  intros (Hf & He & Herr & _) ->.
  destruct st, ps; simpl in Hf; try discriminate; intuition congruence.
Qed.

(** * End of input *)

(** C7, as stated, fails on a scanner that has been reset and fed nothing:
    its frame stack is empty and its sticky error unset, yet [eof] returns the
    error opcode with "unexpected end of Bencode input", and the validator
    rejects the empty input. *)
Lemma eof_rejects_reset_scanner :
  parseState (reset zero_scanner) = [] /\
  err (reset zero_scanner) = None /\
  snd (eof (reset zero_scanner)) = scanError /\
  err (fst (eof (reset zero_scanner))) = Some (SyntaxError UnexpectedEndOfInput 0) /\
  Valid [] = Ok false.
Proof. repeat split. Qed.

(** C7, amended: after any bytes fed from the reset state, [eof] returns
    "end" exactly when the frame stack is empty, the sticky error is unset and
    at least one byte has been fed (a top-level value is complete), leaving
    the scanner as it is; in every other case it returns the error opcode,
    keeping a sticky error that is already set and setting "unexpected end of
    Bencode input" otherwise.  In particular a scan that leaves a frame on the
    stack is rejected. *)
Theorem eof_after_feed (bs : list byte) :
  exists tr s, feed (reset zero_scanner) bs = Ok (tr, s) /\
    (snd (eof s) = scanEnd <-> parseState s = [] /\ err s = None /\ bs <> []) /\
    (snd (eof s) = scanEnd /\ fst (eof s) = s \/
     snd (eof s) = scanError /\
     err (fst (eof s)) =
       match err s with
       | Some e => Some e
       | None => Some (SyntaxError UnexpectedEndOfInput (bytes s))
       end) /\
    (parseState s <> [] -> snd (eof s) = scanError).
Proof.
  destruct (@feed_invariant bs (reset zero_scanner)) as (tr & s & E & Hs & _ & _ & Hsv).
  { apply reset_inv. reflexivity. }
  exists tr, s. split; [exact E|].
  assert (Hend : snd (eof s) = scanEnd <-> err s = None /\ endTop s = true).
  { unfold eof. destruct (err s); [split; [discriminate|intros [H _]; discriminate H]|].
    destruct (endTop s); cbn [snd]; split; auto; try discriminate.
    intros [_ H]; discriminate H. }
  assert (Htop : err s = None -> (endTop s = true <-> parseState s = [] /\ bs <> [])).
  { intros Herr. pose proof (inv_empty_stack Hs Herr) as Hemp.
    destruct Hs as (Hf & He & _ & _). split.
    - intros H. split; [apply Hemp; right; exact H|].
      intros ->. simpl in E. injection E as _ <-. discriminate H.
    - intros [H Hne]. apply Hemp in H. destruct H as [H|H]; [|exact H].
      elim (Hsv Hne H). }
  split; [|split].
  - rewrite Hend. split.
    + intros [Herr H]. apply (Htop Herr) in H. tauto.
    + intros (H & Herr & Hne). split; [exact Herr|]. apply (Htop Herr). tauto.
  - unfold eof. destruct (err s) eqn:Herr;
      [right; cbn [fst snd]; rewrite Herr; split; reflexivity|].
    destruct (endTop s); [left|right]; split; reflexivity.
  - intros Hne. clear Hend. unfold eof.
    destruct (err s) eqn:Herr; [reflexivity|].
    destruct (endTop s) eqn:Hend; [|reflexivity].
    elim Hne. apply (Htop eq_refl). reflexivity.
Qed.

(** * Bytes after the top-level value *)

Lemma checkValid_loop_endTop sfx : forall s,
  step s = step_stateEndTop -> err s = None -> endTop s = true ->
  exists s', checkValid_loop sfx s = Ok (s', None).
Proof.
  induction sfx as [|c sfx IH]; intros s Hst Herr Hend.
  - exists s. cbn [checkValid_loop]. unfold eof. rewrite Herr, Hend. reflexivity.
  - cbn [checkValid_loop]. unfold scan_step. cbn [set_bytes step].
    rewrite Hst. cbn [bind stateEndTop opcode_eqb]. apply IH; assumption.
Qed.

Lemma checkValid_loop_app v : forall s s1,
  scanner_inv s -> checkValid_loop v s = Ok (s1, None) ->
  forall sfx, exists s2, checkValid_loop (v ++ sfx) s = Ok (s2, None).
Proof.
  induction v as [|c v IH]; intros s s1 Hs H sfx.
  - cbn [checkValid_loop] in H. unfold eof in H.
    destruct (err s) eqn:Herr; [cbn [opcode_eqb] in H; congruence|].
    destruct (endTop s) eqn:Hend; cbn [opcode_eqb] in H; [|discriminate H].
    apply checkValid_loop_endTop; auto. apply Hs. exact Hend.
  - cbn [checkValid_loop app] in *.
    destruct (@step_preserves c (set_bytes s (wrap_int64 (bytes s + 1))))
      as (s' & op & E & Hs' & _ & Hop & _); [exact Hs|].
    rewrite E in *. cbn [bind] in *.
    destruct (opcode_eqb op scanError) eqn:Eop.
    + exfalso. assert (op = scanError) as -> by (destruct op; discriminate || reflexivity).
      destruct Hs' as (_ & _ & Herr & _).
      injection H as _ H. apply Herr in H. apply H. apply Hop. reflexivity.
    + eapply IH; eauto.
Qed.

(** C10: bytes after a complete top-level value are accepted whatever they
    are: when the validator accepts [v] it accepts [v ++ sfx]. *)
Theorem Valid_trailing_bytes (v sfx : list byte) :
  Valid v = Ok true -> Valid (v ++ sfx) = Ok true.
Proof.
  unfold Valid, checkValid. intros H.
  destruct (checkValid_loop v (reset zero_scanner)) as [[s1 [e|]]|m|] eqn:E;
    cbn [bind] in H; try discriminate H.
  destruct (@checkValid_loop_app v (reset zero_scanner) s1 (reset_inv zero_scanner eq_refl) E sfx)
    as (s2 & ->).
  reflexivity.
Qed.

(** The integer [i0e] followed by bytes that are no Bencode. *)
Lemma Valid_trailing_bytes_witness :
  Valid (bytes_of "i0e") = Ok true /\
  Valid (bytes_of "i0e" ++ bytes_of "garbage") = Ok true.
Proof.
  split; [reflexivity|]. apply Valid_trailing_bytes. reflexivity.
Defined.

(** * The one-shot decode and its destination *)

Lemma checkValid_loop_total input : forall s,
  scanner_inv s -> exists s' e, checkValid_loop input s = Ok (s', e).
Proof.
  induction input as [|c input IH]; intros s Hs; cbn [checkValid_loop].
  - destruct (eof s) as [s' op]. destruct (opcode_eqb op scanError); eauto.
  - destruct (@step_preserves c (set_bytes s (wrap_int64 (bytes s + 1))))
      as (s' & op & E & Hs' & _); [exact Hs|].
    rewrite E. cbn [bind]. destruct (opcode_eqb op scanError); eauto.
Qed.

(** C6, as stated, fails on an input that is not valid Bencode: with a nil
    destination, and with a destination that is no pointer, [Unmarshal] scans
    the input and returns the scanner's syntax error, at the offset the scan
    reached, and no invalid-destination error. *)
Lemma Unmarshal_scans_before_destination_check :
  Unmarshal (bytes_of "x") None =
    Ok (None, Some (ScanError (SyntaxError (InvalidCharacter "x" "looking for value") 1))) /\
  Unmarshal (bytes_of "i1x") (Some (VInt reflect.Int 0)) =
    Ok (Some (VInt reflect.Int 0),
        Some (ScanError (SyntaxError (InvalidCharacter "x" "looking for integer") 3))).
Proof. split; reflexivity. Qed.

(** C6, amended: for a destination that is nil, no pointer or a nil pointer,
    [Unmarshal] first validates the whole input; when the input is not valid
    Bencode it returns the syntax error, and otherwise the invalid-destination
    error, which the binder ([unmarshal]) reports before it resets or steps
    its scanner, leaving the decode state and the destination as they were. *)
Theorem Unmarshal_invalid_destination {X : Externals} (input : list byte)
  (v : option goval) :
  settable v = false ->
  (forall fuel d,
     unmarshal fuel d v = Ok (d, v, Some (InvalidUnmarshalError (option_map typeOf v)))) /\
  exists s e,
    checkValid input zero_scanner = Ok (s, e) /\
    Unmarshal input v =
      Ok (v, Some (match e with
                   | Some e => ScanError e
                   | None => InvalidUnmarshalError (option_map typeOf v)
                   end)).
Proof.
  intros Hv.
  assert (Hun : forall fuel d,
            unmarshal fuel d v = Ok (d, v, Some (InvalidUnmarshalError (option_map typeOf v)))).
  { intros fuel d. unfold unmarshal.
    destruct v as [[]|]; try reflexivity.
    destruct p; [discriminate Hv|reflexivity]. }
  split; [exact Hun|].
  destruct (@checkValid_loop_total input (reset zero_scanner) (reset_inv zero_scanner eq_refl))
    as (s & e & E).
  exists s, e. split; [exact E|].
  unfold Unmarshal. cbn [scan zero_decodeState]. unfold checkValid in E |- *.
  rewrite E. cbn [bind]. destruct e; [reflexivity|].
  rewrite Hun. reflexivity.
Qed.

(** The integer [i0e] and a nil destination. *)
Lemma Unmarshal_invalid_destination_witness :
  settable None = false /\
  exists s e,
    checkValid (bytes_of "i0e") zero_scanner = Ok (s, e) /\
    Unmarshal (bytes_of "i0e") None =
      Ok (None, Some (match e with
                      | Some e => ScanError e
                      | None => InvalidUnmarshalError None
                      end)).
Proof.
  split; [reflexivity|].
  exact (proj2 (@Unmarshal_invalid_destination stdExternals (bytes_of "i0e") None eq_refl)).
Defined.

(** * Storing a string *)

(** C2 at its failing inputs.  The body [YWJj] decoded into a [[]byte] is
    stored as the three bytes [abc], its base64 decoding, and the body [a],
    which is no base64 text, is not stored at all: an error is recorded.
    The empty body of [0:] decoded into a [string] is stored as the one byte
    [:], the length's delimiter; a body that is not empty is stored into a
    [string] as it is. *)
Theorem string_body_not_verbatim :
  Unmarshal (bytes_of "4:YWJj") (Some (VPtr (TSlice (TBasic reflect.Uint8)) (Some empty_bytes))) =
    Ok (Some (VPtr (TSlice (TBasic reflect.Uint8))
                (Some (VSlice (TBasic reflect.Uint8) 3 (map byte_val (bytes_of "abc"))))),
        None) /\
  Unmarshal (bytes_of "1:a") (Some (VPtr (TSlice (TBasic reflect.Uint8)) (Some empty_bytes))) =
    Ok (Some (VPtr (TSlice (TBasic reflect.Uint8)) (Some empty_bytes)),
        Some (CorruptInputError 0)) /\
  Unmarshal (bytes_of "0:") (Some (VPtr (TBasic reflect.String) (Some (VString [])))) =
    Ok (Some (VPtr (TBasic reflect.String) (Some (VString (bytes_of ":")))), None) /\
  Unmarshal (bytes_of "4:YWJj") (Some (VPtr (TBasic reflect.String) (Some (VString [])))) =
    Ok (Some (VPtr (TBasic reflect.String) (Some (VString (bytes_of "YWJj")))), None).
Proof. repeat split; vm_compute; reflexivity. Qed.

Lemma DecodedLen_lt n : (0 < n)%nat -> (DecodedLen n < n)%nat.
Proof.
  intros H. unfold DecodedLen. pose proof (Nat.Div0.mul_div_le n 4). lia.
Qed.

(** Whatever [base64.StdEncoding.Decode] returns, a body stored into a
    [[]byte] is stored shorter than it is: the store either records an error
    and leaves the destination as it was, or sets it to fewer bytes than the
    body has. *)
Lemma stringStore_bytes_never_verbatim {X : Externals} d item n arr d' v' r :
  item <> [] ->
  stringStore d item (VSlice (TBasic reflect.Uint8) n arr) false = Ok (d', v', r) ->
  v' = VSlice (TBasic reflect.Uint8) n arr \/
  exists w pad, v' = VSlice (TBasic reflect.Uint8) (List.length w) (map byte_val w ++ pad) /\
    (List.length w < List.length item)%nat.
Proof.
  intros Hne. unfold stringStore. destruct item as [|c item]; [congruence|].
  cbn [indirect type_Kind reflect.Kind_eqb negb].
  destruct (base64_Decode (c :: item)) as [w [o|]].
  - destruct (saveError d (CorruptInputError o)); cbn [bind]; try discriminate.
    intros H. injection H as _ <- _. left. reflexivity.
  - destruct (Nat.ltb (DecodedLen (List.length (c :: item))) (List.length w)) eqn:E;
      [discriminate|].
    intros H. injection H as _ <- _. right. eexists _, _. split; [reflexivity|].
    apply Nat.ltb_ge in E.
    pose proof (@DecodedLen_lt (List.length (c :: item))) as Hlt.
    cbn [List.length] in *. lia.
Qed.

(** A body stored into a [string] is stored as it is. *)
Lemma stringStore_string_verbatim {X : Externals} d c item s :
  stringStore d (c :: item) (VString s) false = Ok (d, VString (c :: item), None).
Proof. reflexivity. Qed.

(** * The first error of a decode session *)

Lemma keeps_first_refl d : keeps_first d d.
Proof. intros e H. exact H. Qed.



Lemma saveError_keeps d e d' : saveError d e = Ok d' -> keeps_first d d'.
Proof.
  unfold saveError. intros H e0 He0. rewrite He0 in H. injection H as <-. exact He0.
Qed.

Lemma saveError_sets d e d' : saveError d e = Ok d' -> savedError d' <> None.
Proof.
  unfold saveError. destruct (savedError d) eqn:Es.
  - intros H. injection H as <-. congruence.
  - destruct (addErrorContext d e); cbn [bind]; try discriminate.
    intros H. injection H as <-. discriminate.
Qed.

Ltac inv_ok :=
  repeat match goal with
  | H : Ok _ = Ok _ |- _ => injection H as H; try subst
  | H : (_, _) = (_, _) |- _ => injection H as H; try subst
  | H : bind ?r _ = Ok _ |- _ =>
      let E := fresh "E" in destruct r eqn:E; cbn [bind] in H; [|discriminate H..]
  | H : context [let '(_, _) := ?p in _] |- _ =>
      let E := fresh "E" in destruct p eqn:E
  | H : (if ?b then _ else _) = Ok _ |- _ =>
      let E := fresh "E" in destruct b eqn:E; try discriminate H
  | H : Panic _ = Ok _ |- _ => discriminate H
  | H : OutOfFuel = Ok _ |- _ => discriminate H
  end.




Section FirstError.

Context {X : Externals}.

Lemma mismatch_keeps d what t k d' v' r :
  mismatch d what t k = Ok (d', v', r) -> r = None /\ keeps_first d d'.
Proof.
  unfold mismatch. intros H. inv_ok. split; [reflexivity|].
  eapply saveError_keeps; eassumption.
Qed.

Lemma integerStore_keeps d item v d' v' r :
  integerStore d item v false = Ok (d', v', r) -> r = None /\ keeps_first d d'.
Proof.
  unfold integerStore. intros H.
  destruct item as [|c item].
  - inv_ok. split; [reflexivity|]. eapply saveError_keeps; eassumption.
  - destruct (indirect v) as [t k].
    destruct (negb (Byte.eqb c "-") && (negb (byte_le "0" c) || negb (byte_le c "9")));
      [discriminate H|].
    destruct t; try (eapply mismatch_keeps; eassumption).
    + destruct (ParseInt (c :: item)); [eapply mismatch_keeps; eassumption|].
      destruct (OverflowInt k0 z); [eapply mismatch_keeps; eassumption|].
      inv_ok. split; [reflexivity|apply keeps_first_refl].
    + destruct k0; try (eapply mismatch_keeps; eassumption);
        (destruct (ParseUint (c :: item)); [eapply mismatch_keeps; eassumption|]);
        (destruct (OverflowUint _ z); [eapply mismatch_keeps; eassumption|]);
        inv_ok; (split; [reflexivity|apply keeps_first_refl]).
    + destruct (ParseFloat_ok _ _ && _); [|eapply mismatch_keeps; eassumption].
      inv_ok. split; [reflexivity|apply keeps_first_refl].
    + destruct (convertNumber d (c :: item)).
      * inv_ok. split; [reflexivity|]. eapply saveError_keeps; eassumption.
      * destruct (negb (Nat.eqb numMethod 0)); [eapply mismatch_keeps; eassumption|].
        inv_ok. split; [reflexivity|apply keeps_first_refl].
Qed.

Lemma stringStore_keeps d item v d' v' r :
  stringStore d item v false = Ok (d', v', r) -> r = None /\ keeps_first d d'.
Proof.
  unfold stringStore. intros H.
  destruct item as [|c item].
  - inv_ok. split; [reflexivity|]. eapply saveError_keeps; eassumption.
  - destruct (indirect v) as [t k].
    destruct t; try (eapply mismatch_keeps; eassumption).
    + inv_ok. split; [reflexivity|apply keeps_first_refl].
    + destruct (negb (reflect.Kind_eqb (type_Kind elem) reflect.Uint8));
        [eapply mismatch_keeps; eassumption|].
      destruct (base64_Decode (c :: item)) as [w [o|]].
      * inv_ok. split; [reflexivity|]. eapply saveError_keeps; eassumption.
      * inv_ok. split; [reflexivity|apply keeps_first_refl].
    + destruct (Nat.eqb numMethod 0); [|eapply mismatch_keeps; eassumption].
      inv_ok. split; [reflexivity|apply keeps_first_refl].
Qed.



Section Loops.

Variable value_rec :
  decodeState -> option goval -> result (decodeState * option goval * option error).

Hypothesis value_rec_keeps : forall d v d' v' r,
  value_rec d v = Ok (d', v', r) -> r = None /\ keeps_first d d'.






End Loops.


End FirstError.

(** * Lists into slices and arrays *)

Lemma set_nth_length i x l : List.length (set_nth i x l) = List.length l.
Proof.
  revert i. induction l as [|y l IH]; intros [|i]; cbn [set_nth List.length]; auto.
Qed.

Lemma set_nth_same i x l :
  (i < List.length l)%nat -> nth_error (set_nth i x l) i = Some x.
Proof.
  revert i. induction l as [|y l IH]; intros [|i]; cbn [set_nth List.length nth_error];
    intros H; try lia; auto. apply IH. lia.
Qed.

Lemma set_nth_other i j x l : i <> j -> nth_error (set_nth i x l) j = nth_error l j.
Proof.
  revert i j. induction l as [|y l IH]; intros [|i] [|j]; cbn [set_nth nth_error];
    intros H; try congruence; auto.
Qed.

Lemma set_nth_beyond i x l : (List.length l <= i)%nat -> set_nth i x l = l.
Proof.
  revert i. induction l as [|y l IH]; intros [|i]; cbn [set_nth List.length];
    intros H; try lia; auto. f_equal. apply IH. lia.
Qed.

Lemma nth_error_nth j (l : list goval) z :
  (j < List.length l)%nat -> nth_error l j = Some (nth j l z).
Proof.
  revert j. induction l as [|y l IH]; intros [|j]; cbn [List.length nth_error nth];
    intros H; try lia; auto. apply IH. lia.
Qed.

Lemma nth_set_nth_other i j x l z : i <> j -> nth j (set_nth i x l) z = nth j l z.
Proof.
  revert i j. induction l as [|y l IH]; intros [|i] [|j]; cbn [set_nth nth];
    intros H; try congruence; auto.
Qed.

(** Two lists that agree on their first [n] elements have the same first
    [n] elements. *)
Lemma firstn_by_nth_error n : forall (l l' : list goval),
  List.length l' = n -> (n <= List.length l)%nat ->
  (forall j, (j < n)%nat -> nth_error l j = nth_error l' j) ->
  firstn n l = l'.
Proof.
  induction n as [|n IH]; intros l l' Hl' Hl H.
  - destruct l'; [reflexivity|discriminate Hl'].
  - destruct l' as [|y l']; [discriminate Hl'|].
    destruct l as [|x l]; [cbn [List.length] in Hl; lia|].
    cbn [firstn]. f_equal.
    + specialize (H 0%nat ltac:(lia)). cbn [nth_error] in H. congruence.
    + apply IH.
      * cbn [List.length] in Hl'. lia.
      * cbn [List.length] in Hl. lia.
      * intros j Hj. specialize (H (S j) ltac:(lia)). exact H.
Qed.

Lemma grown_cap_spec cap : grown_cap cap = Nat.max 4 (cap + cap / 2).
Proof.
  unfold grown_cap. destruct (Nat.ltb (cap + cap / 2) 4) eqn:E.
  - apply Nat.ltb_lt in E. lia.
  - apply Nat.ltb_ge in E. lia.
Qed.

Lemma grown_cap_gt cap : (cap < grown_cap cap)%nat.
Proof.
  rewrite grown_cap_spec.
  destruct (Nat.le_gt_cases 2 cap) as [H|H].
  - assert (1 <= cap / 2)%nat by (apply Nat.div_le_lower_bound; lia). lia.
  - lia.
Qed.

(** The capacity after the elements holds them all, and is the capacity
    before when that already did. *)
Lemma cap_after_ge count : forall cap i,
  (i <= cap)%nat -> (i + count <= cap_after cap i count)%nat.
Proof.
  induction count as [|count IH]; intros cap i H; cbn [cap_after]; [lia|].
  destruct (Nat.leb cap i) eqn:E.
  - pose proof (grown_cap_gt cap). specialize (IH (grown_cap cap) (S i) ltac:(lia)). lia.
  - apply Nat.leb_gt in E. specialize (IH cap (S i) ltac:(lia)). lia.
Qed.

Lemma cap_after_fits count : forall cap i,
  (i + count <= cap)%nat -> cap_after cap i count = cap.
Proof.
  induction count as [|count IH]; intros cap i H; cbn [cap_after]; [reflexivity|].
  destruct (Nat.leb cap i) eqn:E.
  - apply Nat.leb_le in E. lia.
  - apply IH. lia.
Qed.

(** The capacity after the elements comes from the capacity before by
    growth steps alone. *)
Lemma cap_after_iter count : forall cap i,
  exists k, cap_after cap i count = Nat.iter k grown_cap cap.
Proof.
  induction count as [|count IH]; intros cap i; cbn [cap_after].
  - exists 0%nat. reflexivity.
  - destruct (Nat.leb cap i).
    + destruct (IH (grown_cap cap) (S i)) as [k Hk]. exists (S k).
      rewrite Hk. symmetry. apply Nat.iter_succ_r.
    + apply IH.
Qed.

Lemma skipn_repeat (x : goval) m : forall n, skipn n (repeat x m) = repeat x (m - n).
Proof.
  induction m as [|m IH]; intros [|n]; cbn [skipn repeat Nat.sub]; auto.
Qed.

Lemma copy_prefix_full (arr : list goval) z m :
  copy_prefix (List.length arr) arr (repeat z m) = arr ++ repeat z (m - List.length arr).
Proof.
  unfold copy_prefix. rewrite firstn_all, skipn_repeat. reflexivity.
Qed.

Lemma stored_elems_slice_length e arr0 xs : forall i,
  List.length (stored_elems (slice_slot e arr0) i xs) = List.length xs.
Proof.
  induction xs as [|x xs IH]; intros i; cbn [stored_elems List.length]; [reflexivity|].
  destruct x; cbn [slice_slot List.length]; rewrite IH; reflexivity.
Qed.

Section ListLoop.

Variable value_rec :
  decodeState -> option goval -> result (decodeState * option goval * option error).

(** The loop of [list] on a slice, against the elements it decodes. *)
Lemma list_loop_slice e arr0 fuel : forall d n arr i d' xs,
  (i <= n)%nat -> (n <= List.length arr)%nat ->
  (forall j, (i <= j)%nat -> nth j arr (zero e) = nth j arr0 (zero e)) ->
  decode_elements value_rec fuel d (slice_slot e arr0) i = Ok (d', xs, None) ->
  exists arr',
    list_loop value_rec fuel d (VSlice e n arr) i =
      Ok (d', VSlice e (Nat.max n (i + List.length xs)) arr', (i + List.length xs)%nat, None) /\
    List.length arr' = cap_after (List.length arr) i (List.length xs) /\
    (forall j, (j < i)%nat -> nth_error arr' j = nth_error arr j) /\
    (forall j, (j < List.length xs)%nat ->
       nth_error arr' (i + j) = nth_error (stored_elems (slice_slot e arr0) i xs) j).
Proof.
  induction fuel as [|fuel IH]; intros d n arr i d' xs Hin Hn Hslots H;
    cbn [decode_elements list_loop] in *; [discriminate H|].
  destruct (opcode_eqb (opcode_ d) scanEndList).
  { injection H as <- <-. exists arr. cbn [List.length cap_after].
    rewrite Nat.add_0_r, Nat.max_l by lia.
    repeat split; auto. intros j Hj. lia. }
  destruct (negb (begins_value (opcode_ d))); [discriminate H|].
  destruct (value_rec d (slice_slot e arr0 i)) as [[[d1 x] [er|]]| |] eqn:Ev;
    cbn [bind] in H; try discriminate H.
  destruct (decode_elements value_rec fuel d1 (slice_slot e arr0) (S i))
    as [[[d2 xs'] er]| |] eqn:Ed; cbn [bind] in H; try discriminate H.
  injection H as <- <- ->.
  (* the slice after [list_grow] *)
  set (arr1 := if Nat.leb (List.length arr) i
               then arr ++ repeat (zero e) (grown_cap (List.length arr) - List.length arr)
               else arr).
  assert (Hgrow : list_grow (VSlice e n arr) i = Ok (VSlice e (Nat.max n (S i)) arr1)).
  { unfold list_grow, arr1. pose proof (grown_cap_gt (List.length arr)) as Hg.
    destruct (Nat.leb (List.length arr) i) eqn:E.
    - apply Nat.leb_le in E. assert (n = List.length arr) as -> by lia.
      rewrite copy_prefix_full.
      replace (Nat.leb (List.length arr) i) with true by (symmetry; apply Nat.leb_le; lia).
      rewrite length_app, repeat_length.
      replace (Nat.ltb _ (S i)) with false by (symmetry; apply Nat.ltb_ge; lia).
      rewrite Nat.max_r by lia. reflexivity.
    - apply Nat.leb_gt in E. destruct (Nat.leb n i) eqn:E2.
      + apply Nat.leb_le in E2.
        replace (Nat.ltb _ (S i)) with false by (symmetry; apply Nat.ltb_ge; lia).
        rewrite Nat.max_r by lia. reflexivity.
      + apply Nat.leb_gt in E2. rewrite Nat.max_l by lia. reflexivity. }
  assert (Hlen1 : List.length arr1 =
                  if Nat.leb (List.length arr) i then grown_cap (List.length arr)
                  else List.length arr).
  { unfold arr1. pose proof (grown_cap_gt (List.length arr)) as Hg.
    destruct (Nat.leb (List.length arr) i); [|reflexivity].
    rewrite length_app, repeat_length. lia. }
  assert (Hi1 : (i < List.length arr1)%nat).
  { rewrite Hlen1. pose proof (grown_cap_gt (List.length arr)) as Hg.
    destruct (Nat.leb (List.length arr) i) eqn:E.
    - apply Nat.leb_le in E. lia.
    - apply Nat.leb_gt in E. exact E. }
  assert (Hnth1 : forall j, nth j arr1 (zero e) = nth j arr (zero e)).
  { intros j. unfold arr1. destruct (Nat.leb (List.length arr) i); [|reflexivity].
    destruct (Nat.lt_ge_cases j (List.length arr)) as [Hj|Hj].
    - apply app_nth1. exact Hj.
    - rewrite app_nth2, nth_repeat, nth_overflow by lia. reflexivity. }
  assert (Herr1 : forall j, (j < List.length arr)%nat -> nth_error arr1 j = nth_error arr j).
  { intros j Hj. unfold arr1. destruct (Nat.leb (List.length arr) i); [|reflexivity].
    apply nth_error_app1. exact Hj. }
  rewrite Hgrow. cbn [bind seq_Len seq_Index].
  replace (Nat.ltb i (Nat.max n (S i))) with true by (symmetry; apply Nat.ltb_lt; lia).
  rewrite (nth_error_nth _ (zero e) Hi1), Hnth1, Hslots by lia.
  fold (slice_slot e arr0 i). rewrite Ev. cbn [bind].
  set (arr2 := match x with Some y => set_nth i y arr1 | None => arr1 end).
  assert (Hv2 : match x with
                | Some x0 => seq_set (VSlice e (Nat.max n (S i)) arr1) i x0
                | None => VSlice e (Nat.max n (S i)) arr1
                end = VSlice e (Nat.max n (S i)) arr2).
  { unfold arr2. destruct x; reflexivity. }
  rewrite Hv2.
  assert (Hlen2 : List.length arr2 = List.length arr1).
  { unfold arr2. destruct x; [apply set_nth_length|reflexivity]. }
  assert (Hle1 : (List.length arr <= List.length arr1)%nat).
  { rewrite Hlen1. pose proof (grown_cap_gt (List.length arr)).
    destruct (Nat.leb (List.length arr) i); lia. }
  destruct (IH d1 (Nat.max n (S i)) arr2 (S i) d2 xs') as (arr' & Hloop & Hcap & Hlow & Hhigh).
  - lia.
  - lia.
  - intros j Hj. unfold arr2. destruct x.
    + rewrite nth_set_nth_other by lia. rewrite Hnth1. apply Hslots. lia.
    + rewrite Hnth1. apply Hslots. lia.
  - exact Ed.
  - exists arr'. cbn [List.length].
    replace (Nat.max n (i + S (List.length xs'))) with
      (Nat.max (Nat.max n (S i)) (S i + List.length xs')) by lia.
    replace (i + S (List.length xs'))%nat with (S i + List.length xs')%nat by lia.
    split; [exact Hloop|]. split; [|split].
    + rewrite Hcap, Hlen2, Hlen1. cbn [cap_after]. reflexivity.
    + intros j Hj. rewrite Hlow by lia. unfold arr2.
      destruct x; [rewrite set_nth_other by lia|]; apply Herr1; lia.
    + intros [|j] Hj.
      * rewrite Nat.add_0_r, Hlow by lia. cbn [stored_elems]. unfold slice_slot at 1.
        unfold arr2. destruct x; cbn [nth_error].
        -- apply set_nth_same. exact Hi1.
        -- rewrite (nth_error_nth _ (zero e) Hi1), Hnth1, Hslots by lia. reflexivity.
      * replace (i + S j)%nat with (S i + j)%nat by lia. rewrite Hhigh by lia.
        cbn [stored_elems]. unfold slice_slot at 2. destruct x; reflexivity.
Qed.

(** What is stored for the elements that meet a slot of the array. *)
Lemma stored_elems_array elems0 xs : forall i j,
  (j < List.length xs)%nat -> (i + j < List.length elems0)%nat ->
  nth_error (stored_elems (array_slot elems0) i xs) j =
  Some (match nth j xs None with
        | Some y => y
        | None => nth (i + j) elems0 (VBool false)
        end).
Proof.
  induction xs as [|x xs IH]; intros i j Hj Hij; cbn [List.length] in Hj; [lia|].
  cbn [stored_elems]. change (array_slot elems0 i) with (nth_error elems0 i).
  assert (Hi : (i < List.length elems0)%nat) by lia.
  rewrite (nth_error_nth _ (VBool false) Hi).
  destruct j as [|j].
  - rewrite Nat.add_0_r. cbn [nth]. destruct x; reflexivity.
  - replace (i + S j)%nat with (S i + j)%nat by lia. cbn [nth].
    destruct x; cbn [nth_error]; apply IH; lia.
Qed.

Lemma stored_elems_array_length elems0 xs : forall i,
  (Nat.min (List.length xs) (List.length elems0 - i) <=
   List.length (stored_elems (array_slot elems0) i xs))%nat.
Proof.
  induction xs as [|x xs IH]; intros i; cbn [stored_elems List.length]; [lia|].
  change (array_slot elems0 i) with (nth_error elems0 i).
  destruct (nth_error elems0 i) eqn:E.
  - specialize (IH (S i)). destruct x; cbn [List.length]; lia.
  - apply nth_error_None in E. destruct x; cbn [List.length]; lia.
Qed.

Lemma stored_elems_length_le slot xs : forall i,
  (List.length (stored_elems slot i xs) <= List.length xs)%nat.
Proof.
  induction xs as [|x xs IH]; intros i; cbn [stored_elems List.length]; [lia|].
  specialize (IH (S i)). destruct x; [|destruct (slot i)]; cbn [List.length]; lia.
Qed.

(** The loop of [list] on an array, against the elements it decodes. *)
Lemma list_loop_array e elems0 fuel : forall d elems i d' xs,
  List.length elems = List.length elems0 ->
  (forall j, (i <= j)%nat -> nth_error elems j = nth_error elems0 j) ->
  decode_elements value_rec fuel d (array_slot elems0) i = Ok (d', xs, None) ->
  exists elems',
    list_loop value_rec fuel d (VArray e elems) i =
      Ok (d', VArray e elems', (i + List.length xs)%nat, None) /\
    List.length elems' = List.length elems /\
    (forall j, (j < i)%nat -> nth_error elems' j = nth_error elems j) /\
    (forall j, (i + List.length xs <= j)%nat -> nth_error elems' j = nth_error elems j) /\
    (forall j, (j < List.length xs)%nat -> (i + j < List.length elems)%nat ->
       nth_error elems' (i + j) = nth_error (stored_elems (array_slot elems0) i xs) j).
Proof.
  induction fuel as [|fuel IH]; intros d elems i d' xs Hlen Hslots H;
    cbn [decode_elements list_loop] in *; [discriminate H|].
  destruct (opcode_eqb (opcode_ d) scanEndList).
  { injection H as <- <-. exists elems. cbn [List.length]. rewrite Nat.add_0_r.
    repeat split; auto. intros j Hj. lia. }
  destruct (negb (begins_value (opcode_ d))); [discriminate H|].
  destruct (value_rec d (array_slot elems0 i)) as [[[d1 x] [er|]]| |] eqn:Ev;
    cbn [bind] in H; try discriminate H.
  destruct (decode_elements value_rec fuel d1 (array_slot elems0) (S i))
    as [[[d2 xs'] er]| |] eqn:Ed; cbn [bind] in H; try discriminate H.
  injection H as <- <- ->.
  cbn [list_grow bind seq_Len seq_Index].
  assert (Hslot : (if Nat.ltb i (List.length elems) then nth_error elems i else None) =
                  array_slot elems0 i).
  { unfold array_slot. rewrite <- Hslots by lia.
    destruct (Nat.ltb i (List.length elems)) eqn:E; [reflexivity|].
    apply Nat.ltb_ge in E. symmetry. apply nth_error_None. exact E. }
  rewrite Hslot, Ev. cbn [bind].
  set (elems2 := match x with Some y => set_nth i y elems | None => elems end).
  assert (Hv2 : match x with
                | Some x0 => seq_set (VArray e elems) i x0
                | None => VArray e elems
                end = VArray e elems2).
  { unfold elems2. destruct x; reflexivity. }
  rewrite Hv2.
  assert (Hlen2 : List.length elems2 = List.length elems).
  { unfold elems2. destruct x; [apply set_nth_length|reflexivity]. }
  assert (Hother : forall j, j <> i -> nth_error elems2 j = nth_error elems j).
  { intros j Hj. unfold elems2. destruct x; [apply set_nth_other; congruence|reflexivity]. }
  destruct (IH d1 elems2 (S i) d2 xs') as (elems' & Hloop & Hl & Hlow & Hup & Hhigh).
  - congruence.
  - intros j Hj. rewrite Hother by lia. apply Hslots. lia.
  - exact Ed.
  - exists elems'. cbn [List.length].
    replace (i + S (List.length xs'))%nat with (S i + List.length xs')%nat by lia.
    split; [exact Hloop|]. split; [congruence|]. split; [|split].
    + intros j Hj. rewrite Hlow by lia. apply Hother. lia.
    + intros j Hj. rewrite Hup by lia. apply Hother. lia.
    + intros [|j] Hj Hij.
      * rewrite Nat.add_0_r in *. rewrite Hlow by lia.
        cbn [stored_elems]. change (array_slot elems0 i) with (nth_error elems0 i).
        assert (Hi : (i < List.length elems0)%nat) by lia.
        rewrite (nth_error_nth _ (VBool false) Hi).
        unfold elems2. destruct x; cbn [nth_error].
        -- apply set_nth_same. exact Hij.
        -- rewrite Hslots by lia. apply nth_error_nth. exact Hi.
      * replace (i + S j)%nat with (S i + j)%nat in * by lia.
        rewrite Hhigh by lia.
        cbn [stored_elems]. change (array_slot elems0 i) with (nth_error elems0 i).
        assert (Hi : (i < List.length elems0)%nat) by lia.
        rewrite (nth_error_nth _ (VBool false) Hi).
        destruct x; reflexivity.
Qed.

End ListLoop.

(** C3, as stated, fails for an array shorter than the list: the three
    elements of [li1ei2ei3ee] decoded into an array of two leave the array
    holding the first two, the third is consumed and dropped, and no error is
    reported. *)
Lemma list_into_short_array_drops :
  Unmarshal (bytes_of "li1ei2ei3ee")
    (Some (VPtr (TArray 2 (TBasic reflect.Int))
             (Some (VArray (TBasic reflect.Int) [VInt reflect.Int 0; VInt reflect.Int 0])))) =
  Ok (Some (VPtr (TArray 2 (TBasic reflect.Int))
              (Some (VArray (TBasic reflect.Int) [VInt reflect.Int 1; VInt reflect.Int 2]))),
      None).
Proof. vm_compute. reflexivity. Qed.

(** C3, amended: when [list] has read the byte after [l] and the elements
    up to the end of the list decode without a returned error, then
    - a slice destination ends with exactly as many elements as the list
      has, holding them in the order read, none lost; its capacity is the one
      it had when that held them all, and otherwise comes from it by the
      growth step alone, taken each time an element meets a full slice: half
      as much again, rounded down, and at least 4; a list of no element
      leaves an empty slice of no capacity;
    - an array destination of length [L] holds the first [L] elements in the
      order read, any further element being consumed and dropped, and its
      slots past the last element are zero. *)
Theorem list_into_sequence
  (value_rec : decodeState -> option goval ->
               result (decodeState * option goval * option error))
  (fuel : nat) (d d1 d' : decodeState) (xs : list (option goval)) (e : gotype) :
  scanNext d = Ok d1 ->
  (forall n arr,
     (n <= List.length arr)%nat ->
     decode_elements value_rec fuel d1 (slice_slot e arr) 0 = Ok (d', xs, None) ->
     exists arr',
       list_ value_rec fuel d (VSlice e n arr) = Ok (d', VSlice e (List.length xs) arr', None) /\
       firstn (List.length xs) arr' = stored_elems (slice_slot e arr) 0 xs /\
       List.length arr' =
         match xs with
         | [] => 0%nat
         | _ => cap_after (List.length arr) 0 (List.length xs)
         end /\
       (List.length xs <= List.length arr -> xs <> [] -> List.length arr' = List.length arr)%nat /\
       exists k, cap_after (List.length arr) 0 (List.length xs) =
                 Nat.iter k grown_cap (List.length arr)) /\
  (forall elems,
     decode_elements value_rec fuel d1 (array_slot elems) 0 = Ok (d', xs, None) ->
     list_ value_rec fuel d (VArray e elems) =
       Ok (d',
           VArray e (firstn (List.length elems) (stored_elems (array_slot elems) 0 xs)
                     ++ repeat (zero e) (List.length elems - List.length xs)),
           None)) /\
  (forall cap, grown_cap cap = Nat.max 4 (cap + cap / 2)).
Proof.
  intros Hnext. split; [|split; [|exact grown_cap_spec]].
  - intros n arr Hn Hdec.
    destruct (@list_loop_slice value_rec e arr fuel d1 n arr 0%nat d' xs)
      as (arr' & Hloop & Hcap & _ & Hhigh); auto; try lia.
    cbn [Nat.add] in Hloop, Hhigh.
    unfold list_. cbn [indirect]. rewrite Hnext. cbn [bind]. rewrite Hloop. cbn [bind].
    destruct xs as [|x xs].
    + cbn [List.length cap_after] in *. exists [].
      rewrite Nat.max_0_r. unfold list_finish. cbn [seq_Len].
      destruct (Nat.ltb 0 n); cbn [firstn stored_elems List.length];
        (split; [reflexivity|]); (split; [reflexivity|]); (split; [reflexivity|]);
        (split; [congruence|]); exists 0%nat; reflexivity.
    + exists arr'. set (N := List.length (x :: xs)) in *.
      assert (HN : N = S (List.length xs)) by reflexivity.
      assert (Hge : (N <= List.length arr')%nat).
      { rewrite Hcap. pose proof (@cap_after_ge N (List.length arr) 0%nat). lia. }
      split.
      { f_equal. f_equal. f_equal. unfold list_finish. cbn [seq_Len].
        destruct (Nat.ltb N (Nat.max n N)) eqn:E.
        - rewrite HN. reflexivity.
        - apply Nat.ltb_ge in E. rewrite HN in *.
          replace (Nat.max n (S (List.length xs))) with (S (List.length xs)) by lia.
          reflexivity. }
      split.
      { apply firstn_by_nth_error.
        - apply stored_elems_slice_length.
        - exact Hge.
        - intros j Hj. apply Hhigh. exact Hj. }
      split; [exact Hcap|]. split.
      { intros Hfit _. rewrite Hcap. apply cap_after_fits. lia. }
      apply cap_after_iter.
  - intros elems Hdec.
    destruct (@list_loop_array value_rec e elems fuel d1 elems 0%nat d' xs)
      as (elems' & Hloop & Hlen & _ & Hup & Hhigh); auto.
    cbn [Nat.add] in Hloop, Hup, Hhigh.
    unfold list_. cbn [indirect]. rewrite Hnext. cbn [bind]. rewrite Hloop. cbn [bind].
    f_equal. f_equal. f_equal.
    pose proof (@stored_elems_array_length elems xs 0%nat) as Hst.
    rewrite Nat.sub_0_r in Hst.
    pose proof (@stored_elems_length_le (array_slot elems) xs 0%nat) as Hle.
    unfold list_finish. cbn [seq_Len].
    destruct (Nat.ltb (List.length xs) (List.length elems')) eqn:E.
    + apply Nat.ltb_lt in E. rewrite Hlen in *. f_equal. f_equal.
      assert (Hl : List.length (stored_elems (array_slot elems) 0 xs) = List.length xs) by lia.
      rewrite (@firstn_all2 _ (List.length elems)) by lia.
      apply firstn_by_nth_error; [exact Hl|lia|].
      intros j Hj. apply Hhigh; lia.
    + apply Nat.ltb_ge in E. rewrite Hlen in E. f_equal.
      replace (List.length elems - List.length xs)%nat with 0%nat by lia.
      cbn [repeat]. rewrite app_nil_r. symmetry.
      apply firstn_by_nth_error; [lia|lia|].
      intros j Hj. symmetry. apply Hhigh; lia.
Qed.

(** Closes an equation whose left side computes to its right side, which may
    have to be found. *)
Ltac compute_lhs :=
  match goal with
  | |- ?l = _ => let v := eval vm_compute in l in change l with v
  end;
  reflexivity.

(** The theorem at a list of a few integers, into a slice and into an
    array. *)
Lemma list_into_sequence_witness :
  (exists d' arr',
     list_ (value 8) 8 (after_first_byte (bytes_of "li1ei2ei3ei4ei5ee"))
       (VSlice (TBasic reflect.Int) 0 []) =
       Ok (d', VSlice (TBasic reflect.Int) 5 arr', None) /\
     firstn 5 arr' = map (VInt reflect.Int) [1; 2; 3; 4; 5] /\
     List.length arr' = 6%nat) /\
  (exists d',
     list_ (value 8) 8 (after_first_byte (bytes_of "li1ei2ei3ee"))
       (VArray (TBasic reflect.Int) (map (VInt reflect.Int) [7; 7; 7; 7])) =
       Ok (d', VArray (TBasic reflect.Int) (map (VInt reflect.Int) [1; 2; 3; 0]), None)).
Proof.
  split.
  - pose proof (fun d1 d' xs =>
                  @list_into_sequence (value 8) 8
                    (after_first_byte (bytes_of "li1ei2ei3ei4ei5ee")) d1 d' xs
                    (TBasic reflect.Int)) as T.
    edestruct T as [Hslice _]; [compute_lhs|].
    edestruct (Hslice 0%nat []) as (arr' & H1 & H2 & H3 & _);
      [apply Nat.le_refl|compute_lhs|].
    eexists _, arr'. split; [exact H1|]. split; [exact H2|exact H3].
  - pose proof (fun d1 d' xs =>
                  @list_into_sequence (value 8) 8
                    (after_first_byte (bytes_of "li1ei2ei3ee")) d1 d' xs
                    (TBasic reflect.Int)) as T.
    edestruct T as (_ & Harray & _); [compute_lhs|].
    eexists. etransitivity; [apply Harray; compute_lhs|reflexivity].
Defined.

Lemma saveError_cursor d e d' : saveError d e = Ok d' -> same_cursor d d'.
Proof.
  unfold saveError, same_cursor. destruct (savedError d).
  - intros H. injection H as <-. auto.
  - destruct (addErrorContext d e); cbn [bind]; try discriminate.
    intros H. injection H as <-. auto.
Qed.

Section StoreCursor.

Context {X : Externals}.

Lemma mismatch_cursor d what t k d' v' r :
  mismatch d what t k = Ok (d', v', r) -> same_cursor d d'.
Proof.
  unfold mismatch. intros H. inv_ok. eapply saveError_cursor; eassumption.
Qed.

Lemma same_cursor_refl d : same_cursor d d.
Proof. unfold same_cursor. auto. Qed.

Lemma integerStore_cursor d item v d' v' r :
  integerStore d item v false = Ok (d', v', r) -> same_cursor d d'.
Proof.
  unfold integerStore. intros H.
  destruct item as [|c item].
  - inv_ok. eapply saveError_cursor; eassumption.
  - destruct (indirect v) as [t k].
    destruct (negb (Byte.eqb c "-") && (negb (byte_le "0" c) || negb (byte_le c "9")));
      [discriminate H|].
    destruct t; try (eapply mismatch_cursor; eassumption).
    + destruct (ParseInt (c :: item)); [eapply mismatch_cursor; eassumption|].
      destruct (OverflowInt k0 z); [eapply mismatch_cursor; eassumption|].
      inv_ok. apply same_cursor_refl.
    + destruct k0; try (eapply mismatch_cursor; eassumption);
        (destruct (ParseUint (c :: item)); [eapply mismatch_cursor; eassumption|]);
        (destruct (OverflowUint _ z); [eapply mismatch_cursor; eassumption|]);
        inv_ok; apply same_cursor_refl.
    + destruct (ParseFloat_ok _ _ && _); [|eapply mismatch_cursor; eassumption].
      inv_ok. apply same_cursor_refl.
    + destruct (convertNumber d (c :: item)).
      * inv_ok. eapply saveError_cursor; eassumption.
      * destruct (negb (Nat.eqb numMethod 0)); [eapply mismatch_cursor; eassumption|].
        inv_ok. apply same_cursor_refl.
Qed.

Lemma stringStore_cursor d item v d' v' r :
  stringStore d item v false = Ok (d', v', r) -> same_cursor d d'.
Proof.
  unfold stringStore. intros H.
  destruct item as [|c item].
  - inv_ok. eapply saveError_cursor; eassumption.
  - destruct (indirect v) as [t k].
    destruct t; try (eapply mismatch_cursor; eassumption).
    + inv_ok. apply same_cursor_refl.
    + destruct (negb (reflect.Kind_eqb (type_Kind elem) reflect.Uint8));
        [eapply mismatch_cursor; eassumption|].
      destruct (base64_Decode (c :: item)) as [w [o|]].
      * inv_ok. eapply saveError_cursor; eassumption.
      * inv_ok. apply same_cursor_refl.
    + destruct (Nat.eqb numMethod 0); [|eapply mismatch_cursor; eassumption].
      inv_ok. apply same_cursor_refl.
Qed.

Lemma scanNext_cursor a b b' :
  same_cursor a b -> scanNext b = Ok b' ->
  exists a', scanNext a = Ok a' /\ same_cursor a' b'.
Proof.
  unfold same_cursor, scanNext. intros (Hd & Ho & Hop & Hs). rewrite Hd, Ho, Hs.
  destruct (off a <? len (data a)).
  - destruct (byte_at (data a) (off a)); cbn [bind]; try discriminate.
    destruct (scan_step _ _) as [[s op]| |]; cbn [bind]; try discriminate.
    intros H. injection H as <-. eexists. split; [reflexivity|]. cbn. auto.
  - destruct (eof (scan a)) as [s op].
    intros H. injection H as <-. eexists. split; [reflexivity|]. cbn. auto.
Qed.

Lemma skip_cursor a b b' :
  same_cursor a b -> skip b = Ok b' ->
  exists a', skip a = Ok a' /\ same_cursor a' b'.
Proof.
  unfold same_cursor, skip. intros (Hd & Ho & Hop & Hs). rewrite Hd, Ho, Hs.
  destruct (off a <? 0); [discriminate|].
  destruct (skip_loop _ _ _ _) as [[[s i] op]| |]; cbn [bind]; try discriminate.
  intros H. injection H as <-. eexists. split; [reflexivity|]. cbn. auto.
Qed.

Lemma same_cursor_trans a b c : same_cursor a b -> same_cursor b c -> same_cursor a c.
Proof.
  unfold same_cursor. intros (H1 & H2 & H3 & H4) (H5 & H6 & H7 & H8).
  repeat split; congruence.
Qed.

(** A destination that does not fit a list or a dictionary has the error
    saved and the value skipped. *)
Lemma refused_cursor value_rec fuel d x d' v' r :
  refuses (opcode_ d) x = true ->
  (opcode_ d = scanBeginList /\ list_ value_rec fuel d x = Ok (d', v', r) \/
   opcode_ d = scanBeginDictionary /\ dictionary value_rec fuel d x = Ok (d', v', r)) ->
  r = None /\ exists d0, skip d = Ok d0 /\ same_cursor d0 d'.
Proof.
  unfold refuses, list_, dictionary. intros Href [[Hop H]|[Hop H]]; rewrite Hop in Href;
    destruct (indirect x) as [t k]; cbn [fst] in Href.
  - destruct t; try discriminate Href;
      (destruct (saveError d _) as [d1| |] eqn:E1; cbn [bind] in H; try discriminate H;
       destruct (skip d1) as [d2| |] eqn:E2; cbn [bind] in H; try discriminate H;
       injection H as <- _ <-; split; [reflexivity|];
       exact (skip_cursor (saveError_cursor _ _ E1) E2)).
  - destruct t; try discriminate Href;
      try (destruct (saveError d _) as [d1| |] eqn:E1; cbn [bind] in H; try discriminate H;
           destruct (skip d1) as [d2| |] eqn:E2; cbn [bind] in H; try discriminate H;
           injection H as <- _ <-; split; [reflexivity|];
           exact (skip_cursor (saveError_cursor _ _ E1) E2)).
    destruct (type_Kind key); try discriminate Href;
      (destruct (saveError d _) as [d1| |] eqn:E1; cbn [bind] in H; try discriminate H;
       destruct (skip d1) as [d2| |] eqn:E2; cbn [bind] in H; try discriminate H;
       injection H as <- _ <-; split; [reflexivity|];
       exact (skip_cursor (saveError_cursor _ _ E1) E2)).
Qed.

(** A value that a store handles, or that its destination refuses, moves the
    byte cursor as skipping it does. *)
Lemma value_unfit_cursor fuel d x d' v' r :
  scalar_token (opcode_ d) || refuses (opcode_ d) x = true ->
  value fuel d (Some x) = Ok (d', v', r) ->
  exists d0, value fuel d None = Ok (d0, None, None) /\ same_cursor d0 d'.
Proof.
  destruct fuel as [|fuel]; [discriminate|]. cbn [value]. unfold value_body.
  intros Hfit H. destruct (opcode_ d) eqn:Hop; try discriminate H;
    cbn [scalar_token orb] in Hfit.
  - (* dictionary *)
    destruct (dictionary (value fuel) fuel d x) as [[[d1 x1] e]| |] eqn:E; cbn [bind] in H;
      try discriminate H.
    rewrite <- Hop in Hfit.
    destruct (@refused_cursor (value fuel) fuel d x d1 x1 e Hfit) as (-> & d0 & Hs & Hc).
    { right. split; assumption. }
    rewrite Hs. cbn [bind] in *.
    destruct (scanNext d1) as [d2| |] eqn:E2; cbn [bind] in H; try discriminate H.
    injection H as <- _ _.
    destruct (scanNext_cursor Hc E2) as (d3 & -> & Hc'). cbn [bind]. eauto.
  - (* list *)
    destruct (list_ (value fuel) fuel d x) as [[[d1 x1] e]| |] eqn:E; cbn [bind] in H;
      try discriminate H.
    rewrite <- Hop in Hfit.
    destruct (@refused_cursor (value fuel) fuel d x d1 x1 e Hfit) as (-> & d0 & Hs & Hc).
    { left. split; assumption. }
    rewrite Hs. cbn [bind] in *.
    destruct (scanNext d1) as [d2| |] eqn:E2; cbn [bind] in H; try discriminate H.
    injection H as <- _ _.
    destruct (scanNext_cursor Hc E2) as (d3 & -> & Hc'). cbn [bind]. eauto.
  - (* integer *)
    destruct (scanNext d) as [d1| |]; cbn [bind] in *; try discriminate H.
    destruct (negb (opcode_eqb (opcode_ d1) scanInteger)); [discriminate H|].
    destruct (scanWhile d1 scanContinue) as [d2| |]; cbn [bind] in *; try discriminate H.
    destruct (bytes_slice _ _ _) as [item| |]; cbn [bind] in H; try discriminate H.
    destruct (integerStore d2 item x false) as [[[d3 x3] e]| |] eqn:E; cbn [bind] in H;
      try discriminate H.
    destruct (integerStore_keeps _ _ _ E) as [-> _].
    apply integerStore_cursor in E.
    destruct (scanNext d3) as [d4| |] eqn:E4; cbn [bind] in H; try discriminate H.
    injection H as <- _ _.
    destruct (scanNext_cursor E E4) as (d0 & -> & Hc). cbn [bind]. eauto.
  - (* string *)
    destruct (scanWhile d scanContinue) as [d1| |]; cbn [bind] in *; try discriminate H.
    destruct (negb (opcode_eqb (opcode_ d1) scanString)); [discriminate H|].
    destruct (scanWhile d1 scanContinue) as [d2| |]; cbn [bind] in *; try discriminate H.
    destruct (bytes_slice _ _ _) as [item| |]; cbn [bind] in H; try discriminate H.
    destruct (stringStore d2 item x false) as [[[d3 x3] e]| |] eqn:E; cbn [bind] in H;
      try discriminate H.
    destruct (stringStore_keeps _ _ _ E) as [-> _].
    apply stringStore_cursor in E. injection H as <- _ _. eauto.
Qed.

End StoreCursor.

(** On a list whose second and third elements do not fit, and on a
    dictionary whose first value does not fit its field, the element and
    the field that follow are still stored, and the error returned is the
    first. *)
Lemma later_siblings_are_stored :
  @Unmarshal stdExternals (bytes_of "li1e3:abcl1:zei4ee")
    (Some (VPtr (TSlice (TBasic reflect.Int)) (Some (VSlice (TBasic reflect.Int) 0 [])))) =
    Ok (Some (VPtr (TSlice (TBasic reflect.Int))
                (Some (VSlice (TBasic reflect.Int) 4
                         (map (VInt reflect.Int) [1; 0; 0; 4])))),
        Some (UnmarshalTypeError "string" (TBasic reflect.Int) 9 "" "")) /\
  @Unmarshal stdExternals (bytes_of "d3:Fooi1e3:Inti7ee")
    (Some (VPtr two_fields (Some (zero two_fields)))) =
    Ok (Some (VPtr two_fields
                (Some (VStruct "T"
                         [mkStructField "Foo" "" (TBasic reflect.String) "" false;
                          mkStructField "Int" "" (TBasic reflect.Uint8) "" false]
                         [VString []; VUint reflect.Uint8 7]))),
        Some (UnmarshalTypeError "number" (TBasic reflect.String) 8 "T" "Foo")).
Proof. split; vm_compute; reflexivity. Qed.

(** * The streaming decoder's sticky error *)

Section StreamProofs.

Context {X : Externals}.
Variable R : Type.
Variable Read : R -> nat -> list byte * option error * R.

(** An error [readValue] returns is the error it leaves in [dec.err]. *)
Lemma readValue_loop_poisons fuel : forall (dec : Decoder R) scanp e0 dec' n e,
  readValue_loop Read fuel dec scanp e0 = Ok (dec', n, Some e) ->
  dec_err dec' = Some e.
Proof.
  induction fuel as [|fuel IH]; intros dec scanp e0 dec' n e; cbn [readValue_loop];
    [discriminate|].
  destruct (scan_buffered _ _ _ _) as [[s how]| |]; cbn [bind]; try discriminate.
  destruct how.
  - discriminate.
  - intros H. injection H as <- _ H. cbn [with_err dec_err]. exact H.
  - destruct e0 as [e0|].
    + destruct e0; try (intros H; injection H as <- _ <-; reflexivity).
      destruct (bytes (dec_scan (with_scan dec s)) =? 0); [discriminate|].
      intros H; injection H as <- _ <-; reflexivity.
    + destruct (refill Read (with_scan dec s)) as [[dec1 e1]| |]; cbn [bind];
        try discriminate.
      apply IH.
Qed.

(** C8, amended: when a call of [Decode] fails while it locates the next
    value (the scanner reports a syntax error, or the byte source fails or
    ends in mid-value), the decoder keeps that error, and every later call
    returns it at once, leaving the decoder and the destination as they are:
    it reads nothing from the source and consumes nothing of the buffer. *)
Theorem Decode_poisoned (fuel : nat) (dec : Decoder R) (v : option goval)
  (dec1 : Decoder R) (n : Z) (e : error) :
  dec_err dec = None ->
  tokenValueAllowed dec = true ->
  readValue Read fuel dec = Ok (dec1, n, Some e) ->
  Decode Read fuel dec v = Ok (dec1, v, Some e) /\
  dec_err dec1 = Some e /\
  forall fuel' v', Decode Read fuel' dec1 v' = Ok (dec1, v', Some e).
Proof.
  intros Herr Htok Hrv.
  assert (Hp : dec_err dec1 = Some e).
  { unfold readValue in Hrv. eapply readValue_loop_poisons. exact Hrv. }
  split; [|split; [exact Hp|]].
  - unfold Decode. rewrite Herr. cbn [tokenPrepareForDecode]. rewrite Htok.
    cbn [negb]. rewrite Hrv. reflexivity.
  - intros fuel' v'. unfold Decode. rewrite Hp. reflexivity.
Qed.

End StreamProofs.

(** C8, as stated, fails for an error of the binder: on the stream
    [i1ei2e] a call of [Decode] with a nil destination fails with the
    invalid-destination error after it has consumed [i1e], the decoder holds
    no error, and the next call decodes [2] and returns none. *)
Lemma Decode_binder_error_does_not_poison :
  exists dec1 dec2,
    Decode bytesReader_Read 2 (NewDecoder (bytes_of "i1ei2e")) None =
      Ok (dec1, None, Some (InvalidUnmarshalError None)) /\
    dec_err dec1 = None /\
    dec_scanp dec1 = 3 /\
    Decode bytesReader_Read 2 dec1 (Some (VPtr (TBasic reflect.Int) (Some (VInt reflect.Int 0)))) =
      Ok (dec2, Some (VPtr (TBasic reflect.Int) (Some (VInt reflect.Int 2))), None).
Proof.
  eexists _, _. split; [vm_compute; reflexivity|].
  split; [reflexivity|]. split; [reflexivity|]. vm_compute. reflexivity.
Qed.

(** The stream [i1x]: the scan fails at [x], and the decoder keeps the
    error. *)
Lemma Decode_poisoned_witness :
  exists dec1,
    Decode bytesReader_Read 2 (NewDecoder (bytes_of "i1x")) None =
      Ok (dec1, None,
          Some (ScanError (SyntaxError (InvalidCharacter "x" "looking for integer") 3))) /\
    dec_err dec1 =
      Some (ScanError (SyntaxError (InvalidCharacter "x" "looking for integer") 3)) /\
    forall fuel' v',
      Decode bytesReader_Read fuel' dec1 v' =
        Ok (dec1, v',
            Some (ScanError (SyntaxError (InvalidCharacter "x" "looking for integer") 3))).
Proof.
  eexists.
  eapply (@Decode_poisoned stdExternals (list byte) bytesReader_Read 2
            (NewDecoder (bytes_of "i1x")) None).
  - reflexivity.
  - reflexivity.
  - vm_compute. reflexivity.
Defined.

(** * The field resolver *)

(** ** Orders *)

Lemma lex_order (A : Type) (c1 c2 : A -> A -> comparison) :
  order_cmp c1 -> order_cmp c2 -> order_cmp (fun x y => lex (c1 x y) (c2 x y)).
Proof.
  intros [a1 t1 e1] [a2 t2 e2]. split.
  - intros x y. rewrite (a1 x y), (a2 x y). destruct (c1 x y); reflexivity.
  - intros x y z. unfold lex.
    destruct (c1 x y) eqn:Hxy; try discriminate.
    + rewrite (e1 x y z Hxy). destruct (c1 y z); try discriminate; auto.
      intros; eauto.
    + intros _. destruct (c1 y z) eqn:Hyz; try discriminate.
      * intros _. pose proof (a1 y z) as Hzy. rewrite Hyz in Hzy. cbn in Hzy.
        pose proof (e1 z y x Hzy) as H. rewrite (a1 x z), (a1 x y), Hxy in H.
        destruct (c1 x z); cbn in H; congruence.
      * intros _. rewrite (t1 x y z Hxy Hyz). reflexivity.
  - intros x y z. unfold lex. destruct (c1 x y) eqn:Hxy; try discriminate.
    intros H. rewrite (e1 x y z Hxy), (e2 x y z H). reflexivity.
Qed.

Lemma on_order (A B : Type) (f : A -> B) (c : B -> B -> comparison) :
  order_cmp c -> order_cmp (fun x y => c (f x) (f y)).
Proof.
  intros [a t e]. split; intros; eauto.
Qed.

Lemma not_after_trans (A : Type) (c : A -> A -> comparison) :
  order_cmp c -> forall x y z, not_after c x y -> not_after c y z -> not_after c x z.
Proof.
  intros [a t e] x y z. unfold not_after. intros Hxy Hyz.
  destruct (c x y) eqn:Exy; try congruence.
  - rewrite (e x y z Exy). assumption.
  - destruct (c y z) eqn:Eyz; try congruence.
    + pose proof (a y z) as Hzy. rewrite Eyz in Hzy. cbn in Hzy.
      pose proof (e z y x Hzy) as H. rewrite (a x z), (a x y), Exy in H.
      destruct (c x z); cbn in H; congruence.
    + rewrite (t x y z Exy Eyz). discriminate.
Qed.

Lemma nat_order : order_cmp Nat.compare.
Proof.
  split.
  - intros x y. apply Nat.compare_antisym.
  - intros x y z. rewrite !Nat.compare_lt_iff. lia.
  - intros x y z H. apply Nat.compare_eq in H. subst. reflexivity.
Qed.

Lemma ascii_order : order_cmp Ascii.compare.
Proof.
  split.
  - intros x y. apply Ascii.compare_antisym.
  - intros x y z. unfold Ascii.compare. rewrite !N.compare_lt_iff. lia.
  - intros x y z H. apply Ascii.compare_eq_iff in H. subst. reflexivity.
Qed.

Lemma string_order : order_cmp String.compare.
Proof.
  split.
  - intros x y. apply String.compare_antisym.
  - intros x. induction x as [|a x IH]; intros [|b y] [|c z]; cbn; try congruence.
    destruct (Ascii.compare a b) eqn:Hab; try discriminate.
    + apply Ascii.compare_eq_iff in Hab. subst b.
      destruct (Ascii.compare a c); try congruence. apply IH.
    + intros _. destruct (Ascii.compare b c) eqn:Hbc; try discriminate.
      * apply Ascii.compare_eq_iff in Hbc. subst c. rewrite Hab. reflexivity.
      * rewrite (cmp_lt_trans ascii_order _ _ _ Hab Hbc). reflexivity.
  - intros x y z H. apply String.compare_eq_iff in H. subst. reflexivity.
Qed.

Lemma tag_order : order_cmp tag_compare.
Proof.
  split.
  - intros [] []; reflexivity.
  - intros [] [] []; cbn; congruence.
  - intros [] [] []; cbn; congruence.
Qed.

Lemma icompare_order : order_cmp icompare.
Proof.
  split.
  - intros x. induction x as [|a x IH]; intros [|b y]; cbn; try reflexivity.
    rewrite (IH y), (Nat.compare_antisym b a).
    destruct (Nat.compare b a); reflexivity.
  - intros x. induction x as [|a x IH]; intros [|b y] [|c z]; cbn; try congruence.
    unfold lex.
    destruct (Nat.compare a b) eqn:Hab; try discriminate.
    + apply Nat.compare_eq in Hab. subst b.
      destruct (Nat.compare a c); try congruence. apply IH.
    + intros _. destruct (Nat.compare b c) eqn:Hbc; try discriminate.
      * apply Nat.compare_eq in Hbc. subst c. rewrite Hab. reflexivity.
      * rewrite (cmp_lt_trans nat_order _ _ _ Hab Hbc). reflexivity.
  - intros x. induction x as [|a x IH]; intros [|b y] z; cbn; try congruence.
    unfold lex. destruct (Nat.compare a b) eqn:Hab; try discriminate.
    apply Nat.compare_eq in Hab. subst b. intros H.
    destruct z as [|c z]; [reflexivity|]. rewrite (IH y z H). reflexivity.
Qed.

Lemma fcompare_order : order_cmp fcompare.
Proof.
  unfold fcompare.
  apply (@lex_order field (fun x y => String.compare (name x) (name y))).
  { apply (on_order name string_order). }
  apply (@lex_order field (fun x y => Nat.compare (field_depth x) (field_depth y))).
  { apply (on_order field_depth nat_order). }
  apply (@lex_order field (fun x y => tag_compare (tag x) (tag y))).
  { apply (on_order tag tag_order). }
  apply (on_order index icompare_order).
Qed.

Lemma icompare_fields_order : order_cmp icompare_fields.
Proof.
  apply (on_order index icompare_order).
Qed.

Lemma index_less_icompare a b : index_less a b = true <-> icompare a b = Lt.
Proof.
  revert b.
  induction a as [|x a IH]; intros [|y b]; cbn [index_less icompare];
    try (split; congruence).
  unfold lex. destruct (Nat.eqb x y) eqn:E.
  - apply Nat.eqb_eq in E. subst y. rewrite Nat.compare_refl. apply IH.
  - apply Nat.eqb_neq in E. rewrite Nat.ltb_lt. destruct (Nat.compare x y) eqn:C.
    + apply Nat.compare_eq in C. contradiction.
    + apply Nat.compare_lt_iff in C. tauto.
    + apply Nat.compare_gt_iff in C. split; [lia|discriminate].
Qed.

Lemma byIndex_Less_strict : strict_part byIndex_Less icompare_fields.
Proof.
  intros x y. apply index_less_icompare.
Qed.

Lemma string_compare_refl s : String.compare s s = Eq.
Proof.
  induction s as [|a s IH]; cbn; [reflexivity|].
  unfold Ascii.compare. rewrite N.compare_refl. exact IH.
Qed.

Lemma byName_less_strict : strict_part byName_less fcompare.
Proof.
  intros x y. unfold byName_less, fcompare, lex, field_depth.
  destruct (String.eqb (name x) (name y)) eqn:En; cbn [negb].
  - apply String.eqb_eq in En. rewrite En.
    rewrite string_compare_refl.
    destruct (Nat.eqb (List.length (index x)) (List.length (index y))) eqn:Ed; cbn [negb].
    + apply Nat.eqb_eq in Ed. rewrite Ed, Nat.compare_refl.
      destruct (tag x), (tag y); cbn; try (split; congruence).
      * apply index_less_icompare.
      * apply index_less_icompare.
    + apply Nat.eqb_neq in Ed. rewrite Nat.ltb_lt.
      destruct (Nat.compare (List.length (index x)) (List.length (index y))) eqn:C.
      * apply Nat.compare_eq in C. contradiction.
      * apply Nat.compare_lt_iff in C. tauto.
      * apply Nat.compare_gt_iff in C. split; [lia|discriminate].
  - apply String.eqb_neq in En. unfold String.ltb.
    destruct (String.compare (name x) (name y)) eqn:C; try (split; congruence).
    apply String.compare_eq_iff in C. contradiction.
Qed.

(** ** The two sorts *)

Section Sorting.

Variable less : field -> field -> bool.
Variable c : field -> field -> comparison.
Hypothesis Hc : order_cmp c.
Hypothesis Hless : strict_part less c.

Lemma sort_insert_perm x l : Permutation (x :: l) (sort_insert less x l).
Proof.
  induction l as [|y l IH]; cbn.
  - apply Permutation_refl.
  - destruct (less x y).
    + apply Permutation_refl.
    + eapply Permutation_trans; [apply perm_swap|]. apply perm_skip, IH.
Qed.

Lemma sort_fields_perm l : Permutation l (sort_fields less l).
Proof.
  induction l as [|x l IH]; cbn.
  - apply Permutation_refl.
  - eapply Permutation_trans; [apply perm_skip, IH|]. apply sort_insert_perm.
Qed.

Lemma sort_insert_sorted x l :
  StronglySorted (not_after c) l -> StronglySorted (not_after c) (sort_insert less x l).
Proof.
  induction 1 as [|y l Hs IH Hy]; cbn.
  - constructor; constructor.
  - destruct (less x y) eqn:E.
    + apply Hless in E.
      assert (Hxy : not_after c x y) by (unfold not_after; congruence).
      constructor; [constructor; assumption|].
      constructor; [assumption|].
      eapply Forall_impl; [|exact Hy].
      intros z Hz. exact (not_after_trans Hc Hxy Hz).
    + constructor; [assumption|].
      assert (Hyx : not_after c y x).
      { unfold not_after. rewrite (cmp_antisym Hc x y).
        destruct (c x y) eqn:C; cbn; try discriminate.
        apply Hless in C. congruence. }
      apply Forall_forall. intros z Hz.
      apply (Permutation_in _ (Permutation_sym (sort_insert_perm x l))) in Hz.
      destruct Hz as [<-|Hz]; [assumption|].
      rewrite Forall_forall in Hy. auto.
Qed.

Lemma sort_fields_sorted l : StronglySorted (not_after c) (sort_fields less l).
Proof.
  induction l as [|x l IH]; cbn.
  - constructor.
  - apply sort_insert_sorted, IH.
Qed.

End Sorting.

Lemma sorted_app_inv (A : Type) (R : A -> A -> Prop) (l1 l2 : list A) :
  StronglySorted R (l1 ++ l2) -> StronglySorted R l1 /\ StronglySorted R l2.
Proof.
  induction l1 as [|x l1 IH]; cbn; intros H.
  - split; [constructor|assumption].
  - inversion H as [|? ? Hs Hx]; subst. destruct (IH Hs) as [H1 H2].
    split; [|assumption]. constructor; [assumption|].
    apply Forall_app in Hx. tauto.
Qed.

(** What the sort by name says about two candidates in its order. *)
Lemma string_le_antisym (a b : string) :
  String.compare a b <> Gt -> String.compare b a <> Gt -> a = b.
Proof.
  intros H1 H2. rewrite (String.compare_antisym b a) in H2.
  destruct (String.compare a b) eqn:C; cbn in *; try congruence.
  apply String.compare_eq_iff in C. assumption.
Qed.

Lemma not_after_name_le x y :
  not_after fcompare x y -> String.compare (name x) (name y) <> Gt.
Proof.
  unfold not_after, fcompare, lex.
  destruct (String.compare (name x) (name y)); congruence.
Qed.

Lemma not_after_rank x y :
  not_after fcompare x y -> name x = name y ->
  (field_depth x <= field_depth y)%nat /\
  (field_depth x = field_depth y -> tag y = true -> tag x = true).
Proof.
  unfold not_after, fcompare, lex. intros H Hn.
  rewrite Hn, string_compare_refl in H.
  destruct (Nat.compare (field_depth x) (field_depth y)) eqn:C.
  - apply Nat.compare_eq in C. split; [lia|]. intros _ Hy.
    destruct (tag x); [reflexivity|]. rewrite Hy in H. cbn in H. congruence.
  - apply Nat.compare_lt_iff in C. split; [lia|]. intros; lia.
  - congruence.
Qed.

(** ** Runs of one name in the sorted candidates *)

Lemma run_split n rest : rest = name_run n rest ++ after_run n rest.
Proof.
  induction rest as [|g rest IH]; cbn; [reflexivity|].
  destruct (String.eqb (name g) n); cbn; [f_equal; exact IH|reflexivity].
Qed.

Lemma name_run_names n rest : Forall (fun g => name g = n) (name_run n rest).
Proof.
  induction rest as [|g rest IH]; cbn; [constructor|].
  destruct (String.eqb (name g) n) eqn:E; [|constructor].
  apply String.eqb_eq in E. constructor; assumption.
Qed.

Lemma advance_of_run n rest : advance_of n rest = S (List.length (name_run n rest)).
Proof.
  induction rest as [|g rest IH]; cbn; [reflexivity|].
  destruct (String.eqb (name g) n); cbn; [f_equal; exact IH|reflexivity].
Qed.

Lemma firstn_advance fi rest :
  firstn (advance_of (name fi) rest) (fi :: rest) = fi :: name_run (name fi) rest.
Proof.
  rewrite advance_of_run. cbn [firstn]. f_equal.
  rewrite (run_split (name fi) rest) at 2.
  rewrite firstn_app, Nat.sub_diag, firstn_all. cbn. apply app_nil_r.
Qed.

Lemma skipn_advance fi rest :
  skipn (advance_of (name fi) rest) (fi :: rest) = after_run (name fi) rest.
Proof.
  rewrite advance_of_run. cbn [skipn].
  rewrite (run_split (name fi) rest) at 2.
  rewrite skipn_app, Nat.sub_diag, skipn_all. reflexivity.
Qed.

Lemma after_run_length n rest :
  (List.length (after_run n rest) <= List.length rest)%nat.
Proof.
  induction rest as [|g rest IH]; cbn; [lia|].
  destruct (String.eqb (name g) n); cbn; lia.
Qed.

Lemma after_run_head n rest :
  match after_run n rest with
  | g :: _ => name g <> n
  | [] => True
  end.
Proof.
  induction rest as [|g rest IH]; cbn; [exact I|].
  destruct (String.eqb (name g) n) eqn:E; [exact IH|].
  apply String.eqb_neq in E. exact E.
Qed.

Lemma after_run_names fi rest :
  StronglySorted (not_after fcompare) (fi :: rest) ->
  Forall (fun g => name g <> name fi) (after_run (name fi) rest).
Proof.
  intros Hs. inversion Hs as [|? ? Hrest Hfi]; subst.
  rewrite (run_split (name fi) rest) in Hrest, Hfi.
  apply sorted_app_inv in Hrest. destruct Hrest as [_ Hafter].
  apply Forall_app in Hfi. destruct Hfi as [_ Hfi].
  pose proof (after_run_head (name fi) rest) as Hhead.
  destruct (after_run (name fi) rest) as [|a l]; [constructor|].
  inversion Hafter as [|? ? _ Ha]; subst.
  inversion Hfi as [|? ? Hfa Hfl]; subst.
  constructor; [assumption|].
  rewrite Forall_forall in *. intros g Hg Hn.
  apply Hhead. symmetry. apply string_le_antisym.
  - apply not_after_name_le. assumption.
  - rewrite <- Hn. apply not_after_name_le. auto.
Qed.

(** ** The dominant-field rule *)

Lemma dominates_irrefl f : ~ dominates f f.
Proof.
  intros [H|(_ & H1 & H2)]; [lia|congruence].
Qed.

Lemma dominant_in_In f l : dominant_in f l -> In f l.
Proof.
  intros (others & Hp & _).
  apply (Permutation_in _ (Permutation_sym Hp)). left. reflexivity.
Qed.

Lemma dominant_in_perm f l l' :
  Permutation l l' -> dominant_in f l -> dominant_in f l'.
Proof.
  intros Hp (others & Hq & Hd). exists others. split; [|assumption].
  eapply Permutation_trans; [apply Permutation_sym; exact Hp|exact Hq].
Qed.

Lemma dominant_in_nil f : ~ dominant_in f [].
Proof.
  intros H. apply dominant_in_In in H. destruct H.
Qed.

(** Candidates of other names play no part. *)
Lemma dominant_in_app f G A :
  (forall g a, In g G -> In a A -> name g <> name a) ->
  dominant_in f (G ++ A) <-> dominant_in f G \/ dominant_in f A.
Proof.
  intros Hdis. split.
  - intros (others & Hp & Hd).
    assert (Hin : In f (G ++ A)).
    { apply (Permutation_in _ (Permutation_sym Hp)). left. reflexivity. }
    apply in_app_or in Hin. destruct Hin as [Hin|Hin].
    + left. apply in_split in Hin. destruct Hin as (g1 & g2 & ->).
      exists (g1 ++ g2). split; [apply Permutation_sym, Permutation_middle|].
      intros g Hg. apply Hd.
      rewrite <- app_assoc in Hp. cbn in Hp.
      apply Permutation_sym, Permutation_cons_app_inv in Hp.
      apply (Permutation_in _ (Permutation_sym Hp)).
      rewrite app_assoc. apply in_or_app. left. assumption.
    + right. apply in_split in Hin. destruct Hin as (a1 & a2 & ->).
      exists (a1 ++ a2). split; [apply Permutation_sym, Permutation_middle|].
      intros g Hg. apply Hd.
      rewrite app_assoc in Hp.
      apply Permutation_sym, Permutation_cons_app_inv in Hp.
      apply (Permutation_in _ (Permutation_sym Hp)).
      rewrite <- app_assoc. apply in_or_app. right. assumption.
  - intros [(others & Hp & Hd)|(others & Hp & Hd)].
    + exists (others ++ A). split.
      * change (f :: others ++ A) with ((f :: others) ++ A).
        apply Permutation_app_tail. assumption.
      * intros g Hg Hn. apply in_app_or in Hg. destruct Hg as [Hg|Hg]; [auto|].
        exfalso. apply (Hdis f g); [|assumption|congruence].
        apply (Permutation_in _ (Permutation_sym Hp)). left. reflexivity.
    + exists (G ++ others). split.
      * eapply Permutation_trans; [apply Permutation_app_head; exact Hp|].
        apply Permutation_sym, Permutation_middle.
      * intros g Hg Hn. apply in_app_or in Hg. destruct Hg as [Hg|Hg]; [|auto].
        exfalso. apply (Hdis g f); [assumption| |assumption].
        apply (Permutation_in _ (Permutation_sym Hp)). left. reflexivity.
Qed.

(** Within one run of the sorted candidates, the loop keeps the first when
    it dominates the others, and nothing otherwise. *)
Lemma run_choice_dominant fi run :
  StronglySorted (not_after fcompare) (fi :: run) ->
  Forall (fun g => name g = name fi) run ->
  forall f, In f (run_choice fi run) <-> dominant_in f (fi :: run).
Proof.
  intros Hs Hnames f. inversion Hs as [|? ? Hrun Hfi]; subst.
  rewrite Forall_forall in Hfi, Hnames.
  assert (Hrank : forall g, In g run ->
            (field_depth fi <= field_depth g)%nat /\
            (field_depth fi = field_depth g -> tag g = true -> tag fi = true)).
  { intros g Hg. apply not_after_rank; [auto|]. symmetry. auto. }
  split.
  - intros Hin.
    assert (f = fi /\ forall f1 l, run = f1 :: l -> dominates fi f1) as [-> Hd].
    { unfold run_choice in Hin. destruct run as [|f1 l].
      - destruct Hin as [<-|[]]. split; [reflexivity|discriminate].
      - fold (field_depth fi) in Hin. fold (field_depth f1) in Hin.
        destruct (Nat.eqb (field_depth fi) (field_depth f1)) eqn:Ed; cbn in Hin.
        + destruct (Bool.eqb (tag fi) (tag f1)) eqn:Et; [destruct Hin|].
          destruct Hin as [<-|[]]. split; [reflexivity|].
          intros ? ? [= <- <-]. apply Nat.eqb_eq in Ed. right.
          destruct (Hrank f1 (or_introl eq_refl)) as [_ Ht].
          specialize (Ht Ed).
          destruct (tag fi), (tag f1); cbn in Et; try discriminate; auto.
          discriminate (Ht eq_refl).
        + destruct Hin as [<-|[]]. split; [reflexivity|].
          intros ? ? [= <- <-]. apply Nat.eqb_neq in Ed. left.
          destruct (Hrank f1 (or_introl eq_refl)) as [Hle _]. lia. }
    exists run. split; [apply Permutation_refl|].
    intros g Hg _. destruct run as [|f1 l]; [destruct Hg|].
    specialize (Hd f1 l eq_refl).
    destruct Hg as [<-|Hg]; [assumption|].
    inversion Hrun as [|? ? _ Hf1]; subst. rewrite Forall_forall in Hf1.
    assert (Hg1 : (field_depth f1 <= field_depth g)%nat /\
                  (field_depth f1 = field_depth g -> tag g = true -> tag f1 = true)).
    { apply not_after_rank; [auto|].
      rewrite (Hnames f1 (or_introl eq_refl)). symmetry. apply Hnames. right. assumption. }
    destruct Hd as [Hd|(Hd & Ht & Ht1)]; [left; lia|].
    destruct (Nat.eq_dec (field_depth f1) (field_depth g)) as [E|E]; [|left; lia].
    right. repeat split; [congruence|assumption|].
    destruct Hg1 as [_ Hg1]. specialize (Hg1 E).
    destruct (tag g); [|reflexivity]. rewrite Hg1 in Ht1; [discriminate|reflexivity].
  - intros (others & Hp & Hd).
    assert (Hfi_in : In fi (f :: others)).
    { apply (Permutation_in _ Hp). left. reflexivity. }
    destruct Hfi_in as [->|Hfi_in].
    + apply Permutation_cons_inv in Hp.
      unfold run_choice. destruct run as [|f1 l]; [left; reflexivity|].
      assert (Hd1 : dominates fi f1).
      { apply Hd; [|apply Hnames; left; reflexivity].
        apply (Permutation_in _ Hp). left. reflexivity. }
      fold (field_depth fi). fold (field_depth f1).
      destruct Hd1 as [Hd1|(Hd1 & Ht & Ht1)].
      * apply Nat.lt_neq, Nat.eqb_neq in Hd1. rewrite Hd1. left. reflexivity.
      * rewrite Ht, Ht1, andb_false_r. left. reflexivity.
    + exfalso.
      assert (Hf_in : In f (fi :: run)).
      { apply (Permutation_in _ (Permutation_sym Hp)). left. reflexivity. }
      destruct Hf_in as [<-|Hf_in].
      * apply (@dominates_irrefl fi). apply Hd; auto.
      * specialize (Hd fi Hfi_in (eq_sym (Hnames f Hf_in))).
        destruct (Hrank f Hf_in) as [Hle Ht].
        destruct Hd as [Hd|(Hd & Ht1 & Ht2)]; [lia|].
        rewrite Ht in Ht2; [discriminate|congruence|assumption].
Qed.

(** One turn of the collapse loop, by runs. *)
Lemma collapse_loop_step fuel fi rest out :
  collapse_loop (S fuel) (fi :: rest) out =
  collapse_loop fuel (after_run (name fi) rest)
    (out ++ run_choice fi (name_run (name fi) rest)).
Proof.
  cbn [collapse_loop]. rewrite skipn_advance, firstn_advance, advance_of_run.
  destruct (name_run (name fi) rest) as [|f1 l]; cbn [List.length Nat.eqb].
  - reflexivity.
  - cbn [dominantField run_choice bind].
    destruct (Nat.eqb (List.length (index fi)) (List.length (index f1))
              && Bool.eqb (tag fi) (tag f1)); cbn [bind].
    + rewrite app_nil_r. reflexivity.
    + reflexivity.
Qed.

Lemma collapse_loop_sorted fuel : forall L out,
  (List.length L <= fuel)%nat ->
  StronglySorted (not_after fcompare) L ->
  exists res,
    collapse_loop fuel L out = Ok (out ++ res) /\
    (forall f, In f res <-> dominant_in f L) /\
    NoDup (map name res).
Proof.
  induction fuel as [|fuel IH]; intros L out Hlen Hs.
  - destruct L; [|cbn in Hlen; lia]. exists []. cbn. rewrite app_nil_r.
    split; [reflexivity|]. split; [|constructor].
    intros f. split; [intros []|]. intros H. exact (dominant_in_nil H).
  - destruct L as [|fi rest].
    + exists []. cbn. rewrite app_nil_r.
      split; [reflexivity|]. split; [|constructor].
      intros f. split; [intros []|]. intros H. exact (dominant_in_nil H).
    + rewrite collapse_loop_step.
      pose proof (after_run_names Hs) as Hafter.
      pose proof (name_run_names (name fi) rest) as Hrun.
      pose proof (run_split (name fi) rest) as Hsplit.
      set (run := name_run (name fi) rest) in *.
      set (after := after_run (name fi) rest) in *.
      assert (Hs' : StronglySorted (not_after fcompare) ((fi :: run) ++ after)).
      { cbn. rewrite <- Hsplit. assumption. }
      apply sorted_app_inv in Hs'. destruct Hs' as [Hs1 Hs2].
      destruct (IH after (out ++ run_choice fi run)) as (res & Hres & Hiff & Hnd).
      { pose proof (after_run_length (name fi) rest). cbn in Hlen.
        subst after. lia. }
      { assumption. }
      exists (run_choice fi run ++ res). rewrite app_assoc.
      split; [assumption|].
      rewrite Forall_forall in Hafter, Hrun.
      assert (Hdis : forall g a, In g (fi :: run) -> In a after -> name g <> name a).
      { intros g a [<-|Hg] Ha E.
        - apply (Hafter a Ha). congruence.
        - apply (Hafter a Ha). rewrite <- E. auto. }
      split.
      * intros f. rewrite Hsplit.
        change (fi :: run ++ after) with ((fi :: run) ++ after).
        rewrite (@dominant_in_app f _ _ Hdis), in_app_iff, Hiff.
        rewrite (run_choice_dominant Hs1); [tauto|].
        apply Forall_forall. assumption.
      * rewrite map_app.
        assert (Hfresh : ~ In (name fi) (map name res)).
        { intros Hin. apply in_map_iff in Hin. destruct Hin as (a & Ha & Hin).
          apply Hiff, dominant_in_In in Hin. exact (Hafter a Hin Ha). }
        unfold run_choice. destruct run as [|f1 l]; cbn.
        -- constructor; assumption.
        -- destruct (Nat.eqb (List.length (index fi)) (List.length (index f1))
                     && Bool.eqb (tag fi) (tag f1)); cbn; [assumption|].
           constructor; assumption.
Qed.

(** Everything after the traversal: the candidates left are those that
    dominate the others of their name, one per name, ordered by index
    path; no turn of it can fail. *)
Lemma resolve_fields_rule cands :
  exists out,
    resolve_fields cands = Ok out /\
    (forall f, In f out <-> dominant_in f cands) /\
    NoDup (map name out) /\
    StronglySorted (not_after icompare_fields) out.
Proof.
  unfold resolve_fields.
  destruct (@collapse_loop_sorted (List.length (sort_fields byName_less cands))
              (sort_fields byName_less cands) [] (Nat.le_refl _))
    as (res & Hres & Hiff & Hnd).
  { apply (sort_fields_sorted fcompare_order byName_less_strict). }
  cbn [app] in Hres. rewrite Hres. cbn [bind].
  exists (sort_fields byIndex_Less res). split; [reflexivity|].
  pose proof (sort_fields_perm byIndex_Less res) as Hp.
  pose proof (sort_fields_perm byName_less cands) as Hq.
  split; [|split].
  - intros f. split.
    + intros Hin. apply (Permutation_in _ (Permutation_sym Hp)) in Hin.
      apply Hiff in Hin. exact (dominant_in_perm (Permutation_sym Hq) Hin).
    + intros Hin. apply (Permutation_in _ Hp). apply Hiff.
      exact (dominant_in_perm Hq Hin).
  - apply (Permutation_NoDup (Permutation_map name Hp)). assumption.
  - apply (sort_fields_sorted icompare_fields_order byIndex_Less_strict).
Qed.

(** When two candidates of one name tie at the best rank, none of that name
    is kept. *)
Lemma tie_drops_name cands out f g others :
  (forall h, In h out -> dominant_in h cands) ->
  Permutation cands (f :: g :: others) ->
  name f = name g -> field_depth f = field_depth g -> tag f = tag g ->
  best_ranked f cands ->
  forall h, In h out -> name h <> name f.
Proof.
  intros Hout Hp Hn Hd Ht Hbest h Hh Hname.
  destruct (Hout h Hh) as (rest & Hq & Hdom).
  assert (Hfg : Permutation (f :: g :: others) (h :: rest)).
  { eapply Permutation_trans; [apply Permutation_sym; exact Hp|exact Hq]. }
  assert (Hh_in : In h cands).
  { apply (Permutation_in _ (Permutation_sym Hq)). left. reflexivity. }
  destruct (Hbest h Hh_in Hname) as [Hle Htag].
  assert (Hno : forall x, In x rest -> name x = name f ->
                  field_depth x = field_depth f -> tag x = tag f -> False).
  { intros x Hx Hxn Hxd Hxt.
    destruct (Hdom x Hx) as [Hlt|(He & Ht1 & Ht2)]; [congruence|lia|].
    rewrite Htag in Hxt; congruence. }
  assert (Hf : In f (h :: rest)).
  { apply (Permutation_in _ Hfg). left. reflexivity. }
  destruct Hf as [<-|Hf].
  - apply Permutation_cons_inv in Hfg.
    apply (Hno g); try congruence.
    apply (Permutation_in _ Hfg). left. reflexivity.
  - apply (Hno f); auto.
Qed.

(** ** The traversal ends *)

Lemma struct_kind t :
  well_kinded t = true ->
  reflect.Kind_eqb (type_Kind t) reflect.Struct = true ->
  exists n sfs, t = TStruct n sfs.
Proof.
  destruct t as [k| | | | | |n sfs]; cbn; intros Hw Hk; try discriminate Hk;
    [|eauto].
  destruct k; discriminate.
Qed.

Lemma ptr_Elem_depth t : (type_depth (ptr_Elem t) <= type_depth t)%nat.
Proof.
  destruct t; cbn; lia.
Qed.

Lemma ptr_Elem_kinded t : well_kinded t = true -> well_kinded (ptr_Elem t) = true.
Proof.
  destruct t; cbn; auto.
Qed.

Lemma struct_field_depth n sfs sf :
  In sf sfs -> (type_depth (sfType sf) < type_depth (TStruct n sfs))%nat.
Proof.
  cbn [type_depth]. induction sfs as [|a sfs IH]; intros []; cbn [fold_right].
  - subst a. lia.
  - specialize (IH H). lia.
Qed.

Section Traversal.

Context {X : Externals}.

Lemma visit_field_queue bound f cnt i sf w :
  well_kinded (sfType sf) = true ->
  (type_depth (sfType sf) <= bound)%nat ->
  queue_ok bound (w_next w) ->
  queue_ok bound (w_next (visit_field f cnt i sf w)).
Proof.
  intros Hw Hd Hq. unfold visit_field.
  destruct (if sfAnonymous sf then _ else _); [assumption|].
  destruct (String.eqb (sfTag sf) "-"); [assumption|].
  destruct (parseTag (sfTag sf)) as [nm opts].
  set (nm' := if isValidTag nm then nm else ""%string).
  set (ft := if String.eqb (type_Name (sfType sf)) "" &&
                reflect.Kind_eqb (type_Kind (sfType sf)) reflect.Ptr
             then ptr_Elem (sfType sf) else sfType sf).
  assert (Hft : well_kinded ft = true /\ (type_depth ft <= bound)%nat).
  { subst ft. destruct (_ && _); [|auto].
    pose proof (ptr_Elem_depth (sfType sf)).
    split; [apply ptr_Elem_kinded; assumption|lia]. }
  destruct (negb (String.eqb nm' "") || negb (sfAnonymous sf)
            || negb (reflect.Kind_eqb (type_Kind ft) reflect.Struct)) eqn:E;
    cbn [w_next]; [assumption|].
  destruct (Nat.eqb _ 1); [|assumption].
  apply Forall_app. split; [assumption|].
  constructor; [|constructor]. cbn [typ level_field]. split; [|assumption].
  apply orb_false_iff in E. destruct E as [_ E].
  apply negb_false_iff in E. assumption.
Qed.

Lemma visit_fields_queue bound f cnt sfs : forall i w,
  Forall (fun sf => well_kinded (sfType sf) = true /\
                    (type_depth (sfType sf) <= bound)%nat) sfs ->
  queue_ok bound (w_next w) ->
  queue_ok bound (w_next (visit_fields f cnt i sfs w)).
Proof.
  induction sfs as [|sf sfs IH]; intros i w Hs Hq; cbn [visit_fields].
  - assumption.
  - inversion Hs as [|? ? [Hw Hd] Hs']; subst. apply IH; [assumption|].
    apply visit_field_queue; assumption.
Qed.

Lemma visit_level_queue bound count current : forall visited w,
  queue_ok (S bound) current ->
  queue_ok bound (w_next w) ->
  exists visited' w',
    visit_level current count visited w = Ok (visited', w') /\
    queue_ok bound (w_next w').
Proof.
  induction current as [|f current IH]; intros visited w Hc Hq; cbn [visit_level].
  - eauto.
  - inversion Hc as [|? ? (Hk & Hw & Hd) Hc']; subst.
    destruct (existsb (gotype_eqb (typ f)) visited); [apply IH; assumption|].
    destruct (struct_kind _ Hw Hk) as (n & sfs & Ht). rewrite Ht in *.
    cbn [struct_fields bind]. apply IH; [assumption|].
    apply visit_fields_queue; [|assumption].
    apply Forall_forall. intros sf Hsf.
    pose proof (struct_field_depth n sfs sf Hsf).
    cbn [well_kinded] in Hw. rewrite forallb_forall in Hw.
    split; [auto|lia].
Qed.

Lemma walk_levels_total fuel : forall next nextCount visited fields,
  queue_ok fuel next ->
  exists fields', walk_levels fuel next nextCount visited fields = Ok fields'.
Proof.
  induction fuel as [|fuel IH]; intros next nextCount visited fields Hq.
  - destruct next as [|f next]; [cbn; eauto|].
    inversion Hq as [|? ? (Hk & Hw & Hd) _]; subst.
    destruct (struct_kind _ Hw Hk) as (n & sfs & Ht). rewrite Ht in Hd.
    cbn in Hd. lia.
  - destruct next as [|f next]; [cbn; eauto|].
    cbn [walk_levels].
    destruct (@visit_level_queue fuel nextCount (f :: next) visited
                (mkWalk fields [] []) Hq) as (visited' & w' & Hv & Hq').
    { constructor. }
    rewrite Hv. cbn [bind]. apply IH. assumption.
Qed.

(** The traversal of a struct type ends with its candidates; it neither
    fails nor runs out of turns. *)
Lemma candidate_fields_total n sfs :
  well_kinded (TStruct n sfs) = true ->
  exists cands, candidate_fields (TStruct n sfs) = Ok cands.
Proof.
  intros Hw. unfold candidate_fields. apply walk_levels_total.
  constructor; [|constructor]. cbn [typ level_field].
  split; [reflexivity|]. split; [assumption|lia].
Qed.

End Traversal.

(** C4, as stated, fails in two ways.  In [type T struct{A; B; X int}] with
    [A struct{X int}] and [B struct{X, Y int}] the candidates [A.X] and [B.X]
    have one name, equal depth and equal annotated-ness, and yet the name [X]
    is bound, to the field of [T] itself that shadows them both.  In
    [type U struct{P int "X"; X int; C}] with [C struct{Q int "X"}] the name
    [X] is bound to [P], which is neither shallower than every other
    candidate of the name (the field [X] is as deep) nor the only annotated
    one ([C.Q] is annotated too). *)
Lemma shadowed_tie_is_bound :
  exists cands out cands' out',
    candidate_fields shadow_T = Ok cands /\
    typeFields shadow_T = Ok out /\
    map field_shape cands =
      [("X"%string, 1%nat, false, [2%nat]); ("X"%string, 2%nat, false, [0%nat; 0%nat]);
       ("X"%string, 2%nat, false, [1%nat; 0%nat]); ("Y"%string, 2%nat, false, [1%nat; 1%nat])] /\
    map field_shape out =
      [("Y"%string, 2%nat, false, [1%nat; 1%nat]); ("X"%string, 1%nat, false, [2%nat])] /\
    candidate_fields ranked_U = Ok cands' /\
    typeFields ranked_U = Ok out' /\
    map field_shape cands' =
      [("X"%string, 1%nat, true, [0%nat]); ("X"%string, 1%nat, false, [1%nat]);
       ("X"%string, 2%nat, true, [2%nat; 0%nat])] /\
    map field_shape out' = [("X"%string, 1%nat, true, [0%nat])].
Proof.
  do 4 eexists. repeat split; vm_compute; reflexivity.
Qed.

(** C4, amended: for every struct type, field resolution ends and
    raises no error; a candidate is bound exactly when it dominates every
    other candidate of its name, that is when it is shallower than the
    other, or as deep and annotated while the other is not; at most one
    field is bound per name; and when two candidates of one name tie in
    depth and annotated-ness at the best rank of that name, no field is
    bound for the name. *)
Theorem dominant_field_rule {X : Externals} (n : string)
  (sfs : list (StructField gotype)) :
  well_kinded (TStruct n sfs) = true ->
  exists cands out,
    candidate_fields (TStruct n sfs) = Ok cands /\
    typeFields (TStruct n sfs) = Ok out /\
    (forall f, In f out <-> dominant_in f cands) /\
    NoDup (map name out) /\
    (forall f g others,
       Permutation cands (f :: g :: others) ->
       name f = name g -> field_depth f = field_depth g -> tag f = tag g ->
       best_ranked f cands ->
       forall h, In h out -> name h <> name f).
Proof.
  intros Hw. destruct (candidate_fields_total n sfs Hw) as (cands & Hc).
  destruct (resolve_fields_rule cands) as (out & Hout & Hiff & Hnd & _).
  exists cands, out. split; [assumption|].
  split; [unfold typeFields; rewrite Hc; exact Hout|].
  split; [assumption|]. split; [assumption|].
  intros f g others Hp Hn Hd Ht Hbest.
  apply (@tie_drops_name cands out f g others); auto.
  intros h Hh. apply Hiff. assumption.
Qed.

(** The rule at the struct [T] above. *)
Lemma dominant_field_rule_witness :
  well_kinded shadow_T = true /\
  exists cands out,
    candidate_fields shadow_T = Ok cands /\
    typeFields shadow_T = Ok out /\
    (forall f, In f out <-> dominant_in f cands) /\
    NoDup (map name out) /\
    (forall f g others,
       Permutation cands (f :: g :: others) ->
       name f = name g -> field_depth f = field_depth g -> tag f = tag g ->
       best_ranked f cands ->
       forall h, In h out -> name h <> name f).
Proof.
  split; [reflexivity|].
  apply (@dominant_field_rule stdExternals "T"). reflexivity.
Defined.

(** * What the validator reports *)

(** A step keeps the count of bytes, and records an error exactly when it
    refuses the byte. *)
Lemma step_facts c s s' op :
  scanner_inv s -> err s = None -> scan_step s c = Ok (s', op) ->
  bytes s' = bytes s /\
  (op = scanError ->
   (exists ctx, err s' = Some (SyntaxError (InvalidCharacter c ctx) (bytes s))) \/
   (exists num e, err s' = Some (NumError num e))) /\
  (op <> scanError -> err s' = None).
Proof.
  destruct s as [st ps et er by_ str dg].
  unfold scanner_inv, scan_step; simpl.
  intros (Hf & He & Herr & Hstr) ->.
  destruct st; simpl in Hf, Hstr; try discriminate;
    destruct ps as [|f rest]; try discriminate; try (destruct f; try discriminate).
  all: try (exfalso; apply Herr; [reflexivity|reflexivity]).
  all: do 3 (unfold_steps; cbn -[Z.pow wrap_uint64 Z.eqb]).
  all: try (subst str; cbn -[Z.pow wrap_uint64]).
  all: try match goal with |- context [ParseUint ?d] =>
         destruct (ParseUint d) as [e|n] eqn:HP end.
  all: repeat break_if.
  all: try destruct rest.
  all: intros H; try discriminate H; injection H as <- <-; cbn -[Z.pow].
  all: repeat split; try reflexivity; try congruence; eauto.
Qed.

(** X1: [Valid] answers on every input: the scanner never pops an empty
    stack of frames, never indexes past it, and never meets a state it has
    no step for. *)
Theorem Valid_never_panics (data : list byte) :
  Valid data = Ok true \/ Valid data = Ok false.
Proof.
  unfold Valid, checkValid.
  destruct (@checkValid_loop_total data (reset zero_scanner) (reset_inv zero_scanner eq_refl))
    as (s & e & ->).
  cbn [bind]. destruct e; auto.
Qed.

Lemma wrap_int64_small z : - 2 ^ 63 <= z < 2 ^ 63 -> wrap_int64 z = z.
Proof.
  intros H. unfold wrap_int64. rewrite Z.mod_small; lia.
Qed.

Lemma checkValid_loop_error data : forall s s' e,
  scanner_inv s -> err s = None ->
  0 <= bytes s -> bytes s + len data < 2 ^ 63 ->
  checkValid_loop data s = Ok (s', Some e) ->
  match e with
  | SyntaxError (InvalidCharacter c _) o =>
      exists pre post, data = pre ++ c :: post /\ o = bytes s + len pre + 1
  | SyntaxError UnexpectedEndOfInput o => o = bytes s + len data
  | SyntaxError NotAtBeginningOfValue _ => False
  | NumError _ _ => True
  end.
Proof.
  unfold len.
  induction data as [|c data IH]; intros s s' e Hs Herr Hb Hlen; cbn [checkValid_loop].
  - unfold eof. rewrite Herr. destruct (endTop s); cbn [opcode_eqb]; [discriminate|].
    cbn [err set_err]. intros H. injection H as _ <-. cbn [List.length]. lia.
  - cbn [List.length] in Hlen.
    rewrite wrap_int64_small by lia.
    destruct (@step_preserves c (set_bytes s (bytes s + 1))) as (s2 & op & E & Hs2 & _);
      [exact Hs|].
    rewrite E. cbn [bind].
    destruct (@step_facts c (set_bytes s (bytes s + 1)) _ _ Hs Herr E) as (Hb2 & Hbad & Hgood). cbn [bytes set_bytes] in *.
    destruct (opcode_eqb op scanError) eqn:Eop.
    + assert (op = scanError) as -> by (destruct op; discriminate || reflexivity).
      intros H. injection H as _ H.
      destruct (Hbad eq_refl) as [[ctx Hc]|(num & ne & Hc)]; rewrite Hc in H;
        injection H as <-; [|exact I].
      exists [], data. split; [reflexivity|]. cbn [List.length]. lia.
    + intros H. apply IH in H; try assumption; try lia.
      * destruct e as [[c' ctx| |] o|]; try assumption.
        -- destruct H as (pre & post & -> & ->). exists (c :: pre), post.
           split; [reflexivity|]. cbn [List.length]. lia.
        -- cbn [List.length]. lia.
      * apply Hgood. intros ->. discriminate Eop.
Qed.

(** X2: the offset in a syntax error of [checkValid] is the count of bytes
    read when it was met: for a refused byte, its position counted from 1;
    for the end of the input, the length of the input. *)
Theorem syntax_error_position (data : list byte) (s : scanner) (e : scanErr) :
  len data < 2 ^ 63 ->
  checkValid data zero_scanner = Ok (s, Some e) ->
  match e with
  | SyntaxError (InvalidCharacter c _) o =>
      exists pre post, data = pre ++ c :: post /\ o = len pre + 1
  | SyntaxError UnexpectedEndOfInput o => o = len data
  | SyntaxError NotAtBeginningOfValue _ => False
  | NumError _ _ => True
  end.
Proof.
  intros Hlen H. unfold checkValid in H.
  apply checkValid_loop_error in H; try reflexivity.
  - exact H.
  - apply reset_inv. reflexivity.
  - cbn. exact Hlen.
Qed.

Lemma checkValid_loop_error_final p : forall s s' e sfx,
  scanner_inv s -> err s = None ->
  checkValid_loop p s = Ok (s', Some e) ->
  (forall o, e <> SyntaxError UnexpectedEndOfInput o) ->
  checkValid_loop (p ++ sfx) s = Ok (s', Some e).
Proof.
  induction p as [|c p IH]; intros s s' e sfx Hs Herr H Hne; cbn [checkValid_loop app] in *.
  - exfalso. unfold eof in H. rewrite Herr in H.
    destruct (endTop s); cbn [opcode_eqb] in H; [discriminate H|].
    cbn [err set_err] in H. injection H as _ <-. exact (Hne _ eq_refl).
  - destruct (@step_preserves c (set_bytes s (wrap_int64 (bytes s + 1)))) as (s2 & op & E & Hs2 & _);
      [exact Hs|].
    rewrite E in *. cbn [bind] in *.
    destruct (opcode_eqb op scanError) eqn:Eop; [exact H|].
    apply IH; try assumption.
    apply (@step_facts c (set_bytes s (wrap_int64 (bytes s + 1))) _ _ Hs Herr E). intros ->. discriminate Eop.
Qed.

(** X3: once [checkValid] has refused a byte, or a string length, of an
    input, it reports the same error with the same scanner on every
    extension of that input, which is not valid either. *)
Theorem scan_error_is_final (p sfx : list byte) (s : scanner) (e : scanErr) :
  checkValid p zero_scanner = Ok (s, Some e) ->
  (forall o, e <> SyntaxError UnexpectedEndOfInput o) ->
  checkValid (p ++ sfx) zero_scanner = Ok (s, Some e) /\ Valid (p ++ sfx) = Ok false.
Proof.
  intros H Hne. unfold Valid, checkValid in *.
  rewrite (@checkValid_loop_error_final p _ s e sfx); try assumption; try reflexivity.
  - split; reflexivity.
  - apply reset_inv. reflexivity.
Qed.

(** * The scanner and the grammar *)

Lemma steps_app s a : forall b s1 s2,
  steps s a s1 -> steps s1 b s2 -> steps s (a ++ b) s2.
Proof.
  intros b s1 s2 H. revert b s2. induction H; intros b s2 H2; cbn [app].
  - exact H2.
  - econstructor; eauto.
Qed.

Lemma run_steps k s bs s' : run k s bs s' -> steps s bs s'.
Proof.
  induction 1; [constructor|]. econstructor; eassumption.
Qed.

Lemma run_nil_inv k s s' : run k s [] s' -> s' = s.
Proof. inversion 1. reflexivity. Qed.

Lemma run_app k s a : forall b s1 s2,
  run k s a s1 -> run k s1 b s2 ->
  (a <> [] -> b <> [] -> (k < List.length (parseState s1))%nat) ->
  run k s (a ++ b) s2.
Proof.
  intros b s1 s2 H. revert b s2.
  induction H as [|s c s1' op bs s1 Hstep Hop Hend Hdeep Hrun IH];
    intros b s2 H2 Hmid; cbn [app].
  - exact H2.
  - econstructor; [exact Hstep|exact Hop|exact Hend| |].
    + intros Hne. destruct bs as [|c' bs].
      * apply run_nil_inv in Hrun. subst s1. apply Hmid; [discriminate|].
        intros ->. now elim Hne.
      * apply Hdeep. discriminate.
    + apply IH; [exact H2|]. intros Hbs Hb. apply Hmid; [discriminate|exact Hb].
Qed.

Lemma run_weaken k k' s bs s' : (k <= k')%nat -> run k' s bs s' -> run k s bs s'.
Proof.
  intros Hk. induction 1 as [|s c s1 op bs s' Hstep Hop Hend Hdeep _ IH]; [constructor|].
  econstructor; [exact Hstep|exact Hop|exact Hend| |exact IH].
  intros Hne. specialize (Hdeep Hne). lia.
Qed.

Lemma run_one k s c s1 op :
  scan_step s c = Ok (s1, op) -> op <> scanError -> op <> scanEnd -> run k s [c] s1.
Proof.
  intros H Hop Hend. econstructor; [exact H|exact Hop|exact Hend| |constructor].
  intros Hne. now elim Hne.
Qed.

Lemma digit_not_e c : is_digit c = true -> Byte.eqb c "e" = false.
Proof. destruct c; try discriminate; reflexivity. Qed.

Lemma digit_not_colon c : is_digit c = true -> Byte.eqb c ":" = false.
Proof. destruct c; try discriminate; reflexivity. Qed.

Lemma pop_closed f x ps b :
  popParseState (open_state f (x :: ps) b 0 []) = Ok (closed_state ps b).
Proof. destruct ps; reflexivity. Qed.

(** Rewrites the tests on the byte at hand by what is known of it. *)
Ltac byte_tests :=
  repeat match goal with
  | H : Byte.eqb ?c ?k = _ |- context [Byte.eqb ?c ?k] => rewrite H
  | H : byte_in ?a ?b ?c = _ |- context [byte_in ?a ?b ?c] => rewrite H
  | |- context [Byte.eqb ?k ?k] => rewrite (byte_dec_lb (eq_refl k))
  end.

(** Computes one step of the scanner from a state written out. *)
Ltac scan_go :=
  unfold scan_step, open_state, closed_state; cbn [step];
  do 3 (unfold_steps;
        cbn [step parseState endTop err bytes string_ digits app]; byte_tests);
  cbn -[Z.pow wrap_uint64 Z.eqb ParseUint].

(** The stack of a state written out is deeper than the frames below it. *)
Ltac deeper := intros _; cbn [parseState open_state closed_state List.length]; lia.

(** ** From the grammar to the scanner *)

Lemma sil_run ps b ds :
  forallb is_digit ds = true ->
  run (List.length ps) (open_state step_sil (parseInteger :: ps) b 0 [])
    (ds ++ ["e"%byte]) (closed_state ps b).
Proof.
  induction ds as [|c ds IH]; cbn [forallb app].
  - intros _. eapply run_one;
      [scan_go; destruct ps; reflexivity|destruct ps; discriminate..].
  - intros H. apply andb_prop in H. destruct H as [Hc Hds].
    pose proof (digit_not_e _ Hc) as He. unfold is_digit in Hc.
    econstructor; [scan_go; reflexivity|discriminate|discriminate|deeper|exact (IH Hds)].
Qed.

Lemma int_run ps b ds :
  int_text ds = true ->
  run (List.length ps) (open_state step_si (parseInteger :: ps) b 0 [])
    (ds ++ ["e"%byte]) (closed_state ps b).
Proof.
  unfold int_text, len_text. destruct ds as [|c ds]; [discriminate|].
  destruct (Byte.eqb c "-") eqn:Hm.
  - destruct ds as [|c' ds]; [discriminate|]. intros H.
    apply andb_prop in H. destruct H as [Hc Hds].
    assert (H0 : Byte.eqb c' "0" = false) by (destruct c'; try discriminate; reflexivity).
    unfold nonzero_digit in Hc.
    cbn [app].
    econstructor; [scan_go; reflexivity|discriminate|discriminate|deeper|].
    econstructor; [scan_go; reflexivity|discriminate|discriminate|deeper|].
    apply sil_run. exact Hds.
  - destruct (Byte.eqb c "0") eqn:H0.
    + destruct ds; [|discriminate]. intros _. cbn [app].
      econstructor; [scan_go; reflexivity|discriminate|discriminate|deeper|].
      eapply run_one; [scan_go; destruct ps; reflexivity|destruct ps; discriminate..].
    + intros H. apply andb_prop in H. destruct H as [Hc Hds].
      unfold nonzero_digit in Hc.
      cbn [app].
      econstructor; [scan_go; reflexivity|discriminate|discriminate|deeper|].
      apply sil_run. exact Hds.
Qed.

Lemma ssl_run ps b ds : forall dg,
  forallb is_digit ds = true ->
  run (List.length ps) (open_state step_ssl (parseStringLength :: ps) b 0 dg) ds
    (open_state step_ssl (parseStringLength :: ps) b 0 (dg ++ ds)).
Proof.
  induction ds as [|c ds IH]; intros dg; cbn [forallb].
  - intros _. rewrite app_nil_r. constructor.
  - intros H. apply andb_prop in H. destruct H as [Hc Hds].
    pose proof (digit_not_colon _ Hc) as Hcolon. unfold is_digit in Hc.
    econstructor; [scan_go; reflexivity|discriminate|discriminate|deeper|].
    replace (dg ++ c :: ds) with ((dg ++ [c]) ++ ds) by (rewrite <- app_assoc; reflexivity).
    apply IH. exact Hds.
Qed.

Lemma ss_run ps b body : forall n,
  0 < n < 2 ^ 64 -> len body = n ->
  run (List.length ps) (open_state step_ss (parseString :: ps) b n []) body
    (closed_state ps b).
Proof.
  unfold len.
  induction body as [|c body IH]; intros n Hn Hlen; cbn [List.length] in Hlen; [lia|].
  destruct (n - 1 =? 0) eqn:E.
  - apply Z.eqb_eq in E. destruct body; [|cbn [List.length] in Hlen; lia].
    eapply run_one;
      [scan_go; rewrite (wrap_uint64_pred Hn), E; cbn [Z.eqb]; destruct ps; reflexivity
      |destruct ps; discriminate..].
  - econstructor;
      [scan_go; rewrite (wrap_uint64_pred Hn), E; reflexivity
      |discriminate|discriminate|deeper
      |apply (IH (n - 1)); apply Z.eqb_neq in E; lia].
Qed.

Lemma ssf_run ps b body n :
  0 < n < 2 ^ 64 -> len body = n ->
  run (List.length ps) (open_state step_ssf (parseString :: ps) b n []) body
    (closed_state ps b).
Proof.
  unfold len. intros Hn Hlen.
  destruct body as [|c body]; cbn [List.length] in Hlen; [lia|].
  destruct (n - 1 =? 0) eqn:E.
  - apply Z.eqb_eq in E. destruct body; [|cbn [List.length] in Hlen; lia].
    eapply run_one;
      [scan_go; rewrite (wrap_uint64_pred Hn), E; cbn [Z.eqb]; destruct ps; reflexivity
      |destruct ps; discriminate..].
  - econstructor;
      [scan_go; rewrite (wrap_uint64_pred Hn), E; reflexivity
      |discriminate|discriminate|deeper
      |apply (@ss_run ps b body (n - 1)); unfold len; apply Z.eqb_neq in E; lia].
Qed.

Lemma len_nil (body : list byte) : len body = 0 -> body = [].
Proof. unfold len. destruct body; [reflexivity|cbn [List.length]; lia]. Qed.

(** From the colon on: the length is parsed, and the body runs out where
    the value closes. *)
Lemma colon_run f ps b dg body :
  f = step_ssl0 \/ f = step_ssl ->
  ParseUint dg = inr (len body) ->
  run (List.length ps) (open_state f (parseStringLength :: ps) b 0 dg)
    (":"%byte :: body) (closed_state ps b).
Proof.
  intros Hf HP. pose proof (ParseUint_range _ HP) as Hr.
  destruct (len body =? 0) eqn:E.
  - apply Z.eqb_eq in E. rewrite E in HP. rewrite (len_nil _ E).
    eapply run_one;
      [destruct Hf as [-> | ->]; scan_go; rewrite HP; cbn -[Z.pow];
         destruct ps; reflexivity
      |destruct ps; discriminate..].
  - econstructor;
      [destruct Hf as [-> | ->]; scan_go; rewrite HP; cbn -[Z.pow Z.eqb];
         rewrite E; reflexivity
      |discriminate|discriminate|deeper|].
    apply Z.eqb_neq in E. apply ssf_run; [lia|reflexivity].
Qed.

Lemma len_text_first c ds :
  len_text (c :: ds) = true ->
  (Byte.eqb c "0" = true /\ ds = []) \/
  (Byte.eqb c "0" = false /\ nonzero_digit c = true /\ forallb is_digit ds = true).
Proof.
  unfold len_text. destruct (Byte.eqb c "0").
  - destruct ds; [auto|discriminate].
  - intros H. apply andb_prop in H. auto.
Qed.

Lemma string_run ps b c ds body :
  len_text (c :: ds) = true -> ParseUint (c :: ds) = inr (len body) ->
  run (List.length ps)
    (open_state (if Byte.eqb c "0" then step_ssl0 else step_ssl)
       (parseStringLength :: ps) b 0 [c])
    (ds ++ ":"%byte :: body) (closed_state ps b).
Proof.
  intros Ht HP. destruct (len_text_first _ _ Ht) as [[H0 ->]|(H0 & Hc & Hds)]; rewrite H0.
  - apply colon_run; auto.
  - eapply run_app; [apply ssl_run; exact Hds|apply colon_run; auto|deeper].
Qed.

Lemma nonzero_not_letter c :
  nonzero_digit c = true ->
  Byte.eqb c "d" = false /\ Byte.eqb c "l" = false /\ Byte.eqb c "i" = false /\
  Byte.eqb c "e" = false /\ Byte.eqb c "0" = false.
Proof. destruct c; try discriminate; repeat split. Qed.

(** The first digit of a string, where a value or a key may begin. *)
Lemma sv_digit f ps b c ds :
  len_text (c :: ds) = true ->
  sv (open_state f ps b 0 []) c =
    Ok (open_state (if Byte.eqb c "0" then step_ssl0 else step_ssl)
          (parseStringLength :: ps) b 0 [c], scanBeginString).
Proof.
  intros Ht. destruct (len_text_first _ _ Ht) as [[H0 ->]|(H0 & Hc & Hds)].
  - apply byte_dec_bl in H0. subst c. reflexivity.
  - destruct (nonzero_not_letter _ Hc) as (Hd & Hl & Hi & He & _).
    unfold nonzero_digit in Hc. unfold sv. byte_tests. reflexivity.
Qed.

Lemma sd_digit f ps b c ds :
  len_text (c :: ds) = true ->
  sd (open_state f ps b 0 []) c =
    Ok (open_state (if Byte.eqb c "0" then step_ssl0 else step_ssl)
          (parseStringLength :: ps) b 0 [c], scanBeginString).
Proof.
  intros Ht. destruct (len_text_first _ _ Ht) as [[H0 ->]|(H0 & Hc & Hds)].
  - apply byte_dec_bl in H0. subst c. reflexivity.
  - destruct (nonzero_not_letter _ Hc) as (Hd & Hl & Hi & He & _).
    unfold nonzero_digit in Hc. unfold sd. byte_tests. reflexivity.
Qed.

(** [sv] refuses the byte that closes a list. *)
Lemma sv_not_e s c s1 op :
  sv s c = Ok (s1, op) -> op <> scanError -> Byte.eqb c "e" = false.
Proof.
  intros H Hop. destruct (Byte.eqb c "e") eqn:E; [|reflexivity].
  apply byte_dec_bl in E. subst c. cbn in H. injection H as _ <-. now elim Hop.
Qed.

(** Where a value may begin, the scanner goes through it and comes to the
    state after the value, the stack deeper all the way than it was before
    the value; through the elements of a list and the entries of a dictionary
    it comes to where the next one begins or the composite closes. *)
Lemma grammar_runs :
  (forall v, bvalue v -> forall f ps b,
     exists c v' s1 op, v = c :: v' /\
       sv (open_state f ps b 0 []) c = Ok (s1, op) /\
       op <> scanError /\ op <> scanEnd /\
       List.length (parseState s1) = S (List.length ps) /\ v' <> [] /\
       run (List.length ps) s1 v' (closed_state ps b)) /\
  (forall vs, bvalues vs -> forall f ps b, list_state f ->
     exists f', list_state f' /\
       run (List.length ps) (open_state f (parseListValue :: ps) b 0 []) vs
         (open_state f' (parseListValue :: ps) b 0 [])) /\
  (forall es, bentries es -> forall f top ps b, dict_state f top ->
     exists f' top', dict_state f' top' /\
       run (List.length ps) (open_state f (top :: ps) b 0 []) es
         (open_state f' (top' :: ps) b 0 [])).
Proof.
  apply bvalue_mutind.
  - (* integer *)
    intros ds Hds f ps b. do 4 eexists. split; [reflexivity|].
    split; [reflexivity|]. split; [discriminate|]. split; [discriminate|].
    split; [reflexivity|]. split; [destruct ds; discriminate|].
    apply int_run. exact Hds.
  - (* string *)
    intros s (ds & body & -> & Ht & HP) f ps b.
    destruct ds as [|c ds]; [discriminate|].
    do 4 eexists. split; [reflexivity|].
    split; [apply (sv_digit _ _ _ _ _ Ht)|]. split; [discriminate|].
    split; [discriminate|]. split; [reflexivity|]. split; [destruct ds; discriminate|].
    apply string_run; assumption.
  - (* list *)
    intros vs _ IH f ps b.
    destruct (IH step_sl ps b (or_introl eq_refl)) as (f' & Hf' & Hrun).
    do 4 eexists. split; [reflexivity|].
    split; [reflexivity|]. split; [discriminate|]. split; [discriminate|].
    split; [reflexivity|]. split; [destruct vs; discriminate|].
    eapply run_app; [exact Hrun| |deeper].
    eapply run_one;
      [destruct Hf' as [-> | ->]; scan_go; destruct ps; reflexivity
      |destruct ps; discriminate..].
  - (* dictionary *)
    intros es _ IH f ps b.
    destruct (IH step_sd parseDictionaryKey ps b (or_introl (conj eq_refl eq_refl)))
      as (f' & top' & Hf' & Hrun).
    do 4 eexists. split; [reflexivity|].
    split; [reflexivity|]. split; [discriminate|]. split; [discriminate|].
    split; [reflexivity|]. split; [destruct es; discriminate|].
    eapply run_app; [exact Hrun| |deeper].
    eapply run_one;
      [destruct Hf' as [[-> ->]|[-> ->]]; scan_go; destruct ps; reflexivity
      |destruct ps; discriminate..].
  - (* no value *)
    intros f ps b Hf. exists f. split; [exact Hf|constructor].
  - (* a value and values *)
    intros v vs _ IHv _ IHvs f ps b Hf.
    destruct (IHv f (parseListValue :: ps) b)
      as (c & v' & s1 & op & -> & Hsv & Hop & Hend & Hdeep & Hne & Hrun).
    destruct (IHvs step_se ps b (or_intror eq_refl)) as (f' & Hf' & Hrest).
    exists f'. split; [exact Hf'|]. cbn [app].
    pose proof (sv_not_e _ _ Hsv Hop) as He.
    assert (Hfirst : scan_step (open_state f (parseListValue :: ps) b 0 []) c = Ok (s1, op)).
    { destruct Hf as [-> | ->]; unfold scan_step, open_state; cbn [step];
        unfold se, sl; cbn [parseState]; rewrite He; exact Hsv. }
    econstructor; [exact Hfirst|exact Hop|exact Hend| |].
    + intros _. cbn [List.length] in Hdeep. lia.
    + eapply run_app; [apply (run_weaken (k := List.length ps)) in Hrun; [exact Hrun|]|exact Hrest|deeper].
      cbn [List.length]. lia.
  - (* no entry *)
    intros f top ps b Hf. exists f, top. split; [exact Hf|constructor].
  - (* an entry and entries *)
    intros k v es (ds & body & -> & Ht & HP) _ IHv _ IHes f top ps b Hf.
    destruct ds as [|c ds]; [discriminate|].
    destruct (IHv step_se (parseDictionaryValue :: ps) b)
      as (c2 & v' & s1 & op & -> & Hsv & Hop & Hend & Hdeep & Hne & Hrun).
    destruct (IHes step_se parseDictionaryValue ps b (or_intror (conj eq_refl eq_refl)))
      as (f' & top' & Hf' & Hrest).
    exists f', top'. split; [exact Hf'|]. cbn [app].
    assert (Hfirst : scan_step (open_state f (top :: ps) b 0 []) c =
              Ok (open_state (if Byte.eqb c "0" then step_ssl0 else step_ssl)
                    (parseStringLength :: parseDictionaryKey :: ps) b 0 [c],
                  scanBeginString)).
    { destruct Hf as [[-> ->]|[-> ->]]; unfold scan_step, open_state; cbn [step];
        [|unfold se, set_parseState; cbn [parseState step endTop err bytes string_ digits]];
        apply (sd_digit _ _ _ _ _ Ht). }
    econstructor; [exact Hfirst|discriminate|discriminate|deeper|].
    eapply run_app;
      [apply (@run_weaken (List.length ps) (List.length (parseDictionaryKey :: ps)));
         [cbn [List.length]; lia|apply string_run; assumption]
      | |deeper].
    cbn [closed_state app].
    econstructor; [|exact Hop|exact Hend| |].
    + unfold scan_step, open_state; cbn [step]. unfold se; cbn [parseState].
      exact Hsv.
    + intros _. cbn [List.length] in Hdeep. lia.
    + eapply run_app; [apply (run_weaken (k := List.length ps)) in Hrun; [exact Hrun|]|exact Hrest|deeper].
      cbn [List.length]. lia.
Qed.

(** ** From the scanner to the grammar *)

Lemma steps_nil_inv s sf : steps s [] sf -> sf = s.
Proof. inversion 1. reflexivity. Qed.

Lemma steps_cons_inv s c bs sf :
  steps s (c :: bs) sf ->
  exists s1 op, scan_step s c = Ok (s1, op) /\ op <> scanError /\ steps s1 bs sf.
Proof. inversion 1; subst. eauto. Qed.

Tactic Notation "first_step" hyp(H) "as" ident(s1) ident(op) ident(Hs) ident(Ho)
  ident(Hr) :=
  apply steps_cons_inv in H; destruct H as (s1 & op & Hs & Ho & Hr).

(** A run that ends inside the top-level value is not one that reaches its
    end. *)
Ltac ends_open H Hend :=
  apply steps_nil_inv in H; subst; discriminate Hend.

Ltac scan_in H := revert H; scan_go; intros H.

(** The step at hand is one the scanner refuses. *)
Ltac refused Hstep Hop :=
  scan_in Hstep; injection Hstep as _ <-; now elim Hop.

Lemma sil_back ps b bs : forall sf,
  steps (open_state step_sil (parseInteger :: ps) b 0 []) bs sf ->
  endTop sf = true ->
  exists ds rest, bs = ds ++ "e"%byte :: rest /\ forallb is_digit ds = true /\
    steps (closed_state ps b) rest sf.
Proof.
  induction bs as [|c bs IH]; intros sf H Hend; [ends_open H Hend|].
  first_step H as s1 op Hstep Hop Hrest.
  destruct (Byte.eqb c "e") eqn:He.
  - apply byte_dec_bl in He. subst c. scan_in Hstep.
    exists [], bs. destruct ps; injection Hstep as <- <-; auto.
  - destruct (byte_in "0" "9" c) eqn:Hd; [|refused Hstep Hop].
    scan_in Hstep. injection Hstep as <- <-.
    destruct (IH _ Hrest Hend) as (ds & rest & -> & Hds & Hr).
    exists (c :: ds), rest. cbn [forallb]. unfold is_digit at 1. rewrite Hd. auto.
Qed.

Lemma int_back ps b bs sf :
  steps (open_state step_si (parseInteger :: ps) b 0 []) bs sf ->
  endTop sf = true ->
  exists ds rest, bs = ds ++ "e"%byte :: rest /\ int_text ds = true /\
    steps (closed_state ps b) rest sf.
Proof.
  intros H Hend. destruct bs as [|c bs]; [ends_open H Hend|].
  first_step H as s1 op Hstep Hop Hrest.
  destruct (Byte.eqb c "-") eqn:Hm.
  - (* a minus sign *)
    scan_in Hstep. injection Hstep as <- <-.
    destruct bs as [|c0 bs]; [ends_open Hrest Hend|].
    first_step Hrest as s2 op2 Hstep Hop2 Hrest2.
    destruct (Byte.eqb c0 "0") eqn:H0; [refused Hstep Hop2|].
    destruct (byte_in "1" "9" c0) eqn:H19; [|refused Hstep Hop2].
    scan_in Hstep. injection Hstep as <- <-.
    destruct (sil_back Hrest2 Hend) as (ds & rest & -> & Hds & Hr).
    exists (c :: c0 :: ds), rest. split; [reflexivity|]. split; [|exact Hr].
    unfold int_text. rewrite Hm. unfold nonzero_digit. rewrite H19. exact Hds.
  - destruct (Byte.eqb c "0") eqn:H0.
    + (* zero *)
      scan_in Hstep. injection Hstep as <- <-.
      destruct bs as [|c0 bs]; [ends_open Hrest Hend|].
      first_step Hrest as s2 op2 Hstep Hop2 Hrest2.
      destruct (Byte.eqb c0 "e") eqn:He; [|refused Hstep Hop2].
      apply byte_dec_bl in He. subst c0. scan_in Hstep.
      exists [c], bs. split; [reflexivity|]. split.
      * unfold int_text, len_text. rewrite Hm, H0. reflexivity.
      * destruct ps; injection Hstep as <- <-; assumption.
    + destruct (byte_in "1" "9" c) eqn:H19; [|refused Hstep Hop].
      scan_in Hstep. injection Hstep as <- <-.
      destruct (sil_back Hrest Hend) as (ds & rest & -> & Hds & Hr).
      exists (c :: ds), rest. split; [reflexivity|]. split; [|exact Hr].
      unfold int_text, len_text. rewrite Hm, H0. unfold nonzero_digit. rewrite H19.
      exact Hds.
Qed.

Lemma ssl_back ps b bs : forall dg sf,
  steps (open_state step_ssl (parseStringLength :: ps) b 0 dg) bs sf ->
  endTop sf = true ->
  exists ds rest, bs = ds ++ ":"%byte :: rest /\ forallb is_digit ds = true /\
    steps (open_state step_ssl (parseStringLength :: ps) b 0 (dg ++ ds))
      (":"%byte :: rest) sf.
Proof.
  induction bs as [|c bs IH]; intros dg sf H Hend; [ends_open H Hend|].
  destruct (Byte.eqb c ":") eqn:Hc.
  - apply byte_dec_bl in Hc. subst c. exists [], bs. rewrite app_nil_r. auto.
  - first_step H as s1 op Hstep Hop Hrest.
    destruct (byte_in "0" "9" c) eqn:Hd; [|refused Hstep Hop].
    scan_in Hstep. injection Hstep as <- <-.
    destruct (IH _ _ Hrest Hend) as (ds & rest & -> & Hds & Hr).
    exists (c :: ds), rest. split; [reflexivity|]. split.
    + cbn [forallb]. unfold is_digit at 1. rewrite Hd. exact Hds.
    + rewrite <- app_assoc in Hr. exact Hr.
Qed.

Lemma ss_back ps b bs : forall n sf,
  steps (open_state step_ss (parseString :: ps) b n []) bs sf ->
  0 < n < 2 ^ 64 -> endTop sf = true ->
  exists body rest, bs = body ++ rest /\ len body = n /\
    steps (closed_state ps b) rest sf.
Proof.
  unfold len.
  induction bs as [|c bs IH]; intros n sf H Hn Hend; [ends_open H Hend|].
  first_step H as s1 op Hstep Hop Hrest.
  scan_in Hstep. rewrite (wrap_uint64_pred Hn) in Hstep.
  destruct (n - 1 =? 0) eqn:E.
  - apply Z.eqb_eq in E. exists [c], bs. split; [reflexivity|].
    split; [cbn [List.length]; lia|].
    replace (n - 1) with 0 in Hstep by lia.
    destruct ps; injection Hstep as <- <-; assumption.
  - apply Z.eqb_neq in E. injection Hstep as <- <-.
    destruct (IH _ _ Hrest) as (body & rest & -> & Hlen & Hr); [lia|exact Hend|].
    exists (c :: body), rest. split; [reflexivity|].
    split; [cbn [List.length]; lia|exact Hr].
Qed.

Lemma ssf_back ps b bs n sf :
  steps (open_state step_ssf (parseString :: ps) b n []) bs sf ->
  0 < n < 2 ^ 64 -> endTop sf = true ->
  exists body rest, bs = body ++ rest /\ len body = n /\
    steps (closed_state ps b) rest sf.
Proof.
  unfold len. intros H Hn Hend. destruct bs as [|c bs]; [ends_open H Hend|].
  first_step H as s1 op Hstep Hop Hrest.
  scan_in Hstep. rewrite (wrap_uint64_pred Hn) in Hstep.
  destruct (n - 1 =? 0) eqn:E.
  - apply Z.eqb_eq in E. exists [c], bs. split; [reflexivity|].
    split; [cbn [List.length]; lia|].
    replace (n - 1) with 0 in Hstep by lia.
    destruct ps; injection Hstep as <- <-; assumption.
  - apply Z.eqb_neq in E. injection Hstep as <- <-.
    destruct (ss_back Hrest) as (body & rest & -> & Hlen & Hr); [lia|exact Hend|].
    exists (c :: body), rest. split; [reflexivity|].
    unfold len in Hlen. split; [cbn [List.length]; lia|exact Hr].
Qed.

Lemma colon_back f ps b dg rest sf :
  f = step_ssl0 \/ f = step_ssl ->
  steps (open_state f (parseStringLength :: ps) b 0 dg) (":"%byte :: rest) sf ->
  endTop sf = true ->
  exists body rest', rest = body ++ rest' /\ ParseUint dg = inr (len body) /\
    steps (closed_state ps b) rest' sf.
Proof.
  intros Hf H Hend. first_step H as s1 op Hstep Hop Hrest.
  assert (Hssle : ssle (open_state f (parseStringLength :: ps) b 0 dg) ":" = Ok (s1, op)).
  { destruct Hf as [-> | ->]; exact Hstep. }
  clear Hstep. revert Hssle. unfold ssle, open_state.
  cbn [string_ digits Z.eqb].
  destruct (ParseUint dg) as [e|n] eqn:HP.
  - intros H. injection H as _ <-. now elim Hop.
  - pose proof (ParseUint_range _ HP) as Hr.
    unfold_steps. cbn [step parseState endTop err bytes string_ digits].
    destruct (n =? 0) eqn:E.
    + apply Z.eqb_eq in E. subst n. intros H. exists [], rest. split; [reflexivity|].
      split; [reflexivity|].
      destruct ps; injection H as <- <-; assumption.
    + apply Z.eqb_neq in E. intros H. injection H as <- <-.
      destruct (ssf_back Hrest) as (body & rest' & -> & Hlen & Hr'); [lia|exact Hend|].
      exists body, rest'. rewrite Hlen. auto.
Qed.

(** A string whose first digit [c] has been scanned. *)
Lemma string_back ps b c bs sf :
  Byte.eqb c "0" = true \/ nonzero_digit c = true ->
  steps (open_state (if Byte.eqb c "0" then step_ssl0 else step_ssl)
           (parseStringLength :: ps) b 0 [c]) bs sf ->
  endTop sf = true ->
  exists s rest, bs = s ++ rest /\ bstring (c :: s) /\
    steps (closed_state ps b) rest sf.
Proof.
  intros Hc H Hend. destruct (Byte.eqb c "0") eqn:H0.
  - destruct bs as [|c' bs]; [ends_open H Hend|].
    destruct (Byte.eqb c' ":") eqn:Hcolon.
    + apply byte_dec_bl in Hcolon. subst c'.
      destruct (colon_back (or_introl eq_refl) H Hend) as (body & rest & -> & HP & Hr).
      exists (":"%byte :: body), rest. split; [reflexivity|]. split; [|exact Hr].
      exists [c], body. split; [reflexivity|]. split; [|exact HP].
      unfold len_text. rewrite H0. reflexivity.
    + first_step H as s1 op Hstep Hop Hrest. refused Hstep Hop.
  - destruct Hc as [Hc|Hc]; [discriminate Hc|].
    destruct (ssl_back H Hend) as (ds & rest & -> & Hds & Hr).
    destruct (colon_back (or_intror eq_refl) Hr Hend) as (body & rest' & -> & HP & Hr').
    exists (ds ++ ":"%byte :: body), rest'. split; [rewrite <- app_assoc; reflexivity|].
    split; [|exact Hr'].
    exists (c :: ds), body. split; [reflexivity|]. split; [|exact HP].
    unfold len_text. rewrite H0, Hc. exact Hds.
Qed.

Lemma value_back_step n : list_back n -> dict_back n -> value_back n.
Proof.
  intros Hlist Hdict bs f ps b c s1 op sf Hlen Hsv Hop H Hend.
  revert Hsv. unfold sv.
  destruct (Byte.eqb c "d") eqn:Hd.
  { apply byte_dec_bl in Hd. subst c. intros Hsv. injection Hsv as <- <-.
    destruct (Hdict bs step_sd parseDictionaryKey ps b sf Hlen
                (or_introl (conj eq_refl eq_refl)) H Hend)
      as (es & rest & -> & Hes & Hr).
    exists (es ++ ["e"%byte]), rest. rewrite <- app_assoc.
    split; [reflexivity|]. split; [|exact Hr]. apply bv_dictionary. exact Hes. }
  destruct (Byte.eqb c "l") eqn:Hl.
  { apply byte_dec_bl in Hl. subst c. intros Hsv. injection Hsv as <- <-.
    destruct (Hlist bs step_sl ps b sf Hlen (or_introl eq_refl) H Hend)
      as (vs & rest & -> & Hvs & Hr).
    exists (vs ++ ["e"%byte]), rest. rewrite <- app_assoc.
    split; [reflexivity|]. split; [|exact Hr]. apply bv_list. exact Hvs. }
  destruct (Byte.eqb c "i") eqn:Hi.
  { apply byte_dec_bl in Hi. subst c. intros Hsv. injection Hsv as <- <-.
    destruct (int_back H Hend) as (ds & rest & -> & Hds & Hr).
    exists (ds ++ ["e"%byte]), rest. rewrite <- app_assoc.
    split; [reflexivity|]. split; [|exact Hr]. apply bv_integer. exact Hds. }
  destruct (Byte.eqb c "0") eqn:H0.
  { intros Hsv. injection Hsv as <- <-.
    assert (Hst : steps (open_state (if Byte.eqb c "0" then step_ssl0 else step_ssl)
                           (parseStringLength :: ps) b 0 [c]) bs sf)
      by (rewrite H0; exact H).
    destruct (string_back (or_introl H0) Hst Hend) as (s & rest & -> & Hs & Hr).
    exists s, rest. split; [reflexivity|]. split; [|exact Hr].
    apply bv_string. exact Hs. }
  destruct (byte_in "1" "9" c) eqn:H19.
  { intros Hsv. injection Hsv as <- <-.
    assert (Hst : steps (open_state (if Byte.eqb c "0" then step_ssl0 else step_ssl)
                           (parseStringLength :: ps) b 0 [c]) bs sf)
      by (rewrite H0; exact H).
    destruct (string_back (or_intror H19) Hst Hend) as (s & rest & -> & Hs & Hr).
    exists s, rest. split; [reflexivity|]. split; [|exact Hr].
    apply bv_string. exact Hs. }
  intros Hsv. injection Hsv as _ <-. now elim Hop.
Qed.

Lemma list_back_step n : value_back n -> list_back n -> list_back (S n).
Proof.
  intros Hvalue Hlist bs f ps b sf Hlen Hf H Hend.
  destruct bs as [|c bs]; [ends_open H Hend|]. cbn [List.length] in Hlen.
  first_step H as s1 op Hstep Hop Hrest.
  assert (Hsl : sl (open_state f (parseListValue :: ps) b 0 []) c = Ok (s1, op)).
  { destruct Hf as [-> | ->]; exact Hstep. }
  clear Hstep. revert Hsl. unfold sl.
  destruct (Byte.eqb c "e") eqn:He.
  - apply byte_dec_bl in He. subst c. rewrite pop_closed. cbn [bind].
    intros Hsl. injection Hsl as <- <-.
    exists [], bs. split; [reflexivity|]. split; [constructor|exact Hrest].
  - intros Hsv.
    destruct (Hvalue bs f (parseListValue :: ps) b c s1 op sf) as (v & rest & -> & Hv & Hr);
      try assumption; [lia|].
    destruct (Hlist rest step_se ps b sf) as (vs & rest' & -> & Hvs & Hr');
      try assumption; [rewrite length_app in Hlen; lia|right; reflexivity|].
    exists ((c :: v) ++ vs), rest'. split; [cbn [app]; rewrite <- app_assoc; reflexivity|].
    split; [|exact Hr']. apply bvs_cons; assumption.
Qed.

Lemma dict_back_step n : value_back n -> dict_back n -> dict_back (S n).
Proof.
  intros Hvalue Hdict bs f top ps b sf Hlen Hf H Hend.
  destruct bs as [|c bs]; [ends_open H Hend|]. cbn [List.length] in Hlen.
  first_step H as s1 op Hstep Hop Hrest.
  assert (Hsd : sd (open_state step_sd (parseDictionaryKey :: ps) b 0 []) c = Ok (s1, op)).
  { destruct Hf as [[-> ->]|[-> ->]]; exact Hstep. }
  clear Hstep. revert Hsd. unfold sd.
  destruct (Byte.eqb c "e") eqn:He.
  { apply byte_dec_bl in He. subst c. rewrite pop_closed. cbn [bind].
    intros Hsd. injection Hsd as <- <-.
    exists [], bs. split; [reflexivity|]. split; [constructor|exact Hrest]. }
  assert (Hkey : Byte.eqb c "0" = true \/ nonzero_digit c = true ->
            s1 = open_state (if Byte.eqb c "0" then step_ssl0 else step_ssl)
                   (parseStringLength :: parseDictionaryKey :: ps) b 0 [c] ->
            exists es rest, c :: bs = es ++ "e"%byte :: rest /\ bentries es /\
              steps (closed_state ps b) rest sf).
  { intros Hc ->.
    destruct (string_back Hc Hrest Hend) as (s & rest1 & -> & Hs & Hr1).
    rewrite length_app in Hlen. cbn [closed_state] in Hr1.
    destruct rest1 as [|c2 r]; [ends_open Hr1 Hend|].
    first_step Hr1 as s2 op2 Hstep2 Hop2 Hrest2. cbn [List.length] in Hlen.
    destruct (Hvalue r step_se (parseDictionaryValue :: ps) b c2 s2 op2 sf)
      as (v & rest2 & -> & Hv & Hr2); try assumption; [lia|].
    rewrite length_app in Hlen.
    destruct (Hdict rest2 step_se parseDictionaryValue ps b sf)
      as (es & rest' & -> & Hes & Hr'); try assumption;
      [lia|right; split; reflexivity|].
    exists ((c :: s) ++ (c2 :: v) ++ es), rest'.
    split; [cbn [app]; rewrite <- !app_assoc; cbn [app]; rewrite <- !app_assoc; reflexivity|].
    split; [|exact Hr']. apply bes_cons; assumption. }
  destruct (Byte.eqb c "0") eqn:H0.
  { intros Hsd. injection Hsd as <- <-. apply Hkey; auto. }
  destruct (byte_in "1" "9" c) eqn:H19.
  { intros Hsd. injection Hsd as <- <-. apply Hkey; auto. }
  intros Hsd. injection Hsd as _ <-. now elim Hop.
Qed.

Lemma scanner_back n : value_back n /\ list_back n /\ dict_back n.
Proof.
  induction n as [|n (Hv & Hl & Hd)].
  - assert (Hl : list_back 0).
    { intros bs f ps b sf Hlen _ H Hend. destruct bs; [|cbn in Hlen; lia].
      ends_open H Hend. }
    assert (Hd : dict_back 0).
    { intros bs f top ps b sf Hlen _ H Hend. destruct bs; [|cbn in Hlen; lia].
      ends_open H Hend. }
    split; [apply value_back_step; assumption|]. split; assumption.
  - pose proof (list_back_step Hv Hl) as Hl'.
    pose proof (dict_back_step Hv Hd) as Hd'.
    split; [apply value_back_step; assumption|]. split; assumption.
Qed.

(** ** The validator *)

(** The count of bytes plays no part in a step that is not refused. *)
Lemma scan_step_set_bytes s c s' op b :
  scan_step s c = Ok (s', op) -> op <> scanError ->
  scan_step (set_bytes s b) c = Ok (set_bytes s' b, op).
Proof.
  destruct s as [st ps et er by_ str dg]. unfold scan_step; cbn [step set_bytes].
  destruct st; try discriminate;
    destruct ps as [|f rest]; try destruct f; try destruct rest.
  all: do 3 (unfold_steps; cbn -[Z.pow wrap_uint64 Z.eqb ParseUint]).
  all: repeat match goal with
       | |- context [if ?x then _ else _] => destruct x
       | |- context [match ParseUint ?d with _ => _ end] => destruct (ParseUint d)
       end.
  all: cbn -[Z.pow wrap_uint64 Z.eqb ParseUint].
  all: intros H Hop; try discriminate H; injection H as <- <-;
       try reflexivity; try (now elim Hop).
Qed.

Lemma set_bytes_back s b : set_bytes (set_bytes s b) (bytes s) = s.
Proof. destruct s. reflexivity. Qed.

Lemma steps_set_bytes s bs s' b :
  steps s bs s' -> steps (set_bytes s b) bs (set_bytes s' b).
Proof.
  induction 1 as [|s c s1 op bs s' Hstep Hop _ IH]; [constructor|].
  econstructor; [apply scan_step_set_bytes; eassumption|exact Hop|exact IH].
Qed.

Lemma inv_endTop s : scanner_inv s -> endTop s = true -> err s = None.
Proof.
  intros (_ & He & Herr & _) H. apply Herr. apply He in H. congruence.
Qed.

(** The validator accepts exactly the runs that reach the end of the
    top-level value. *)
Lemma checkValid_loop_accepts data : forall s,
  scanner_inv s -> err s = None ->
  ((exists sf, checkValid_loop data s = Ok (sf, None)) <->
   (exists s', steps s data s' /\ endTop s' = true)).
Proof.
  induction data as [|c data IH]; intros s Hs Herr; cbn [checkValid_loop].
  - unfold eof. rewrite Herr. destruct (endTop s) eqn:Hend; cbn [opcode_eqb].
    + split; [intros _; exists s; split; [constructor|exact Hend]|eauto].
    + cbn [err set_err]. split; [intros [sf H]; discriminate H|].
      intros (s' & H & Hend'). apply steps_nil_inv in H. subst s'. congruence.
  - set (s0 := set_bytes s (wrap_int64 (bytes s + 1))).
    destruct (@step_preserves c s0) as (s1 & op & E & Hs1 & _ & Hbad & _); [exact Hs|].
    rewrite E. cbn [bind].
    destruct (opcode_eqb op scanError) eqn:Eop.
    + assert (op = scanError) as -> by (destruct op; discriminate || reflexivity).
      split.
      * intros [sf H]. injection H as _ H. exfalso.
        destruct Hs1 as (_ & _ & Herr1 & _). apply Herr1 in H. apply H, Hbad. reflexivity.
      * intros (s' & H & _). first_step H as s2 op2 Hstep Hop Hrest.
        apply (@scan_step_set_bytes _ _ _ _ (wrap_int64 (bytes s + 1))) in Hstep;
          [|exact Hop].
        fold s0 in Hstep. rewrite E in Hstep. injection Hstep as _ <-. now elim Hop.
    + assert (Hop : op <> scanError) by (intros ->; discriminate Eop).
      assert (Herr1 : err s1 = None).
      { destruct Hs1 as (_ & _ & Herr1 & _). apply Herr1. intros H. apply Hop, Hbad, H. }
      rewrite (IH s1 Hs1 Herr1). split.
      * intros (s' & H & Hend). exists (set_bytes s' (bytes s)). split; [|exact Hend].
        econstructor; [|exact Hop|apply steps_set_bytes; exact H].
        rewrite <- (set_bytes_back s (wrap_int64 (bytes s + 1))) at 1.
        apply scan_step_set_bytes; assumption.
      * intros (s' & H & Hend). first_step H as s2 op2 Hstep Hop2 Hrest.
        apply (@scan_step_set_bytes _ _ _ _ (wrap_int64 (bytes s + 1))) in Hstep;
          [|exact Hop2].
        fold s0 in Hstep. rewrite E in Hstep. injection Hstep as -> ->.
        exists (set_bytes s' (wrap_int64 (bytes s + 1))). split; [|exact Hend].
        apply steps_set_bytes. exact Hrest.
Qed.

Lemma endTop_run b bs :
  steps (closed_state [] b) bs (closed_state [] b).
Proof.
  induction bs as [|c bs IH]; [constructor|].
  econstructor; [reflexivity|discriminate|exact IH].
Qed.

Lemma Valid_iff_value (data : list byte) :
  Valid data = Ok true <-> exists v rest, data = v ++ rest /\ bvalue v.
Proof.
  assert (Hacc : Valid data = Ok true <->
                 exists sf, checkValid_loop data (reset zero_scanner) = Ok (sf, None)).
  { unfold Valid, checkValid. split.
    - destruct (checkValid_loop data (reset zero_scanner)) as [[sf [e|]]| |];
        cbn [bind]; try discriminate. eauto.
    - intros [sf ->]. reflexivity. }
  rewrite Hacc, (@checkValid_loop_accepts data (reset zero_scanner));
    [|apply reset_inv; reflexivity|reflexivity].
  change (reset zero_scanner) with (open_state step_sv [] 0 0 []).
  split.
  - intros (s' & H & Hend). destruct data as [|c bs]; [ends_open H Hend|].
    first_step H as s1 op Hstep Hop Hrest.
    destruct (proj1 (scanner_back (List.length bs)) bs step_sv [] 0 c s1 op s')
      as (v & rest & -> & Hv & _); auto.
    exists (c :: v), rest. auto.
  - intros (v & rest & -> & Hv).
    destruct (proj1 grammar_runs v Hv step_sv [] 0)
      as (c & v' & s1 & op & -> & Hsv & Hop & _ & _ & _ & Hrun).
    exists (closed_state [] 0). split; [|reflexivity].
    cbn [app]. econstructor; [exact Hsv|exact Hop|].
    eapply steps_app; [apply (run_steps Hrun)|apply endTop_run].
Qed.

(** X4: [Valid] accepts exactly the inputs that begin with a value of the
    grammar: an integer, a string with as many bytes as its length says, a
    list of values or a dictionary of string keys and values; what follows
    that value is not looked at. *)
Theorem Valid_grammar (data : list byte) :
  Valid data = Ok true <-> exists v rest, data = v ++ rest /\ bvalue v.
Proof. exact (Valid_iff_value data). Qed.
(** * The frame stack and the nesting of the input *)

(** ** From an open value to the stack *)

Lemma sil_open_steps ps b ds :
  forallb is_digit ds = true ->
  steps (open_state step_sil (parseInteger :: ps) b 0 []) ds
    (open_state step_sil (parseInteger :: ps) b 0 []).
Proof.
  induction ds as [|c ds IH]; cbn [forallb]; [constructor|].
  intros H. apply andb_prop in H. destruct H as [Hc Hds].
  pose proof (digit_not_e _ Hc) as He. unfold is_digit in Hc.
  econstructor; [scan_go; reflexivity|discriminate|exact (IH Hds)].
Qed.

(** An integer still open has its one frame on the stack. *)
Lemma int_open_steps ps b p :
  int_open p = true ->
  exists sf, steps (open_state step_si (parseInteger :: ps) b 0 []) p sf /\
             parseState sf = parseInteger :: ps.
Proof.
  unfold int_open, int_text, len_text. destruct p as [|c p].
  { intros _. eexists. split; [constructor|reflexivity]. }
  destruct (Byte.eqb c "-") eqn:Hm.
  - destruct p as [|c' ds].
    + intros _. eexists. split;
        [econstructor; [scan_go; reflexivity|discriminate|constructor]|reflexivity].
    + intros H. apply andb_prop in H. destruct H as [Hc Hds].
      assert (H0 : Byte.eqb c' "0" = false) by (destruct c'; try discriminate; reflexivity).
      unfold nonzero_digit in Hc.
      eexists. split; [|shelve].
      econstructor; [scan_go; reflexivity|discriminate|].
      econstructor; [scan_go; reflexivity|discriminate|].
      apply sil_open_steps. exact Hds.
      Unshelve. reflexivity.
  - destruct (Byte.eqb c "0") eqn:H0.
    + destruct p; [|discriminate]. intros _. eexists. split;
        [econstructor; [scan_go; reflexivity|discriminate|constructor]|reflexivity].
    + intros H. apply andb_prop in H. destruct H as [Hc Hds].
      unfold nonzero_digit in Hc.
      eexists. split; [|shelve].
      econstructor; [scan_go; reflexivity|discriminate|].
      apply sil_open_steps. exact Hds.
      Unshelve. reflexivity.
Qed.

Lemma ss_open_steps ps b body : forall n,
  0 < n < 2 ^ 64 -> len body < n ->
  exists sf, steps (open_state step_ss (parseString :: ps) b n []) body sf /\
             parseState sf = parseString :: ps.
Proof.
  unfold len.
  induction body as [|c body IH]; intros n Hn Hlen; cbn [List.length] in Hlen.
  - eexists. split; [constructor|reflexivity].
  - destruct (IH (n - 1)) as (sf & Hsteps & Hps); [lia|lia|].
    exists sf. split; [|exact Hps].
    assert (E : (n - 1 =? 0) = false) by (apply Z.eqb_neq; lia).
    econstructor; [scan_go; rewrite (wrap_uint64_pred Hn), E; reflexivity|discriminate
                  |exact Hsteps].
Qed.

Lemma ssf_open_steps ps b body n :
  0 < n < 2 ^ 64 -> len body < n ->
  exists sf, steps (open_state step_ssf (parseString :: ps) b n []) body sf /\
             parseState sf = parseString :: ps.
Proof.
  unfold len. intros Hn Hlen.
  destruct body as [|c body]; cbn [List.length] in Hlen.
  - eexists. split; [constructor|reflexivity].
  - destruct (@ss_open_steps ps b body (n - 1)) as (sf & Hsteps & Hps);
      [lia|unfold len; lia|].
    exists sf. split; [|exact Hps].
    assert (E : (n - 1 =? 0) = false) by (apply Z.eqb_neq; lia).
    econstructor; [scan_go; rewrite (wrap_uint64_pred Hn), E; reflexivity|discriminate
                  |exact Hsteps].
Qed.

Lemma colon_open_steps f ps b dg body n :
  f = step_ssl0 \/ f = step_ssl ->
  ParseUint dg = inr n -> len body < n ->
  exists sf,
    steps (open_state f (parseStringLength :: ps) b 0 dg) (":"%byte :: body) sf /\
    parseState sf = parseString :: ps.
Proof.
  intros Hf HP Hlen. pose proof (ParseUint_range _ HP) as Hr.
  assert (Hpos : 0 < n) by (unfold len in Hlen; lia).
  destruct (@ssf_open_steps ps b body n) as (sf & Hsteps & Hps); [lia|exact Hlen|].
  exists sf. split; [|exact Hps].
  assert (E : (n =? 0) = false) by (apply Z.eqb_neq; lia).
  econstructor;
    [destruct Hf as [-> | ->]; scan_go; rewrite HP; cbn -[Z.pow Z.eqb];
       rewrite E; reflexivity
    |discriminate|exact Hsteps].
Qed.

Lemma open_string_first p :
  open_string p -> exists c rest ds, p = c :: rest /\ len_text (c :: ds) = true.
Proof.
  intros [H|(ds & body & n & -> & H & _)].
  - destruct p as [|c rest]; [discriminate|]. exists c, rest, rest. auto.
  - destruct ds as [|c ds]; [discriminate|]. exists c, (ds ++ ":"%byte :: body), ds. auto.
Qed.

(** A string still open, its first digit scanned, has its one frame on the
    stack. *)
Lemma string_open_steps ps b c rest :
  open_string (c :: rest) ->
  exists sf,
    steps (open_state (if Byte.eqb c "0" then step_ssl0 else step_ssl)
             (parseStringLength :: ps) b 0 [c]) rest sf /\
    List.length (parseState sf) = S (List.length ps).
Proof.
  intros [H|(ds & body & n & Heq & H & HP & Hlen)].
  - destruct (len_text_first _ _ H) as [[H0 ->]|(H0 & Hc & Hds)]; rewrite H0.
    + eexists. split; [constructor|reflexivity].
    + eexists. split; [apply (run_steps (ssl_run ps b _ [c] Hds))|reflexivity].
  - destruct ds as [|c' ds]; [discriminate|]. cbn [app] in Heq.
    injection Heq as <- ->.
    destruct (len_text_first _ _ H) as [[H0 ->]|(H0 & Hc & Hds)]; rewrite H0.
    + destruct (@colon_open_steps step_ssl0 ps b [c] body n) as (sf & Hsteps & Hps);
        auto.
      exists sf. split; [exact Hsteps|rewrite Hps; reflexivity].
    + destruct (@colon_open_steps step_ssl ps b ([c] ++ ds) body n) as (sf & Hsteps & Hps);
        auto.
      exists sf. split; [|rewrite Hps; reflexivity].
      eapply steps_app; [apply (run_steps (ssl_run ps b _ [c] Hds))|exact Hsteps].
Qed.

(** The first digit of a key, where a key may begin. *)
Lemma key_first f top ps b c ds :
  dict_state f top -> len_text (c :: ds) = true ->
  scan_step (open_state f (top :: ps) b 0 []) c =
    Ok (open_state (if Byte.eqb c "0" then step_ssl0 else step_ssl)
          (parseStringLength :: parseDictionaryKey :: ps) b 0 [c],
        scanBeginString).
Proof.
  intros Hf Ht.
  destruct Hf as [[-> ->]|[-> ->]]; unfold scan_step, open_state; cbn [step];
    [|unfold se, set_parseState; cbn [parseState step endTop err bytes string_ digits]];
    apply (sd_digit _ _ _ _ _ Ht).
Qed.

(** Where a value may begin, the scanner goes through a value still open
    without refusing a byte, and then holds as many frames more as tokens
    are open. *)
Lemma open_runs :
  (forall p k, open_value p k -> forall f ps b,
     exists c p' s1 op sf, p = c :: p' /\
       sv (open_state f ps b 0 []) c = Ok (s1, op) /\ op <> scanError /\
       steps s1 p' sf /\
       List.length (parseState sf) = (k + List.length ps)%nat) /\
  (forall p k, open_values p k -> forall f ps b, list_state f ->
     exists sf,
       steps (open_state f (parseListValue :: ps) b 0 []) p sf /\
       List.length (parseState sf) = (k + S (List.length ps))%nat) /\
  (forall p k, open_entries p k -> forall f top ps b, dict_state f top ->
     exists sf,
       steps (open_state f (top :: ps) b 0 []) p sf /\
       List.length (parseState sf) = (k + S (List.length ps))%nat).
Proof.
  apply open_value_mutind.
  - (* an integer *)
    intros p Hp f ps b. destruct (@int_open_steps ps b p Hp) as (sf & Hsteps & Hps).
    exists "i"%byte, p. do 2 eexists. exists sf. split; [reflexivity|].
    split; [reflexivity|]. split; [discriminate|]. split; [exact Hsteps|].
    rewrite Hps. reflexivity.
  - (* a string *)
    intros p Hp f ps b.
    destruct (open_string_first Hp) as (c & rest & ds & -> & Ht).
    destruct (@string_open_steps ps b c rest Hp) as (sf & Hsteps & Hps).
    exists c, rest. do 2 eexists. exists sf. split; [reflexivity|].
    split; [apply (sv_digit _ _ _ _ _ Ht)|]. split; [discriminate|].
    split; [exact Hsteps|]. rewrite Hps. reflexivity.
  - (* a list *)
    intros p k _ IH f ps b.
    destruct (IH step_sl ps b (or_introl eq_refl)) as (sf & Hsteps & Hps).
    exists "l"%byte, p. do 2 eexists. exists sf. split; [reflexivity|].
    split; [reflexivity|]. split; [discriminate|]. split; [exact Hsteps|].
    rewrite Hps. lia.
  - (* a dictionary *)
    intros p k _ IH f ps b.
    destruct (IH step_sd parseDictionaryKey ps b (or_introl (conj eq_refl eq_refl)))
      as (sf & Hsteps & Hps).
    exists "d"%byte, p. do 2 eexists. exists sf. split; [reflexivity|].
    split; [reflexivity|]. split; [discriminate|]. split; [exact Hsteps|].
    rewrite Hps. lia.
  - (* no element *)
    intros f ps b Hf. eexists. split; [constructor|reflexivity].
  - (* inside an element *)
    intros p k _ IH f ps b Hf.
    destruct (IH f (parseListValue :: ps) b)
      as (c & p' & s1 & op & sf & -> & Hsv & Hop & Hsteps & Hps).
    exists sf. split; [|rewrite Hps; reflexivity].
    pose proof (sv_not_e _ _ Hsv Hop) as He.
    econstructor; [|exact Hop|exact Hsteps].
    destruct Hf as [-> | ->]; unfold scan_step, open_state; cbn [step];
      unfold se, sl; cbn [parseState]; rewrite He; exact Hsv.
  - (* an element and what follows *)
    intros v p k Hv _ IH f ps b Hf.
    destruct (proj1 (proj2 grammar_runs) (v ++ []) (bvs_cons Hv bvs_nil) f ps b Hf)
      as (f' & Hf' & Hrun).
    rewrite app_nil_r in Hrun.
    destruct (IH f' ps b Hf') as (sf & Hsteps & Hps).
    exists sf. split; [|exact Hps].
    eapply steps_app; [apply (run_steps Hrun)|exact Hsteps].
  - (* no entry *)
    intros f top ps b Hf. eexists. split; [constructor|reflexivity].
  - (* inside a key *)
    intros p Hp f top ps b Hf.
    destruct (open_string_first Hp) as (c & rest & ds & -> & Ht).
    destruct (@string_open_steps (parseDictionaryKey :: ps) b c rest Hp)
      as (sf & Hsteps & Hps).
    exists sf. split; [|rewrite Hps; cbn [List.length]; lia].
    eapply steps_cons; [apply (@key_first _ _ ps b _ _ Hf Ht)|discriminate|exact Hsteps].
  - (* after a key *)
    intros key (ds & body & -> & Ht & HP) f top ps b Hf.
    destruct ds as [|c ds]; [discriminate|].
    exists (closed_state (parseDictionaryKey :: ps) b). split; [|reflexivity].
    cbn [app].
    eapply steps_cons;
      [apply (@key_first _ _ ps b _ _ Hf Ht)|discriminate
      |apply (run_steps (string_run _ _ _ _ _ Ht HP))].
  - (* inside the value of a key *)
    intros key p k (ds & body & -> & Ht & HP) _ IH f top ps b Hf.
    destruct ds as [|c ds]; [discriminate|].
    destruct (IH step_se (parseDictionaryValue :: ps) b)
      as (c2 & p' & s1 & op & sf & -> & Hsv & Hop & Hsteps & Hps).
    exists sf. split; [|rewrite Hps; cbn [List.length]; lia].
    cbn [app]. rewrite <- app_assoc. cbn [app].
    eapply steps_cons; [apply (@key_first _ _ ps b _ _ Hf Ht)|discriminate|].
    replace (ds ++ ":"%byte :: body ++ c2 :: p')
      with ((ds ++ ":"%byte :: body) ++ c2 :: p')
      by (rewrite <- app_assoc; reflexivity).
    eapply steps_app; [apply (run_steps (string_run _ _ _ _ _ Ht HP))|].
    cbn [closed_state]. eapply steps_cons; [|exact Hop|exact Hsteps].
    unfold scan_step, open_state; cbn [step]. unfold se; cbn [parseState]. exact Hsv.
  - (* an entry and what follows *)
    intros key v p k Hkey Hv _ IH f top ps b Hf.
    destruct (proj2 (proj2 grammar_runs) (key ++ v ++ [])
                (bes_cons Hkey Hv bes_nil) f top ps b Hf) as (f' & top' & Hf' & Hrun).
    rewrite app_nil_r in Hrun.
    destruct (IH f' top' ps b Hf') as (sf & Hsteps & Hps).
    exists sf. split; [|exact Hps].
    rewrite app_assoc.
    eapply steps_app; [apply (run_steps Hrun)|exact Hsteps].
Qed.

(** ** From the scanner to the value, complete or still open *)

Lemma sil_trace ps b bs : forall sf,
  steps (open_state step_sil (parseInteger :: ps) b 0 []) bs sf ->
  (exists ds rest, bs = ds ++ "e"%byte :: rest /\ forallb is_digit ds = true /\
     steps (closed_state ps b) rest sf) \/
  forallb is_digit bs = true.
Proof.
  induction bs as [|c bs IH]; intros sf H; [right; reflexivity|].
  first_step H as s1 op Hstep Hop Hrest.
  destruct (Byte.eqb c "e") eqn:He.
  - apply byte_dec_bl in He. subst c. scan_in Hstep.
    left. exists [], bs. destruct ps; injection Hstep as <- <-; auto.
  - destruct (byte_in "0" "9" c) eqn:Hd; [|refused Hstep Hop].
    scan_in Hstep. injection Hstep as <- <-.
    destruct (IH _ Hrest) as [(ds & rest & -> & Hds & Hr)|Hds].
    + left. exists (c :: ds), rest. cbn [forallb]. unfold is_digit at 1. rewrite Hd. auto.
    + right. cbn [forallb]. unfold is_digit at 1. rewrite Hd. exact Hds.
Qed.

Lemma int_trace ps b bs sf :
  steps (open_state step_si (parseInteger :: ps) b 0 []) bs sf ->
  (exists ds rest, bs = ds ++ "e"%byte :: rest /\ int_text ds = true /\
     steps (closed_state ps b) rest sf) \/
  int_open bs = true.
Proof.
  intros H. destruct bs as [|c bs]; [right; reflexivity|].
  remember (int_open (c :: bs)) as G eqn:HG.
  first_step H as s1 op Hstep Hop Hrest.
  destruct (Byte.eqb c "-") eqn:Hm.
  - (* a minus sign *)
    scan_in Hstep. injection Hstep as <- <-.
    destruct bs as [|c0 bs]; [right; rewrite HG; unfold int_open; rewrite Hm; reflexivity|].
    first_step Hrest as s2 op2 Hstep Hop2 Hrest2.
    destruct (Byte.eqb c0 "0") eqn:H0; [refused Hstep Hop2|].
    destruct (byte_in "1" "9" c0) eqn:H19; [|refused Hstep Hop2].
    scan_in Hstep. injection Hstep as <- <-.
    destruct (sil_trace Hrest2) as [(ds & rest & -> & Hds & Hr)|Hds].
    + left. exists (c :: c0 :: ds), rest. split; [reflexivity|]. split; [|exact Hr].
      unfold int_text. rewrite Hm. unfold nonzero_digit. rewrite H19. exact Hds.
    + right. rewrite HG. unfold int_open, int_text. rewrite Hm. unfold nonzero_digit.
      rewrite H19. exact Hds.
  - destruct (Byte.eqb c "0") eqn:H0.
    + (* zero *)
      scan_in Hstep. injection Hstep as <- <-.
      destruct bs as [|c0 bs].
      { right. rewrite HG. unfold int_open, int_text, len_text. rewrite Hm, H0. reflexivity. }
      first_step Hrest as s2 op2 Hstep Hop2 Hrest2.
      destruct (Byte.eqb c0 "e") eqn:He; [|refused Hstep Hop2].
      apply byte_dec_bl in He. subst c0. scan_in Hstep.
      left. exists [c], bs. split; [reflexivity|]. split.
      * unfold int_text, len_text. rewrite Hm, H0. reflexivity.
      * destruct ps; injection Hstep as <- <-; assumption.
    + destruct (byte_in "1" "9" c) eqn:H19; [|refused Hstep Hop].
      scan_in Hstep. injection Hstep as <- <-.
      destruct (sil_trace Hrest) as [(ds & rest & -> & Hds & Hr)|Hds].
      * left. exists (c :: ds), rest. split; [reflexivity|]. split; [|exact Hr].
        unfold int_text, len_text. rewrite Hm, H0. unfold nonzero_digit. rewrite H19.
        exact Hds.
      * right. rewrite HG. unfold int_open, int_text, len_text. rewrite Hm, H0.
        unfold nonzero_digit. rewrite H19. exact Hds.
Qed.

Lemma ssl_trace ps b bs : forall dg sf,
  steps (open_state step_ssl (parseStringLength :: ps) b 0 dg) bs sf ->
  (exists ds rest, bs = ds ++ ":"%byte :: rest /\ forallb is_digit ds = true /\
     steps (open_state step_ssl (parseStringLength :: ps) b 0 (dg ++ ds))
       (":"%byte :: rest) sf) \/
  forallb is_digit bs = true.
Proof.
  induction bs as [|c bs IH]; intros dg sf H; [right; reflexivity|].
  destruct (Byte.eqb c ":") eqn:Hc.
  - apply byte_dec_bl in Hc. subst c. left. exists [], bs. rewrite app_nil_r. auto.
  - first_step H as s1 op Hstep Hop Hrest.
    destruct (byte_in "0" "9" c) eqn:Hd; [|refused Hstep Hop].
    scan_in Hstep. injection Hstep as <- <-.
    destruct (IH _ _ Hrest) as [(ds & rest & -> & Hds & Hr)|Hds].
    + left. exists (c :: ds), rest. split; [reflexivity|]. split.
      * cbn [forallb]. unfold is_digit at 1. rewrite Hd. exact Hds.
      * rewrite <- app_assoc in Hr. exact Hr.
    + right. cbn [forallb]. unfold is_digit at 1. rewrite Hd. exact Hds.
Qed.

Lemma ss_trace ps b bs : forall n sf,
  steps (open_state step_ss (parseString :: ps) b n []) bs sf ->
  0 < n < 2 ^ 64 ->
  (exists body rest, bs = body ++ rest /\ len body = n /\
     steps (closed_state ps b) rest sf) \/
  len bs < n.
Proof.
  unfold len.
  induction bs as [|c bs IH]; intros n sf H Hn; [right; cbn [List.length]; lia|].
  first_step H as s1 op Hstep Hop Hrest.
  scan_in Hstep. rewrite (wrap_uint64_pred Hn) in Hstep.
  destruct (n - 1 =? 0) eqn:E.
  - apply Z.eqb_eq in E. left. exists [c], bs. split; [reflexivity|].
    split; [cbn [List.length]; lia|].
    replace (n - 1) with 0 in Hstep by lia.
    destruct ps; injection Hstep as <- <-; assumption.
  - apply Z.eqb_neq in E. injection Hstep as <- <-.
    destruct (IH _ _ Hrest) as [(body & rest & -> & Hlen & Hr)|Hlen]; [lia| |].
    + left. exists (c :: body), rest. split; [reflexivity|].
      split; [cbn [List.length]; lia|exact Hr].
    + right. cbn [List.length]. lia.
Qed.

Lemma ssf_trace ps b bs n sf :
  steps (open_state step_ssf (parseString :: ps) b n []) bs sf ->
  0 < n < 2 ^ 64 ->
  (exists body rest, bs = body ++ rest /\ len body = n /\
     steps (closed_state ps b) rest sf) \/
  len bs < n.
Proof.
  unfold len. intros H Hn. destruct bs as [|c bs]; [right; cbn [List.length]; lia|].
  first_step H as s1 op Hstep Hop Hrest.
  scan_in Hstep. rewrite (wrap_uint64_pred Hn) in Hstep.
  destruct (n - 1 =? 0) eqn:E.
  - apply Z.eqb_eq in E. left. exists [c], bs. split; [reflexivity|].
    split; [cbn [List.length]; lia|].
    replace (n - 1) with 0 in Hstep by lia.
    destruct ps; injection Hstep as <- <-; assumption.
  - apply Z.eqb_neq in E. injection Hstep as <- <-.
    destruct (ss_trace Hrest) as [(body & rest & -> & Hlen & Hr)|Hlen]; [lia| |].
    + left. exists (c :: body), rest. split; [reflexivity|].
      unfold len in Hlen. split; [cbn [List.length]; lia|exact Hr].
    + right. unfold len in Hlen. cbn [List.length]. lia.
Qed.

Lemma colon_trace f ps b dg rest sf :
  f = step_ssl0 \/ f = step_ssl ->
  steps (open_state f (parseStringLength :: ps) b 0 dg) (":"%byte :: rest) sf ->
  (exists body rest', rest = body ++ rest' /\ ParseUint dg = inr (len body) /\
     steps (closed_state ps b) rest' sf) \/
  (exists n, ParseUint dg = inr n /\ len rest < n).
Proof.
  intros Hf H. first_step H as s1 op Hstep Hop Hrest.
  assert (Hssle : ssle (open_state f (parseStringLength :: ps) b 0 dg) ":" = Ok (s1, op)).
  { destruct Hf as [-> | ->]; exact Hstep. }
  clear Hstep. revert Hssle. unfold ssle, open_state.
  cbn [string_ digits Z.eqb].
  destruct (ParseUint dg) as [e|n] eqn:HP.
  - intros H. injection H as _ <-. now elim Hop.
  - pose proof (ParseUint_range _ HP) as Hr.
    unfold_steps. cbn [step parseState endTop err bytes string_ digits].
    destruct (n =? 0) eqn:E.
    + apply Z.eqb_eq in E. subst n. intros H. left. exists [], rest.
      split; [reflexivity|]. split; [reflexivity|].
      destruct ps; injection H as <- <-; assumption.
    + apply Z.eqb_neq in E. intros H. injection H as <- <-.
      destruct (ssf_trace Hrest) as [(body & rest' & -> & Hlen & Hr')|Hlen]; [lia| |].
      * left. exists body, rest'. rewrite Hlen. auto.
      * right. exists n. auto.
Qed.

(** A string whose first digit [c] has been scanned. *)
Lemma string_trace ps b c bs sf :
  Byte.eqb c "0" = true \/ nonzero_digit c = true ->
  steps (open_state (if Byte.eqb c "0" then step_ssl0 else step_ssl)
           (parseStringLength :: ps) b 0 [c]) bs sf ->
  (exists s rest, bs = s ++ rest /\ bstring (c :: s) /\
     steps (closed_state ps b) rest sf) \/
  open_string (c :: bs).
Proof.
  intros Hc H. destruct (Byte.eqb c "0") eqn:H0.
  - assert (Ht : len_text [c] = true) by (unfold len_text; rewrite H0; reflexivity).
    destruct bs as [|c' bs]; [right; left; exact Ht|].
    destruct (Byte.eqb c' ":") eqn:Hcolon.
    + apply byte_dec_bl in Hcolon. subst c'.
      destruct (colon_trace (or_introl eq_refl) H)
        as [(body & rest & -> & HP & Hr)|(n & HP & Hlen)].
      * left. exists (":"%byte :: body), rest. split; [reflexivity|]. split; [|exact Hr].
        exists [c], body. auto.
      * right. right. exists [c], bs, n. auto.
    + first_step H as s1 op Hstep Hop Hrest. refused Hstep Hop.
  - destruct Hc as [Hc|Hc]; [discriminate Hc|].
    assert (Ht : forall ds, forallb is_digit ds = true -> len_text (c :: ds) = true).
    { intros ds Hds. unfold len_text. rewrite H0, Hc. exact Hds. }
    destruct (ssl_trace H) as [(ds & rest & -> & Hds & Hr)|Hds].
    + destruct (colon_trace (or_intror eq_refl) Hr)
        as [(body & rest' & -> & HP & Hr')|(n & HP & Hlen)].
      * left. exists (ds ++ ":"%byte :: body), rest'.
        split; [rewrite <- app_assoc; reflexivity|]. split; [|exact Hr'].
        exists (c :: ds), body. auto.
      * right. right. exists (c :: ds), rest, n. auto.
    + right. left. apply Ht. exact Hds.
Qed.

Lemma value_trace_step n : list_trace n -> dict_trace n -> value_trace n.
Proof.
  intros Hlist Hdict bs f ps b c s1 op sf Hlen Hsv Hop H.
  revert Hsv. unfold sv.
  destruct (Byte.eqb c "d") eqn:Hd.
  { apply byte_dec_bl in Hd. subst c. intros Hsv. injection Hsv as <- <-.
    destruct (Hdict bs step_sd parseDictionaryKey ps b sf Hlen
                (or_introl (conj eq_refl eq_refl)) H)
      as [(es & rest & -> & Hes & Hr)|(k & Hk)].
    - left. exists (es ++ ["e"%byte]), rest. rewrite <- app_assoc.
      split; [reflexivity|]. split; [|exact Hr]. apply bv_dictionary. exact Hes.
    - right. exists (S k). apply ov_dictionary. exact Hk. }
  destruct (Byte.eqb c "l") eqn:Hl.
  { apply byte_dec_bl in Hl. subst c. intros Hsv. injection Hsv as <- <-.
    destruct (Hlist bs step_sl ps b sf Hlen (or_introl eq_refl) H)
      as [(vs & rest & -> & Hvs & Hr)|(k & Hk)].
    - left. exists (vs ++ ["e"%byte]), rest. rewrite <- app_assoc.
      split; [reflexivity|]. split; [|exact Hr]. apply bv_list. exact Hvs.
    - right. exists (S k). apply ov_list. exact Hk. }
  destruct (Byte.eqb c "i") eqn:Hi.
  { apply byte_dec_bl in Hi. subst c. intros Hsv. injection Hsv as <- <-.
    destruct (int_trace H) as [(ds & rest & -> & Hds & Hr)|Hopen].
    - left. exists (ds ++ ["e"%byte]), rest. rewrite <- app_assoc.
      split; [reflexivity|]. split; [|exact Hr]. apply bv_integer. exact Hds.
    - right. exists 1%nat. apply ov_integer. exact Hopen. }
  assert (Hstring : Byte.eqb c "0" = true \/ nonzero_digit c = true ->
            s1 = open_state (if Byte.eqb c "0" then step_ssl0 else step_ssl)
                   (parseStringLength :: ps) b 0 [c] ->
            (exists v rest, bs = v ++ rest /\ bvalue (c :: v) /\
               steps (closed_state ps b) rest sf) \/
            (exists k, open_value (c :: bs) k)).
  { intros Hc ->.
    destruct (string_trace Hc H) as [(s & rest & -> & Hs & Hr)|Hopen].
    - left. exists s, rest. split; [reflexivity|]. split; [|exact Hr].
      apply bv_string. exact Hs.
    - right. exists 1%nat. apply ov_string. exact Hopen. }
  destruct (Byte.eqb c "0") eqn:H0.
  { intros Hsv. injection Hsv as <- <-. apply Hstring; auto. }
  destruct (byte_in "1" "9" c) eqn:H19.
  { intros Hsv. injection Hsv as <- <-. apply Hstring; auto. }
  intros Hsv. injection Hsv as _ <-. now elim Hop.
Qed.

Lemma list_trace_step n : value_trace n -> list_trace n -> list_trace (S n).
Proof.
  intros Hvalue Hlist bs f ps b sf Hlen Hf H.
  destruct bs as [|c bs]; [right; exists 0%nat; constructor|].
  cbn [List.length] in Hlen.
  first_step H as s1 op Hstep Hop Hrest.
  assert (Hsl : sl (open_state f (parseListValue :: ps) b 0 []) c = Ok (s1, op)).
  { destruct Hf as [-> | ->]; exact Hstep. }
  clear Hstep. revert Hsl. unfold sl.
  destruct (Byte.eqb c "e") eqn:He.
  - apply byte_dec_bl in He. subst c. rewrite pop_closed. cbn [bind].
    intros Hsl. injection Hsl as <- <-.
    left. exists [], bs. split; [reflexivity|]. split; [constructor|exact Hrest].
  - intros Hsv.
    destruct (Hvalue bs f (parseListValue :: ps) b c s1 op sf)
      as [(v & rest & -> & Hv & Hr)|(k & Hk)]; try assumption; [lia| |].
    + destruct (Hlist rest step_se ps b sf)
        as [(vs & rest' & -> & Hvs & Hr')|(k & Hk)];
        try assumption; [rewrite length_app in Hlen; lia|right; reflexivity| |].
      * left. exists ((c :: v) ++ vs), rest'.
        split; [cbn [app]; rewrite <- app_assoc; reflexivity|].
        split; [|exact Hr']. apply bvs_cons; assumption.
      * right. exists k. apply (ovs_cons Hv Hk).
    + right. exists k. apply ovs_inside. exact Hk.
Qed.

Lemma dict_trace_step n : value_trace n -> dict_trace n -> dict_trace (S n).
Proof.
  intros Hvalue Hdict bs f top ps b sf Hlen Hf H.
  destruct bs as [|c bs]; [right; exists 0%nat; constructor|].
  cbn [List.length] in Hlen.
  first_step H as s1 op Hstep Hop Hrest.
  assert (Hsd : sd (open_state step_sd (parseDictionaryKey :: ps) b 0 []) c = Ok (s1, op)).
  { destruct Hf as [[-> ->]|[-> ->]]; exact Hstep. }
  clear Hstep. revert Hsd. unfold sd.
  destruct (Byte.eqb c "e") eqn:He.
  { apply byte_dec_bl in He. subst c. rewrite pop_closed. cbn [bind].
    intros Hsd. injection Hsd as <- <-.
    left. exists [], bs. split; [reflexivity|]. split; [constructor|exact Hrest]. }
  assert (Hkey : Byte.eqb c "0" = true \/ nonzero_digit c = true ->
            s1 = open_state (if Byte.eqb c "0" then step_ssl0 else step_ssl)
                   (parseStringLength :: parseDictionaryKey :: ps) b 0 [c] ->
            (exists es rest, c :: bs = es ++ "e"%byte :: rest /\ bentries es /\
               steps (closed_state ps b) rest sf) \/
            (exists k, open_entries (c :: bs) k)).
  { intros Hc ->.
    destruct (string_trace Hc Hrest) as [(s & rest1 & -> & Hs & Hr1)|Hopen];
      [|right; exists 1%nat; apply oes_key; exact Hopen].
    rewrite length_app in Hlen. cbn [closed_state] in Hr1.
    destruct rest1 as [|c2 r].
    { right. exists 0%nat. rewrite app_nil_r. apply oes_keyed. exact Hs. }
    first_step Hr1 as s2 op2 Hstep2 Hop2 Hrest2. cbn [List.length] in Hlen.
    destruct (Hvalue r step_se (parseDictionaryValue :: ps) b c2 s2 op2 sf)
      as [(v & rest2 & -> & Hv & Hr2)|(k & Hk)]; try assumption; [lia| |].
    - rewrite length_app in Hlen.
      destruct (Hdict rest2 step_se parseDictionaryValue ps b sf)
        as [(es & rest' & -> & Hes & Hr')|(k & Hk)]; try assumption;
        [lia|right; split; reflexivity| |].
      + left. exists ((c :: s) ++ (c2 :: v) ++ es), rest'.
        split; [cbn [app]; rewrite <- !app_assoc; cbn [app]; rewrite <- !app_assoc;
                reflexivity|].
        split; [|exact Hr']. apply bes_cons; assumption.
      + right. exists k.
        replace (c :: s ++ c2 :: v ++ rest2) with ((c :: s) ++ (c2 :: v) ++ rest2)
          by reflexivity.
        apply (oes_cons Hs Hv Hk).
    - right. exists k.
      replace (c :: s ++ c2 :: r) with ((c :: s) ++ c2 :: r) by reflexivity.
      apply (oes_value Hs Hk). }
  destruct (Byte.eqb c "0") eqn:H0.
  { intros Hsd. injection Hsd as <- <-. apply Hkey; auto. }
  destruct (byte_in "1" "9" c) eqn:H19.
  { intros Hsd. injection Hsd as <- <-. apply Hkey; auto. }
  intros Hsd. injection Hsd as _ <-. now elim Hop.
Qed.

Lemma scanner_trace n : value_trace n /\ list_trace n /\ dict_trace n.
Proof.
  induction n as [|n (Hv & Hl & Hd)].
  - assert (Hl : list_trace 0).
    { intros bs f ps b sf Hlen _ H. destruct bs; [|cbn in Hlen; lia].
      right. exists 0%nat. constructor. }
    assert (Hd : dict_trace 0).
    { intros bs f top ps b sf Hlen _ H. destruct bs; [|cbn in Hlen; lia].
      right. exists 0%nat. constructor. }
    split; [apply value_trace_step; assumption|]. split; assumption.
  - pose proof (list_trace_step Hv Hl) as Hl'.
    pose proof (dict_trace_step Hv Hd) as Hd'.
    split; [apply value_trace_step; assumption|]. split; assumption.
Qed.

(** ** The frame stack after any bytes *)

Lemma open_depth_positive :
  (forall p k, open_value p k -> (0 < k)%nat).
Proof. intros p k H. destruct H; lia. Qed.

Lemma feed_latched bs : forall s,
  step s = step_stateError -> exists tr, feed s bs = Ok (tr, s).
Proof.
  induction bs as [|c bs IH]; intros s Hs; cbn [feed]; [eauto|].
  unfold scan_step. rewrite Hs. cbn [stateError bind].
  destruct (IH s Hs) as (tr & ->). cbn [bind]. eauto.
Qed.

Lemma steps_feed s bs s' : steps s bs s' -> exists tr, feed s bs = Ok (tr, s').
Proof.
  induction 1 as [|s c s1 op bs s' Hstep Hop _ (tr & IH)]; cbn [feed]; [eauto|].
  rewrite Hstep. cbn [bind]. rewrite IH. cbn [bind]. eauto.
Qed.

(** A scan latches no error exactly when it refuses no byte. *)
Lemma feed_steps bs : forall s tr s',
  scanner_inv s -> err s = None -> feed s bs = Ok (tr, s') ->
  (err s' = None <-> steps s bs s').
Proof.
  induction bs as [|c bs IH]; intros s tr s' Hs Herr H; cbn [feed] in H.
  - injection H as _ <-. split; [constructor|auto].
  - destruct (step_preserves c Hs) as (s1 & op & E & Hs1 & _ & Hbad & _).
    rewrite E in H. cbn [bind] in H.
    destruct (feed s1 bs) as [[tr1 s2]| |] eqn:E1; cbn [bind] in H; try discriminate H.
    injection H as _ <-.
    pose proof Hs1 as (_ & _ & Herr1 & _).
    destruct (opcode_eqb op scanError) eqn:Eop.
    + assert (op = scanError) as -> by (destruct op; discriminate || reflexivity).
      assert (Hst : step s1 = step_stateError) by (apply Hbad; reflexivity).
      destruct (feed_latched bs s1 Hst) as (tr' & E'). rewrite E' in E1.
      injection E1 as _ <-. split.
      * intros H. apply Herr1 in H. congruence.
      * intros H. first_step H as s3 op3 Hstep Hop Hrest.
        rewrite E in Hstep. injection Hstep as _ <-. now elim Hop.
    + assert (Hop : op <> scanError) by (intros ->; discriminate Eop).
      assert (Hnone : err s1 = None).
      { apply Herr1. intros H. apply Hop, Hbad, H. }
      rewrite (IH s1 tr1 s2 Hs1 Hnone E1). split.
      * intros H. econstructor; eassumption.
      * intros H. first_step H as s3 op3 Hstep Hop3 Hrest.
        rewrite E in Hstep. injection Hstep as <- _. exact Hrest.
Qed.

(** [d3:fooli1]: a dictionary, in it a list, in it an integer. *)
Lemma three_tokens_open : open_value (bytes_of "d3:fooli1") 3.
Proof.
  apply ov_dictionary.
  apply (@oes_value (bytes_of "3:foo") (bytes_of "li1") 2).
  - exists (bytes_of "3"), (bytes_of "foo"). repeat split.
  - apply ov_list, ovs_inside, ov_integer. reflexivity.
Qed.

(** C9, as stated, fails on a byte the scanner refuses: after [x] the frame
    stack is empty, yet the scan is not between top-level values and not
    finished: the scanner has latched an error, has not reached the end of
    a top-level value, and the input begins with no value. *)
Lemma refused_byte_leaves_empty_stack :
  exists tr s,
    feed (reset zero_scanner) (bytes_of "x") = Ok (tr, s) /\
    parseState s = [] /\ endTop s = false /\
    err s = Some (SyntaxError (InvalidCharacter "x" "looking for value") 0) /\
    ~ (exists v rest, bytes_of "x" = v ++ rest /\ bvalue v).
Proof.
  do 2 eexists. split; [reflexivity|]. repeat split.
  intros H. apply Valid_iff_value in H. vm_compute in H. discriminate H.
Qed.

(** C9, amended: a scanner fed any bytes from its reset state does not
    panic, and its frame stack follows the nesting of the bytes it has not
    refused.  It has latched no error exactly when the bytes are none,
    begin with a complete value, or are a value still open.  In the first
    two cases the stack is empty; in the third its depth is the number of
    tokens open at the end of the bytes: the dictionaries, lists, integers
    and strings begun and not closed.  So, while no error is latched, the
    stack is empty exactly before the first byte and from the end of the
    top-level value on.  Step by step, a frame is pushed exactly when the
    opcode enters a dictionary, list, integer or string length, the top
    frame is popped exactly on the matching close, and the depth is the
    number of tokens entered and not closed. *)
Theorem frame_stack_invariant (bs : list byte) :
  exists tr s, feed (reset zero_scanner) bs = Ok (tr, s) /\
    (bs = [] \/ (exists v rest, bs = v ++ rest /\ bvalue v) ->
     err s = None /\ parseState s = []) /\
    (forall k, open_value bs k ->
     err s = None /\ List.length (parseState s) = k /\ (0 < k)%nat) /\
    (err s = None ->
     bs = [] \/ (exists v rest, bs = v ++ rest /\ bvalue v) \/
     exists k, open_value bs k) /\
    (err s = None ->
     (parseState s = [] <-> bs = [] \/ exists v rest, bs = v ++ rest /\ bvalue v)) /\
    Forall follows_discipline tr /\
    Z.of_nat (List.length (parseState s)) = nesting_depth tr.
Proof.
  destruct (@feed_invariant bs (reset zero_scanner)) as (tr & s & E & Hs & Hall & Hlen & _).
  { apply reset_inv. reflexivity. }
  exists tr, s. split; [exact E|].
  assert (Hinv : scanner_inv (reset zero_scanner)) by (apply reset_inv; reflexivity).
  pose proof (@feed_steps bs (reset zero_scanner) tr s Hinv eq_refl E) as Hsteps.
  assert (Hreach : forall sf, steps (reset zero_scanner) bs sf -> s = sf).
  { intros sf H. destruct (steps_feed H) as (tr' & E'). congruence. }
  assert (Hdone : bs = [] \/ (exists v rest, bs = v ++ rest /\ bvalue v) ->
                  err s = None /\ parseState s = []).
  { intros [->|(v & rest & -> & Hv)].
    - cbn [feed] in E. injection E as _ <-. split; reflexivity.
    - destruct (proj1 grammar_runs v Hv step_sv [] 0)
        as (c & v' & s1 & op & -> & Hsv & Hop & _ & _ & _ & Hrun).
      assert (Hst : steps (reset zero_scanner) ((c :: v') ++ rest) (closed_state [] 0)).
      { cbn [app]. econstructor; [exact Hsv|exact Hop|].
        eapply steps_app; [apply (run_steps Hrun)|apply endTop_run]. }
      rewrite (Hreach _ Hst). split; reflexivity. }
  assert (Hopen : forall k, open_value bs k ->
                  err s = None /\ List.length (parseState s) = k /\ (0 < k)%nat).
  { intros k Hk.
    destruct (proj1 open_runs bs k Hk step_sv [] 0)
      as (c & p' & s1 & op & sf & -> & Hsv & Hop & Hrun & Hdepth).
    assert (Hst : steps (reset zero_scanner) (c :: p') sf)
      by (econstructor; [exact Hsv|exact Hop|exact Hrun]).
    rewrite (Hreach sf Hst) in *. split; [apply Hsteps; exact Hst|].
    split; [rewrite Hdepth; cbn [List.length]; lia|].
    exact (open_depth_positive Hk). }
  assert (Hclass : err s = None ->
                   bs = [] \/ (exists v rest, bs = v ++ rest /\ bvalue v) \/
                   exists k, open_value bs k).
  { intros Herr. apply Hsteps in Herr.
    destruct bs as [|c bs]; [left; reflexivity|right].
    first_step Herr as s1 op Hstep Hop Hrest.
    destruct (proj1 (scanner_trace (List.length bs)) bs step_sv [] 0 c s1 op s)
      as [(v & rest & -> & Hv & _)|Hk]; auto.
    left. exists (c :: v), rest. auto. }
  split; [exact Hdone|]. split; [exact Hopen|]. split; [exact Hclass|].
  split; [|split; [exact Hall|rewrite Hlen; reflexivity]].
  intros Herr. split; [|intros H; apply Hdone; exact H].
  intros Hempty. destruct (Hclass Herr) as [H|[H|(k & Hk)]]; auto.
  destruct (Hopen k Hk) as (_ & Hdepth & Hpos). rewrite Hempty in Hdepth.
  cbn [List.length] in Hdepth. lia.
Qed.

(** * Values in a buffer and in the data of a decode *)

Lemma run_set_bytes k s bs s' b :
  run k s bs s' -> run k (set_bytes s b) bs (set_bytes s' b).
Proof.
  induction 1 as [|s c s1 op bs s' Hstep Hop Hend Hdeep _ IH]; [constructor|].
  econstructor;
    [apply scan_step_set_bytes; eassumption|exact Hop|exact Hend|exact Hdeep|exact IH].
Qed.

Lemma set_bytes_twice s b b' : set_bytes (set_bytes s b) b' = set_bytes s b'.
Proof. destruct s. reflexivity. Qed.

Lemma count_bytes_S n b : count_bytes (S n) b = count_bytes n (wrap_int64 (b + 1)).
Proof. unfold count_bytes. rewrite Nat.iter_succ_r. reflexivity. Qed.

(** The loop of [readValue] over a buffer that begins with a run into an
    empty stack stops at the end of the run. *)
Lemma scan_buffered_run v : forall s s' rest scanp i,
  run 0 s v s' -> v <> [] -> parseState s' = [] ->
  scan_buffered (v ++ rest) s scanp i =
    Ok (set_bytes s' (count_bytes (List.length v) (bytes s)), ValueEnds (scanp + i + len v)).
Proof.
  unfold len.
  induction v as [|c v IH]; intros s s' rest scanp i H Hne Hstack; [now elim Hne|].
  inversion H as [|? ? s1 op ? ? Hstep Hop Hend Hdeep Hrun]; subst.
  cbn [app scan_buffered].
  rewrite (@scan_step_set_bytes _ _ _ _ (wrap_int64 (bytes s + 1)) Hstep Hop). cbn [bind].
  cbn [List.length]. rewrite count_bytes_S.
  destruct v as [|c' v].
  - apply run_nil_inv in Hrun. subst s1.
    cbn [parseState set_bytes]. rewrite Hstack.
    destruct op; try (now elim Hop); try (now elim Hend); cbn [count_bytes Nat.iter List.length];
      do 3 f_equal; lia.
  - specialize (Hdeep ltac:(discriminate)).
    assert (Hps : parseState (set_bytes s1 (wrap_int64 (bytes s + 1))) = parseState s1)
      by reflexivity.
    rewrite Hps.
    destruct (parseState s1) as [|x ps] eqn:E; [cbn in Hdeep; lia|].
    rewrite (IH _ (set_bytes s' (wrap_int64 (bytes s + 1))) rest scanp (i + 1));
      [|apply run_set_bytes; exact Hrun|discriminate|exact Hstack].
    rewrite set_bytes_twice. cbn [bytes set_bytes].
    destruct op; try (now elim Hop); try (now elim Hend);
      do 3 f_equal; lia.
Qed.

(** The loop of [skip] over a run that comes back below the depth it began
    at stops at the end of the run. *)
Lemma skip_loop_run v : forall s s' rest i depth,
  run (depth - 1) s v s' -> v <> [] -> (0 < depth)%nat ->
  (List.length (parseState s') < depth)%nat ->
  exists op, skip_loop (v ++ rest) s i depth = Ok (s', i + len v, op).
Proof.
  unfold len.
  induction v as [|c v IH]; intros s s' rest i depth H Hne Hd Hstack; [now elim Hne|].
  inversion H as [|? ? s1 op ? ? Hstep Hop Hend Hdeep Hrun]; subst.
  cbn [app skip_loop]. rewrite Hstep. cbn [bind].
  destruct v as [|c' v].
  - apply run_nil_inv in Hrun. subst s1.
    apply Nat.ltb_lt in Hstack. rewrite Hstack. exists op.
    cbn [List.length]. do 3 f_equal.
  - specialize (Hdeep ltac:(discriminate)).
    assert (Hge : Nat.ltb (List.length (parseState s1)) depth = false)
      by (apply Nat.ltb_ge; lia).
    rewrite Hge.
    destruct (IH s1 s' rest (i + 1) depth Hrun) as (op' & ->);
      [discriminate|exact Hd|exact Hstack|].
    exists op'. do 3 f_equal. cbn [List.length]. lia.
Qed.

(** A value at the top level, from its first byte on. *)
Lemma top_value_run v b :
  bvalue v ->
  v <> [] /\ run 0 (open_state step_sv [] b 0 []) v (closed_state [] b).
Proof.
  intros Hv.
  destruct (proj1 grammar_runs v Hv step_sv [] b)
    as (c & v' & s1 & op & -> & Hsv & Hop & Hend & Hdeep & Hne & Hrun).
  split; [discriminate|].
  econstructor; [exact Hsv|exact Hop|exact Hend| |exact Hrun].
  intros _. rewrite Hdeep. lia.
Qed.

Lemma skipn_bytes_slice (l v rest : list byte) (lo : Z) :
  0 <= lo -> skipn (Z.to_nat lo) l = v ++ rest -> v <> [] ->
  bytes_slice l lo (lo + len v) = Ok v.
Proof.
  unfold bytes_slice, len. intros Hlo H Hne.
  assert (Hlen : (Z.to_nat lo + List.length v + List.length rest = List.length l)%nat).
  { pose proof (f_equal (@List.length byte) H) as E.
    rewrite length_skipn, length_app in E.
    destruct v; [now elim Hne|]. cbn [List.length] in *. lia. }
  replace (0 <=? lo) with true by (symmetry; apply Z.leb_le; lia).
  replace (lo <=? lo + Z.of_nat (List.length v)) with true by (symmetry; apply Z.leb_le; lia).
  replace (lo + Z.of_nat (List.length v) <=? Z.of_nat (List.length l)) with true
    by (symmetry; apply Z.leb_le; lia).
  cbn [andb]. rewrite H. f_equal.
  replace (Z.to_nat (lo + Z.of_nat (List.length v) - lo)) with (List.length v) by lia.
  rewrite firstn_app, Nat.sub_diag, firstn_all. cbn. apply app_nil_r.
Qed.

Section Framing.

Context {X : Externals}.
Variable R : Type.
Variable Read : R -> nat -> list byte * option error * R.

(** [readValue] on a buffer that holds a whole value at the read position:
    it returns the length of that value, without a call of [refill]. *)
Lemma readValue_value (fuel : nat) (dec : Decoder R) (v rest : list byte) :
  0 <= dec_scanp dec ->
  skipn (Z.to_nat (dec_scanp dec)) (dec_buf dec) = v ++ rest ->
  bvalue v ->
  string_ (dec_scan dec) = 0 ->
  readValue Read (S fuel) dec =
    Ok (with_scan dec
          (closed_state [] (count_bytes (List.length v) (bytes (dec_scan dec)))),
        len v, None).
Proof.
  intros Hp Hbuf Hv Hstr. destruct (top_value_run (bytes (dec_scan dec)) Hv) as [Hne Hrun].
  unfold readValue. cbn [readValue_loop with_scan dec_buf dec_scan dec_scanp].
  rewrite Hbuf.
  replace (reset (dec_scan dec)) with (open_state step_sv [] (bytes (dec_scan dec)) 0 [])
    by (unfold reset, open_state; destruct (dec_scan dec); cbn in *; subst; reflexivity).
  rewrite (scan_buffered_run rest (dec_scanp dec) 0 Hrun Hne eq_refl). cbn [bind].
  unfold with_scan. cbn. do 3 f_equal. lia.
Qed.

(** X5: when the bytes buffered at the read position begin with a value,
    [readValue] returns the length of exactly that value, and [Decode] hands
    [unmarshal] that value alone, moves the read position past it and leaves
    what follows in the buffer, whatever the byte source is: it is not read. *)
Theorem Decode_frames_value (fuel : nat) (dec : Decoder R) (v rest : list byte)
  (dest : option goval) :
  dec_err dec = None ->
  tokenValueAllowed dec = true ->
  0 <= dec_scanp dec ->
  skipn (Z.to_nat (dec_scanp dec)) (dec_buf dec) = v ++ rest ->
  bvalue v ->
  string_ (dec_scan dec) = 0 ->
  let scan' := closed_state [] (count_bytes (List.length v) (bytes (dec_scan dec))) in
  readValue Read (S fuel) dec = Ok (with_scan dec scan', len v, None) /\
  Decode Read (S fuel) dec dest =
    ('(d, x, e) <- unmarshal (fuel_for v) (init (dec_d dec) v) dest;;
     Ok (mkDecoder (dec_r dec) (dec_buf dec) (dec_cap dec) d (dec_scanp dec + len v)
           (dec_scanned dec) scan' None (dec_tokenState dec) (dec_tokenStack dec),
         x, e)).
Proof.
  intros Herr Htok Hp Hbuf Hv Hstr scan'.
  pose proof (readValue_value fuel dec rest Hp Hbuf Hv Hstr) as Hrv. fold scan' in Hrv.
  split; [exact Hrv|].
  unfold Decode. rewrite Herr. cbn [tokenPrepareForDecode]. rewrite Htok. cbn [negb].
  rewrite Hrv. cbn [bind]. cbn [with_scan dec_buf dec_scanp].
  rewrite (skipn_bytes_slice _ rest Hp Hbuf);
    [|destruct (top_value_run 0 Hv) as [Hne _]; exact Hne].
  cbn [bind]. cbn [with_d with_scanp dec_d dec_r dec_buf dec_cap dec_scanp dec_scanned
                   dec_scan dec_err dec_tokenState dec_tokenStack].
  destruct (unmarshal _ _ _) as [[[d x] e]| |]; cbn [bind]; [|reflexivity..].
  unfold tokenValueEnd, with_d. cbn. rewrite Herr. reflexivity.
Qed.

End Framing.

Lemma closed_stack ps b : parseState (closed_state ps b) = ps.
Proof. destruct ps; reflexivity. Qed.

(** [skip], entered where the first byte [c] of a value has been scanned,
    goes to the end of that value and no further. *)
Lemma skip_over_value (d : decodeState) (f : stepFn) (ps : list parseFrame)
  (b : Z) (c : byte) (v rest : list byte) (s1 : scanner) (op : opcode) :
  bvalue (c :: v) ->
  sv (open_state f ps b 0 []) c = Ok (s1, op) ->
  scan d = s1 ->
  0 <= off d ->
  skipn (Z.to_nat (off d)) (data d) = v ++ rest ->
  exists op',
    skip d = Ok (set_opcode (set_off (set_scan d (closed_state ps b)) (off d + len v)) op').
Proof.
  intros Hv Hsv Hscan Hoff Hdata.
  destruct (proj1 grammar_runs _ Hv f ps b)
    as (c0 & v0 & s1' & op0 & E & Hsv' & Hop & Hend & Hdeep & Hne & Hrun).
  injection E as <- <-. rewrite Hsv in Hsv'. injection Hsv' as <- <-.
  unfold skip. replace (off d <? 0) with false by (symmetry; apply Z.ltb_ge; lia).
  rewrite Hdata, Hscan, Hdeep.
  destruct (@skip_loop_run v s1 (closed_state ps b) rest (off d) (S (List.length ps)))
    as (op' & ->).
  - replace (S (List.length ps) - 1)%nat with (List.length ps) by lia. exact Hrun.
  - exact Hne.
  - lia.
  - rewrite closed_stack. lia.
  - exists op'. reflexivity.
Qed.

(** X6: [skip], entered where the first byte [c] of a value has been
    scanned, moves the cursor to the end of that value and no further, and
    leaves the scanner as it is after a value: on the stack of frames the
    value began on. *)
Theorem skip_consumes_value (d : decodeState) (f : stepFn) (ps : list parseFrame)
  (b : Z) (c : byte) (v rest : list byte) (s1 : scanner) (op : opcode) :
  bvalue (c :: v) ->
  sv (open_state f ps b 0 []) c = Ok (s1, op) ->
  scan d = s1 ->
  0 <= off d ->
  skipn (Z.to_nat (off d)) (data d) = v ++ rest ->
  exists op',
    skip d = Ok (set_opcode (set_off (set_scan d (closed_state ps b)) (off d + len v)) op').
Proof. exact (@skip_over_value d f ps b c v rest s1 op). Qed.

(** * The one-shot decode on its first byte *)

Lemma count_bytes_small n : forall b,
  0 <= b -> b + Z.of_nat n < 2 ^ 63 -> count_bytes n b = b + Z.of_nat n.
Proof.
  induction n as [|n IH]; intros b Hb Hn.
  - cbn. lia.
  - rewrite count_bytes_S, wrap_int64_small by lia. rewrite IH by lia. lia.
Qed.

Lemma checkValid_loop_ok data : forall s sf,
  scanner_inv s -> err s = None ->
  checkValid_loop data s = Ok (sf, None) ->
  scanner_inv sf /\ endTop sf = true /\
  bytes sf = count_bytes (List.length data) (bytes s).
Proof.
  induction data as [|c data IH]; intros s sf Hs Herr; cbn [checkValid_loop].
  - unfold eof. rewrite Herr. destruct (endTop s) eqn:Hend; cbn [opcode_eqb].
    + intros H. injection H as <-. auto.
    + cbn [err set_err]. discriminate.
  - set (s0 := set_bytes s (wrap_int64 (bytes s + 1))).
    destruct (@step_preserves c s0) as (s1 & op & E & Hs1 & _ & Hbad & _); [exact Hs|].
    rewrite E. cbn [bind].
    destruct (@step_facts c s0 s1 op Hs Herr E) as (Hb & _ & Hgood).
    destruct (opcode_eqb op scanError) eqn:Eop.
    + assert (op = scanError) as -> by (destruct op; discriminate || reflexivity).
      intros H. injection H as _ H. exfalso.
      destruct Hs1 as (_ & _ & Herr1 & _). apply Herr1 in H. apply H, Hbad. reflexivity.
    + intros H. apply IH in H; [|exact Hs1|apply Hgood; intros ->; discriminate Eop].
      destruct H as (Hsf & Hend & Hbytes). split; [exact Hsf|]. split; [exact Hend|].
      cbn [List.length]. rewrite count_bytes_S, Hbytes, Hb. reflexivity.
Qed.

Lemma sv_bytes s c s1 op : sv s c = Ok (s1, op) -> bytes s1 = bytes s.
Proof.
  unfold sv. repeat break_if; intros H; injection H as <- _; reflexivity.
Qed.

Lemma inv_endTop_string s : scanner_inv s -> endTop s = true -> string_ s = 0.
Proof.
  intros (_ & He & _ & Hstr) H. apply He in H. rewrite H in Hstr. exact Hstr.
Qed.

Section OneShot.

Context {X : Externals}.

(** On a valid input, [Unmarshal] with a destination it can store through
    comes to [value] with the first byte scanned. *)
Lemma Unmarshal_begins c more e y s1 op :
  Valid (c :: more) = Ok true ->
  len (c :: more) < 2 ^ 63 - 1 ->
  sv (open_state step_sv [] (len (c :: more) + 1) 0 []) c = Ok (s1, op) ->
  Unmarshal (c :: more) (Some (VPtr e (Some y))) =
    ('(d, v, r) <- value (fuel_for (c :: more)) (begun (c :: more) op s1)
                     (Some (VPtr e (Some y)));;
     match r with
     | Some r => r' <- addErrorContext d r;; Ok (v, Some r')
     | None => Ok (v, savedError d)
     end).
Proof.
  intros Hvalid Hlen Hsv. unfold Unmarshal.
  unfold Valid in Hvalid.
  destruct (checkValid (c :: more) zero_scanner) as [[sf [e0|]]| |] eqn:Hcv;
    cbn [bind] in Hvalid; try discriminate Hvalid.
  cbn [scan zero_decodeState]. rewrite Hcv. cbn [bind].
  unfold checkValid in Hcv.
  apply checkValid_loop_ok in Hcv; [|apply reset_inv; reflexivity|reflexivity].
  destruct Hcv as (Hsf & Hend & Hbytes).
  change (bytes (reset zero_scanner)) with 0 in Hbytes.
  unfold len in *. rewrite count_bytes_small in Hbytes by lia.
  pose proof (inv_endTop_string Hsf Hend) as Hstr.
  unfold unmarshal, scanNext.
  cbn [init set_scan set_data set_off set_savedError set_errorContext data off scan
       errorContext savedError useNumber disallowUnknownFields opcode_ zero_decodeState].
  change (len (c :: more)) with (Z.of_nat (List.length (c :: more))).
  replace (0 <? Z.of_nat (List.length (c :: more))) with true
    by (symmetry; apply Z.ltb_lt; cbn [List.length]; lia).
  replace (set_bytes (reset sf) (wrap_int64 (bytes (reset sf) + 1)))
    with (open_state step_sv [] (Z.of_nat (List.length (c :: more)) + 1) 0 []).
  2:{ destruct sf as [st ps et er by_ str dg].
      cbn [bytes string_] in Hbytes, Hstr. subst by_ str.
      unfold reset, open_state, set_bytes, set_digits, set_endTop, set_err,
        set_parseState, set_step.
      cbn [step parseState endTop err bytes string_ digits].
      rewrite wrap_int64_small by lia. reflexivity. }
  unfold byte_at. cbn [nth_error Z.to_nat].
  replace ((0 <=? 0) && (0 <? len (c :: more))) with true
    by (symmetry; unfold len; apply andb_true_intro; split;
        [reflexivity|apply Z.ltb_lt; cbn [List.length]; lia]).
  cbn [bind]. unfold scan_step, open_state at 1. cbn [step]. fold (open_state step_sv [] (Z.of_nat (List.length (c :: more)) + 1) 0 []).
  rewrite Hsv. cbn [bind].
  cbn [set_off set_opcode set_scan data off scan errorContext savedError useNumber
       disallowUnknownFields opcode_].
  rewrite (sv_bytes _ _ Hsv). cbn [bytes open_state].
  replace (Z.of_nat (List.length (c :: more)) + 1 =? 0) with false
    by (symmetry; apply Z.eqb_neq; lia).
  change (0 + 1) with 1.
  fold (begun (c :: more) op s1).
  destruct (value _ _ _) as [[[d v] r]| |]; cbn [bind]; [|reflexivity..].
  destruct r as [r|]; [|reflexivity].
  destruct (addErrorContext d r); reflexivity.
Qed.

End OneShot.

(** * A list or a dictionary met by a destination it does not fit *)

Lemma scanNext_at_end d b :
  scan d = closed_state [] b -> 0 <= off d ->
  exists d', scanNext d = Ok d' /\ savedError d' = savedError d.
Proof.
  intros Hs Hoff. unfold scanNext. rewrite Hs.
  destruct (off d <? len (data d)) eqn:E.
  - apply Z.ltb_lt in E. unfold byte_at.
    replace ((0 <=? off d) && (off d <? len (data d))) with true
      by (symmetry; apply andb_true_intro; split; [apply Z.leb_le|apply Z.ltb_lt]; lia).
    destruct (nth_error (data d) (Z.to_nat (off d))) eqn:En.
    + cbn [bind]. eexists. split; [reflexivity|reflexivity].
    + exfalso. apply nth_error_None in En. unfold len in E. lia.
  - cbn [eof closed_state err endTop]. eexists. split; reflexivity.
Qed.

Section Refused.

Context {X : Externals}.

Lemma list_refused value_rec fuel d x :
  refuses scanBeginList x = true ->
  list_ value_rec fuel d x =
    (d1 <- saveError d (UnmarshalTypeError "list" (typeOf (fst (indirect x))) (off d) "" "");;
     d2 <- skip d1;;
     Ok (d2, snd (indirect x) (fst (indirect x)), None)).
Proof.
  unfold refuses, list_. destruct (indirect x) as [t k]. cbn [fst snd].
  destruct t; try discriminate; reflexivity.
Qed.

Lemma dictionary_refused value_rec fuel d x :
  refuses scanBeginDictionary x = true ->
  dictionary value_rec fuel d x =
    (d1 <- saveError d
             (UnmarshalTypeError "dictionary" (typeOf (fst (indirect x))) (off d) "" "");;
     d2 <- skip d1;;
     Ok (d2, snd (indirect x) (fst (indirect x)), None)).
Proof.
  unfold refuses, dictionary. destruct (indirect x) as [t k]. cbn [fst snd].
  destruct t; try discriminate; try reflexivity.
  destruct (type_Kind key); try discriminate; reflexivity.
Qed.

(** The way back of [indirect] put on the value it reached gives the
    destination with its nil pointers allocated. *)
Lemma alloc_indirect_allocate t :
  snd (alloc_indirect t) (fst (alloc_indirect t)) = allocate t.
Proof.
  induction t; cbn [alloc_indirect allocate]; try reflexivity.
  destruct (alloc_indirect t) as [x k]. cbn [fst snd] in *. rewrite IHt. reflexivity.
Qed.

Lemma indirect_allocated : forall v,
  snd (indirect v) (fst (indirect v)) = allocated v.
Proof.
  fix IH 1. intros v. destruct v as [| | | | | | | |e p|n dyn| |]; try reflexivity.
  - destruct p as [x|]; cbn [indirect allocated].
    + specialize (IH x). destruct (indirect x) as [y k]. cbn [fst snd] in *.
      rewrite IH. reflexivity.
    + pose proof (alloc_indirect_allocate e) as H.
      destruct (alloc_indirect e) as [y k]. cbn [fst snd] in *. rewrite H. reflexivity.
  - destruct dyn as [[| | | | | | | |e [x|]| | |]|]; try reflexivity.
    cbn [indirect allocated].
    specialize (IH x). destruct (indirect x) as [y k]. cbn [fst snd] in *.
    rewrite IH. reflexivity.
Qed.

Lemma no_nil_allocated : forall v, no_nil v = true -> allocated v = v.
Proof.
  fix IH 1. intros v. destruct v as [| | | | | | | |e p|n dyn| |]; try reflexivity.
  - destruct p as [x|]; cbn [no_nil allocated]; [|discriminate].
    intros H. rewrite (IH x H). reflexivity.
  - destruct dyn as [[| | | | | | | |e [x|]| | |]|]; try reflexivity.
    cbn [no_nil allocated]. intros H. rewrite (IH x H). reflexivity.
Qed.

(** X7: a list or a dictionary decoded into a destination that is neither
    a sequence, nor a map keyed by strings, nor a struct, is skipped,
    whatever it holds, and the mismatch is reported with the type of the
    value behind the destination's pointers and the offset of the byte
    after the opening [l] or [d].  The destination comes back as [indirect]
    leaves it: a nil pointer on the way to that value has been given a
    fresh zero pointee before the mismatch is found; a destination with no
    nil pointer on the way is returned as it was given. *)
Theorem Unmarshal_composite_mismatch (c : byte) (v rest : list byte) (e : gotype)
  (y : goval) (op : opcode) (what : string) :
  bvalue (c :: v) ->
  (c = "l"%byte /\ op = scanBeginList /\ what = "list"%string) \/
  (c = "d"%byte /\ op = scanBeginDictionary /\ what = "dictionary"%string) ->
  refuses op (VPtr e (Some y)) = true ->
  len (c :: v ++ rest) < 2 ^ 63 - 1 ->
  Unmarshal (c :: v ++ rest) (Some (VPtr e (Some y))) =
    Ok (Some (allocated (VPtr e (Some y))),
        Some (UnmarshalTypeError what (typeOf (fst (indirect (VPtr e (Some y))))) 1 "" "")) /\
  (no_nil y = true ->
   Unmarshal (c :: v ++ rest) (Some (VPtr e (Some y))) =
     Ok (Some (VPtr e (Some y)),
         Some (UnmarshalTypeError what (typeOf (fst (indirect (VPtr e (Some y))))) 1 "" ""))).
Proof.
  intros Hv Hkind Href Hlen.
  assert (Hmain :
    Unmarshal (c :: v ++ rest) (Some (VPtr e (Some y))) =
      Ok (Some (allocated (VPtr e (Some y))),
          Some (UnmarshalTypeError what (typeOf (fst (indirect (VPtr e (Some y))))) 1
                  "" ""))).
  { rewrite <- indirect_allocated.
    assert (Hvalid : Valid (c :: v ++ rest) = Ok true).
    { apply Valid_iff_value. exists (c :: v), rest. auto. }
    set (input := c :: v ++ rest) in *.
    set (b := len input + 1).
    set (x := VPtr e (Some y)) in *.
    assert (Hskip : forall s1 d1,
              sv (open_state step_sv [] b 0 []) c = Ok (s1, op) ->
              d1 = set_savedError (begun input op s1)
                     (Some (UnmarshalTypeError what (typeOf (fst (indirect x))) 1 "" "")) ->
              exists d2 d3, skip d1 = Ok d2 /\ scanNext d2 = Ok d3 /\
                savedError d3 =
                  Some (UnmarshalTypeError what (typeOf (fst (indirect x))) 1 "" "")).
    { intros s1 d1 Hsv ->.
      destruct (@skip_over_value
                  (set_savedError (begun input op s1)
                     (Some (UnmarshalTypeError what (typeOf (fst (indirect x))) 1 "" "")))
                  step_sv [] b c v rest s1 op Hv Hsv eq_refl) as (op' & Hsk);
        [cbn [off set_savedError begun]; lia|reflexivity|].
      rewrite Hsk.
      match goal with |- exists d2 d3, Ok ?d = Ok d2 /\ _ =>
        destruct (@scanNext_at_end d b) as (d3 & Hd3 & Hsaved);
          [reflexivity
          |cbn [off set_savedError set_opcode set_off set_scan begun]; unfold len; lia
          |exists d, d3]
      end.
      split; [reflexivity|]. split; [exact Hd3|]. rewrite Hsaved. reflexivity. }
    subst b input x.
    destruct Hkind as [(-> & -> & ->)|(-> & -> & ->)].
    - rewrite (@Unmarshal_begins X "l" (v ++ rest) e y
                 (open_state step_sl [parseListValue] (len ("l"%byte :: v ++ rest) + 1) 0 [])
                 scanBeginList Hvalid Hlen eq_refl).
      unfold fuel_for. cbn [value]. unfold value_body at 1. cbn [opcode_ begun].
      rewrite (list_refused _ _ _ _ Href).
      unfold saveError. cbn [savedError begun addErrorContext errorContext ec_Struct ec_Field
                             String.eqb bind off].
      destruct (Hskip (open_state step_sl [parseListValue]
                         (len ("l"%byte :: v ++ rest) + 1) 0 []) _ eq_refl eq_refl)
        as (d2 & d3 & -> & Hd3 & Hsaved).
      cbn [bind]. rewrite Hd3. cbn [bind]. rewrite Hsaved. reflexivity.
    - rewrite (@Unmarshal_begins X "d" (v ++ rest) e y
                 (open_state step_sd [parseDictionaryKey] (len ("d"%byte :: v ++ rest) + 1) 0 [])
                 scanBeginDictionary Hvalid Hlen eq_refl).
      unfold fuel_for. cbn [value]. unfold value_body at 1. cbn [opcode_ begun].
      rewrite (dictionary_refused _ _ _ _ Href).
      unfold saveError. cbn [savedError begun addErrorContext errorContext ec_Struct ec_Field
                             String.eqb bind off].
      destruct (Hskip (open_state step_sd [parseDictionaryKey]
                         (len ("d"%byte :: v ++ rest) + 1) 0 []) _ eq_refl eq_refl)
        as (d2 & d3 & -> & Hd3 & Hsaved).
      cbn [bind]. rewrite Hd3. cbn [bind]. rewrite Hsaved. reflexivity. }
  split; [exact Hmain|].
  intros Hno. rewrite Hmain, (@no_nil_allocated (VPtr e (Some y)) Hno). reflexivity.
Qed.

End Refused.

Section Refused2.

Context {X : Externals}.

(** X8: a list decoded into a destination of interface kind does not
    return: [list] panics with the message [interface], for every list and
    whatever follows it. *)
Theorem Unmarshal_list_into_interface (v rest : list byte) (e : gotype) (y : goval)
  (n : nat) (z : option goval) :
  bvalue ("l"%byte :: v) ->
  fst (indirect (VPtr e (Some y))) = VIface n z ->
  len ("l"%byte :: v ++ rest) < 2 ^ 63 - 1 ->
  Unmarshal ("l"%byte :: v ++ rest) (Some (VPtr e (Some y))) = Panic "interface".
Proof.
  intros Hv Hi Hlen.
  assert (Hvalid : Valid ("l"%byte :: v ++ rest) = Ok true).
  { apply Valid_iff_value. exists ("l"%byte :: v), rest. auto. }
  rewrite (@Unmarshal_begins X "l" (v ++ rest) e y
             (open_state step_sl [parseListValue] (len ("l"%byte :: v ++ rest) + 1) 0 [])
             scanBeginList Hvalid Hlen eq_refl).
  unfold fuel_for. cbn [value]. unfold value_body at 1. cbn [opcode_ begun].
  unfold list_. destruct (indirect (VPtr e (Some y))) as [t k]. cbn [fst] in Hi. subst t.
  reflexivity.
Qed.

End Refused2.

(** * Scalars *)

Lemma scanWhile_loop_continues s bs s' :
  continues s bs s' ->
  forall rest i,
    scanWhile_loop (bs ++ rest) s i scanContinue =
    scanWhile_loop rest s' (i + len bs) scanContinue.
Proof.
  unfold len. induction 1 as [|s c s1 bs s' Hstep _ IH]; intros rest i; cbn [app].
  - cbn [List.length]. f_equal. lia.
  - cbn [scanWhile_loop]. rewrite Hstep. cbn [bind opcode_eqb negb].
    rewrite IH. f_equal. cbn [List.length]. lia.
Qed.

Lemma scanWhile_loop_stops s c s1 op rest i :
  scan_step s c = Ok (s1, op) -> op <> scanContinue ->
  scanWhile_loop (c :: rest) s i scanContinue = Ok (s1, Some (i + 1, op)).
Proof.
  intros Hstep Hop. cbn [scanWhile_loop]. rewrite Hstep. cbn [bind].
  destruct op; try reflexivity. now elim Hop.
Qed.

Lemma continues_app s a s1 b s2 :
  continues s a s1 -> continues s1 b s2 -> continues s (a ++ b) s2.
Proof.
  induction 1; intros H2; cbn [app]; [exact H2|]. econstructor; eauto.
Qed.

Lemma sil_continues ps b ds :
  forallb is_digit ds = true ->
  continues (open_state step_sil (parseInteger :: ps) b 0 []) ds
    (open_state step_sil (parseInteger :: ps) b 0 []).
Proof.
  induction ds as [|c ds IH]; cbn [forallb]; [constructor|].
  intros H. apply andb_prop in H. destruct H as [Hc Hds].
  pose proof (digit_not_e _ Hc) as He. unfold is_digit in Hc.
  econstructor; [scan_go; reflexivity|exact (IH Hds)].
Qed.

(** An integer from its second byte on: the first byte of its text returns
    [scanInteger], the rest of the text [scanContinue], and the closing [e]
    [scanEndInteger]. *)
Lemma int_continues ps b c ds :
  int_text (c :: ds) = true ->
  exists s1 s2,
    scan_step (open_state step_si (parseInteger :: ps) b 0 []) c = Ok (s1, scanInteger) /\
    continues s1 ds s2 /\
    scan_step s2 "e" = Ok (closed_state ps b, scanEndInteger).
Proof.
  unfold int_text, len_text.
  destruct (Byte.eqb c "-") eqn:Hm.
  - destruct ds as [|c' ds]; [discriminate|]. intros H.
    apply andb_prop in H. destruct H as [Hc Hds].
    assert (H0 : Byte.eqb c' "0" = false) by (destruct c'; try discriminate; reflexivity).
    unfold nonzero_digit in Hc.
    exists (open_state step_sin (parseInteger :: ps) b 0 []),
           (open_state step_sil (parseInteger :: ps) b 0 []).
    split; [scan_go; reflexivity|]. split.
    + econstructor; [scan_go; reflexivity|apply sil_continues; exact Hds].
    + scan_go. destruct ps; reflexivity.
  - destruct (Byte.eqb c "0") eqn:H0.
    + destruct ds; [|discriminate]. intros _.
      exists (open_state step_si0 (parseInteger :: ps) b 0 []),
             (open_state step_si0 (parseInteger :: ps) b 0 []).
      split; [scan_go; reflexivity|]. split; [constructor|].
      scan_go. destruct ps; reflexivity.
    + intros H. apply andb_prop in H. destruct H as [Hc Hds].
      unfold nonzero_digit in Hc.
      exists (open_state step_sil (parseInteger :: ps) b 0 []),
             (open_state step_sil (parseInteger :: ps) b 0 []).
      split; [scan_go; reflexivity|]. split; [apply sil_continues; exact Hds|].
      scan_go. destruct ps; reflexivity.
Qed.

Lemma skipn_cons_inv (A : Type) (l : list A) n c tl :
  skipn n l = c :: tl ->
  nth_error l n = Some c /\ skipn (S n) l = tl /\ (n < List.length l)%nat.
Proof.
  revert l. induction n as [|n IH]; intros l H.
  - destruct l; [discriminate|]. cbn in H. injection H as -> ->.
    cbn. repeat split. lia.
  - destruct l as [|a l]; [discriminate|]. cbn [skipn] in H.
    destruct (IH l H) as (H1 & H2 & H3). cbn [nth_error List.length].
    repeat split; [exact H1|exact H2|lia].
Qed.

(** [scanNext] where a byte is left. *)
Lemma scanNext_step d c tl s1 op :
  0 <= off d ->
  skipn (Z.to_nat (off d)) (data d) = c :: tl ->
  scan_step (set_bytes (scan d) (wrap_int64 (bytes (scan d) + 1))) c = Ok (s1, op) ->
  scanNext d = Ok (set_off (set_opcode (set_scan d s1) op) (off d + 1)) /\
  skipn (Z.to_nat (off d + 1)) (data d) = tl.
Proof.
  intros Hoff Hdata Hstep. destruct (skipn_cons_inv _ _ Hdata) as (Hnth & Htl & Hlt).
  unfold scanNext, byte_at, len.
  replace (off d <? Z.of_nat (List.length (data d))) with true
    by (symmetry; apply Z.ltb_lt; lia).
  replace (0 <=? off d) with true by (symmetry; apply Z.leb_le; lia).
  cbn [andb]. rewrite Hnth. cbn [bind]. rewrite Hstep. cbn [bind].
  split; [reflexivity|].
  replace (Z.to_nat (off d + 1)) with (S (Z.to_nat (off d))) by lia. exact Htl.
Qed.

(** [scanWhile(scanContinue)] over bytes that continue, up to one that does
    not. *)
Lemma scanWhile_stops d bs c rest s2 s3 op :
  0 <= off d ->
  skipn (Z.to_nat (off d)) (data d) = bs ++ c :: rest ->
  continues (scan d) bs s2 ->
  scan_step s2 c = Ok (s3, op) -> op <> scanContinue ->
  scanWhile d scanContinue =
    Ok (set_off (set_opcode (set_scan d s3) op) (off d + len bs + 1)).
Proof.
  intros Hoff Hdata Hcont Hstep Hop. unfold scanWhile.
  replace (off d <? 0) with false by (symmetry; apply Z.ltb_ge; lia).
  rewrite Hdata, (scanWhile_loop_continues Hcont),
    (@scanWhile_loop_stops _ _ _ _ rest (off d + len bs) Hstep Hop).
  reflexivity.
Qed.

Section Integers.

Context {X : Externals}.

(** [value] on an integer hands [integerStore] the text between [i] and
    [e], with the cursor past the [e]. *)
Lemma value_integer_text (fuel : nat) (d : decodeState) (ps : list parseFrame)
  (b : Z) (ds rest : list byte) (x : goval) :
  opcode_ d = scanBeginInteger ->
  scan d = open_state step_si (parseInteger :: ps) b 0 [] ->
  0 <= off d ->
  skipn (Z.to_nat (off d)) (data d) = ds ++ "e"%byte :: rest ->
  int_text ds = true ->
  value (S fuel) d (Some x) =
    ('(d', x', e) <-
       integerStore
         (mkDecodeState (data d) (off d + len ds + 1) scanEndInteger
            (closed_state ps (wrap_int64 (b + 1))) (errorContext d) (savedError d)
            (useNumber d) (disallowUnknownFields d))
         ds x false;;
     match e with
     | Some e => Ok (d', Some x', Some e)
     | None => d'' <- scanNext d';; Ok (d'', Some x', None)
     end).
Proof.
  intros Hop Hscan Hoff Hdata Hds.
  destruct ds as [|c ds]; [discriminate|].
  destruct (int_continues ps (wrap_int64 (b + 1)) _ _ Hds) as (s1 & s2 & Hs1 & Hcont & Hs2).
  cbn [value]. unfold value_body. rewrite Hop.
  cbn [app] in Hdata.
  destruct (@scanNext_step d c (ds ++ "e"%byte :: rest) s1 scanInteger Hoff Hdata)
    as [Hnext Htl].
  { rewrite Hscan. exact Hs1. }
  rewrite Hnext. cbn [bind]. cbn [opcode_ set_off set_opcode opcode_eqb negb].
  set (d1 := set_off (set_opcode (set_scan d s1) scanInteger) (off d + 1)).
  rewrite (@scanWhile_stops d1 ds "e" rest s2 (closed_state ps (wrap_int64 (b + 1)))
             scanEndInteger);
    [|cbn; lia|exact Htl|exact Hcont|exact Hs2|discriminate].
  cbn [bind]. unfold readIndex.
  cbn [d1 data off set_off set_opcode set_scan].
  replace (off d + 1 - 1) with (off d) by lia.
  replace (off d + 1 + len ds + 1 - 1) with (off d + len (c :: ds))
    by (unfold len; cbn [List.length]; lia).
  rewrite (@skipn_bytes_slice (data d) (c :: ds) ("e"%byte :: rest) (off d) Hoff Hdata)
    by discriminate.
  cbn [bind].
  replace (off d + 1 + len ds + 1) with (off d + len (c :: ds) + 1)
    by (unfold len; cbn [List.length]; lia).
  subst d1. unfold set_off, set_opcode, set_scan.
  cbn [data off opcode_ scan errorContext savedError useNumber disallowUnknownFields].
  destruct (integerStore _ _ _ _) as [[[d' x'] e]| |]; cbn [bind]; reflexivity.
Qed.

End Integers.

Lemma int_text_first c ds :
  int_text (c :: ds) = true ->
  negb (Byte.eqb c "-") && (negb (byte_le "0" c) || negb (byte_le c "9")) = false.
Proof.
  intros H. destruct c; try reflexivity; cbn in H; discriminate H.
Qed.

Section IntegerDestination.

Context {X : Externals}.

(** [Unmarshal] of an integer hands [integerStore] the text between [i] and
    [e], with the cursor past the [e]. *)
Lemma Unmarshal_integer_store (ds rest : list byte) (e : gotype) (y : goval) :
  int_text ds = true ->
  len ("i"%byte :: ds ++ "e"%byte :: rest) < 2 ^ 63 - 1 ->
  exists dA,
    scan dA = closed_state [] (wrap_int64 (len ("i"%byte :: ds ++ "e"%byte :: rest) + 1 + 1)) /\
    off dA = len ds + 2 /\ savedError dA = None /\
    errorContext dA = mkErrorContext None "" /\
    Unmarshal ("i"%byte :: ds ++ "e"%byte :: rest) (Some (VPtr e (Some y))) =
      ('(d, v, r) <-
         ('(d', x', r) <- integerStore dA ds (VPtr e (Some y)) false;;
          match r with
          | Some r => Ok (d', Some x', Some r)
          | None => d'' <- scanNext d';; Ok (d'', Some x', None)
          end);;
       match r with
       | Some r => r' <- addErrorContext d r;; Ok (v, Some r')
       | None => Ok (v, savedError d)
       end).
Proof.
  intros Hds Hlen.
  assert (Hvalid : Valid ("i"%byte :: ds ++ "e"%byte :: rest) = Ok true).
  { apply Valid_iff_value. exists ("i"%byte :: ds ++ ["e"%byte]), rest.
    split; [cbn [app]; rewrite <- app_assoc; reflexivity|]. apply bv_integer. exact Hds. }
  set (input := "i"%byte :: ds ++ "e"%byte :: rest) in *.
  rewrite (@Unmarshal_begins X "i" (ds ++ "e"%byte :: rest) _ _
             (open_state step_si [parseInteger] (len input + 1) 0 [])
             scanBeginInteger Hvalid Hlen eq_refl).
  fold input. unfold fuel_for.
  rewrite (@value_integer_text X _ (begun input scanBeginInteger
             (open_state step_si [parseInteger] (len input + 1) 0 []))
             [] (len input + 1) ds rest _ eq_refl eq_refl);
    [|cbn [off begun]; lia|reflexivity|exact Hds].
  cbn [begun data off errorContext savedError useNumber disallowUnknownFields].
  eexists. split; [|split; [|split; [|split; [|reflexivity]]]];
    [reflexivity|cbn [off]; lia|reflexivity|reflexivity].
Qed.

(** What [Unmarshal] returns once the store has recorded a mismatch. *)
Lemma stored_mismatch dA what t (k : goval -> goval) b :
  scan dA = closed_state [] b -> 0 <= off dA -> savedError dA = None ->
  errorContext dA = mkErrorContext None "" ->
  ('(d, v, r) <-
     ('(d', x', r) <- mismatch dA what t k;;
      match r with
      | Some r => Ok (d', Some x', Some r)
      | None => d'' <- scanNext d';; Ok (d'', Some x', None)
      end);;
   match r with
   | Some r => r' <- addErrorContext d r;; Ok (v, Some r')
   | None => Ok (v, savedError d)
   end) =
  Ok (Some (k t), Some (UnmarshalTypeError what (typeOf t) (off dA - 1) "" "")).
Proof.
  intros Hs Hoff Hsaved Hctx.
  unfold mismatch, saveError, readIndex, addErrorContext. rewrite Hsaved, Hctx.
  cbn [ec_Struct ec_Field String.eqb bind].
  match goal with |- context [scanNext ?d] =>
    destruct (@scanNext_at_end d b) as (d' & Hd' & Hsaved');
      [exact Hs|exact Hoff|]
  end.
  rewrite Hd'. cbn [bind]. rewrite Hsaved'. reflexivity.
Qed.

(** What [Unmarshal] returns once the store has set the destination. *)
Lemma stored_value dA (x : goval) b :
  scan dA = closed_state [] b -> 0 <= off dA -> savedError dA = None ->
  ('(d, v, r) <-
     (d'' <- scanNext dA;; Ok (d'', Some x, @None error));;
   match r with
   | Some r => r' <- addErrorContext d r;; Ok (v, Some r')
   | None => Ok (v, savedError d)
   end) =
  Ok (Some x, None).
Proof.
  intros Hs Hoff Hsaved.
  destruct (@scanNext_at_end dA b Hs Hoff) as (d' & Hd' & Hsaved').
  rewrite Hd'. cbn [bind]. rewrite Hsaved', Hsaved. reflexivity.
Qed.

(** X9: an integer decoded into a signed integer of kind [kd]: the number is
    stored when [strconv.ParseInt] reads it and it fits the kind; otherwise
    the destination is left as it is and the mismatch is reported, at the
    offset of the closing [e]. *)
Theorem Unmarshal_integer (ds rest : list byte) (kd : reflect.Kind) (old : Z) :
  signed_kind kd = true ->
  int_text ds = true ->
  len ("i"%byte :: ds ++ "e"%byte :: rest) < 2 ^ 63 - 1 ->
  Unmarshal ("i"%byte :: ds ++ "e"%byte :: rest)
    (Some (VPtr (TBasic kd) (Some (VInt kd old)))) =
  match ParseInt ds with
  | inr n =>
      if OverflowInt kd n then
        Ok (Some (VPtr (TBasic kd) (Some (VInt kd old))),
            Some (UnmarshalTypeError (number_of ds) (TBasic kd) (len ds + 1) "" ""))
      else Ok (Some (VPtr (TBasic kd) (Some (VInt kd n))), None)
  | inl _ =>
      Ok (Some (VPtr (TBasic kd) (Some (VInt kd old))),
          Some (UnmarshalTypeError (number_of ds) (TBasic kd) (len ds + 1) "" ""))
  end.
Proof.
  intros _ Hds Hlen.
  destruct (@Unmarshal_integer_store ds rest (TBasic kd) (VInt kd old) Hds Hlen)
    as (dA & Hscan & Hoff & Hsaved & Hctx & ->).
  assert (Hoff' : 0 <= off dA) by (unfold len in Hoff; lia).
  replace (len ds + 1) with (off dA - 1) by lia.
  destruct ds as [|c ds]; [discriminate|].
  unfold integerStore. cbn [indirect]. rewrite (int_text_first _ _ Hds).
  destruct (ParseInt (c :: ds)) as [ne|n];
    [exact (@stored_mismatch _ _ _ _ _ Hscan Hoff' Hsaved Hctx)|].
  destruct (OverflowInt kd n);
    [exact (@stored_mismatch _ _ _ _ _ Hscan Hoff' Hsaved Hctx)|].
  exact (@stored_value _ _ _ Hscan Hoff' Hsaved).
Qed.

(** X10: an integer decoded into an unsigned integer of kind [kd]: a [uint32]
    is refused whatever the number is; for the other kinds the number is
    stored when [strconv.ParseUint] reads it and it fits the kind, and is
    reported as a mismatch otherwise. *)
Theorem Unmarshal_integer_unsigned (ds rest : list byte) (kd : reflect.Kind) (old : Z) :
  unsigned_kind kd = true ->
  int_text ds = true ->
  len ("i"%byte :: ds ++ "e"%byte :: rest) < 2 ^ 63 - 1 ->
  Unmarshal ("i"%byte :: ds ++ "e"%byte :: rest)
    (Some (VPtr (TBasic kd) (Some (VUint kd old)))) =
  if reflect.Kind_eqb kd reflect.Uint32 then
    Ok (Some (VPtr (TBasic kd) (Some (VUint kd old))),
        Some (UnmarshalTypeError "number" (TBasic kd) (len ds + 1) "" ""))
  else
    match ParseUint ds with
    | inr n =>
        if OverflowUint kd n then
          Ok (Some (VPtr (TBasic kd) (Some (VUint kd old))),
              Some (UnmarshalTypeError (number_of ds) (TBasic kd) (len ds + 1) "" ""))
        else Ok (Some (VPtr (TBasic kd) (Some (VUint kd n))), None)
    | inl _ =>
        Ok (Some (VPtr (TBasic kd) (Some (VUint kd old))),
            Some (UnmarshalTypeError (number_of ds) (TBasic kd) (len ds + 1) "" ""))
    end.
Proof.
  intros Hkd Hds Hlen.
  destruct (@Unmarshal_integer_store ds rest (TBasic kd) (VUint kd old) Hds Hlen)
    as (dA & Hscan & Hoff & Hsaved & Hctx & ->).
  assert (Hoff' : 0 <= off dA) by (unfold len in Hoff; lia).
  replace (len ds + 1) with (off dA - 1) by lia.
  destruct ds as [|c ds]; [discriminate|].
  unfold integerStore. cbn [indirect]. rewrite (int_text_first _ _ Hds).
  destruct kd; try discriminate Hkd; cbn [reflect.Kind_eqb];
    try exact (@stored_mismatch _ _ _ _ _ Hscan Hoff' Hsaved Hctx);
    (destruct (ParseUint (c :: ds)) as [ne|n];
     [exact (@stored_mismatch _ _ _ _ _ Hscan Hoff' Hsaved Hctx)|];
     destruct (OverflowUint _ n);
     [exact (@stored_mismatch _ _ _ _ _ Hscan Hoff' Hsaved Hctx)|];
     exact (@stored_value _ _ _ Hscan Hoff' Hsaved)).
Qed.

End IntegerDestination.

(** * A string decoded into a string *)

Lemma ssl_continues ps b ds : forall dg,
  forallb is_digit ds = true ->
  continues (open_state step_ssl (parseStringLength :: ps) b 0 dg) ds
    (open_state step_ssl (parseStringLength :: ps) b 0 (dg ++ ds)).
Proof.
  induction ds as [|c ds IH]; intros dg; cbn [forallb].
  - intros _. rewrite app_nil_r. constructor.
  - intros H. apply andb_prop in H. destruct H as [Hc Hds].
    pose proof (digit_not_colon _ Hc) as Hcolon. unfold is_digit in Hc.
    econstructor; [scan_go; reflexivity|].
    replace (dg ++ c :: ds) with ((dg ++ [c]) ++ ds) by (rewrite <- app_assoc; reflexivity).
    apply IH. exact Hds.
Qed.

Lemma ss_continues ps b body : forall n,
  0 < n < 2 ^ 64 -> len body = n ->
  continues (open_state step_ss (parseString :: ps) b n []) body (closed_state ps b).
Proof.
  unfold len.
  induction body as [|c body IH]; intros n Hn Hlen; cbn [List.length] in Hlen; [lia|].
  destruct (n - 1 =? 0) eqn:E.
  - apply Z.eqb_eq in E. destruct body; [|cbn [List.length] in Hlen; lia].
    econstructor; [|constructor].
    scan_go; rewrite (wrap_uint64_pred Hn), E; cbn [Z.eqb]; destruct ps; reflexivity.
  - econstructor;
      [scan_go; rewrite (wrap_uint64_pred Hn), E; reflexivity
      |apply (IH (n - 1)); apply Z.eqb_neq in E; lia].
Qed.

(** The opcodes of a string: its length digits continue; the colon of an
    empty string reports the string; otherwise the colon continues, the
    first byte of the body reports the string and the others continue. *)
Lemma string_opcodes ps b f c0 ds body :
  sv (open_state step_sv ps b 0 []) c0 =
    Ok (open_state f (parseStringLength :: ps) b 0 [c0], scanBeginString) ->
  len_text (c0 :: ds) = true ->
  ParseUint (c0 :: ds) = inr (len body) ->
  exists s2,
    match body with
    | [] =>
        continues (open_state f (parseStringLength :: ps) b 0 [c0]) ds s2 /\
        scan_step s2 ":" = Ok (closed_state ps b, scanString)
    | c :: body' =>
        continues (open_state f (parseStringLength :: ps) b 0 [c0]) (ds ++ [":"%byte]) s2 /\
        exists s3, scan_step s2 c = Ok (s3, scanString) /\
                   continues s3 body' (closed_state ps b)
    end.
Proof.
  intros Hsv Htext HP. pose proof (ParseUint_range _ HP) as Hr.
  assert (Hf : (f = step_ssl0 /\ ds = []) \/ (f = step_ssl /\ forallb is_digit ds = true)).
  { destruct (len_text_first _ _ Htext) as [[H0 ->]|(H0 & Hnz & Hds)].
    - left. split; [|reflexivity]. unfold sv in Hsv.
      destruct c0; try discriminate H0. cbv in Hsv. congruence.
    - right. split; [|exact Hds]. unfold sv, nonzero_digit, byte_in in *.
      destruct c0; try discriminate Hnz; try discriminate H0; cbv in Hsv; congruence. }
  assert (Hdigits : exists s2,
            continues (open_state f (parseStringLength :: ps) b 0 [c0]) ds s2 /\
            (s2 = open_state step_ssl0 (parseStringLength :: ps) b 0 (c0 :: ds) \/
             s2 = open_state step_ssl (parseStringLength :: ps) b 0 (c0 :: ds))).
  { destruct Hf as [[-> ->]|[-> Hds]].
    - eexists. split; [constructor|]. left. reflexivity.
    - eexists. split; [exact (ssl_continues ps b ds [c0] Hds)|]. right. reflexivity. }
  destruct Hdigits as (s2 & Hcont & Hs2).
  destruct body as [|c body'].
  - exists s2. split; [exact Hcont|].
    change (len []) with 0 in HP.
    destruct Hs2 as [-> | ->]; scan_go; rewrite HP; cbn -[Z.pow]; destruct ps; reflexivity.
  - remember (len (c :: body')) as n eqn:Hlen.
    assert (Hn : 0 < n < 2 ^ 64)
      by (unfold len in *; cbn [List.length] in *; lia).
    assert (E : (n =? 0) = false) by (apply Z.eqb_neq; lia).
    exists (open_state step_ssf (parseString :: ps) b n []). split.
    + eapply continues_app; [exact Hcont|].
      econstructor; [|constructor].
      destruct Hs2 as [-> | ->]; scan_go; rewrite HP; cbn -[Z.pow Z.eqb];
        rewrite E; reflexivity.
    + destruct (n - 1 =? 0) eqn:E1.
      * apply Z.eqb_eq in E1.
        destruct body'; [|unfold len in Hlen; cbn [List.length] in Hlen; lia].
        exists (closed_state ps b). split; [|constructor].
        scan_go. rewrite (wrap_uint64_pred Hn), E1. cbn [Z.eqb]. destruct ps; reflexivity.
      * exists (open_state step_ss (parseString :: ps) b (n - 1) []). split.
        -- scan_go. rewrite (wrap_uint64_pred Hn), E1. reflexivity.
        -- apply ss_continues; [apply Z.eqb_neq in E1; lia|].
           unfold len in *. cbn [List.length] in Hlen. lia.
Qed.

(** [scanWhile(scanContinue)] up to where the top-level value has closed:
    it stops on the byte after, or at the end of the input. *)
Lemma scanWhile_top_closed d bs tail b :
  0 <= off d <= len (data d) ->
  skipn (Z.to_nat (off d)) (data d) = bs ++ tail ->
  continues (scan d) bs (closed_state [] b) ->
  scanWhile d scanContinue =
    Ok (set_off (set_opcode (set_scan d (closed_state [] b)) scanEnd) (off d + len bs + 1)).
Proof.
  intros Hoff Hdata Hcont. destruct tail as [|c rest].
  - unfold scanWhile.
    replace (off d <? 0) with false by (symmetry; apply Z.ltb_ge; lia).
    rewrite Hdata, app_nil_r.
    rewrite <- (app_nil_r bs) at 1.
    rewrite (scanWhile_loop_continues Hcont). cbn [scanWhile_loop bind].
    cbn [eof closed_state scan set_scan set_off err endTop].
    pose proof (f_equal (@List.length byte) Hdata) as E.
    rewrite length_skipn, length_app in E. cbn [List.length] in E.
    unfold len in *.
    replace (Z.of_nat (List.length (data d)) + 1)
      with (off d + Z.of_nat (List.length bs) + 1) by lia.
    reflexivity.
  - rewrite (@scanWhile_stops d bs c rest (closed_state [] b) (closed_state [] b) scanEnd)
      by (try discriminate; try reflexivity; try assumption; lia).
    reflexivity.
Qed.

Lemma skipn_len_app (a b : list byte) (n : Z) :
  n = len a -> skipn (Z.to_nat n) (a ++ b) = b.
Proof.
  intros ->. unfold len. rewrite Nat2Z.id, skipn_app, Nat.sub_diag, skipn_all.
  reflexivity.
Qed.

Section StringDestination.

Context {X : Externals}.

(** [Unmarshal] of a string hands [stringStore] the body, or the colon when
    the body is empty, with the cursor one past the string. *)
Lemma Unmarshal_string_store (c0 : byte) (ds body rest : list byte) (e : gotype)
  (y : goval) :
  len_text (c0 :: ds) = true ->
  ParseUint (c0 :: ds) = inr (len body) ->
  len (c0 :: ds ++ ":"%byte :: body ++ rest) < 2 ^ 63 - 1 ->
  let input := c0 :: ds ++ ":"%byte :: body ++ rest in
  Unmarshal input (Some (VPtr e (Some y))) =
    ('(d, x, r) <-
       stringStore
         (mkDecodeState input (len (c0 :: ds) + 1 + len body + 1) scanEnd
            (closed_state [] (len input + 1)) (mkErrorContext None "") None false false)
         (match body with [] => [":"%byte] | _ => body end)
         (VPtr e (Some y)) false;;
     match r with
     | Some r => r' <- addErrorContext d r;; Ok (Some x, Some r')
     | None => Ok (Some x, savedError d)
     end).
Proof.
  intros Htext HP Hlen. cbv zeta.
  assert (Hvalid : Valid (c0 :: ds ++ ":"%byte :: body ++ rest) = Ok true).
  { apply Valid_iff_value. exists ((c0 :: ds) ++ ":"%byte :: body), rest. split.
    - cbn [app]. rewrite <- app_assoc. reflexivity.
    - apply bv_string. exists (c0 :: ds), body. auto. }
  set (input := c0 :: ds ++ ":"%byte :: body ++ rest) in Hlen.
  assert (Hsv : exists f,
            sv (open_state step_sv [] (len input + 1) 0 []) c0 =
              Ok (open_state f [parseStringLength] (len input + 1) 0 [c0], scanBeginString)).
  { destruct (len_text_first _ _ Htext) as [[H0 _]|(H0 & Hnz & _)].
    - exists step_ssl0. destruct c0; try discriminate H0. reflexivity.
    - exists step_ssl. unfold nonzero_digit, byte_in in Hnz.
      destruct c0; try discriminate Hnz; reflexivity. }
  destruct Hsv as (f & Hsv).
  rewrite (@Unmarshal_begins X c0 (ds ++ ":"%byte :: body ++ rest) e y _ _ Hvalid Hlen Hsv).
  fold input. unfold fuel_for. cbn [value]. unfold value_body.
  cbn [begun opcode_].
  destruct (@string_opcodes [] _ _ _ ds body Hsv Htext HP) as (s2 & Hops).
  set (b := len input + 1) in *.
  set (d0 := begun input scanBeginString (open_state f [parseStringLength] b 0 [c0])).
  assert (Hin : len input = len (c0 :: ds) + 1 + len body + len rest).
  { subst input. unfold len. cbn [List.length].
    rewrite length_app. cbn [List.length]. rewrite length_app. lia. }
  assert (Hd0 : off d0 = 1 /\ data d0 = input /\ scan d0 = open_state f [parseStringLength] b 0 [c0])
    by (repeat split).
  destruct Hd0 as (Hoff0 & Hdata0 & Hscan0).
  destruct body as [|c body'].
  - destruct Hops as [Hcont Hcolon].
    rewrite (@scanWhile_stops d0 ds ":" rest s2 (closed_state [] b) scanString);
      [|rewrite Hoff0; lia|rewrite Hoff0, Hdata0; reflexivity
       |rewrite Hscan0; exact Hcont|exact Hcolon|discriminate].
    cbn [bind opcode_ set_off set_opcode opcode_eqb negb].
    set (d1 := set_off (set_opcode (set_scan d0 (closed_state [] b)) scanString)
                 (off d0 + len ds + 1)).
    assert (Hoff1 : off d1 = len (c0 :: ds) + 1)
      by (unfold d1, d0, set_off, begun; cbn [off]; unfold len; cbn [List.length]; lia).
    assert (Hdata1 : data d1 = input) by reflexivity.
    rewrite (@scanWhile_top_closed d1 [] rest b);
      [|rewrite Hoff1, Hdata1; unfold len in *; lia
       |rewrite Hoff1, Hdata1; subst input;
        change (c0 :: ds ++ ":"%byte :: [] ++ rest) with ((c0 :: ds) ++ [":"%byte] ++ rest);
        rewrite app_assoc; apply skipn_len_app; unfold len; rewrite length_app;
        cbn [List.length]; lia
       |constructor].
    cbn [bind]. unfold readIndex. cbn [off set_off data set_opcode set_scan].
    rewrite Hoff1, Hdata1.
    change (len []) with 0.
    replace (len (c0 :: ds) + 1 + 0 + 1 - 1) with (len (c0 :: ds) + 1 - 1 + len [":"%byte])
      by (unfold len; cbn [List.length]; lia).
    rewrite (@skipn_bytes_slice input [":"%byte] rest);
      [|unfold len; lia
       |subst input; change (c0 :: ds ++ ":"%byte :: [] ++ rest)
          with ((c0 :: ds) ++ [":"%byte] ++ rest);
        apply skipn_len_app; lia
       |discriminate].
    cbn [bind].
    replace (len (c0 :: ds) + 1 - 1 + len [":"%byte] + 1) with (len (c0 :: ds) + 1 + 0 + 1)
      by (unfold len; cbn [List.length]; lia).
    unfold d1, d0, begun, set_off, set_opcode, set_scan.
    cbn [data off opcode_ scan errorContext savedError useNumber disallowUnknownFields].
    destruct (stringStore _ _ _ _) as [[[d' x'] r]| |]; cbn [bind]; reflexivity.
  - destruct Hops as (Hcont & s3 & Hfirst & Hbody).
    rewrite (@scanWhile_stops d0 (ds ++ [":"%byte]) c (body' ++ rest) s2 s3 scanString);
      [|rewrite Hoff0; lia
       |rewrite Hoff0, Hdata0; subst input; cbn [skipn Z.to_nat Pos.to_nat Pos.iter_op Nat.add app];
        rewrite <- app_assoc; reflexivity
       |rewrite Hscan0; exact Hcont|exact Hfirst|discriminate].
    cbn [bind opcode_ set_off set_opcode opcode_eqb negb].
    set (d1 := set_off (set_opcode (set_scan d0 s3) scanString)
                 (off d0 + len (ds ++ [":"%byte]) + 1)).
    assert (Hoff1 : off d1 = len (c0 :: ds) + 1 + 1)
      by (unfold d1, d0, set_off, begun; cbn [off]; unfold len; rewrite length_app;
          cbn [List.length]; lia).
    assert (Hdata1 : data d1 = input) by reflexivity.
    assert (Hskip : skipn (Z.to_nat (len (c0 :: ds) + 1)) input = (c :: body') ++ rest).
    { subst input.
      change (c0 :: ds ++ ":"%byte :: (c :: body') ++ rest)
        with ((c0 :: ds) ++ [":"%byte] ++ (c :: body') ++ rest).
      rewrite app_assoc. apply skipn_len_app. unfold len. rewrite length_app.
      cbn [List.length]. lia. }
    rewrite (@scanWhile_top_closed d1 body' rest b);
      [|rewrite Hoff1, Hdata1; unfold len in *; cbn [List.length] in *; lia
       |rewrite Hoff1, Hdata1;
        replace (Z.to_nat (len (c0 :: ds) + 1 + 1))
          with (S (Z.to_nat (len (c0 :: ds) + 1))) by (unfold len; lia);
        apply (skipn_cons_inv _ _ Hskip)
       |exact Hbody].
    cbn [bind]. unfold readIndex. cbn [off set_off data set_opcode set_scan].
    rewrite Hoff1, Hdata1.
    replace (len (c0 :: ds) + 1 + 1 - 1) with (len (c0 :: ds) + 1) by lia.
    replace (len (c0 :: ds) + 1 + 1 + len body' + 1 - 1)
      with (len (c0 :: ds) + 1 + len (c :: body'))
      by (unfold len; cbn [List.length]; lia).
    rewrite (@skipn_bytes_slice input (c :: body') rest);
      [|unfold len; lia|exact Hskip|discriminate].
    cbn [bind].
    replace (len (c0 :: ds) + 1 + 1 + len body' + 1)
      with (len (c0 :: ds) + 1 + len (c :: body') + 1)
      by (unfold len; cbn [List.length]; lia).
    unfold d1, d0, begun, set_off, set_opcode, set_scan.
    cbn [data off opcode_ scan errorContext savedError useNumber disallowUnknownFields].
    destruct (stringStore _ _ _ _) as [[[d' x'] r]| |]; cbn [bind]; reflexivity.
Qed.

(** X11: a string decoded into a [string]: a body that is not empty is stored
    as it is, whatever follows the string; the empty body is stored as the
    colon before it. *)
Theorem Unmarshal_string_into_string (ds body rest old : list byte) :
  len_text ds = true ->
  ParseUint ds = inr (len body) ->
  len (ds ++ ":"%byte :: body ++ rest) < 2 ^ 63 - 1 ->
  Unmarshal (ds ++ ":"%byte :: body ++ rest)
    (Some (VPtr (TBasic reflect.String) (Some (VString old)))) =
  Ok (Some (VPtr (TBasic reflect.String)
              (Some (VString (match body with [] => [":"%byte] | _ => body end)))),
      None).
Proof.
  intros Htext HP Hlen. destruct ds as [|c0 ds]; [discriminate|].
  cbn [app] in *. rewrite (@Unmarshal_string_store c0 ds body rest _ _ Htext HP Hlen).
  destruct body; reflexivity.
Qed.

End StringDestination.

(** * A dictionary of strings decoded into a map *)

(** The first digit of a string length, in the places a string may begin. *)
Lemma digit_begins c0 ds b :
  len_text (c0 :: ds) = true ->
  sv (open_state step_sv [] b 0 []) c0 =
    Ok (open_state (string_begins c0) [parseStringLength] b 0 [c0], scanBeginString) /\
  sv (open_state step_sv [parseDictionaryKey] b 0 []) c0 =
    Ok (open_state (string_begins c0) [parseStringLength; parseDictionaryKey] b 0 [c0],
        scanBeginString) /\
  sv (open_state step_sv [parseDictionaryValue] b 0 []) c0 =
    Ok (open_state (string_begins c0) [parseStringLength; parseDictionaryValue] b 0 [c0],
        scanBeginString) /\
  scan_step (open_state step_sd [parseDictionaryKey] b 0 []) c0 =
    Ok (open_state (string_begins c0) [parseStringLength; parseDictionaryKey] b 0 [c0],
        scanBeginString) /\
  scan_step (closed_state [parseDictionaryKey] b) c0 =
    Ok (open_state (string_begins c0) [parseStringLength; parseDictionaryValue] b 0 [c0],
        scanBeginString) /\
  scan_step (closed_state [parseDictionaryValue] b) c0 =
    Ok (open_state (string_begins c0) [parseStringLength; parseDictionaryKey] b 0 [c0],
        scanBeginString).
Proof.
  intros H. destruct (len_text_first _ _ H) as [[H0 _]|(H0 & Hnz & _)].
  - destruct c0; try discriminate H0. repeat split.
  - unfold nonzero_digit, byte_in in Hnz.
    destruct c0; try discriminate Hnz; repeat split.
Qed.

(** The two turns of [scanWhile(scanContinue)] over a string and the byte
    after it, and the bytes between the two places they stop at. *)
Lemma string_token d ps b c0 ds body nxt tail s3 op3 :
  scan d = open_state (string_begins c0) (parseStringLength :: ps) b 0 [c0] ->
  sv (open_state step_sv ps b 0 []) c0 =
    Ok (open_state (string_begins c0) (parseStringLength :: ps) b 0 [c0],
        scanBeginString) ->
  len_text (c0 :: ds) = true ->
  ParseUint (c0 :: ds) = inr (len body) ->
  0 <= off d ->
  skipn (Z.to_nat (off d)) (data d) = ds ++ ":"%byte :: body ++ nxt :: tail ->
  scan_step (closed_state ps b) nxt = Ok (s3, op3) -> op3 <> scanContinue ->
  exists d2,
    scanWhile d scanContinue = Ok d2 /\ opcode_ d2 = scanString /\
    scanWhile d2 scanContinue =
      Ok (set_off (set_opcode (set_scan d s3) op3) (off d + len ds + 1 + len body + 1)) /\
    bytes_slice (data d) (readIndex d2) (off d + len ds + 1 + len body + 1 - 1) =
      Ok (read_string body) /\
    skipn (Z.to_nat (off d + len ds + 1 + len body + 1)) (data d) = tail.
Proof.
  intros Hscan Hsv Htext HP Hoff Hdata Hnext Hop3.
  destruct (@string_opcodes ps b _ c0 ds body Hsv Htext HP) as (s2 & Hops).
  assert (Htail : skipn (Z.to_nat (off d + len ds + 1 + len body)) (data d) = nxt :: tail).
  { replace (Z.to_nat (off d + len ds + 1 + len body))
      with (List.length (ds ++ ":"%byte :: body) + Z.to_nat (off d))%nat
      by (unfold len; rewrite length_app; cbn [List.length]; lia).
    rewrite <- skipn_skipn, Hdata.
    replace (ds ++ ":"%byte :: body ++ nxt :: tail)
      with ((ds ++ ":"%byte :: body) ++ nxt :: tail)
      by (rewrite <- app_assoc; reflexivity).
    rewrite skipn_app, Nat.sub_diag, skipn_all. reflexivity. }
  assert (Hlast : skipn (Z.to_nat (off d + len ds + 1 + len body + 1)) (data d) = tail).
  { replace (Z.to_nat (off d + len ds + 1 + len body + 1))
      with (S (Z.to_nat (off d + len ds + 1 + len body))) by (unfold len; lia).
    apply (skipn_cons_inv _ _ Htail). }
  destruct body as [|c body'].
  - destruct Hops as [Hcont Hcolon]. cbn [app] in Hdata.
    eexists. split.
    { apply (@scanWhile_stops d ds ":" (nxt :: tail) s2 (closed_state ps b) scanString);
        [exact Hoff|exact Hdata|rewrite Hscan; exact Hcont|exact Hcolon|discriminate]. }
    split; [reflexivity|].
    set (d1 := set_off (set_opcode (set_scan d (closed_state ps b)) scanString)
                 (off d + len ds + 1)).
    assert (Hd1 : skipn (Z.to_nat (off d1)) (data d1) = [] ++ nxt :: tail).
    { unfold d1; cbn [off data set_off set_opcode set_scan app]. rewrite <- Htail.
      change (len []) with 0. do 2 f_equal. lia. }
    split.
    { rewrite (@scanWhile_stops d1 [] nxt tail (closed_state ps b) s3 op3);
        [|unfold d1; cbn [off set_off]; unfold len; lia|exact Hd1|constructor|exact Hnext|exact Hop3].
      unfold d1, set_off, set_opcode, set_scan. change (len []) with 0.
      cbn [data off opcode_ scan errorContext savedError useNumber disallowUnknownFields].
      reflexivity. }
    split; [|exact Hlast].
    unfold readIndex, d1. cbn [off set_off read_string]. change (len []) with 0.
    replace (off d + len ds + 1 + 0 + 1 - 1)
      with (off d + len ds + 1 - 1 + len [":"%byte]) by (unfold len; cbn [List.length]; lia).
    apply (@skipn_bytes_slice (data d) [":"%byte] (nxt :: tail));
      [unfold len; lia| |discriminate].
    replace (Z.to_nat (off d + len ds + 1 - 1))
      with (List.length ds + Z.to_nat (off d))%nat by (unfold len; lia).
    rewrite <- skipn_skipn, Hdata, skipn_app, Nat.sub_diag, skipn_all. reflexivity.
  - destruct Hops as (Hcont & s4 & Hfirst & Hbody).
    eexists. split.
    { apply (@scanWhile_stops d (ds ++ [":"%byte]) c (body' ++ nxt :: tail) s2 s4 scanString);
        [exact Hoff|rewrite Hdata, <- app_assoc; reflexivity|rewrite Hscan; exact Hcont
        |exact Hfirst|discriminate]. }
    split; [reflexivity|].
    set (d1 := set_off (set_opcode (set_scan d s4) scanString)
                 (off d + len (ds ++ [":"%byte]) + 1)).
    assert (Hoff1 : off d1 = off d + len ds + 1 + 1).
    { unfold d1. cbn [off set_off]. unfold len. rewrite length_app. cbn [List.length]. lia. }
    assert (Hskip : skipn (Z.to_nat (off d + len ds + 1)) (data d) =
                    (c :: body') ++ nxt :: tail).
    { replace (Z.to_nat (off d + len ds + 1))
        with (List.length (ds ++ [":"%byte]) + Z.to_nat (off d))%nat
        by (unfold len; rewrite length_app; cbn [List.length]; lia).
      rewrite <- skipn_skipn, Hdata.
      replace (ds ++ ":"%byte :: (c :: body') ++ nxt :: tail)
        with ((ds ++ [":"%byte]) ++ (c :: body') ++ nxt :: tail)
        by (rewrite <- app_assoc; reflexivity).
      rewrite skipn_app, Nat.sub_diag, skipn_all. reflexivity. }
    assert (Hd1 : skipn (Z.to_nat (off d1)) (data d1) = body' ++ nxt :: tail).
    { rewrite Hoff1. change (data d1) with (data d).
      replace (Z.to_nat (off d + len ds + 1 + 1))
        with (S (Z.to_nat (off d + len ds + 1))) by (unfold len; lia).
      apply (skipn_cons_inv _ _ Hskip). }
    split.
    { rewrite (@scanWhile_stops d1 body' nxt tail (closed_state ps b) s3 op3);
        [|rewrite Hoff1; unfold len; lia|exact Hd1|exact Hbody|exact Hnext|exact Hop3].
      rewrite Hoff1. unfold d1, set_off, set_opcode, set_scan.
      cbn [data off opcode_ scan errorContext savedError useNumber disallowUnknownFields].
      do 2 f_equal. unfold len. cbn [List.length]. lia. }
    split; [|exact Hlast].
    unfold readIndex. rewrite Hoff1. cbn [read_string].
    replace (off d + len ds + 1 + 1 - 1) with (off d + len ds + 1) by lia.
    replace (off d + len ds + 1 + len (c :: body') + 1 - 1)
      with (off d + len ds + 1 + len (c :: body')) by lia.
    apply (@skipn_bytes_slice (data d) (c :: body') (nxt :: tail));
      [unfold len; lia|exact Hskip|discriminate].
Qed.

Section DictionaryOfStrings.

Context {X : Externals}.

(** [value] on a string inside a composite: [stringStore] is handed what
    the binder reads for the string, with the byte after it scanned. *)
Lemma value_string_nested fuel d ps b c0 ds body nxt tail s3 op3 x :
  opcode_ d = scanBeginString ->
  scan d = open_state (string_begins c0) (parseStringLength :: ps) b 0 [c0] ->
  sv (open_state step_sv ps b 0 []) c0 =
    Ok (open_state (string_begins c0) (parseStringLength :: ps) b 0 [c0],
        scanBeginString) ->
  len_text (c0 :: ds) = true ->
  ParseUint (c0 :: ds) = inr (len body) ->
  0 <= off d ->
  skipn (Z.to_nat (off d)) (data d) = ds ++ ":"%byte :: body ++ nxt :: tail ->
  scan_step (closed_state ps b) nxt = Ok (s3, op3) -> op3 <> scanContinue ->
  value (S fuel) d (Some x) =
    ('(d', x', e) <-
       stringStore
         (set_off (set_opcode (set_scan d s3) op3) (off d + len ds + 1 + len body + 1))
         (read_string body) x false;;
     Ok (d', Some x', e)).
Proof.
  intros Hop Hscan Hsv Htext HP Hoff Hdata Hnext Hop3.
  destruct (@string_token d ps b c0 ds body nxt tail s3 op3
              Hscan Hsv Htext HP Hoff Hdata Hnext Hop3)
    as (d2 & H1 & Hop2 & H2 & Hslice & _).
  cbn [value]. unfold value_body. rewrite Hop, H1. cbn [bind]. rewrite Hop2.
  cbn [opcode_eqb negb]. rewrite H2. cbn [bind].
  unfold readIndex at 2. cbn [data off set_off set_opcode set_scan].
  unfold readIndex in Hslice. unfold readIndex. rewrite Hslice. cbn [bind].
  reflexivity.
Qed.

Lemma entry_text_app kds kb vds vb (tl : list byte) :
  entry_text (kds, kb, vds, vb) ++ tl =
  kds ++ ":"%byte :: kb ++ vds ++ ":"%byte :: vb ++ tl.
Proof.
  unfold entry_text. rewrite <- app_assoc. cbn [app]. rewrite <- app_assoc.
  rewrite <- app_assoc. reflexivity.
Qed.

(** The byte after [d] or after a value of a dictionary: the closing [e],
    or the first digit of the next key. *)
Lemma next_key es rest b st :
  Forall entry_ok es ->
  st = open_state step_sd [parseDictionaryKey] b 0 [] \/
  st = closed_state [parseDictionaryValue] b ->
  exists nxt tail s3 op3,
    entries_text es ++ "e"%byte :: rest = nxt :: tail /\
    scan_step st nxt = Ok (s3, op3) /\ op3 <> scanContinue /\
    forall d, 0 <= off d -> opcode_ d = op3 -> scan d = s3 ->
              skipn (Z.to_nat (off d)) (data d) = tail -> at_key d es rest b.
Proof.
  intros Hes Hst. destruct es as [|[[[kds kb] vds] vb] es'].
  - exists "e"%byte, rest, (closed_state [] b), scanEndDictionary.
    split; [reflexivity|]. split; [destruct Hst as [-> | ->]; reflexivity|].
    split; [discriminate|]. intros d Hoff Hop Hscan _. split; [exact Hoff|]. auto.
  - inversion Hes as [|? ? Hen _]; subst. destruct Hen as (Hk & _).
    destruct kds as [|c0 kds']; [discriminate|].
    destruct (@digit_begins c0 kds' b Hk) as (_ & _ & _ & Hsd & _ & Hse).
    exists c0, (kds' ++ ":"%byte :: kb ++ vds ++ ":"%byte :: vb ++ entries_text es'
                ++ "e"%byte :: rest),
      (open_state (string_begins c0) [parseStringLength; parseDictionaryKey] b 0 [c0]),
      scanBeginString.
    split.
    { unfold entries_text. cbn [map List.concat]. rewrite <- app_assoc.
      rewrite entry_text_app. reflexivity. }
    split; [destruct Hst as [-> | ->]; assumption|].
    split; [discriminate|]. intros d Hoff Hop Hscan Hdata. split; [exact Hoff|].
    exists c0, kds'. auto.
Qed.

(** The loop of [dictionary] over entries of strings, into a map from
    strings to strings. *)
Lemma dictionary_loop_strings rest b ctx vfuel : forall es fuel d m,
  (List.length es < fuel)%nat ->
  Forall entry_ok es ->
  at_key d es rest b ->
  exists d',
    dictionary_loop (value (S vfuel)) fuel d [] (VMap strings strings (Some m)) ctx =
      Ok (d', VMap strings strings (Some (bind_entries m es)), None) /\
    scan d' = closed_state [] b /\ 0 <= off d' /\ savedError d' = savedError d.
Proof.
  induction es as [|[[[kds kb] vds] vb] es' IH]; intros fuel d m Hfuel Hes [Hoff Hat].
  - destruct Hat as [Hop Hscan]. destruct fuel as [|fuel]; [cbn in Hfuel; lia|].
    cbn [dictionary_loop]. rewrite Hop. cbn [opcode_eqb].
    exists d. auto.
  - destruct Hat as (c0 & kds' & -> & Hop & Hscan & Hdata).
    destruct fuel as [|fuel]; [cbn in Hfuel; lia|].
    inversion Hes as [|? ? Hen Hes']; subst. destruct Hen as (Hk & HkP & Hv & HvP).
    destruct vds as [|v0 vds']; [discriminate|].
    destruct (@digit_begins c0 kds' b Hk) as (_ & Hsvk & _).
    destruct (@digit_begins v0 vds' b Hv) as (_ & _ & Hsvv & _ & Hafter & _).
    cbn [app] in Hdata.
    destruct (@string_token d [parseDictionaryKey] b c0 kds' kb v0 _ _ _
                Hscan Hsvk Hk HkP Hoff Hdata Hafter)
      as (d2 & H1 & Hop2 & H2 & Hslice & Htail); [discriminate|].
    cbn [dictionary_loop]. rewrite Hop. cbn [opcode_eqb negb].
    rewrite H1. cbn [bind]. rewrite Hop2. cbn [opcode_eqb negb]. rewrite H2. cbn [bind].
    set (d3 := set_off (set_opcode (set_scan d _) scanBeginString) _) in *.
    unfold readIndex at 2. change (data d3) with (data d).
    change (off d3) with (off d + len kds' + 1 + len kb + 1).
    rewrite Hslice. cbn [bind bind_target].
    destruct (@next_key es' rest b (closed_state [parseDictionaryValue] b) Hes')
      as (nxt & tail & s3 & op3 & Htext & Hstep & Hop3 & Hkey); [right; reflexivity|].
    rewrite Htext in Htail.
    rewrite (@value_string_nested vfuel d3 [parseDictionaryValue] b v0 vds' vb nxt tail
               s3 op3 (zero strings) eq_refl eq_refl Hsvv Hv HvP);
      [|unfold d3; cbn [off set_off]; unfold len; lia|exact Htail|exact Hstep|exact Hop3].
    set (d5 := set_off (set_opcode (set_scan d3 s3) op3) _).
    assert (Hstore : stringStore d5 (read_string vb) (zero strings) false =
                     Ok (d5, VString (read_string vb), None)).
    { unfold stringStore. destruct vb; reflexivity. }
    rewrite Hstore. cbn [bind].
    assert (Hat5 : at_key (set_errorContext d5 ctx) es' rest b).
    { apply Hkey; try reflexivity.
      - unfold d5, d3. cbn [set_errorContext off set_off]. unfold len. lia.
      - unfold d5. cbn [set_errorContext off data set_off set_opcode set_scan].
        change (data d3) with (data d).
        destruct (@string_token d3 [parseDictionaryValue] b v0 vds' vb nxt tail s3 op3
                    eq_refl Hsvv Hv HvP) as (_ & _ & _ & _ & _ & Hlast);
          [unfold d3; cbn [off set_off]; unfold len; lia|exact Htail|exact Hstep
          |exact Hop3|].
        exact Hlast. }
    destruct (opcode_eqb (opcode_ d5) scanEndDictionary) eqn:Eend.
    + assert (es' = []) as ->.
      { destruct es' as [|[[[? ?] ?] ?] ?]; [reflexivity|].
        destruct Hat5 as (_ & c1 & k1 & _ & Hop5 & _).
        cbn [set_errorContext opcode_] in Hop5. rewrite Hop5 in Eend. discriminate. }
      destruct Hat5 as (Hoff5 & Hop5 & Hscan5).
      exists d5. split; [reflexivity|]. split; [exact Hscan5|]. split; [exact Hoff5|].
      reflexivity.
    + destruct (IH fuel (set_errorContext d5 ctx)
                  (map_set (read_string kb) (VString (read_string vb)) m))
        as (d' & Hloop & Hscan' & Hoff' & Hsaved'); [cbn in Hfuel; lia|exact Hes'|exact Hat5|].
      exists d'. split; [exact Hloop|]. split; [exact Hscan'|]. split; [exact Hoff'|].
      rewrite Hsaved'. reflexivity.
Qed.

Lemma entries_grammar es : Forall entry_ok es -> bentries (entries_text es).
Proof.
  induction 1 as [|[[[kds kb] vds] vb] es' (Hk & HkP & Hv & HvP) _ IH]; [apply bes_nil|].
  unfold entries_text. cbn [map List.concat]. fold (entries_text es').
  replace (entry_text (kds, kb, vds, vb) ++ entries_text es')
    with ((kds ++ ":"%byte :: kb) ++ (vds ++ ":"%byte :: vb) ++ entries_text es').
  - apply bes_cons; [|apply bv_string|exact IH].
    + exists kds, kb. auto.
    + exists vds, vb. auto.
  - rewrite entry_text_app. repeat (rewrite <- app_assoc; cbn [app]). reflexivity.
Qed.

Lemma entries_count es : (List.length es <= List.length (entries_text es))%nat.
Proof.
  induction es as [|[[[kds kb] vds] vb] es' IH]; [cbn; lia|].
  unfold entries_text, entry_text in *. cbn [map List.concat List.length].
  rewrite !length_app. cbn [List.length]. lia.
Qed.

(** X16: a dictionary whose keys and values are strings, decoded into a
    map from strings to strings.  Every entry is bound, in the order of the
    input, a later entry replacing an earlier one of its key; a key or a
    value is bound as the binder reads a string: its body, or the colon
    when the body is empty.  A nil map is made first; what follows the
    dictionary is not looked at; no error is returned. *)
Theorem Unmarshal_dictionary_of_strings (es : list entry) (rest : list byte)
  (m : option (list (list byte * goval))) :
  Forall entry_ok es ->
  len ("d"%byte :: entries_text es ++ "e"%byte :: rest) < 2 ^ 63 - 1 ->
  Unmarshal ("d"%byte :: entries_text es ++ "e"%byte :: rest)
    (Some (VPtr (TMap strings strings) (Some (VMap strings strings m)))) =
  Ok (Some (VPtr (TMap strings strings)
              (Some (VMap strings strings
                       (Some (bind_entries (match m with Some l => l | None => [] end)
                                es))))),
      None).
Proof.
  intros Hes Hlen.
  assert (Hvalid : Valid ("d"%byte :: entries_text es ++ "e"%byte :: rest) = Ok true).
  { apply Valid_iff_value. exists ("d"%byte :: entries_text es ++ ["e"%byte]), rest.
    split; [cbn [app]; rewrite <- app_assoc; reflexivity|].
    apply bv_dictionary, entries_grammar, Hes. }
  set (input := "d"%byte :: entries_text es ++ "e"%byte :: rest) in *.
  rewrite (@Unmarshal_begins X "d" (entries_text es ++ "e"%byte :: rest) _ _
             (open_state step_sd [parseDictionaryKey] (len input + 1) 0 [])
             scanBeginDictionary Hvalid Hlen eq_refl).
  fold input. set (b := len input + 1).
  set (d0 := begun input scanBeginDictionary (open_state step_sd [parseDictionaryKey] b 0 [])).
  unfold fuel_for.
  change (value (S (S (List.length input))) d0)
    with (value_body (value (S (List.length input))) (S (List.length input)) d0).
  unfold value_body. change (opcode_ d0) with scanBeginDictionary.
  unfold dictionary. cbn [indirect type_Kind strings].
  destruct (@next_key es rest b (open_state step_sd [parseDictionaryKey] b 0 []) Hes)
    as (nxt & tail & s3 & op3 & Htext & Hstep & Hop3 & Hkey); [left; reflexivity|].
  rewrite (@scanWhile_stops d0 [] nxt tail (open_state step_sd [parseDictionaryKey] b 0 [])
             s3 op3);
    [|unfold d0; cbn [begun off]; lia
     |unfold d0; cbn [begun off data Z.to_nat Pos.to_nat Pos.iter_op Nat.add skipn app];
      subst input; cbn [skipn]; exact Htext
     |constructor|exact Hstep|exact Hop3].
  cbn [bind]. change (len []) with 0.
  set (d1 := set_off (set_opcode (set_scan d0 s3) op3) (off d0 + 0 + 1)).
  destruct (@dictionary_loop_strings rest b (errorContext d0) (List.length input) es
              (S (List.length input)) d1 (match m with Some l => l | None => [] end))
    as (d' & Hloop & Hscan' & Hoff' & Hsaved').
  - pose proof (entries_count es) as Hc. subst input. cbn [List.length].
    rewrite length_app. lia.
  - exact Hes.
  - apply Hkey; try reflexivity.
    + unfold d1, d0. cbn [begun off set_off]. lia.
    + unfold d1, d0. cbn [begun off data set_off set_opcode set_scan].
      subst input. cbn [Z.add Pos.add Z.to_nat Pos.to_nat Pos.iter_op Nat.add skipn].
      rewrite Htext. reflexivity.
  - rewrite Hloop. cbn [bind].
    destruct (@scanNext_at_end d' b Hscan' Hoff') as (d'' & Hnext & Hsaved'').
    rewrite Hnext. cbn [bind]. rewrite Hsaved'', Hsaved'. reflexivity.
Qed.

End DictionaryOfStrings.

Section StructOfStrings.

Context {X : Externals}.

(** [value] with no destination on a string inside a composite: the string
    and the byte after it are scanned, and nothing is stored. *)
Lemma value_string_skipped fuel d ps b c0 ds body nxt tail s3 op3 :
  opcode_ d = scanBeginString ->
  scan d = open_state (string_begins c0) (parseStringLength :: ps) b 0 [c0] ->
  sv (open_state step_sv ps b 0 []) c0 =
    Ok (open_state (string_begins c0) (parseStringLength :: ps) b 0 [c0],
        scanBeginString) ->
  len_text (c0 :: ds) = true ->
  ParseUint (c0 :: ds) = inr (len body) ->
  0 <= off d ->
  skipn (Z.to_nat (off d)) (data d) = ds ++ ":"%byte :: body ++ nxt :: tail ->
  scan_step (closed_state ps b) nxt = Ok (s3, op3) -> op3 <> scanContinue ->
  value (S fuel) d None =
    Ok (set_off (set_opcode (set_scan d s3) op3) (off d + len ds + 1 + len body + 1),
        None, None).
Proof.
  intros Hop Hscan Hsv Htext HP Hoff Hdata Hnext Hop3.
  destruct (@string_token d ps b c0 ds body nxt tail s3 op3
              Hscan Hsv Htext HP Hoff Hdata Hnext Hop3)
    as (d2 & H1 & Hop2 & H2 & _).
  cbn [value]. unfold value_body. rewrite Hop, H1. cbn [bind]. rewrite Hop2.
  cbn [opcode_eqb negb]. rewrite H2. reflexivity.
Qed.

Lemma strings_kept i s vals j :
  option_map is_string (nth_error vals j) = Some true ->
  option_map is_string (nth_error (set_nth i (VString s) vals) j) = Some true.
Proof.
  intros H. destruct (Nat.eq_dec i j) as [->|Hne].
  - rewrite set_nth_same; [reflexivity|].
    destruct (nth_error vals j) eqn:E; [|discriminate H].
    apply nth_error_Some. congruence.
  - rewrite set_nth_other by exact Hne. exact H.
Qed.

Lemma field_fits_bind fields sfs vals en en' :
  field_fits fields sfs vals en -> field_fits fields sfs (bind_field fields vals en') en.
Proof.
  destruct en as [[[kds kb] vds] vb], en' as [[[kds' kb'] vds'] vb'].
  unfold field_fits, bind_field.
  destruct (find_field fields (read_string kb) None) as [f|]; [|auto].
  intros (Hq & i & Hi & Hlt & Hs). split; [exact Hq|]. exists i.
  split; [exact Hi|]. split; [exact Hlt|].
  destruct (find_field fields (read_string kb') None) as [f'|]; [|exact Hs].
  destruct (index f') as [|j [|? ?]]; try exact Hs. apply strings_kept. exact Hs.
Qed.

(** The loop of [dictionary] over entries of strings, into a struct. *)
Lemma dictionary_loop_struct rest b ctx vfuel fields name sfs :
  forall es fuel d vals,
  (List.length es < fuel)%nat ->
  Forall entry_ok es ->
  Forall (field_fits fields sfs vals) es ->
  disallowUnknownFields d = false ->
  at_key d es rest b ->
  exists d',
    dictionary_loop (value (S vfuel)) fuel d fields (VStruct name sfs vals) ctx =
      Ok (d', VStruct name sfs (fold_left (bind_field fields) es vals), None) /\
    scan d' = closed_state [] b /\ 0 <= off d' /\ savedError d' = savedError d.
Proof.
  induction es as [|[[[kds kb] vds] vb] es' IH];
    intros fuel d vals Hfuel Hes Hfits Hdis [Hoff Hat].
  - destruct Hat as [Hop Hscan]. destruct fuel as [|fuel]; [cbn in Hfuel; lia|].
    cbn [dictionary_loop]. rewrite Hop. cbn [opcode_eqb].
    exists d. auto.
  - destruct Hat as (c0 & kds' & -> & Hop & Hscan & Hdata).
    destruct fuel as [|fuel]; [cbn in Hfuel; lia|].
    inversion Hes as [|? ? Hen Hes']; subst. destruct Hen as (Hk & HkP & Hv & HvP).
    inversion Hfits as [|? ? Hfit Hfits']; subst.
    destruct vds as [|v0 vds']; [discriminate|].
    destruct (@digit_begins c0 kds' b Hk) as (_ & Hsvk & _).
    destruct (@digit_begins v0 vds' b Hv) as (_ & _ & Hsvv & _ & Hafter & _).
    cbn [app] in Hdata.
    destruct (@string_token d [parseDictionaryKey] b c0 kds' kb v0 _ _ _
                Hscan Hsvk Hk HkP Hoff Hdata Hafter)
      as (d2 & H1 & Hop2 & H2 & Hslice & Htail); [discriminate|].
    cbn [dictionary_loop]. rewrite Hop. cbn [opcode_eqb negb].
    rewrite H1. cbn [bind]. rewrite Hop2. cbn [opcode_eqb negb]. rewrite H2. cbn [bind].
    set (d3 := set_off (set_opcode (set_scan d _) scanBeginString) _) in *.
    unfold readIndex at 2. change (data d3) with (data d).
    change (off d3) with (off d + len kds' + 1 + len kb + 1).
    rewrite Hslice. cbn [bind].
    destruct (@next_key es' rest b (closed_state [parseDictionaryValue] b) Hes')
      as (nxt & tail & s3 & op3 & Htext & Hstep & Hop3 & Hkey); [right; reflexivity|].
    rewrite Htext in Htail.
    assert (Hlast : skipn (Z.to_nat (off d3 + len vds' + 1 + len vb + 1)) (data d) = tail).
    { destruct (@string_token d3 [parseDictionaryValue] b v0 vds' vb nxt tail s3 op3
                  eq_refl Hsvv Hv HvP) as (_ & _ & _ & _ & _ & Hlast);
        [unfold d3; cbn [off set_off]; unfold len; lia|exact Htail|exact Hstep
        |exact Hop3|].
      exact Hlast. }
    assert (Hturn : exists d5,
              ('(d4, subv, plug) <- bind_target d3 fields (VStruct name sfs vals)
                                      (read_string kb);;
               '(d4, subv, e) <- value (S vfuel) d4 subv;;
               match e with
               | Some e => Ok (d4, plug subv, Some e)
               | None =>
                   let v := plug subv in
                   if opcode_eqb (opcode_ d4) scanEndDictionary then Ok (d4, v, None)
                   else dictionary_loop (value (S vfuel)) fuel (set_errorContext d4 ctx)
                          fields v ctx
               end) =
              (let v := VStruct name sfs (bind_field fields vals (c0 :: kds', kb, v0 :: vds', vb)) in
               if opcode_eqb (opcode_ d5) scanEndDictionary then Ok (d5, v, None)
               else dictionary_loop (value (S vfuel)) fuel (set_errorContext d5 ctx)
                      fields v ctx) /\
              opcode_ d5 = op3 /\ scan d5 = s3 /\ data d5 = data d /\
              off d5 = off d3 + len vds' + 1 + len vb + 1 /\
              savedError d5 = savedError d /\
              disallowUnknownFields d5 = false).
    { unfold bind_target, bind_field. unfold field_fits in Hfit.
      destruct (find_field fields (read_string kb) None) as [f|].
      - destruct Hfit as (Hq & i & Hi & Hlt & Hs). rewrite Hi. cbn [walk_index].
        destruct (nth_error vals i) as [x|] eqn:Ex; [|discriminate Hs].
        destruct x; try discriminate Hs.
        destruct (nth_error sfs i) as [sf|] eqn:Esf;
          [|apply nth_error_None in Esf; lia].
        cbn [bind]. rewrite Hq. cbn [andb bind].
        set (d4 := set_errorContext d3 _).
        rewrite (@value_string_nested X vfuel d4 [parseDictionaryValue] b v0 vds' vb nxt
                   tail s3 op3 (VString s) eq_refl eq_refl Hsvv Hv HvP);
          [|unfold d4, d3; cbn [set_errorContext off set_off]; unfold len; lia
           |exact Htail|exact Hstep|exact Hop3].
        set (d5 := set_off (set_opcode (set_scan d4 s3) op3) _).
        assert (Hstore : stringStore d5 (read_string vb) (VString s) false =
                         Ok (d5, VString (read_string vb), None)).
        { unfold stringStore. destruct vb; reflexivity. }
        rewrite Hstore. cbn [bind].
        exists d5. split; [reflexivity|]. repeat split. exact Hdis.
      - rewrite (Hdis : disallowUnknownFields d3 = false). cbn [bind].
        rewrite (@value_string_skipped vfuel d3 [parseDictionaryValue] b v0 vds' vb nxt
                   tail s3 op3 eq_refl eq_refl Hsvv Hv HvP);
          [|unfold d3; cbn [off set_off]; unfold len; lia|exact Htail|exact Hstep
           |exact Hop3].
        cbn [bind]. eexists. split; [reflexivity|]. repeat split. exact Hdis. }
    destruct Hturn as (d5 & Hturn & Hop5 & Hscan5 & Hdata5 & Hoff5 & Hsaved5 & Hdis5).
    cbn [fold_left].
    match goal with |- exists d', ?lhs = _ /\ _ =>
      match type of Hturn with ?l = _ => change lhs with l end end.
    rewrite Hturn. cbv zeta.
    assert (Hat5 : at_key (set_errorContext d5 ctx) es' rest b).
    { apply Hkey.
      - cbn [set_errorContext off]. rewrite Hoff5. unfold d3. cbn [off set_off].
        unfold len. lia.
      - exact Hop5.
      - exact Hscan5.
      - cbn [set_errorContext off data]. rewrite Hoff5, Hdata5. exact Hlast. }
    destruct (opcode_eqb (opcode_ d5) scanEndDictionary) eqn:Eend.
    + assert (es' = []) as ->.
      { destruct es' as [|[[[? ?] ?] ?] ?]; [reflexivity|].
        destruct Hat5 as (_ & c1 & k1 & _ & Hop5' & _).
        cbn [set_errorContext opcode_] in Hop5'. rewrite Hop5' in Eend. discriminate. }
      destruct Hat5 as (Hoff5' & Hop5' & Hscan5').
      exists d5. split; [reflexivity|]. split; [exact Hscan5'|]. split; [exact Hoff5'|].
      exact Hsaved5.
    + destruct (IH fuel (set_errorContext d5 ctx)
                  (bind_field fields vals (c0 :: kds', kb, v0 :: vds', vb)))
        as (d' & Hloop & Hscan' & Hoff' & Hsaved');
        [cbn in Hfuel; lia|exact Hes'
        |apply Forall_forall; intros en Hen; apply field_fits_bind;
         rewrite Forall_forall in Hfits'; exact (Hfits' en Hen)
        |exact Hdis5|exact Hat5|].
      exists d'. split; [exact Hloop|]. split; [exact Hscan'|]. split; [exact Hoff'|].
      rewrite Hsaved'. exact Hsaved5.
Qed.

(** X18: a dictionary of strings decoded into a struct.  An entry whose
    key names a field of the struct that holds a string sets that field to
    the value, as the binder reads a string; an entry whose key names no
    field is passed over; the entries take effect in the order of the
    input, and no error is returned. *)
Theorem Unmarshal_struct_of_strings (es : list entry) (rest : list byte) (name : string)
  (sfs : list (StructField gotype)) (vals : list goval) (fields : list field) :
  Forall entry_ok es ->
  typeFields (TStruct name sfs) = Ok fields ->
  Forall (field_fits fields sfs vals) es ->
  len ("d"%byte :: entries_text es ++ "e"%byte :: rest) < 2 ^ 63 - 1 ->
  Unmarshal ("d"%byte :: entries_text es ++ "e"%byte :: rest)
    (Some (VPtr (TStruct name sfs) (Some (VStruct name sfs vals)))) =
  Ok (Some (VPtr (TStruct name sfs)
              (Some (VStruct name sfs (fold_left (bind_field fields) es vals)))),
      None).
Proof.
  intros Hes Hfields Hfits Hlen.
  assert (Hvalid : Valid ("d"%byte :: entries_text es ++ "e"%byte :: rest) = Ok true).
  { apply Valid_iff_value. exists ("d"%byte :: entries_text es ++ ["e"%byte]), rest.
    split; [cbn [app]; rewrite <- app_assoc; reflexivity|].
    apply bv_dictionary, entries_grammar, Hes. }
  set (input := "d"%byte :: entries_text es ++ "e"%byte :: rest) in *.
  rewrite (@Unmarshal_begins X "d" (entries_text es ++ "e"%byte :: rest) _ _
             (open_state step_sd [parseDictionaryKey] (len input + 1) 0 [])
             scanBeginDictionary Hvalid Hlen eq_refl).
  fold input. set (b := len input + 1).
  set (d0 := begun input scanBeginDictionary (open_state step_sd [parseDictionaryKey] b 0 [])).
  unfold fuel_for.
  change (value (S (S (List.length input))) d0)
    with (value_body (value (S (List.length input))) (S (List.length input)) d0).
  unfold value_body. change (opcode_ d0) with scanBeginDictionary.
  unfold dictionary. cbn [indirect typeOf]. unfold cachedTypeFields.
  rewrite Hfields. cbn [bind].
  destruct (@next_key es rest b (open_state step_sd [parseDictionaryKey] b 0 []) Hes)
    as (nxt & tail & s3 & op3 & Htext & Hstep & Hop3 & Hkey); [left; reflexivity|].
  rewrite (@scanWhile_stops d0 [] nxt tail (open_state step_sd [parseDictionaryKey] b 0 [])
             s3 op3);
    [|unfold d0; cbn [begun off]; lia
     |unfold d0; cbn [begun off data Z.to_nat Pos.to_nat Pos.iter_op Nat.add skipn app];
      subst input; cbn [skipn]; exact Htext
     |constructor|exact Hstep|exact Hop3].
  cbn [bind]. change (len []) with 0.
  set (d1 := set_off (set_opcode (set_scan d0 s3) op3) (off d0 + 0 + 1)).
  destruct (@dictionary_loop_struct rest b (errorContext d0) (List.length input) fields
              name sfs es (S (List.length input)) d1 vals)
    as (d' & Hloop & Hscan' & Hoff' & Hsaved').
  - pose proof (entries_count es) as Hc. subst input. cbn [List.length].
    rewrite length_app. lia.
  - exact Hes.
  - exact Hfits.
  - reflexivity.
  - apply Hkey; try reflexivity.
    + unfold d1, d0. cbn [begun off set_off]. lia.
    + unfold d1, d0. cbn [begun off data set_off set_opcode set_scan].
      subst input. cbn [Z.add Pos.add Z.to_nat Pos.to_nat Pos.iter_op Nat.add skipn].
      rewrite Htext. reflexivity.
  - rewrite Hloop. cbn [bind].
    destruct (@scanNext_at_end d' b Hscan' Hoff') as (d'' & Hnext & Hsaved'').
    rewrite Hnext. cbn [bind]. rewrite Hsaved'', Hsaved'. reflexivity.
Qed.

End StructOfStrings.

(** * A list of integers decoded into a slice *)

Lemma items_text_cons ds dss (tl : list byte) :
  items_text (ds :: dss) ++ tl = "i"%byte :: ds ++ "e"%byte :: items_text dss ++ tl.
Proof.
  unfold items_text, item_text. cbn [map List.concat app].
  rewrite <- !app_assoc. reflexivity.
Qed.

(** The byte after [l] or after an element of a list of integers: the
    closing [e], or the [i] of the next element. *)
Lemma next_item dss rest st b :
  st = open_state step_sl [parseListValue] b 0 [] \/
  st = closed_state [parseListValue] b ->
  exists nxt tail s3 op3,
    items_text dss ++ "e"%byte :: rest = nxt :: tail /\
    scan_step st nxt = Ok (s3, op3) /\
    forall d, 0 <= off d -> opcode_ d = op3 -> scan d = s3 ->
              skipn (Z.to_nat (off d)) (data d) = tail -> at_item d dss rest.
Proof.
  intros Hst. destruct dss as [|ds dss'].
  - exists "e"%byte, rest, (closed_state [] b), scanEndList.
    split; [reflexivity|]. split; [destruct Hst as [-> | ->]; reflexivity|].
    intros d Hoff Hop Hscan _. split; [exact Hoff|]. exists b. auto.
  - exists "i"%byte, (ds ++ "e"%byte :: items_text dss' ++ "e"%byte :: rest),
      (open_state step_si [parseInteger; parseListValue] b 0 []), scanBeginInteger.
    split; [apply items_text_cons|].
    split; [destruct Hst as [-> | ->]; reflexivity|].
    intros d Hoff Hop Hscan Hdata. split; [exact Hoff|]. exists b. auto.
Qed.

Section ListOfIntegers.

Context {X : Externals}.

(** The elements of a list of integers, decoded one after the other into
    signed integers. *)
Lemma decode_elements_integers kd arr0 rest vfuel : forall dss ns fuel d i,
  (List.length dss < fuel)%nat ->
  Forall2 (item_ok kd) dss ns ->
  signed_kind kd = true ->
  ints_of kd arr0 ->
  at_item d dss rest ->
  exists d',
    decode_elements (value (S vfuel)) fuel d (slice_slot (TBasic kd) arr0) i =
      Ok (d', map (fun n => Some (VInt kd n)) ns, None) /\
    (exists b, scan d' = closed_state [] b) /\ 0 <= off d' /\
    savedError d' = savedError d.
Proof.
  induction dss as [|ds dss' IH]; intros ns fuel d i Hfuel Hok Hkd Harr (Hoff & b & Hat).
  - inversion Hok; subst. destruct Hat as [Hop Hscan].
    destruct fuel as [|fuel]; [cbn in Hfuel; lia|].
    cbn [decode_elements map]. rewrite Hop. cbn [opcode_eqb].
    exists d. split; [reflexivity|]. split; [exists b; exact Hscan|]. auto.
  - inversion Hok as [|? n ? ns' (Htext & HP & Hfit) Hok']; subst.
    destruct Hat as (Hop & Hscan & Hdata).
    destruct fuel as [|fuel]; [cbn in Hfuel; lia|].
    cbn [decode_elements map]. rewrite Hop. cbn [opcode_eqb begins_value negb].
    assert (Hslot : exists old, slice_slot (TBasic kd) arr0 i = Some (VInt kd old)).
    { unfold slice_slot. destruct (nth_in_or_default i arr0 (zero (TBasic kd))) as [Hin| ->].
      - unfold ints_of in Harr. rewrite Forall_forall in Harr.
        destruct (Harr _ Hin) as (old & ->). eauto.
      - exists 0. destruct kd; try discriminate Hkd; reflexivity. }
    destruct Hslot as (old & ->).
    rewrite (@value_integer_text X vfuel d [parseListValue] b ds
               (items_text dss' ++ "e"%byte :: rest) (VInt kd old) Hop Hscan Hoff Hdata Htext).
    set (dA := mkDecodeState _ _ _ _ _ _ _ _).
    assert (Hstore : integerStore dA ds (VInt kd old) false = Ok (dA, VInt kd n, None)).
    { unfold integerStore. destruct ds as [|c ds]; [discriminate Htext|].
      cbn [indirect]. rewrite (int_text_first _ _ Htext), HP, Hfit. reflexivity. }
    rewrite Hstore. cbn [bind].
    set (b2 := wrap_int64 (wrap_int64 (b + 1) + 1)).
    destruct (@next_item dss' rest (closed_state [parseListValue] b2) b2)
      as (nxt & tail & s3 & op3 & Htail & Hstep & Hnext); [right; reflexivity|].
    assert (HdataA : skipn (Z.to_nat (off dA)) (data dA) = nxt :: tail).
    { unfold dA. cbn [off data]. rewrite <- Htail.
      replace (Z.to_nat (off d + len ds + 1))
        with (List.length (ds ++ ["e"%byte]) + Z.to_nat (off d))%nat
        by (unfold len; rewrite length_app; cbn [List.length]; lia).
      rewrite <- skipn_skipn, Hdata.
      replace (ds ++ "e"%byte :: items_text dss' ++ "e"%byte :: rest)
        with ((ds ++ ["e"%byte]) ++ items_text dss' ++ "e"%byte :: rest)
        by (rewrite <- app_assoc; reflexivity).
      rewrite skipn_app, Nat.sub_diag, skipn_all. reflexivity. }
    destruct (@scanNext_step dA nxt tail s3 op3) as [HnextA HtailA];
      [unfold dA; cbn [off]; unfold len; lia|exact HdataA|exact Hstep|].
    rewrite HnextA. cbn [bind].
    set (d5 := set_off (set_opcode (set_scan dA s3) op3) (off dA + 1)).
    destruct (IH ns' fuel d5 (S i)) as (d' & Hloop & Hscan' & Hoff' & Hsaved');
      [cbn in Hfuel; lia|exact Hok'|exact Hkd|exact Harr| |].
    { apply Hnext; try reflexivity.
      - unfold d5, dA. cbn [off set_off]. unfold len. lia.
      - exact HtailA. }
    rewrite Hloop. cbn [bind].
    exists d'. split; [reflexivity|]. split; [exact Hscan'|]. split; [exact Hoff'|].
    rewrite Hsaved'. reflexivity.
Qed.

Lemma items_grammar kd dss ns : Forall2 (item_ok kd) dss ns -> bvalues (items_text dss).
Proof.
  induction 1 as [|ds n dss' ns' (Htext & _) _ IH]; [apply bvs_nil|].
  unfold items_text. cbn [map List.concat]. fold (items_text dss').
  apply bvs_cons; [apply bv_integer; exact Htext|exact IH].
Qed.

Lemma items_count dss : (List.length dss <= List.length (items_text dss))%nat.
Proof.
  induction dss as [|ds dss' IH]; [cbn; lia|].
  unfold items_text, item_text in *. cbn [map List.concat List.length].
  rewrite length_app. cbn [List.length]. lia.
Qed.

Lemma stored_all e arr0 (f : Z -> goval) ns : forall i,
  stored_elems (slice_slot e arr0) i (map (fun n => Some (f n)) ns) = map f ns.
Proof.
  induction ns as [|n ns IH]; intros i; cbn [map stored_elems]; [reflexivity|].
  rewrite IH. reflexivity.
Qed.

(** X19: a list of integers decoded into a slice of signed integers that
    can hold each of them: the slice comes back with as many elements as
    the list has, the integers in the order of the list, whatever the
    slice held and however short it was; what follows the list is not
    looked at, and no error is returned. *)
Theorem Unmarshal_list_of_integers (dss : list (list byte)) (ns : list Z)
  (rest : list byte) (kd : reflect.Kind) (n : nat) (arr : list goval) :
  signed_kind kd = true ->
  Forall2 (item_ok kd) dss ns ->
  (n <= List.length arr)%nat ->
  ints_of kd arr ->
  len ("l"%byte :: items_text dss ++ "e"%byte :: rest) < 2 ^ 63 - 1 ->
  exists arr',
    Unmarshal ("l"%byte :: items_text dss ++ "e"%byte :: rest)
      (Some (VPtr (TSlice (TBasic kd)) (Some (VSlice (TBasic kd) n arr)))) =
      Ok (Some (VPtr (TSlice (TBasic kd))
                  (Some (VSlice (TBasic kd) (List.length ns) arr'))),
          None) /\
    firstn (List.length ns) arr' = map (VInt kd) ns.
Proof.
  intros Hkd Hok Hn Harr Hlen.
  assert (Hvalid : Valid ("l"%byte :: items_text dss ++ "e"%byte :: rest) = Ok true).
  { apply Valid_iff_value. exists ("l"%byte :: items_text dss ++ ["e"%byte]), rest.
    split; [cbn [app]; rewrite <- app_assoc; reflexivity|].
    apply bv_list. exact (items_grammar Hok). }
  set (input := "l"%byte :: items_text dss ++ "e"%byte :: rest) in *.
  set (b := len input + 1).
  set (d0 := begun input scanBeginList (open_state step_sl [parseListValue] b 0 [])).
  destruct (@next_item dss rest (open_state step_sl [parseListValue] (wrap_int64 (b + 1)) 0 [])
              (wrap_int64 (b + 1)))
    as (nxt & tail & s3 & op3 & Htext & Hstep & Hnext); [left; reflexivity|].
  destruct (@scanNext_step d0 nxt tail s3 op3) as [Hnext0 Htail0];
    [unfold d0; cbn [begun off]; lia
    |unfold d0; cbn [begun off data Z.to_nat Pos.to_nat Pos.iter_op Nat.add];
     subst input; cbn [skipn]; exact Htext
    |exact Hstep|].
  set (d1 := set_off (set_opcode (set_scan d0 s3) op3) (off d0 + 1)) in *.
  destruct (@decode_elements_integers kd arr rest (List.length input) dss ns
              (S (List.length input)) d1 0%nat)
    as (d2 & Hdec & (b2 & Hscan2) & Hoff2 & Hsaved2).
  { pose proof (items_count dss) as Hc. subst input. cbn [List.length].
    rewrite length_app. lia. }
  { exact Hok. }
  { exact Hkd. }
  { exact Harr. }
  { apply Hnext; try reflexivity.
    - unfold d1, d0. cbn [begun off set_off]. lia.
    - exact Htail0. }
  destruct (@list_loop_slice (value (S (List.length input))) (TBasic kd) arr
              (S (List.length input)) d1 n arr 0%nat d2 _ (Nat.le_0_l n) Hn
              (fun j _ => eq_refl) Hdec)
    as (arr' & Hloop & Hcap & _ & Hnth).
  rewrite length_map in Hloop, Hcap, Hnth. cbn [Nat.add] in Hloop, Hnth.
  rewrite stored_all in Hnth.
  assert (Hfirst : firstn (List.length ns) arr' = map (VInt kd) ns).
  { apply firstn_by_nth_error; [apply length_map| |exact Hnth].
    rewrite Hcap. pose proof (@cap_after_ge (List.length ns) (List.length arr) 0%nat).
    lia. }
  assert (Hresult :
    Unmarshal input (Some (VPtr (TSlice (TBasic kd)) (Some (VSlice (TBasic kd) n arr)))) =
    Ok (Some (VPtr (TSlice (TBasic kd))
                (Some (list_finish (VSlice (TBasic kd) (Nat.max n (List.length ns)) arr')
                         (List.length ns)))), None)).
  { rewrite (@Unmarshal_begins X "l" (items_text dss ++ "e"%byte :: rest) _ _
               (open_state step_sl [parseListValue] (len input + 1) 0 [])
               scanBeginList Hvalid Hlen eq_refl).
    fold input. fold b. fold d0. unfold fuel_for.
    change (value (S (S (List.length input))) d0)
      with (value_body (value (S (List.length input))) (S (List.length input)) d0).
    unfold value_body. change (opcode_ d0) with scanBeginList.
    unfold list_. cbn [indirect]. rewrite Hnext0. cbn [bind]. fold d1.
    rewrite Hloop. cbn [bind].
    destruct (@scanNext_at_end d2 b2 Hscan2 Hoff2) as (d3 & Hnext2 & Hsaved3).
    rewrite Hnext2. cbn [bind]. rewrite Hsaved3, Hsaved2. reflexivity. }
  rewrite Hresult. unfold list_finish. cbn [seq_Len].
  destruct (List.length ns) as [|L] eqn:EL.
  - exists []. destruct ns; [|discriminate EL].
    destruct (Nat.ltb 0 (Nat.max n 0)); split; reflexivity.
  - exists arr'. split; [|exact Hfirst].
    destruct (Nat.ltb (S L) (Nat.max n (S L))) eqn:E; [reflexivity|].
    apply Nat.ltb_ge in E. replace (Nat.max n (S L)) with (S L) by lia. reflexivity.
Qed.

End ListOfIntegers.
(** * The first error of a decode *)



Section Stores.

Context {X : Externals}.




End Stores.





Section Skipped.

Context {X : Externals}.


End Skipped.

Section MemberValues.

Context {X : Externals}.


End MemberValues.








Section StructOfPlain.

Context {X : Externals}.


End StructOfPlain.

Section FirstError.

Context {X : Externals}.


End FirstError.




(** * The decoder on a stream: refills and the end of the stream *)

Lemma set_bytes_same s : set_bytes s (bytes s) = s.
Proof. destruct s. reflexivity. Qed.

(** The loop of [readValue] over buffered bytes that end inside a value
    comes to the end of the buffer, the scanner inside the value. *)
Lemma scan_buffered_partial a : forall s v3 s' scanp i,
  run 0 s (a ++ v3) s' -> v3 <> [] ->
  exists s1,
    scan_buffered a s scanp i = Ok (s1, BufferEnds) /\
    bytes s1 = count_bytes (List.length a) (bytes s) /\
    run 0 s1 v3 (set_bytes s' (bytes s1)).
Proof.
  induction a as [|c a IH]; intros s v3 s' scanp i H Hne.
  - exists s. cbn [app scan_buffered List.length count_bytes Nat.iter] in *.
    split; [reflexivity|]. split; [reflexivity|].
    rewrite <- (set_bytes_same s) at 1. apply run_set_bytes. exact H.
  - cbn [app] in H.
    inversion H as [|? ? s1 op ? ? Hstep Hop Hend Hdeep Hrun]; subst.
    cbn [scan_buffered].
    rewrite (@scan_step_set_bytes _ _ _ _ (wrap_int64 (bytes s + 1)) Hstep Hop). cbn [bind].
    assert (Hdeep' : (0 < List.length (parseState s1))%nat).
    { apply Hdeep. destruct a; [cbn [app]; exact Hne|discriminate]. }
    assert (Hps : parseState (set_bytes s1 (wrap_int64 (bytes s + 1))) = parseState s1)
      by reflexivity.
    rewrite Hps.
    destruct (parseState s1) as [|x ps] eqn:E; [cbn in Hdeep'; lia|].
    destruct (IH (set_bytes s1 (wrap_int64 (bytes s + 1))) v3
                (set_bytes s' (wrap_int64 (bytes s + 1))) scanp (i + 1))
      as (s2 & Hs2 & Hb & Hr); [apply run_set_bytes; exact Hrun|exact Hne|].
    exists s2. cbn [List.length]. rewrite count_bytes_S.
    rewrite set_bytes_twice in Hr. cbn [bytes set_bytes] in Hb.
    split; [|split; [exact Hb|exact Hr]].
    destruct op; try (now elim Hop); try (now elim Hend); exact Hs2.
Qed.

Section Streaming.

Context {X : Externals}.
Variable R : Type.
Variable Read : R -> nat -> list byte * option error * R.
Variable holds : R -> list byte -> Prop.
Hypothesis Hread : delivers Read holds.

(** [refill] on a source that delivers: the unread bytes move to the front
    of the buffer and what was read follows them. *)
Lemma refill_delivers (dec : Decoder R) (c : list byte) :
  holds (dec_r dec) c ->
  0 <= dec_scanp dec <= len (dec_buf dec) ->
  (List.length (dec_buf dec) <= dec_cap dec)%nat ->
  exists chunk c' e r' cap' scanned',
    refill Read dec =
      Ok (mkDecoder r' (unread dec ++ chunk) cap' (dec_d dec) 0 scanned' (dec_scan dec)
            (dec_err dec) (dec_tokenState dec) (dec_tokenStack dec), e) /\
    c = chunk ++ c' /\ holds r' c' /\
    (List.length (unread dec ++ chunk) <= cap')%nat /\
    match c with
    | [] => chunk = [] /\ e = Some io_EOF
    | _ => chunk <> [] /\ e = None
    end.
Proof.
  intros Hc Hp Hcap. unfold refill.
  set (dec1 := if 0 <? dec_scanp dec then _ else dec).
  assert (H1 : dec_buf dec1 = unread dec /\ dec_scanp dec1 = 0 /\
               dec_cap dec1 = dec_cap dec /\ dec_r dec1 = dec_r dec /\
               dec_d dec1 = dec_d dec /\ dec_scan dec1 = dec_scan dec /\
               dec_err dec1 = dec_err dec /\ dec_tokenState dec1 = dec_tokenState dec /\
               dec_tokenStack dec1 = dec_tokenStack dec).
  { subst dec1. destruct (0 <? dec_scanp dec) eqn:E.
    - repeat split.
    - apply Z.ltb_ge in E. assert (E0 : dec_scanp dec = 0) by lia.
      unfold unread. rewrite E0. repeat split. }
  destruct H1 as (Hbuf & Hsp & Hcap1 & Hr1 & Hd1 & Hs1 & He1 & Ht1 & Hk1).
  assert (Hlen1 : (List.length (dec_buf dec1) <= dec_cap dec1)%nat).
  { rewrite Hbuf, Hcap1. unfold unread. rewrite length_skipn. lia. }
  set (dec2 := if Nat.ltb (dec_cap dec1 - List.length (dec_buf dec1)) minRead then _ else dec1).
  assert (H2 : dec_buf dec2 = unread dec /\ dec_scanp dec2 = 0 /\
               dec_r dec2 = dec_r dec /\
               dec_d dec2 = dec_d dec /\ dec_scan dec2 = dec_scan dec /\
               dec_err dec2 = dec_err dec /\ dec_tokenState dec2 = dec_tokenState dec /\
               dec_tokenStack dec2 = dec_tokenStack dec /\
               (0 < dec_cap dec2 - List.length (dec_buf dec2))%nat).
  { subst dec2. unfold minRead in *.
    destruct (Nat.ltb (dec_cap dec1 - List.length (dec_buf dec1)) 512) eqn:E.
    - cbn [with_buf dec_buf dec_scanp dec_r dec_d dec_scan dec_err dec_tokenState
           dec_tokenStack dec_cap].
      repeat split; try assumption. lia.
    - apply Nat.ltb_ge in E. repeat split; try assumption. lia. }
  destruct H2 as (Hbuf2 & Hsp2 & Hr2 & Hd2 & Hs2 & He2 & Ht2 & Hk2 & Hroom).
  rewrite <- Hr2 in Hc.
  pose proof (Hread Hc Hroom) as Hdel.
  destruct c as [|c0 c].
  - destruct Hdel as (r' & -> & Hr').
    replace (Nat.ltb (dec_cap (with_r dec2 r'))
               (List.length (dec_buf (with_r dec2 r')) + List.length (@nil byte)))
      with false by (symmetry; apply Nat.ltb_ge; cbn; lia).
    exists [], [], (Some io_EOF), r', (dec_cap dec2), (dec_scanned dec2).
    split; [|split; [reflexivity|split; [exact Hr'|split; [|split; reflexivity]]]].
    + unfold with_buf, with_r.
      cbn [dec_buf dec_scanp dec_r dec_d dec_scan dec_err dec_tokenState dec_tokenStack
           dec_cap dec_scanned].
      rewrite Hbuf2, Hsp2, Hd2, Hs2, He2, Ht2, Hk2. reflexivity.
    + rewrite app_nil_r, <- Hbuf2. lia.
  - destruct Hdel as (chunk & c' & r' & -> & Hsplit & Hne & Hlen & Hr').
    replace (Nat.ltb (dec_cap (with_r dec2 r'))
               (List.length (dec_buf (with_r dec2 r')) + List.length chunk))
      with false by (symmetry; apply Nat.ltb_ge; cbn; lia).
    exists chunk, c', None, r', (dec_cap dec2), (dec_scanned dec2).
    split; [|split; [exact Hsplit|split; [exact Hr'|split; [|split; [exact Hne|reflexivity]]]]].
    + unfold with_buf, with_r.
      cbn [dec_buf dec_scanp dec_r dec_d dec_scan dec_err dec_tokenState dec_tokenStack
           dec_cap dec_scanned].
      rewrite Hbuf2, Hsp2, Hd2, Hs2, He2, Ht2, Hk2. reflexivity.
    + rewrite length_app, <- Hbuf2. lia.
Qed.

Lemma count_bytes_add a : forall b x,
  count_bytes (a + b) x = count_bytes b (count_bytes a x).
Proof.
  induction a as [|a IH]; intros b x; [reflexivity|].
  cbn [Nat.add]. rewrite !count_bytes_S. apply IH.
Qed.

(** The loop of [readValue] on a source that delivers the rest of a value:
    it refills until the buffer holds the value, and returns its length. *)
Lemma readValue_loop_stream (fuel : nat) : forall (dec : Decoder R)
  (done new c v2 rest : list byte) (s_end : scanner),
  (List.length v2 - List.length new < fuel)%nat ->
  holds (dec_r dec) c ->
  0 <= dec_scanp dec <= len (dec_buf dec) ->
  unread dec = done ++ new ->
  (List.length (dec_buf dec) <= dec_cap dec)%nat ->
  new ++ c = v2 ++ rest -> v2 <> [] ->
  run 0 (dec_scan dec) v2 s_end -> parseState s_end = [] ->
  exists r' buf' cap' scanned' scanp' rest1 c1,
    readValue_loop Read fuel dec (dec_scanp dec + len done) None =
      Ok (mkDecoder r' buf' cap' (dec_d dec) scanp' scanned'
            (set_bytes s_end (count_bytes (List.length v2) (bytes (dec_scan dec))))
            (dec_err dec) (dec_tokenState dec) (dec_tokenStack dec),
          len done + len v2, None) /\
    0 <= scanp' <= len buf' /\
    skipn (Z.to_nat scanp') buf' = done ++ v2 ++ rest1 /\
    rest1 ++ c1 = rest /\ holds r' c1 /\ (List.length buf' <= cap')%nat.
Proof.
  induction fuel as [|fuel IH];
    intros dec done new c v2 rest s_end Hfuel Hc Hp Hun Hcap Hsplit Hne Hrun Hstack;
    [lia|].
  cbn [readValue_loop].
  assert (Hnew : skipn (Z.to_nat (dec_scanp dec + len done)) (dec_buf dec) = new).
  { replace (Z.to_nat (dec_scanp dec + len done))
      with (List.length done + Z.to_nat (dec_scanp dec))%nat by (unfold len; lia).
    rewrite <- skipn_skipn. fold (unread dec). rewrite Hun.
    rewrite skipn_app, Nat.sub_diag, skipn_all. reflexivity. }
  rewrite Hnew.
  assert (Hlen : len (dec_buf dec) - dec_scanp dec = len (done ++ new)).
  { rewrite <- Hun. unfold unread, len. rewrite length_skipn. unfold len in Hp. lia. }
  assert (Hcase : (exists l, new = v2 ++ l /\ rest = l ++ c) \/
                  (exists l, l <> [] /\ v2 = new ++ l /\ c = l ++ rest)).
  { apply app_eq_app in Hsplit. destruct Hsplit as (l & [[H1 H2]|[H1 H2]]).
    - left. exists l. auto.
    - destruct l as [|x l].
      + left. exists []. rewrite app_nil_r in H1. cbn [app] in H2. subst.
        rewrite app_nil_r. auto.
      + right. exists (x :: l). split; [discriminate|auto]. }
  destruct Hcase as [(l & -> & ->)|(l & Hl & -> & ->)].
  - rewrite (scan_buffered_run l (dec_scanp dec + len done) 0 Hrun Hne Hstack).
    cbn [bind]. cbn [with_scan dec_scanp dec_buf].
    exists (dec_r dec), (dec_buf dec), (dec_cap dec), (dec_scanned dec), (dec_scanp dec), l, c.
    split; [|split; [exact Hp|split; [exact Hun|split; [reflexivity|split; assumption]]]].
    do 3 f_equal. lia.
  - destruct (@scan_buffered_partial new (dec_scan dec) l s_end
                (dec_scanp dec + len done) 0 Hrun Hl) as (s1 & -> & Hb & Hr).
    cbn [bind].
    destruct (@refill_delivers (with_scan dec s1) (l ++ rest))
      as (chunk & c' & e & r' & cap' & scanned' & Hrefill & Hc' & Hholds & Hcap' & He);
      [exact Hc|exact Hp|exact Hcap|].
    destruct l as [|x l]; [now elim Hl|]. cbn [app] in He. destruct He as [Hchunk ->].
    rewrite Hrefill. cbn [bind]. cbn [with_scan dec_buf dec_scanp].
    change (unread (with_scan dec s1)) with (unread dec) in *.
    cbn [with_scan dec_d dec_err dec_tokenState dec_tokenStack dec_scan] in *.
    rewrite Hlen.
    set (dec' := mkDecoder r' (unread dec ++ chunk) cap' (dec_d dec) 0 scanned' s1
                   (dec_err dec) (dec_tokenState dec) (dec_tokenStack dec)) in *.
    destruct (IH dec' (done ++ new) chunk c' (x :: l) rest (set_bytes s_end (bytes s1)))
      as (r2 & buf2 & cap2 & scanned2 & scanp2 & rest1 & c1 & Hloop & Hp2 & Hbuf2 & Hrest &
          Hholds2 & Hcap2).
    + assert (0 < List.length chunk)%nat by (destruct chunk; [now elim Hchunk|cbn; lia]).
      rewrite length_app in Hfuel. cbn [List.length] in Hfuel |- *. lia.
    + exact Hholds.
    + cbn [dec' dec_scanp dec_buf]. unfold len. lia.
    + unfold unread at 1. cbn [dec' dec_scanp dec_buf Z.to_nat skipn].
      rewrite Hun. reflexivity.
    + exact Hcap'.
    + symmetry. exact Hc'.
    + discriminate.
    + exact Hr.
    + exact Hstack.
    + exists r2, buf2, cap2, scanned2, scanp2, rest1, c1.
      cbn [dec' dec_scanp dec_d dec_err dec_tokenState dec_tokenStack dec_scan] in Hloop.
      rewrite Hloop.
      split; [|split; [exact Hp2|split; [|split; [exact Hrest|split; assumption]]]].
      * rewrite set_bytes_twice, Hb, <- count_bytes_add, <- length_app.
        do 3 f_equal. unfold len. rewrite !length_app. lia.
      * rewrite Hbuf2, <- !app_assoc. reflexivity.
Qed.

(** [unmarshal] on no input, with a scanner that has counted no byte. *)
Lemma unmarshal_empty (fuel : nat) (d : decodeState) (t : gotype) (y : goval) :
  bytes (scan d) = 0 ->
  exists d',
    unmarshal fuel (init d []) (Some (VPtr t (Some y))) =
      Ok (d', Some (VPtr t (Some y)), Some io_EOF).
Proof.
  intros Hd. destruct d as [dt o op sc ec sv un du]. destruct sc.
  cbn in Hd. subst. eexists. reflexivity.
Qed.

(** X12: [Decode] on a stream.  When the unread bytes of the buffer and
    the bytes the source has yet to deliver begin with a value, [Decode]
    refills the buffer as often as it takes, hands [unmarshal] that value
    alone, and leaves a decoder that is ready for the next call, with
    everything after the value still unread or still in the source. *)
Theorem Decode_stream (fuel : nat) (dec : Decoder R) (c v rest : list byte)
  (dest : option goval) :
  ready dec ->
  holds (dec_r dec) c ->
  unread dec ++ c = v ++ rest ->
  bvalue v ->
  (List.length v < fuel)%nat ->
  exists dec1 c1,
    Decode Read fuel dec dest =
      ('(d, x, e) <- unmarshal (fuel_for v) (init (dec_d dec) v) dest;;
       Ok (with_d dec1 d, x, e)) /\
    forall d,
      ready (with_d dec1 d) /\ holds (dec_r (with_d dec1 d)) c1 /\
      unread (with_d dec1 d) ++ c1 = rest /\
      bytes (dec_scan (with_d dec1 d)) =
        count_bytes (List.length v) (bytes (dec_scan dec)).
Proof.
  intros (Herr & Htok & Hp & Hcap & Hstr) Hc Hsplit Hv Hfuel.
  destruct (top_value_run (bytes (dec_scan dec)) Hv) as [Hne Hrun].
  assert (Hreset : reset (dec_scan dec) = open_state step_sv [] (bytes (dec_scan dec)) 0 []).
  { unfold reset, open_state. destruct (dec_scan dec). cbn in *. subst. reflexivity. }
  destruct (@readValue_loop_stream fuel (with_scan dec (reset (dec_scan dec)))
              [] (unread dec) c v rest (closed_state [] (bytes (dec_scan dec))))
    as (r' & buf' & cap' & scanned' & scanp' & rest1 & c1 & Hloop & Hp' & Hbuf' & Hrest &
        Hholds & Hcap');
    [lia|exact Hc|exact Hp|reflexivity|exact Hcap|exact Hsplit|exact Hne
    |cbn [with_scan dec_scan]; rewrite Hreset; exact Hrun|reflexivity|].
  cbn [with_scan dec_scanp dec_d dec_err dec_tokenState dec_tokenStack dec_scan app]
    in Hloop, Hbuf'.
  rewrite Hreset in Hloop. cbn [bytes open_state] in Hloop.
  change (len []) with 0 in Hloop. rewrite Z.add_0_r, Z.add_0_l in Hloop.
  set (scan' := set_bytes (closed_state [] (bytes (dec_scan dec)))
                  (count_bytes (List.length v) (bytes (dec_scan dec)))) in *.
  exists (mkDecoder r' buf' cap' (dec_d dec) (scanp' + len v) scanned' scan' None
            (dec_tokenState dec) (dec_tokenStack dec)), c1.
  assert (Hlen : len buf' - scanp' = len v + len rest1).
  { pose proof (f_equal (@List.length byte) Hbuf') as E.
    rewrite length_skipn, length_app in E. unfold len in *. lia. }
  split; [|intros d0; split; [|split; [exact Hholds|split; [|reflexivity]]]].
  - unfold Decode, readValue. rewrite Herr. cbn [tokenPrepareForDecode]. rewrite Htok.
    cbn [negb]. rewrite Hreset. cbn [with_scan dec_scanp]. rewrite Hloop.
    cbn [bind dec_buf dec_scanp].
    rewrite (@skipn_bytes_slice buf' v rest1 scanp' (proj1 Hp') Hbuf' Hne).
    cbn [bind]. cbn [with_d with_scanp dec_d dec_r dec_buf dec_cap dec_scanp dec_scanned
                     dec_scan dec_err dec_tokenState dec_tokenStack].
    destruct (unmarshal _ _ _) as [[[d x] e]| |]; cbn [bind]; [|reflexivity..].
    unfold tokenValueEnd, with_d. cbn. rewrite Herr. reflexivity.
  - unfold ready, tokenValueAllowed, with_d in *.
    cbn [dec_err dec_tokenState dec_scanp dec_buf dec_cap dec_scan].
    split; [reflexivity|]. split; [exact Htok|]. split; [unfold len in *; lia|].
    split; [exact Hcap'|]. reflexivity.
  - unfold unread, with_d. cbn [dec_scanp dec_buf].
    replace (Z.to_nat (scanp' + len v)) with (List.length v + Z.to_nat scanp')%nat
      by (unfold len; lia).
    rewrite <- skipn_skipn, Hbuf', skipn_app, Nat.sub_diag, skipn_all. exact Hrest.
Qed.

(** X13: [Decode] at the end of a stream.  With nothing unread and a
    source that has nothing left, a decoder whose scanners have counted no
    byte yet reports [io.EOF] and holds no error; one whose scanner has
    counted bytes, as it has after any value, reports
    [io.ErrUnexpectedEOF] and keeps it. *)
Theorem Decode_end_of_stream (fuel : nat) (dec : Decoder R) (t : gotype) (y : goval) :
  ready dec ->
  holds (dec_r dec) [] ->
  unread dec = [] ->
  (bytes (dec_scan dec) = 0 -> bytes (scan (dec_d dec)) = 0) ->
  exists dec1,
    Decode Read (S (S fuel)) dec (Some (VPtr t (Some y))) =
      Ok (dec1, Some (VPtr t (Some y)),
          Some (if bytes (dec_scan dec) =? 0 then io_EOF else io_ErrUnexpectedEOF)) /\
    dec_err dec1 = (if bytes (dec_scan dec) =? 0 then None else Some io_ErrUnexpectedEOF).
Proof.
  intros (Herr & Htok & Hp & Hcap & Hstr) Hc Hun Hd.
  unfold Decode, readValue. rewrite Herr. cbn [tokenPrepareForDecode]. rewrite Htok.
  cbn [negb]. cbn [readValue_loop with_scan dec_scanp dec_buf dec_scan].
  fold (unread dec). rewrite Hun. cbn [scan_buffered bind].
  destruct (@refill_delivers (with_scan dec (reset (dec_scan dec))) [])
    as (chunk & c' & e & r' & cap' & scanned' & Hrefill & Hc' & Hholds & Hcap' & -> & ->);
    [exact Hc|exact Hp|exact Hcap|].
  unfold with_scan in Hrefill |- *.
  cbn [dec_r dec_buf dec_cap dec_d dec_scanp dec_scanned dec_scan dec_err dec_tokenState
       dec_tokenStack] in Hrefill |- *.
  rewrite Hrefill. cbn [bind dec_scanp dec_buf].
  change (unread _) with (unread dec). rewrite Hun. cbn [app skipn].
  replace (Z.to_nat (0 + (len (dec_buf dec) - dec_scanp dec))) with 0%nat.
  2:{ pose proof (f_equal (@List.length byte) Hun) as E. unfold unread in E.
      rewrite length_skipn in E. cbn [List.length] in E. unfold len in *. lia. }
  cbn [skipn scan_buffered bind dec_scan].
  assert (Hb : bytes (reset (dec_scan dec)) = bytes (dec_scan dec))
    by (destruct (dec_scan dec); reflexivity).
  rewrite Hb.
  destruct (bytes (dec_scan dec) =? 0) eqn:E.
  - cbn -[unmarshal bytes_slice init fuel_for Z.add Z.sub].
    change (bytes_slice [] 0 (0 + (0 - 0))) with (@Ok (list byte) []). cbn [bind].
    apply Z.eqb_eq in E.
    destruct (@unmarshal_empty (fuel_for []) (dec_d dec) t y (Hd E)) as (d' & ->).
    cbn [bind]. eexists. split; [reflexivity|]. cbn. exact Herr.
  - eexists. split; [reflexivity|]. reflexivity.
Qed.

End Streaming.

(** * The field a key names, and the order of the fields *)

Lemma find_field_from (fields : list field) (key : list byte) : forall acc,
  find_field fields key acc =
  match find (fun ff => bytes_eqb (nameBytes ff) key) fields with
  | Some f => Some f
  | None =>
      match acc with
      | Some a => Some a
      | None => find (fun ff => equalFold ff (nameBytes ff) key) fields
      end
  end.
Proof.
  induction fields as [|ff rest IH]; intros acc; cbn [find_field find].
  - destruct acc; reflexivity.
  - destruct (bytes_eqb (nameBytes ff) key); [reflexivity|].
    destruct acc as [a|]; [apply IH|].
    destruct (equalFold ff (nameBytes ff) key); rewrite IH; reflexivity.
Qed.

(** X14: the field of a struct that a dictionary key selects is the first
    field whose name is the key byte for byte, wherever it stands among the
    fields; only when there is none, the first field whose name matches the
    key under folding; and none when no name matches either way. *)
Theorem find_field_exact_first (fields : list field) (key : list byte) :
  find_field fields key None =
  match find (fun ff => bytes_eqb (nameBytes ff) key) fields with
  | Some f => Some f
  | None => find (fun ff => equalFold ff (nameBytes ff) key) fields
  end.
Proof. exact (find_field_from fields key None). Qed.

(** X15: the fields [typeFields] returns for a struct type are in the order
    of their index paths, that is in the order of declaration, the fields
    of an embedded struct in the place of the embedding: no field comes
    after one that its index path is before. *)
Theorem typeFields_index_order {X : Externals} (n : string)
  (sfs : list (StructField gotype)) :
  well_kinded (TStruct n sfs) = true ->
  exists out,
    typeFields (TStruct n sfs) = Ok out /\
    StronglySorted (fun f g => index_less (index g) (index f) = false) out.
Proof.
  intros Hw. destruct (candidate_fields_total n sfs Hw) as (cands & Hc).
  destruct (resolve_fields_rule cands) as (out & Hout & _ & _ & Hs).
  exists out. split; [unfold typeFields; rewrite Hc; exact Hout|].
  clear Hout. induction Hs as [|f l Hl IH Hall]; [constructor|].
  constructor; [exact IH|].
  apply Forall_forall. intros g Hg. rewrite Forall_forall in Hall.
  specialize (Hall g Hg). unfold not_after, icompare_fields in Hall.
  destruct (index_less (index g) (index f)) eqn:E; [|reflexivity].
  apply index_less_icompare in E.
  rewrite (cmp_antisym icompare_order) in Hall. rewrite E in Hall. now elim Hall.
Qed.

(** * The index paths of the fields *)


Section Paths.

Context {X : Externals}.
Variable root : gotype.






End Paths.


(** * The theorems above at concrete inputs *)

(** The syntax error of [i1x]: the [x], third byte of the input. *)
Lemma syntax_error_position_witness :
  len (bytes_of "i1x") < 2 ^ 63 /\
  exists pre post, bytes_of "i1x" = pre ++ "x"%byte :: post /\ 3 = len pre + 1.
Proof.
  split; [reflexivity|].
  refine (@syntax_error_position (bytes_of "i1x") _
            (SyntaxError (InvalidCharacter "x"%byte _) 3) eq_refl _).
  vm_compute. reflexivity.
Defined.

(** The error of [i1x] is the error of [i1xe]. *)
Lemma scan_error_is_final_witness :
  exists s e,
    checkValid (bytes_of "i1x") zero_scanner = Ok (s, Some e) /\
    checkValid (bytes_of "i1x" ++ bytes_of "e") zero_scanner = Ok (s, Some e) /\
    Valid (bytes_of "i1x" ++ bytes_of "e") = Ok false.
Proof.
  eexists _, (SyntaxError (InvalidCharacter "x"%byte _) 3).
  split; [vm_compute; reflexivity|].
  apply scan_error_is_final; [vm_compute; reflexivity|].
  intros o. discriminate.
Defined.

(** A decoder whose buffer holds [i1ei2e] decodes [i1e] and leaves [i2e]. *)
Lemma Decode_frames_value_witness :
  let dec := mkDecoder (@nil byte) (bytes_of "i1ei2e") 512 zero_decodeState 0 0
               zero_scanner None 0 [] in
  let dest := Some (VPtr (TBasic reflect.Int) (Some (VInt reflect.Int 0))) in
  readValue bytesReader_Read 1 dec = Ok (with_scan dec (closed_state [] 3), 3, None) /\
  Decode bytesReader_Read 1 dec dest =
    ('(d, x, e) <- unmarshal (fuel_for (bytes_of "i1e"))
                     (init zero_decodeState (bytes_of "i1e")) dest;;
     Ok (mkDecoder (@nil byte) (bytes_of "i1ei2e") 512 d 3 0 (closed_state [] 3) None 0 [],
         x, e)).
Proof.
  intros dec dest.
  apply (@Decode_frames_value stdExternals (list byte) bytesReader_Read 0 dec
           (bytes_of "i1e") (bytes_of "i2e") dest);
    try reflexivity.
  apply (bv_integer (bytes_of "1")). reflexivity.
Defined.

(** [skip] after the [l] of [li1eei2e] stops before [i2e]. *)
Lemma skip_consumes_value_witness :
  let d := begun (bytes_of "li1eei2e") scanBeginList
             (open_state step_sl [parseListValue] 1 0 []) in
  exists op',
    skip d = Ok (set_opcode (set_off (set_scan d (closed_state [] 1)) (1 + 4)) op').
Proof.
  intros d.
  apply (@skip_consumes_value d step_sv [] 1 "l"%byte (bytes_of "i1ee") (bytes_of "i2e")
           (open_state step_sl [parseListValue] 1 0 []) scanBeginList);
    [|reflexivity|reflexivity|cbn; lia|reflexivity].
  apply (bv_list (vs := bytes_of "i1e")).
  rewrite <- (app_nil_r (bytes_of "i1e")).
  apply bvs_cons; [apply (bv_integer (bytes_of "1")); reflexivity|apply bvs_nil].
Defined.

(** The list [li1ee] decoded into an [int] leaves the [int] as it is; the
    empty list decoded into a [**int] that holds a nil [*int] allocates the
    [int] before it is refused. *)
Lemma Unmarshal_composite_mismatch_witness :
  (@Unmarshal stdExternals (bytes_of "li1ee")
     (Some (VPtr (TBasic reflect.Int) (Some (VInt reflect.Int 7)))) =
     Ok (Some (VPtr (TBasic reflect.Int) (Some (VInt reflect.Int 7))),
         Some (UnmarshalTypeError "list" (TBasic reflect.Int) 1 "" ""))) /\
  (@Unmarshal stdExternals (bytes_of "le")
     (Some (VPtr (TPtr (TBasic reflect.Int)) (Some (VPtr (TBasic reflect.Int) None)))) =
     Ok (Some (VPtr (TPtr (TBasic reflect.Int))
                 (Some (VPtr (TBasic reflect.Int) (Some (VInt reflect.Int 0))))),
         Some (UnmarshalTypeError "list" (TBasic reflect.Int) 1 "" ""))).
Proof.
  split.
  - refine (proj2 (@Unmarshal_composite_mismatch stdExternals "l"%byte (bytes_of "i1ee") []
                     (TBasic reflect.Int) (VInt reflect.Int 7) scanBeginList "list"
                     _ _ _ _) _);
      try reflexivity; [|left; repeat split].
    apply (bv_list (vs := bytes_of "i1e")).
    rewrite <- (app_nil_r (bytes_of "i1e")).
    apply bvs_cons; [apply (bv_integer (bytes_of "1")); reflexivity|apply bvs_nil].
  - refine (proj1 (@Unmarshal_composite_mismatch stdExternals "l"%byte (bytes_of "e") []
                     (TPtr (TBasic reflect.Int)) (VPtr (TBasic reflect.Int) None)
                     scanBeginList "list" _ _ _ _));
      try reflexivity; [|left; repeat split].
    exact (bv_list bvs_nil).
Defined.

(** The empty list decoded into an [interface{}]. *)
Lemma Unmarshal_list_into_interface_witness :
  @Unmarshal stdExternals (bytes_of "le") (Some (VPtr (TInterface 0) (Some (VIface 0 None)))) =
    Panic "interface".
Proof.
  exact (@Unmarshal_list_into_interface stdExternals (bytes_of "e") [] (TInterface 0)
           (VIface 0 None) 0%nat None (bv_list bvs_nil) eq_refl eq_refl).
Defined.

(** [i-128e] fits an [int8] and [i128e] does not. *)
Lemma Unmarshal_integer_witness :
  @Unmarshal stdExternals (bytes_of "i-128e")
    (Some (VPtr (TBasic reflect.Int8) (Some (VInt reflect.Int8 0)))) =
    Ok (Some (VPtr (TBasic reflect.Int8) (Some (VInt reflect.Int8 (-128)))), None) /\
  @Unmarshal stdExternals (bytes_of "i128e")
    (Some (VPtr (TBasic reflect.Int8) (Some (VInt reflect.Int8 0)))) =
    Ok (Some (VPtr (TBasic reflect.Int8) (Some (VInt reflect.Int8 0))),
        Some (UnmarshalTypeError "number 128" (TBasic reflect.Int8) 4 "" "")).
Proof.
  split.
  - exact (@Unmarshal_integer stdExternals (bytes_of "-128") [] reflect.Int8 0
             eq_refl eq_refl eq_refl).
  - exact (@Unmarshal_integer stdExternals (bytes_of "128") [] reflect.Int8 0
             eq_refl eq_refl eq_refl).
Defined.

(** [i7e] is stored into a [uint16] and refused by a [uint32]. *)
Lemma Unmarshal_integer_unsigned_witness :
  @Unmarshal stdExternals (bytes_of "i7e")
    (Some (VPtr (TBasic reflect.Uint16) (Some (VUint reflect.Uint16 0)))) =
    Ok (Some (VPtr (TBasic reflect.Uint16) (Some (VUint reflect.Uint16 7))), None) /\
  @Unmarshal stdExternals (bytes_of "i7e")
    (Some (VPtr (TBasic reflect.Uint32) (Some (VUint reflect.Uint32 0)))) =
    Ok (Some (VPtr (TBasic reflect.Uint32) (Some (VUint reflect.Uint32 0))),
        Some (UnmarshalTypeError "number" (TBasic reflect.Uint32) 2 "" "")).
Proof.
  split.
  - exact (@Unmarshal_integer_unsigned stdExternals (bytes_of "7") [] reflect.Uint16 0
             eq_refl eq_refl eq_refl).
  - exact (@Unmarshal_integer_unsigned stdExternals (bytes_of "7") [] reflect.Uint32 0
             eq_refl eq_refl eq_refl).
Defined.

(** [5:hello] followed by [i1e], and the empty string. *)
Lemma Unmarshal_string_into_string_witness :
  @Unmarshal stdExternals (bytes_of "5:helloi1e")
    (Some (VPtr (TBasic reflect.String) (Some (VString [])))) =
    Ok (Some (VPtr (TBasic reflect.String) (Some (VString (bytes_of "hello")))), None) /\
  @Unmarshal stdExternals (bytes_of "0:")
    (Some (VPtr (TBasic reflect.String) (Some (VString (bytes_of "old"))))) =
    Ok (Some (VPtr (TBasic reflect.String) (Some (VString (bytes_of ":")))), None).
Proof.
  split.
  - exact (@Unmarshal_string_into_string stdExternals (bytes_of "5") (bytes_of "hello")
             (bytes_of "i1e") [] eq_refl eq_refl eq_refl).
  - exact (@Unmarshal_string_into_string stdExternals (bytes_of "0") [] []
             (bytes_of "old") eq_refl eq_refl eq_refl).
Defined.

(** The in-memory source delivers the bytes it holds. *)
Lemma bytesReader_delivers : delivers bytesReader_Read eq.
Proof.
  intros r c room <- Hroom. destruct r as [|x r].
  - exists []. split; reflexivity.
  - exists (firstn room (x :: r)), (skipn room (x :: r)), (skipn room (x :: r)).
    split; [reflexivity|]. split; [symmetry; apply firstn_skipn|].
    split; [destruct room; [lia|discriminate]|].
    split; [apply firstn_le_length|reflexivity].
Defined.

(** A new decoder on the stream [i1ei2e] decodes [i1e]. *)
Lemma Decode_stream_witness :
  let dest := Some (VPtr (TBasic reflect.Int) (Some (VInt reflect.Int 0))) in
  exists dec1 c1,
    Decode bytesReader_Read 4 (NewDecoder (bytes_of "i1ei2e")) dest =
      ('(d, x, e) <- unmarshal (fuel_for (bytes_of "i1e"))
                       (init zero_decodeState (bytes_of "i1e")) dest;;
       Ok (with_d dec1 d, x, e)) /\
    forall d,
      ready (with_d dec1 d) /\ dec_r (with_d dec1 d) = c1 /\
      unread (with_d dec1 d) ++ c1 = bytes_of "i2e" /\
      bytes (dec_scan (with_d dec1 d)) = count_bytes 3 0.
Proof.
  intros dest.
  apply (@Decode_stream stdExternals (list byte) bytesReader_Read eq bytesReader_delivers
           4 (NewDecoder (bytes_of "i1ei2e")) (bytes_of "i1ei2e") (bytes_of "i1e")
           (bytes_of "i2e") dest).
  - repeat split; cbn; lia.
  - reflexivity.
  - reflexivity.
  - apply (bv_integer (bytes_of "1")). reflexivity.
  - cbn. lia.
Defined.

(** At the end of a stream a new decoder reports [io.EOF], and a decoder
    that has decoded [i1e] reports [io.ErrUnexpectedEOF]. *)
Lemma Decode_end_of_stream_witness :
  let dest := Some (VPtr (TBasic reflect.Int) (Some (VInt reflect.Int 0))) in
  (exists dec1,
     Decode bytesReader_Read 2 (NewDecoder []) dest = Ok (dec1, dest, Some io_EOF) /\
     dec_err dec1 = None) /\
  (exists dec1,
     Decode bytesReader_Read 2
       (mkDecoder (@nil byte) (bytes_of "i1e") 512 zero_decodeState 3 0 (closed_state [] 3)
          None 0 []) dest =
       Ok (dec1, dest, Some io_ErrUnexpectedEOF) /\
     dec_err dec1 = Some io_ErrUnexpectedEOF).
Proof.
  intros dest. split.
  - apply (@Decode_end_of_stream stdExternals (list byte) bytesReader_Read eq
             bytesReader_delivers 0 (NewDecoder []) (TBasic reflect.Int)
             (VInt reflect.Int 0)).
    + repeat split; cbn; lia.
    + reflexivity.
    + reflexivity.
    + reflexivity.
  - apply (@Decode_end_of_stream stdExternals (list byte) bytesReader_Read eq
             bytesReader_delivers 0
             (mkDecoder (@nil byte) (bytes_of "i1e") 512 zero_decodeState 3 0
                (closed_state [] 3) None 0 [])
             (TBasic reflect.Int) (VInt reflect.Int 0)).
    + repeat split; cbn; lia.
    + reflexivity.
    + reflexivity.
    + cbn. discriminate.
Defined.

(** The fields of the struct [T] above are in the order of their index
    paths. *)
Lemma typeFields_index_order_witness :
  well_kinded shadow_T = true /\
  exists out,
    @typeFields stdExternals shadow_T = Ok out /\
    StronglySorted (fun f g => index_less (index g) (index f) = false) out.
Proof.
  split; [reflexivity|].
  apply (@typeFields_index_order stdExternals "T"). reflexivity.
Defined.

(** The dictionary [d3:foo3:bar0:1:xe] into a nil map. *)
Lemma Unmarshal_dictionary_of_strings_witness :
  @Unmarshal stdExternals (bytes_of "d3:foo3:bar0:1:xe")
    (Some (VPtr (TMap strings strings) (Some (VMap strings strings None)))) =
  Ok (Some (VPtr (TMap strings strings)
              (Some (VMap strings strings
                       (Some [(bytes_of "foo", VString (bytes_of "bar"));
                              (bytes_of ":", VString (bytes_of "x"))])))),
      None).
Proof.
  apply (@Unmarshal_dictionary_of_strings stdExternals
           [(bytes_of "3", bytes_of "foo", bytes_of "3", bytes_of "bar");
            (bytes_of "0", [], bytes_of "1", bytes_of "x")] [] None).
  - repeat constructor.
  - reflexivity.
Defined.


(** [d3:Foo5:hello3:baz1:x3:bar2:hie] into a [Pair]: [Foo] is named byte
    for byte, [baz] names no field, and [bar] names [Bar] under folding. *)
Lemma Unmarshal_struct_of_strings_witness :
  @Unmarshal stdExternals (bytes_of "d3:Foo5:hello3:baz1:x3:bar2:hie")
    (Some (VPtr (TStruct "Pair" pair_fields)
             (Some (VStruct "Pair" pair_fields [VString []; VString (bytes_of "old")])))) =
  Ok (Some (VPtr (TStruct "Pair" pair_fields)
              (Some (VStruct "Pair" pair_fields
                       [VString (bytes_of "hello"); VString (bytes_of "hi")]))),
      None).
Proof.
  refine (eq_trans
            (@Unmarshal_struct_of_strings stdExternals
               [(bytes_of "3", bytes_of "Foo", bytes_of "5", bytes_of "hello");
                (bytes_of "3", bytes_of "baz", bytes_of "1", bytes_of "x");
                (bytes_of "3", bytes_of "bar", bytes_of "2", bytes_of "hi")]
               [] "Pair" pair_fields [VString []; VString (bytes_of "old")] _ _ _ _ _) _).
  - repeat constructor.
  - vm_compute. reflexivity.
  - repeat constructor; cbn; try (split; [reflexivity|]); try (eexists; repeat split; cbn; lia).
  - reflexivity.
  - vm_compute. reflexivity.
Defined.

(** [li1ei-2ei3ee] into an empty [[]int8]. *)
Lemma Unmarshal_list_of_integers_witness :
  exists arr',
    @Unmarshal stdExternals (bytes_of "li1ei-2ei3ee")
      (Some (VPtr (TSlice (TBasic reflect.Int8)) (Some (VSlice (TBasic reflect.Int8) 0 [])))) =
      Ok (Some (VPtr (TSlice (TBasic reflect.Int8))
                  (Some (VSlice (TBasic reflect.Int8) 3 arr'))),
          None) /\
    firstn 3 arr' = map (VInt reflect.Int8) [1; -2; 3].
Proof.
  apply (@Unmarshal_list_of_integers stdExternals
           [bytes_of "1"; bytes_of "-2"; bytes_of "3"] [1; -2; 3] [] reflect.Int8 0 []).
  - reflexivity.
  - repeat constructor.
  - apply Nat.le_refl.
  - constructor.
  - reflexivity.
Defined.
